(** * containerd: metadata store, snapshot lineage and garbage collection

    A shallow embedding of the parts of the repository that its
    specification talks about:

    - [Effects]: a small free monad used to record the calls a Go function
      makes to the interfaces it is handed (a content manager, an image
      store, a GC scheduler);
    - [ImagesService]: [local.Delete] of the images service;
    - [Handlers]: [SetChildrenMappedLabels] of [core/images/handlers.go];
    - [Binary]: the varints of Go's [encoding/binary];
    - [Storage]: the snapshot lineage store, [core/snapshots/storage];
    - [Mark] and [GC]: marking, and the collector of the metadata store;
    - [Containers]: field-path updates of the container store;
    - [Migrations]: the migration runner of the metadata database;
    - [Lineage] and [Encoding]: the rest of the lineage store, its
      invariants and the bytes it writes;
    - [HandlerChain] and [LabelFailures]: [Handlers], [Walk],
      [WalkNotEmpty] and [FilterPlatforms], and the failures of
      [SetChildrenMappedLabels];
    - [ImagesLocal]: [local.Create] and [local.Update] of the images
      service;
    - [TmpSnapshotter]: the in-memory snapshotter of the metadata tests.

    Go values are modelled as follows: [string] is a Rocq [string], a
    [map[string]T] is a [gmap string T], a slice is a [list], an [error]
    result is an [option] of an abstract error type ([None] is Go's [nil]),
    unsigned machine integers are [N] with their wrap-around written out. *)

From Stdlib Require Import NArith ZArith Lia Ascii String.
From stdpp Require Import gmap strings list fin_maps pretty sorting.

Local Open Scope string_scope.
Local Open Scope list_scope.
Local Open Scope stdpp_scope.

(** ** Calls to collaborators *)

Module Effects.

(** A program that returns an [R] after a finite number of calls drawn
    from the signature [E]; [E X] is a call whose answer has type [X]. *)
Inductive Prog (E : Type -> Type) (R : Type) : Type :=
| Ret (r : R)
| Vis (X : Type) (e : E X) (k : X -> Prog E R).

Arguments Ret {E R} r.
Arguments Vis {E R X} e k.

Fixpoint bind {E A B} (p : Prog E A) (f : A -> Prog E B) : Prog E B :=
  match p with
  | Ret a => f a
  | Vis e k => Vis e (fun x => bind (k x) f)
  end.

Definition call {E X} (e : E X) : Prog E X := Vis e Ret.

#[export] Instance prog_ret {E} : MRet (Prog E) := fun _ r => Ret r.
#[export] Instance prog_bind {E} : MBind (Prog E) := fun _ _ f p => bind p f.

(** A recorded call, with the type of its answer forgotten. *)
Definition event (E : Type -> Type) : Type := { X : Type & E X }.

Definition ev {E X} (e : E X) : event E := existT X e.

(** The collaborators are a deterministic world [W]: every call is
    answered from the current world and moves it. *)
Definition world (E : Type -> Type) (W : Type) : Type :=
  forall X, E X -> W -> X * W.

(** [run h w p] executes [p] against the world, returning the result,
    the calls made in order, and the final world. *)
Fixpoint run {E R W} (h : world E W) (w : W) (p : Prog E R)
  : R * list (event E) * W :=
  match p with
  | Ret r => (r, [], w)
  | Vis e k =>
      let '(x, w1) := h _ e w in
      let '(r, tr, w2) := run h w1 (k x) in
      (r, ev e :: tr, w2)
  end.

Definition result {E R W} (h : world E W) (w : W) (p : Prog E R) : R :=
  (run h w p).1.1.

Definition trace {E R W} (h : world E W) (w : W) (p : Prog E R)
  : list (event E) :=
  (run h w p).1.2.

End Effects.

(** ** OCI descriptors

    [ocispec.Descriptor] and its protobuf twin [types.Descriptor]; only
    the fields the modelled code reads or copies. *)

Record Descriptor := mkDescriptor {
  MediaType : string;
  Digest : string;
  Size : Z;
  Annotations : gmap string string;
}.

Record ProtoDescriptor := mkProtoDescriptor {
  pMediaType : string;
  pDigest : string;
  pSize : Z;
  pAnnotations : gmap string string;
}.

(** [oci.DescriptorFromProto]. *)
Definition DescriptorFromProto (d : ProtoDescriptor) : Descriptor :=
  {| MediaType := pMediaType d;
     Digest := pDigest d;
     Size := pSize d;
     Annotations := pAnnotations d |}.

(** ** The images service: [local.Delete] *)

Module ImagesService.
Import Effects.

Section Local.
(** Go's [error] values and [gc.Stats] are opaque to this function. *)
Variable error : Type.
Variable Stats : Type.
(** [errgrpc.ToGRPC], from the errdefs library. *)
Variable ToGRPC : error -> error.

(** [images.DeleteOpt]; the only option built here is [DeleteTarget]. *)
Inductive DeleteOpt :=
| DeleteTarget (desc : Descriptor).

Record DeleteImageRequest := mkDeleteImageRequest {
  Name : string;
  Sync : bool;
  Target : option ProtoDescriptor;
}.

(** [&ptypes.Empty{}]. *)
Inductive Empty := empty.

(** The two collaborators held by [local]: [l.store] and [l.gc]. *)
Inductive localE : Type -> Type :=
| StoreDelete (name : string) (opts : list DeleteOpt) : localE (option error)
| ScheduleAndWait : localE (Stats * option error).

(** The options [Delete] hands to the store: [DeleteTarget] of the
    converted descriptor when the request names a target, none otherwise. *)
Definition delete_opts (req : DeleteImageRequest) : list DeleteOpt :=
  match Target req with
  | Some t => [] ++ [DeleteTarget (DescriptorFromProto t)]
  | None => []
  end.

(** [local.Delete(ctx, req)], returning a pointer to [ptypes.Empty] and an
    error.  The debug log line has no effect on the result and is left
    out. *)
Definition Delete (req : DeleteImageRequest)
  : Prog localE (option Empty * option error) :=
  err ← call (StoreDelete (Name req) (delete_opts req));
  match err with
  | Some err => Ret (None, Some (ToGRPC err))
  | None =>
      if Sync req then
        r ← call ScheduleAndWait;
        match r.2 with
        | Some err => Ret (None, Some err)
        | None => Ret (Some empty, None)
        end
      else Ret (Some empty, None)
  end.

Definition is_gc_call (e : event localE) : bool :=
  match projT2 e with
  | ScheduleAndWait => true
  | StoreDelete _ _ => false
  end.

(** Number of GC cycles requested during a run. *)
Definition gc_calls (tr : list (event localE)) : nat :=
  length (List.filter is_gc_call tr).

(** *** What a run of [Delete] does *)

Variable W : Type.
Variable h : world localE W.

(** C9. [Delete] first asks the store to delete the image.  If that fails
    the (gRPC form of the) store's error is returned and no GC cycle is
    requested.  [ScheduleAndWait] is called exactly when the store delete
    succeeded and the request has [Sync] set, it is called once, and its
    error, if any, is what the caller gets. *)
Theorem Delete_sync_gc (req : DeleteImageRequest) (w : W) :
  let tr := trace h w (Delete req) in
  let res := result h w (Delete req) in
  let d := h _ (StoreDelete (Name req) (delete_opts req)) w in
  head tr = Some (ev (StoreDelete (Name req) (delete_opts req))) /\
  (forall e, d.1 = Some e ->
     res = (None, Some (ToGRPC e)) /\ gc_calls tr = 0%nat) /\
  (gc_calls tr = 1%nat <-> (d.1 = None /\ Sync req = true)) /\
  (gc_calls tr = 0%nat <-> ~ (d.1 = None /\ Sync req = true)) /\
  (d.1 = None -> Sync req = true ->
     forall e, (h _ ScheduleAndWait d.2).1.2 = Some e ->
     res = (None, Some e)) /\
  (d.1 = None -> Sync req = true ->
     (h _ ScheduleAndWait d.2).1.2 = None -> res = (Some empty, None)) /\
  (d.1 = None -> Sync req = false -> res = (Some empty, None)).
Proof.
  unfold result, trace, Delete; cbn.
  destruct (h _ (StoreDelete (Name req) (delete_opts req)) w) as [[e|] w1];
    cbn.
  - intuition congruence.
  - destruct (Sync req); cbn.
    + destruct (h _ ScheduleAndWait w1) as [[st [e|]] w2]; cbn;
        intuition congruence.
    + intuition congruence.
Qed.

End Local.
End ImagesService.

(** ** Image handlers: [SetChildrenLabels] and [SetChildrenMappedLabels] *)

Module Handlers.
Import Effects.

(** [content.Info] as this code builds it: [Digest] and [Labels] are set,
    the size and the timestamps stay at their zero values. *)
Record Info := mkInfo {
  InfoDigest : string;
  InfoLabels : gmap string string;
}.

(** The three variables of the labelling loop: [info.Labels], [fields]
    and the per-key counters [keys]. *)
Record acc := mkAcc {
  labels : gmap string string;
  fields : list string;
  keys : gmap string N;
}.

Definition acc0 : acc := {| labels := ∅; fields := []; keys := ∅ |}.

(** [key[len(key)-1] == '.']; indexing the empty string panics ([None]). *)
Fixpoint last_is_dot (key : string) : option bool :=
  match key with
  | EmptyString => None
  | String c EmptyString => Some (Ascii.eqb c "."%char)
  | String _ rest => last_is_dot rest
  end.

(** Folding a step that may panic over a slice. *)
Fixpoint fold_opt {A B} (f : A -> B -> option A) (a : A) (l : list B)
  : option A :=
  match l with
  | [] => Some a
  | b :: l => match f a b with
              | Some a' => fold_opt f a' l
              | None => None
              end
  end.

Section SetChildrenLabels.
Variable error : Type.
(** Width of Go's [uint] on the platform (32 or 64). *)
Variable uintSize : N.
(** [images.ChildGCLabels], the default label mapping (in mediatypes.go). *)
Variable ChildGCLabels : Descriptor -> list string.

(** The collaborators: the wrapped handler [f] and [manager.Update]. *)
Inductive handlerE : Type -> Type :=
| HandlerCall (desc : Descriptor)
    : handlerE (list Descriptor * option error)
| ManagerUpdate (info : Info) (fieldpaths : list string)
    : handlerE (Info * option error).

(** Body of the inner loop, for one [key] of one child [ch]. *)
Definition label_step (ch : Descriptor) (a : acc) (key : string)
  : option acc :=
  let idx := default 0%N (keys a !! key) in
  let keys' := <[key := ((idx + 1) mod 2 ^ uintSize)%N]> (keys a) in
  match (if (0 <? idx)%N then Some true else last_is_dot key) with
  | None => None
  | Some suffixed =>
      let key := if suffixed then key +:+ pretty idx else key in
      Some {| labels := <[key := Digest ch]> (labels a);
              fields := fields a ++ ["labels." +:+ key];
              keys := keys' |}
  end.

(** Body of the outer loop, for one child. *)
Definition label_child (labelMap : Descriptor -> list string)
    (a : acc) (ch : Descriptor) : option acc :=
  fold_opt (label_step ch) a (labelMap ch).

Definition label_children (labelMap : Descriptor -> list string)
    (children : list Descriptor) : option acc :=
  fold_opt (label_child labelMap) acc0 children.

(** What the returned handler does on [desc]: [None] is a panic,
    [Some (children, err)] a return. *)
Definition SetChildrenMappedLabels
    (labelMap : option (Descriptor -> list string)) (desc : Descriptor)
  : Prog handlerE (option (list Descriptor * option error)) :=
  let labelMap := default ChildGCLabels labelMap in
  r ← call (HandlerCall desc);
  let children := r.1 in
  match r.2 with
  | Some err => Ret (Some (children, Some err))
  | None =>
      if (0 <? length children)%nat then
        match label_children labelMap children with
        | None => Ret None
        | Some a =>
            u ← call (ManagerUpdate
                        {| InfoDigest := Digest desc;
                           InfoLabels := labels a |} (fields a));
            match u.2 with
            | Some err => Ret (Some ([], Some err))
            | None => Ret (Some (children, None))
            end
        end
      else Ret (Some (children, None))
  end.

Definition SetChildrenLabels (desc : Descriptor)
  : Prog handlerE (option (list Descriptor * option error)) :=
  SetChildrenMappedLabels None desc.

(** *** The labels as the documentation describes them *)

(** The label keys and digests of all children, in the order the loop
    meets them. *)
Definition child_labels (labelMap : Descriptor -> list string)
    (children : list Descriptor) : list (string * string) :=
  flat_map (fun ch => map (fun key => (key, Digest ch)) (labelMap ch))
           children.

(** Number of occurrences of [key] in [l]. *)
Definition occurrences (key : string) (l : list string) : N :=
  N.of_nat (length (List.filter (String.eqb key) l)).

Definition ends_with_dot (key : string) : bool :=
  match last_is_dot key with
  | Some b => b
  | None => false
  end.

(** The key a label is stored under when [key] was met [idx] times
    before: the index is appended when the key was already used or ends
    with a dot. *)
Definition indexed_key (key : string) (idx : N) : string :=
  if (0 <? idx)%N || ends_with_dot key then key +:+ pretty idx else key.

(** The stored key of every entry of [ks]: entry [j] gets the number of
    earlier entries with the same key as its index. *)
Definition stored_keys (ks : list string) : list string :=
  imap (fun j key => indexed_key key (occurrences key (take j ks))) ks.

(** *** The loop computes the documented labels *)

(** One iteration, on a key and the digest to store. *)
Definition label_entry (a : acc) (p : string * string) : option acc :=
  label_step (mkDescriptor EmptyString p.2 0 ∅) a p.1.

(** Entry-by-entry account of [stored_keys], given the keys already seen. *)
Fixpoint stored_from (seen ks : list string) : list string :=
  match ks with
  | [] => []
  | key :: ks =>
      indexed_key key (occurrences key seen) :: stored_from (seen ++ [key]) ks
  end.

Lemma fold_opt_app {A B} (f : A -> B -> option A) a l1 l2 :
  fold_opt f a (l1 ++ l2) =
  match fold_opt f a l1 with
  | Some a' => fold_opt f a' l2
  | None => None
  end.
Proof.
  revert a; induction l1 as [|b l1 IH]; intros a; cbn; [reflexivity|].
  destruct (f a b); [apply IH|reflexivity].
Qed.

Lemma label_child_entries labelMap a ch :
  label_child labelMap a ch =
  fold_opt label_entry a (map (fun key => (key, Digest ch)) (labelMap ch)).
Proof.
  unfold label_child. generalize (labelMap ch) as ks. intros ks; revert a.
  induction ks as [|k ks IH]; intros a; cbn; [reflexivity|].
  unfold label_entry at 1; cbn. unfold label_step at 1 3; cbn.
  destruct (if (0 <? _)%N then _ else _); [apply IH|reflexivity].
Qed.

Lemma label_children_entries labelMap children a :
  fold_opt (label_child labelMap) a children =
  fold_opt label_entry a (child_labels labelMap children).
Proof.
  revert a; induction children as [|ch chs IH]; intros a; cbn; [reflexivity|].
  rewrite fold_opt_app, <- label_child_entries.
  destruct (label_child labelMap a ch); [apply IH|reflexivity].
Qed.

Lemma occurrences_snoc key k seen :
  occurrences key (seen ++ [k]) =
  (occurrences key seen + if String.eqb key k then 1 else 0)%N.
Proof.
  unfold occurrences. rewrite List.filter_app, length_app; cbn.
  destruct (String.eqb key k); cbn; lia.
Qed.

Lemma occurrences_le key seen :
  (occurrences key seen <= N.of_nat (length seen))%N.
Proof.
  unfold occurrences. pose proof (List.filter_length_le (String.eqb key) seen).
  lia.
Qed.

Lemma last_is_dot_nonempty key :
  key <> EmptyString -> last_is_dot key = Some (ends_with_dot key).
Proof.
  unfold ends_with_dot. induction key as [|c [|c' key] IH]; cbn; try done.
  intros _. cbn in IH. apply IH. discriminate.
Qed.

(** The counters agree with the number of occurrences met so far. *)
Definition counted (seen : list string) (a : acc) : Prop :=
  forall key, default 0%N (keys a !! key) = occurrences key seen.

Lemma label_entry_counted seen a key dg :
  counted seen a ->
  key <> EmptyString ->
  (N.of_nat (length seen) + 1 < 2 ^ uintSize)%N ->
  exists a',
    label_entry a (key, dg) = Some a' /\
    labels a' = <[indexed_key key (occurrences key seen) := dg]> (labels a) /\
    fields a' =
      fields a ++ ["labels." +:+ indexed_key key (occurrences key seen)] /\
    counted (seen ++ [key]) a'.
Proof.
  intros Hc Hne Hlen.
  unfold label_entry, label_step; cbn.
  rewrite (Hc key). unfold indexed_key.
  rewrite (last_is_dot_nonempty key Hne).
  assert (Hcnt : forall a',
    keys a' =
      <[key := ((occurrences key seen + 1) mod 2 ^ uintSize)%N]> (keys a) ->
    counted (seen ++ [key]) a').
  { intros a' Hk k. rewrite Hk, occurrences_snoc.
    pose proof (occurrences_le key seen).
    destruct (String.eqb_spec k key) as [->|Hk'].
    - rewrite lookup_insert_eq; cbv [default id]. rewrite N.mod_small; lia.
    - rewrite lookup_insert_ne by congruence. rewrite (Hc k). lia. }
  destruct (0 <? occurrences key seen)%N; cbn;
    [|destruct (ends_with_dot key)]; eexists; (split; [reflexivity|]); cbn;
    (split; [reflexivity|]); (split; [reflexivity|]);
    apply Hcnt; reflexivity.
Qed.

Lemma entries_counted seen a ps :
  counted seen a ->
  Forall (fun key => key <> EmptyString) ps.*1 ->
  (N.of_nat (length seen + length ps) < 2 ^ uintSize)%N ->
  exists a',
    fold_opt label_entry a ps = Some a' /\
    labels a' =
      foldl (fun m p => <[p.1 := p.2]> m) (labels a)
            (zip (stored_from seen ps.*1) ps.*2) /\
    fields a' =
      fields a ++ map (fun key => "labels." +:+ key) (stored_from seen ps.*1).
Proof.
  revert seen a; induction ps as [|[key dg] ps IH]; intros seen a Hc Hne Hlen.
  - exists a; cbn. rewrite app_nil_r. done.
  - cbn in *. apply Forall_cons in Hne as [Hk Hne].
    destruct (label_entry_counted seen a key dg Hc Hk) as (a1 & E & Hl & Hf & Hc1);
      [lia|].
    rewrite E.
    destruct (IH (seen ++ [key]) a1 Hc1 Hne) as (a' & E' & Hl' & Hf').
    { rewrite length_app; cbn. lia. }
    exists a'. split; [exact E'|]. split.
    + rewrite Hl', Hl. reflexivity.
    + rewrite Hf', Hf, <- app_assoc. reflexivity.
Qed.

Lemma stored_keys_from seen ks :
  imap (fun j key => indexed_key key (occurrences key (seen ++ take j ks))) ks
  = stored_from seen ks.
Proof.
  revert seen; induction ks as [|k ks IH]; intros seen; cbn; [reflexivity|].
  rewrite app_nil_r. f_equal.
  rewrite <- IH. apply imap_ext. intros j x _. cbn.
  rewrite <- app_assoc. reflexivity.
Qed.

Lemma foldl_insert_list_to_map (l : list (string * string)) :
  foldl (fun m p => <[p.1 := p.2]> m) (∅ : gmap string string) l =
  list_to_map (reverse l).
Proof.
  rewrite <- (reverse_involutive l) at 1.
  generalize (reverse l) as r. intros r.
  induction r as [|p r IH]; [reflexivity|].
  rewrite reverse_cons, foldl_app; cbn. rewrite IH. reflexivity.
Qed.

(** The loop never panics on non-empty keys, and leaves the labels and
    field paths the documentation describes. *)
Lemma label_children_stored labelMap children :
  let ps := child_labels labelMap children in
  Forall (fun key => key <> EmptyString) ps.*1 ->
  (N.of_nat (length ps) < 2 ^ uintSize)%N ->
  exists a,
    label_children labelMap children = Some a /\
    labels a = list_to_map (reverse (zip (stored_keys ps.*1) ps.*2)) /\
    fields a = map (fun key => "labels." +:+ key) (stored_keys ps.*1).
Proof.
  intros ps Hne Hlen. unfold label_children.
  rewrite label_children_entries. fold ps.
  destruct (entries_counted [] acc0 ps) as (a & E & Hl & Hf); try done.
  exists a. split; [exact E|].
  assert (Hs : stored_keys ps.*1 = stored_from [] ps.*1)
    by exact (stored_keys_from [] ps.*1).
  rewrite Hs, Hl, Hf. cbn. split; [apply foldl_insert_list_to_map|reflexivity].
Qed.

Lemma occurrences_pos key l :
  (0 <? occurrences key l)%N = true <-> key ∈ l.
Proof.
  unfold occurrences. rewrite N.ltb_lt.
  induction l as [|k l IH]; cbn.
  - split; [lia|]. intros H; inversion H.
  - rewrite elem_of_cons. destruct (String.eqb_spec key k) as [->|Hk]; cbn.
    + split; [auto|lia].
    + rewrite IH. split; [auto|]. intros [?|?]; [congruence|done].
Qed.

Section Run.
Variable W : Type.
Variable h : world handlerE W.

(** C8.  When the wrapped handler returns children without an error,
    [SetChildrenLabels] issues exactly one [Update], on the digest of the
    descriptor, and only when there is at least one child.  Its field
    paths are ["labels." ++ key] for the stored key of every child label
    in order, where the stored key is the label key with the number of
    its earlier occurrences appended exactly when the key occurred before
    or ends with a dot.  Its label map sends every stored key to the
    digest of the child it was produced for (the last one, should two
    stored keys coincide).  The children are passed through unless the
    update fails. *)
Theorem SetChildrenLabels_update (w : W) (desc : Descriptor)
    (children : list Descriptor) :
  let ps := child_labels ChildGCLabels children in
  let ks := stored_keys ps.*1 in
  let info := {| InfoDigest := Digest desc;
                 InfoLabels := list_to_map (reverse (zip ks ps.*2)) |} in
  let upd := ManagerUpdate info (map (fun key => "labels." +:+ key) ks) in
  let w1 := (h _ (HandlerCall desc) w).2 in
  (h _ (HandlerCall desc) w).1 = (children, None) ->
  Forall (fun key => key <> EmptyString) ps.*1 ->
  (N.of_nat (length ps) < 2 ^ uintSize)%N ->
  (children <> [] ->
     trace h w (SetChildrenLabels desc) = [ev (HandlerCall desc); ev upd] /\
     result h w (SetChildrenLabels desc) =
       match (h _ upd w1).1.2 with
       | Some err => Some ([], Some err)
       | None => Some (children, None)
       end) /\
  (children = [] ->
     trace h w (SetChildrenLabels desc) = [ev (HandlerCall desc)] /\
     result h w (SetChildrenLabels desc) = Some ([], None)) /\
  (forall j key, ps.*1 !! j = Some key ->
     ks !! j =
       Some (if decide (key ∈ take j ps.*1 \/ ends_with_dot key = true)
             then key +:+ pretty (occurrences key (take j ps.*1))
             else key)) /\
  (NoDup ks ->
     forall j key dg, ks !! j = Some key -> ps.*2 !! j = Some dg ->
     InfoLabels info !! key = Some dg).
Proof.
  intros ps ks info upd w1 Hh Hne Hlen.
  destruct (label_children_stored ChildGCLabels children Hne Hlen)
    as (a & Ea & Hl & Hf).
  fold ps in Hl, Hf. fold ks in Hl, Hf.
  unfold trace, result, SetChildrenLabels, SetChildrenMappedLabels.
  cbn [default mbind prog_bind bind call run].
  subst w1. destruct (h _ (HandlerCall desc) w) as [r w1].
  cbn [fst snd] in *. subst r. cbn [fst snd].
  repeat split.
  - destruct children as [|ch chs]; [done|]. cbn [length Nat.ltb Nat.leb].
    rewrite Ea. cbn [bind run]. rewrite Hl, Hf. fold info. fold upd.
    destruct (h _ upd w1) as [[i [e|]] w2]; reflexivity.
  - destruct children as [|ch chs]; [done|]. cbn [length Nat.ltb Nat.leb].
    rewrite Ea. cbn [bind run]. rewrite Hl, Hf. fold info. fold upd.
    destruct (h _ upd w1) as [[i [e|]] w2]; reflexivity.
  - subst children. reflexivity.
  - subst children. reflexivity.
  - intros j key Hj. unfold ks, stored_keys.
    rewrite list_lookup_imap, Hj. cbn. f_equal. unfold indexed_key.
    destruct (0 <? occurrences key (take j ps.*1))%N eqn:E; cbn.
    + apply occurrences_pos in E. rewrite decide_True by auto. reflexivity.
    + destruct (ends_with_dot key) eqn:D.
      * rewrite decide_True by auto. reflexivity.
      * rewrite decide_False; [reflexivity|]. intros [Hin|?]; [|done].
        apply occurrences_pos in Hin. congruence.
  - intros Hnd j key dg Hk Hd. cbn.
    apply elem_of_list_to_map.
    + rewrite fmap_reverse, reverse_Permutation.
      rewrite fst_zip; [exact Hnd|].
      unfold ks, stored_keys. rewrite length_imap, !length_fmap. lia.
    + rewrite elem_of_reverse. apply list_elem_of_lookup. exists j.
      apply lookup_zip_Some; done.
Qed.

End Run.
End SetChildrenLabels.

(** *** A concrete run: a manifest with a config and two layers *)

Definition example_label_map (d : Descriptor) : list string :=
  if String.eqb (MediaType d) "config"
  then ["containerd.io/gc.ref.content.config"]
  else ["containerd.io/gc.ref.content.l."].

Definition example_manifest : Descriptor :=
  mkDescriptor "manifest" "sha256:m" 3 ∅.

Definition example_children : list Descriptor :=
  [ mkDescriptor "config" "sha256:c" 1 ∅;
    mkDescriptor "layer" "sha256:l0" 2 ∅;
    mkDescriptor "layer" "sha256:l1" 2 ∅ ].

(** A world in which the wrapped handler returns [example_children] and
    every update succeeds. *)
Definition example_world : world (handlerE string) unit :=
  fun X e w =>
    match e in handlerE _ X return X * unit with
    | HandlerCall _ _ => ((example_children, None), w)
    | ManagerUpdate _ info _ => ((info, None), w)
    end.

Lemma SetChildrenLabels_update_witness :
  trace example_world tt
    (SetChildrenLabels string 64 example_label_map example_manifest) =
  [ ev (HandlerCall string example_manifest);
    ev (ManagerUpdate string
          {| InfoDigest := "sha256:m";
             InfoLabels :=
               list_to_map
                 [ ("containerd.io/gc.ref.content.l.1", "sha256:l1");
                   ("containerd.io/gc.ref.content.l.0", "sha256:l0");
                   ("containerd.io/gc.ref.content.config", "sha256:c") ] |}
          [ "labels.containerd.io/gc.ref.content.config";
            "labels.containerd.io/gc.ref.content.l.0";
            "labels.containerd.io/gc.ref.content.l.1" ]) ].
Proof.
  refine (proj1 (proj1 (SetChildrenLabels_update string 64 example_label_map
                   unit example_world tt example_manifest example_children
                   _ _ _) _)).
  - reflexivity.
  - repeat constructor; discriminate.
  - reflexivity.
  - discriminate.
Defined.

End Handlers.

(** ** Go's [encoding/binary] varints, as the snapshot store uses them

    Bytes are numbers below 256; a byte slice is a list of them. *)

Module Binary.
Local Open Scope N_scope.

Definition bytes := list N.

(** The loop of [binary.PutUvarint]: seven bits at a time, low bits
    first, the top bit of a byte set when more bytes follow.  A [uint64]
    leaves the loop after at most nine rounds. *)
Fixpoint put_loop (fuel : nat) (x : N) : bytes :=
  match fuel with
  | O => [x mod 256]
  | S fuel =>
      if 128 <=? x
      then N.lor (x mod 256) 128 :: put_loop fuel (N.shiftr x 7)
      else [x mod 256]
  end.

(** The bytes [binary.PutUvarint] writes for [x]. *)
Definition uvarint (x : N) : bytes := put_loop 9 x.

(** [binary.PutUvarint(buf, x)] on a buffer of [cap] bytes: the bytes
    written, or [None] when writing runs past the buffer (a panic). *)
Definition PutUvarint (cap : nat) (x : N) : option bytes :=
  let e := uvarint x in
  if (length e <=? cap)%nat then Some e else None.

Definition MaxVarintLen64 : nat := 10.

(** The loop of [binary.Uvarint]: [i] is the index of the next byte,
    [x] the value so far and [s] the shift. *)
Fixpoint uvarint_loop (buf : bytes) (i : nat) (x s : N) : N * Z :=
  match buf with
  | [] => (0, 0%Z)
  | b :: buf =>
      if (i =? MaxVarintLen64)%nat then (0, (- (Z.of_nat i + 1))%Z)
      else if b <? 128 then
        if (i =? MaxVarintLen64 - 1)%nat && (1 <? b)
        then (0, (- (Z.of_nat i + 1))%Z)
        else (N.lor x (N.shiftl b s) mod 2 ^ 64, (Z.of_nat i + 1)%Z)
      else
        uvarint_loop buf (S i)
          (N.lor x (N.shiftl (N.land b 127) s) mod 2 ^ 64) (s + 7)
  end.

(** [binary.Uvarint(buf)]: the decoded value and the number of bytes
    read. *)
Definition Uvarint (buf : bytes) : N * Z := uvarint_loop buf 0 0 0.

(** [bytes.Compare(a, b) <= 0], the order of keys in a bucket. *)
Fixpoint bytes_le (a b : bytes) : bool :=
  match a, b with
  | [], _ => true
  | _ :: _, [] => false
  | x :: a, y :: b =>
      if x <? y then true else if x =? y then bytes_le a b else false
  end.

(** *** Decoding what was encoded *)

Lemma lor_shiftl_add acc b s :
  acc < 2 ^ s -> N.lor acc (N.shiftl b s) = acc + b * 2 ^ s.
Proof.
  intros Hacc.
  assert (Hland : N.land acc (N.shiftl b s) = 0).
  { apply N.bits_inj. intros n. rewrite N.land_spec, N.bits_0.
    destruct (N.lt_ge_cases n s) as [Hn|Hn].
    - rewrite (N.shiftl_spec_low b s n Hn). apply andb_false_r.
    - rewrite <- (N.mod_small acc (2 ^ s) Hacc).
      rewrite N.mod_pow2_bits_high by exact Hn. reflexivity. }
  rewrite <- N.lxor_lor by exact Hland.
  rewrite <- N.add_nocarry_lxor by exact Hland.
  rewrite N.shiftl_mul_pow2. reflexivity.
Qed.

Lemma byte_cont y :
  y < 256 -> N.lor y 128 = y mod 128 + 128 /\ N.land (N.lor y 128) 127 = y mod 128.
Proof.
  intros Hy.
  assert (H : forallb (fun y => (N.lor y 128 =? y mod 128 + 128) &&
                               (N.land (N.lor y 128) 127 =? y mod 128))
                      (List.map N.of_nat (seq 0 256)) = true) by (vm_compute; reflexivity).
  rewrite forallb_forall in H.
  specialize (H y). rewrite andb_true_iff, !N.eqb_eq in H. apply H.
  apply in_map_iff. exists (N.to_nat y). split; [lia|].
  apply in_seq. lia.
Qed.

Lemma uvarint_loop_put fuel : forall x i acc rest,
  acc < 2 ^ (7 * N.of_nat i) ->
  x < 2 ^ (7 * (N.of_nat fuel + 1)) ->
  x * 2 ^ (7 * N.of_nat i) + acc < 2 ^ 64 ->
  (i + fuel <= 9)%nat ->
  uvarint_loop (put_loop fuel x ++ rest) i acc (7 * N.of_nat i) =
  (x * 2 ^ (7 * N.of_nat i) + acc,
   Z.of_nat (i + length (put_loop fuel x))).
Proof.
  induction fuel as [|fuel IH]; intros x i acc rest Hacc Hx Hlt Hi.
  - cbn [put_loop app uvarint_loop length].
    change (2 ^ (7 * (N.of_nat 0 + 1))) with 128 in Hx.
    rewrite N.mod_small by lia.
    replace (i =? MaxVarintLen64)%nat with false
      by (symmetry; apply Nat.eqb_neq; unfold MaxVarintLen64; lia).
    replace (x <? 128) with true by (symmetry; apply N.ltb_lt; lia).
    assert (Hb : ((i =? MaxVarintLen64 - 1)%nat && (1 <? x)) = false).
    { destruct (Nat.eqb_spec i (MaxVarintLen64 - 1)) as [->|]; [|reflexivity].
      cbn. apply N.ltb_ge.
      assert (E63 : 2 ^ (7 * N.of_nat (MaxVarintLen64 - 1)) = 9223372036854775808)
        by reflexivity.
      assert (E64 : 2 ^ 64 = 18446744073709551616) by reflexivity.
      rewrite E63, E64 in Hlt. lia. }
    rewrite Hb. rewrite lor_shiftl_add by exact Hacc.
    rewrite N.mod_small by lia. f_equal; lia.
  - cbn [put_loop].
    destruct (N.leb_spec 128 x) as [Hge|Hlt128].
    + cbn [app uvarint_loop].
      replace (i =? MaxVarintLen64)%nat with false
        by (symmetry; apply Nat.eqb_neq; unfold MaxVarintLen64; lia).
      assert (H256 : x mod 256 < 256) by (apply N.mod_lt; lia).
      destruct (byte_cont (x mod 256) H256) as [Hlor Hland].
      replace (N.lor (x mod 256) 128 <? 128) with false
        by (symmetry; apply N.ltb_ge; rewrite Hlor; lia).
      rewrite Hland.
      assert (Hmm : (x mod 256) mod 128 = x mod 128).
      { change 256 with (128 * 2). rewrite N.Div0.mod_mul_r.
        rewrite N.mul_comm, N.Div0.mod_add. apply N.Div0.mod_mod. }
      rewrite Hmm.
      rewrite lor_shiftl_add by exact Hacc.
      assert (Hm : x mod 128 < 128) by (apply N.mod_lt; lia).
      assert (Hdm : x = 128 * (x / 128) + x mod 128) by (apply N.div_mod; lia).
      assert (Hp : 2 ^ (7 * N.of_nat (S i)) = 128 * 2 ^ (7 * N.of_nat i)).
      { replace (7 * N.of_nat (S i)) with (7 + 7 * N.of_nat i) by lia.
        rewrite N.pow_add_r. reflexivity. }
      assert (Hsmall : acc + x mod 128 * 2 ^ (7 * N.of_nat i) < 2 ^ 64) by nia.
      rewrite N.mod_small by exact Hsmall.
      replace (7 * N.of_nat i + 7) with (7 * N.of_nat (S i)) by lia.
      rewrite N.shiftr_div_pow2. change (2 ^ 7) with 128.
      rewrite IH.
      * cbn [length]. f_equal; [rewrite Hp; nia|lia].
      * rewrite Hp. nia.
      * replace (7 * (N.of_nat (S fuel) + 1)) with (7 + 7 * (N.of_nat fuel + 1)) in Hx by lia.
        rewrite N.pow_add_r in Hx. change (2 ^ 7) with 128 in Hx.
        apply N.Div0.div_lt_upper_bound. exact Hx.
      * rewrite Hp. nia.
      * lia.
    + cbn [app uvarint_loop length].
      rewrite N.mod_small by lia.
      replace (i =? MaxVarintLen64)%nat with false
        by (symmetry; apply Nat.eqb_neq; unfold MaxVarintLen64; lia).
      replace (x <? 128) with true by (symmetry; apply N.ltb_lt; lia).
      assert (Hb : ((i =? MaxVarintLen64 - 1)%nat && (1 <? x)) = false).
      { destruct (Nat.eqb_spec i (MaxVarintLen64 - 1)) as [->|]; [|reflexivity].
        unfold MaxVarintLen64 in Hi. lia. }
      rewrite Hb. rewrite lor_shiftl_add by exact Hacc.
      rewrite N.mod_small by lia. f_equal; lia.
Qed.

Lemma Uvarint_uvarint x rest :
  x < 2 ^ 64 ->
  Uvarint (uvarint x ++ rest) = (x, Z.of_nat (length (uvarint x))).
Proof.
  intros Hx. unfold Uvarint, uvarint.
  pose proof (uvarint_loop_put 9 x 0 0 rest) as H.
  change (7 * N.of_nat 0) with 0 in H. rewrite N.pow_0_r, N.mul_1_r, N.add_0_r in H.
  apply H; try lia;
    try (eapply N.lt_trans; [exact Hx|]; reflexivity).
Qed.

Lemma put_loop_length fuel : forall x k,
  x < 2 ^ (7 * N.of_nat (S k)) -> (length (put_loop fuel x) <= S k)%nat.
Proof.
  induction fuel as [|fuel IH]; intros x k Hx; cbn [put_loop]; [cbn; lia|].
  destruct (N.leb_spec 128 x) as [Hge|Hlt]; [|cbn; lia].
  cbn [length]. destruct k as [|k].
  - change (2 ^ (7 * N.of_nat 1)) with 128 in Hx. lia.
  - apply le_n_S, IH. rewrite N.shiftr_div_pow2. change (2 ^ 7) with 128.
    apply N.Div0.div_lt_upper_bound.
    replace (7 * N.of_nat (S (S k))) with (7 + 7 * N.of_nat (S k)) in Hx by lia.
    rewrite N.pow_add_r in Hx. exact Hx.
Qed.

Lemma uvarint_length_56 x : x < 2 ^ 56 -> (length (uvarint x) <= 8)%nat.
Proof. intros Hx. apply (put_loop_length 9 x 7). exact Hx. Qed.

Lemma uvarint_length_max x : (length (uvarint x) <= 10)%nat.
Proof.
  unfold uvarint. generalize 9%nat as fuel. intros fuel.
  assert (H : forall x, (length (put_loop fuel x) <= S fuel)%nat).
  { induction fuel as [|fuel IH]; intros y; cbn [put_loop]; [cbn; lia|].
    destruct (128 <=? y); cbn [length]; [|lia]. apply le_n_S, IH. }
  apply H.
Qed.

(** *** The order on keys *)

Lemma bytes_le_refl a : bytes_le a a = true.
Proof.
  induction a as [|x a IH]; cbn; [reflexivity|].
  rewrite N.ltb_irrefl, N.eqb_refl. exact IH.
Qed.

Lemma bytes_le_prefix p r : bytes_le p (p ++ r) = true.
Proof.
  induction p as [|x p IH]; cbn; [reflexivity|].
  rewrite N.ltb_irrefl, N.eqb_refl. exact IH.
Qed.

Lemma bytes_le_trans a : forall b c,
  bytes_le a b = true -> bytes_le b c = true -> bytes_le a c = true.
Proof.
  induction a as [|x a IH]; intros [|y b] [|z c]; cbn; try done.
  destruct (N.ltb_spec x y), (N.ltb_spec y z), (N.ltb_spec x z);
    try done; try lia;
    destruct (N.eqb_spec x y), (N.eqb_spec y z), (N.eqb_spec x z);
    try done; try lia.
  apply IH.
Qed.

Lemma bytes_le_total a : forall b,
  bytes_le a b = true \/ bytes_le b a = true.
Proof.
  induction a as [|x a IH]; intros [|y b]; cbn; auto.
  destruct (N.ltb_spec x y), (N.ltb_spec y x); auto; try lia.
  destruct (N.eqb_spec x y), (N.eqb_spec y x); auto; try lia.
Qed.

(** A key that lies between a prefix and one of its extensions extends
    the prefix too. *)
Lemma bytes_le_between p : forall k r,
  bytes_le p k = true -> bytes_le k (p ++ r) = true ->
  exists r', k = p ++ r'.
Proof.
  induction p as [|x p IH]; intros k r H1 H2; [exists k; reflexivity|].
  destruct k as [|y k]; [discriminate|]. cbn in H1, H2.
  assert (y = x) as ->.
  { destruct (N.ltb_spec x y), (N.ltb_spec y x),
      (N.eqb_spec x y), (N.eqb_spec y x); try done; lia. }
  rewrite N.ltb_irrefl, N.eqb_refl in H1, H2.
  destruct (IH k r H1 H2) as [r' ->]. exists r'. reflexivity.
Qed.

End Binary.

(** ** The snapshot lineage store ([core/snapshots/storage/bolt.go])

    The bolt buckets are modelled by what this package writes into them.
    A snapshot bucket is a record of its fields; the [snapshots] bucket
    maps keys to snapshot buckets and carries bolt's sequence counter; the
    [parents] bucket maps composite byte keys to snapshot keys.  Labels
    and timestamps are kept as values: [boltutil]'s encoding of them is
    not part of this package. *)

Module Storage.
Import Binary.
Local Open Scope N_scope.

(** [errdefs] classes of the errors returned; bolt's own errors that are
    passed through unclassified are [ErrBolt]. *)
Inductive errdef :=
| ErrNotFound
| ErrAlreadyExists
| ErrFailedPrecondition
| ErrInvalidArgument
| ErrNoTransaction
| ErrBolt (msg : string).

(** How a call ends: it returns a value, returns an error, panics, or
    (for the one unbounded loop of the package) does not return. *)
Inductive outcome (A : Type) : Type :=
| Ok (a : A)
| Fail (e : errdef)
| Panic
| Loops.
Arguments Ok {A} a.
Arguments Fail {A} e.
Arguments Panic {A}.
Arguments Loops {A}.

#[export] Instance outcome_ret : MRet outcome := fun _ a => Ok a.
#[export] Instance outcome_bind : MBind outcome := fun _ _ f m =>
  match m with
  | Ok a => f a
  | Fail e => Fail e
  | Panic => Panic
  | Loops => Loops
  end.

(** A step that panics when its result is [None]. *)
Definition or_panic {A} (o : option A) : outcome A :=
  match o with
  | Some a => Ok a
  | None => Panic
  end.

(** [snapshots.Kind]. *)
Inductive Kind := KindUnknown | KindView | KindActive | KindCommitted.

#[export] Instance Kind_eq_dec : EqDecision Kind.
Proof. solve_decision. Defined.

Definition Time := Z.

(** [snapshots.Info]. *)
Record Info := mkInfo {
  InfoKind : Kind;
  InfoName : string;
  InfoParent : string;
  InfoLabels : gmap string string;
  InfoCreated : Time;
  InfoUpdated : Time;
}.

Definition Info0 : Info :=
  {| InfoKind := KindUnknown; InfoName := EmptyString;
     InfoParent := EmptyString; InfoLabels := ∅;
     InfoCreated := 0%Z; InfoUpdated := 0%Z |}.

(** [snapshots.Usage]. *)
Record Usage := mkUsage { Inodes : Z; Size : Z }.

(** [snapshots.Opt]: a function that edits an [Info] or fails. *)
Definition Opt := Info -> outcome Info.

(** [storage.Snapshot]: what [CreateSnapshot] and [GetSnapshot] return. *)
Record Snapshot := mkSnapshot {
  SnapshotKind : Kind;
  SnapshotID : string;
  ParentIDs : list string;
}.

(** A snapshot bucket, as [putSnapshot] and [putUsage] fill it. *)
Record SnapshotBucket := mkSnapshotBucket {
  bID : N;
  bKind : Kind;
  bParent : string;
  bCreated : Time;
  bUpdated : Time;
  bLabels : gmap string string;
  bUsage : Usage;
}.

(** The [snapshots] bucket with its sequence counter. *)
Record SnapshotsBucket := mkSnapshotsBucket {
  entries : gmap string SnapshotBucket;
  sequence : N;
}.

(** The version bucket ["v1"] with its two sub-buckets, each of which may
    be missing. *)
Record V1 := mkV1 {
  snapshotsB : option SnapshotsBucket;
  parentsB : option (gmap bytes string);
}.

(** A bolt transaction: whether it is writable, and the root of the
    database as the transaction sees it. *)
Record Tx := mkTx {
  writable : bool;
  v1 : option V1;
}.

(** The context: [ctx.Value(transactionKey)] is a transaction or not. *)
Definition Context := option Tx.

(** *** Composite keys of the parent index *)

(** [parentKey(parent, child)], on its buffer of 17 bytes. *)
Definition parentKey (parent child : N) : option bytes :=
  pb ← PutUvarint 17 parent;
  cb ← PutUvarint (17 - (length pb + 1)) child;
  Some (pb ++ [0] ++ cb).

(** [parentPrefixKey(parent)], on its buffer of 9 bytes: slicing up to
    [i+1] panics when the varint fills the buffer. *)
Definition parentPrefixKey (parent : N) : option bytes :=
  pb ← PutUvarint 9 parent;
  if (length pb + 1 <=? 9)%nat then Some (pb ++ [0]) else None.

(** [getParentPrefix(b)]. *)
Definition getParentPrefix (b : bytes) : N := (Uvarint b).1.

(** *** Bolt operations used by the package *)

(** [Cursor.Seek(seek)] on a bucket of key/value pairs: the least key
    not below [seek], or [None] (a nil key) when there is none. *)
Definition Seek (bkt : gmap bytes string) (seek : bytes) : option bytes :=
  foldr (fun k best =>
           if bytes_le seek k then
             match best with
             | Some b => if bytes_le k b then Some k else Some b
             | None => Some k
             end
           else best)
        None (map_to_list bkt).*1.

Definition check_writable (w : bool) : outcome unit :=
  if w then Ok () else Fail (ErrBolt "tx not writable").

(** [readSnapshot(bkt, nil, &si)] on a snapshot bucket; the name is left
    as the caller set it. *)
Definition readSnapshot (name : string) (sbkt : SnapshotBucket) : Info :=
  {| InfoKind := bKind sbkt; InfoName := name; InfoParent := bParent sbkt;
     InfoLabels := bLabels sbkt;
     InfoCreated := bCreated sbkt; InfoUpdated := bUpdated sbkt |}.

(** [putSnapshot(bkt, id, si)] on a fresh bucket.  The timestamps and
    the labels are written by [boltutil], which is not part of the
    package: the record holds them as they were given, and what is stated
    of [CreateSnapshot] and [CommitActive] says nothing of the labels. *)
Definition putSnapshot (id : N) (si : Info) : SnapshotBucket :=
  {| bID := id; bKind := InfoKind si; bParent := InfoParent si;
     bCreated := InfoCreated si; bUpdated := InfoUpdated si;
     bLabels := InfoLabels si; bUsage := mkUsage 0 0 |}.

(** [putUsage(bkt, usage)]. *)
Definition putUsage (usage : Usage) (sbkt : SnapshotBucket) : SnapshotBucket :=
  {| bID := bID sbkt; bKind := bKind sbkt; bParent := bParent sbkt;
     bCreated := bCreated sbkt; bUpdated := bUpdated sbkt;
     bLabels := bLabels sbkt; bUsage := usage |}.

(** [parents(bkt, pbkt, parent)]: the ids along the parent chain, nearest
    first.  The Go loop runs until it meets a bucket without parent;
    [fuel] bounds the number of links followed, and [Loops] is the answer
    when it runs out. *)
Fixpoint parents (fuel : nat) (bkt : gmap string SnapshotBucket)
    (pbkt : SnapshotBucket) (parent : N) : outcome (list string) :=
  match fuel with
  | O => Loops
  | S fuel =>
      if decide (bParent pbkt = EmptyString) then Ok [pretty parent]
      else
        match bkt !! bParent pbkt with
        | None => Fail ErrNotFound
        | Some pbkt' =>
            rest ← parents fuel bkt pbkt' (bID pbkt');
            Ok (pretty parent :: rest)
        end
  end.

(** Applying the options in order to a zero [Info]. *)
Fixpoint apply_opts (opts : list Opt) (base : Info) : outcome Info :=
  match opts with
  | [] => Ok base
  | opt :: opts => base ← opt base; apply_opts opts base
  end.

(** [bkt.Bucket(key)] on the snapshots bucket; a nil bucket panics. *)
Definition Bucket (bkt : option SnapshotsBucket) (key : string)
  : outcome (option SnapshotBucket) :=
  b ← or_panic bkt; Ok (entries b !! key).

(** *** The transaction wrappers *)

Definition buckets : Type :=
  option SnapshotsBucket * option (gmap bytes string).

(** [withBucket(ctx, fn)]. *)
Definition withBucket {A} (ctx : Context)
    (fn : bool -> buckets -> outcome (A * buckets)) : outcome (A * Tx) :=
  match ctx with
  | None => Fail ErrNoTransaction
  | Some tx =>
      match v1 tx with
      | None => Fail ErrNotFound
      | Some v =>
          r ← fn (writable tx) (snapshotsB v, parentsB v);
          Ok (r.1, {| writable := writable tx;
                      v1 := Some {| snapshotsB := r.2.1;
                                    parentsB := r.2.2 |} |})
      end
  end.

(** [createBucketIfNotExists(ctx, fn)]. *)
Definition createBucketIfNotExists {A} (ctx : Context)
    (fn : bool -> buckets -> outcome (A * buckets)) : outcome (A * Tx) :=
  match ctx with
  | None => Fail ErrNoTransaction
  | Some tx =>
      _ ← check_writable (writable tx);
      let v := default (mkV1 None None) (v1 tx) in
      let sbkt := default (mkSnapshotsBucket ∅ 0) (snapshotsB v) in
      let pbkt := default ∅ (parentsB v) in
      r ← fn (writable tx) (Some sbkt, Some pbkt);
      Ok (r.1, {| writable := writable tx;
                  v1 := Some {| snapshotsB := r.2.1;
                                parentsB := r.2.2 |} |})
  end.

(** *** The operations *)

(** The checks of [bkt.CreateBucket(key)] on the snapshots bucket; the
    caller inserts the bucket once it has filled it. *)
Definition CreateBucket (w : bool) (bkt : option SnapshotsBucket)
    (key : string) : outcome SnapshotsBucket :=
  b ← or_panic bkt;
  _ ← check_writable w;
  if decide (key = EmptyString) then Fail (ErrBolt "bucket name required")
  else if decide (is_Some (entries b !! key)) then Fail ErrAlreadyExists
  else Ok b.

(** [bkt.NextSequence()]. *)
Definition NextSequence (b : SnapshotsBucket) : N :=
  (sequence b + 1) mod 2 ^ 64.

(** [pbkt.Put(key, value)] on the parents bucket. *)
Definition Put (w : bool) (pbkt : option (gmap bytes string))
    (key : bytes) (value : string) : outcome (gmap bytes string) :=
  p ← or_panic pbkt;
  _ ← check_writable w;
  Ok (<[key := value]> p).

(** [CreateSnapshot(ctx, kind, key, parent, opts...)], at time [now]. *)
Definition CreateSnapshot (now : Time) (ctx : Context) (kind : Kind)
    (key parent : string) (opts : list Opt) : outcome (Snapshot * Tx) :=
  _ ← match kind with
      | KindActive | KindView => Ok ()
      | _ => Fail ErrInvalidArgument
      end;
  base ← apply_opts opts Info0;
  createBucketIfNotExists ctx (fun w '(bkt, pbkt) =>
    spbkt ← (if decide (parent = EmptyString) then Ok None
             else
               sp ← Bucket bkt parent;
               match sp with
               | None => Fail ErrNotFound
               | Some sp =>
                   if decide (bKind sp = KindCommitted) then Ok (Some sp)
                   else Fail ErrInvalidArgument
               end);
    b ← CreateBucket w bkt key;
    let id := NextSequence b in
    let si := {| InfoKind := kind; InfoName := EmptyString;
                 InfoParent := parent; InfoLabels := InfoLabels base;
                 InfoCreated := now; InfoUpdated := now |} in
    let b := {| entries := <[key := putSnapshot id si]> (entries b);
                sequence := id |} in
    match spbkt with
    | Some sp =>
        let pid := bID sp in
        pk ← or_panic (parentKey pid id);
        p ← Put w pbkt pk key;
        ids ← parents (S (size (entries b))) (entries b) sp pid;
        Ok ({| SnapshotKind := kind; SnapshotID := pretty id;
               ParentIDs := ids |}, (Some b, Some p))
    | None =>
        Ok ({| SnapshotKind := kind; SnapshotID := pretty id;
               ParentIDs := [] |}, (Some b, pbkt))
    end).

(** [Remove(ctx, key)]: the id and the kind of the removed snapshot. *)
Definition Remove (ctx : Context) (key : string)
  : outcome ((string * Kind) * Tx) :=
  withBucket ctx (fun w '(bkt, pbkt) =>
    sbkt ← Bucket bkt key;
    match sbkt with
    | None => Fail ErrNotFound
    | Some sbkt =>
        let id := bID sbkt in
        let si := readSnapshot EmptyString sbkt in
        pbkt ← match pbkt with
               | Some p =>
                   prefix ← or_panic (parentPrefixKey id);
                   let k := default [] (Seek p prefix) in
                   if decide (getParentPrefix k = id)
                   then Fail ErrFailedPrecondition
                   else if decide (InfoParent si = EmptyString) then Ok (Some p)
                   else
                     spbkt ← Bucket bkt (InfoParent si);
                     match spbkt with
                     | None => Fail ErrNotFound
                     | Some spbkt =>
                         pk ← or_panic (parentKey (bID spbkt) id);
                         _ ← check_writable w;
                         Ok (Some (delete pk p))
                     end
               | None => Ok None
               end;
        b ← or_panic bkt;
        _ ← check_writable w;
        Ok ((pretty id, InfoKind si),
            (Some {| entries := delete key (entries b);
                     sequence := sequence b |}, pbkt))
    end).

(** [CommitActive(ctx, key, name, usage, opts...)], at time [now].  When
    [key] and [name] are the same free key, the bucket just created for
    [name] is the one read back for [key]: it is empty, so its kind is
    not Active. *)
Definition CommitActive (now : Time) (ctx : Context) (key name : string)
    (usage : Usage) (opts : list Opt) : outcome (string * Tx) :=
  base ← apply_opts opts Info0;
  withBucket ctx (fun w '(bkt, pbkt) =>
    b ← CreateBucket w bkt name;
    if decide (key = name) then Fail ErrFailedPrecondition
    else
      match entries b !! key with
      | None => Fail ErrNotFound
      | Some sbkt =>
          let id := bID sbkt in
          let si := readSnapshot EmptyString sbkt in
          if decide (InfoKind si = KindActive) then
            let si := {| InfoKind := KindCommitted; InfoName := InfoName si;
                         InfoParent := InfoParent si;
                         InfoLabels := InfoLabels base;
                         InfoCreated := now; InfoUpdated := now |} in
            let dbkt := putUsage usage (putSnapshot id si) in
            let b := {| entries := delete key (<[name := dbkt]> (entries b));
                        sequence := sequence b |} in
            if decide (InfoParent si = EmptyString)
            then Ok (pretty id, (Some b, pbkt))
            else
              match entries b !! InfoParent si with
              | None => Fail ErrNotFound
              | Some spbkt =>
                  pk ← or_panic (parentKey (bID spbkt) id);
                  p ← Put w pbkt pk name;
                  Ok (pretty id, (Some b, Some p))
              end
          else Fail ErrFailedPrecondition
      end).

(** *** Well-formed stores *)

(** The snapshot bucket stored under [key], if any. *)
Definition snapshot_of (tx : Tx) (key : string) : option SnapshotBucket :=
  v ← v1 tx; b ← snapshotsB v; entries b !! key.

(** The parent index of a transaction. *)
Definition index_of (tx : Tx) : gmap bytes string :=
  default ∅ (v ← v1 tx; parentsB v).

(** The parent index records a child of the snapshot with id [id]. *)
Definition has_child (tx : Tx) (id : N) : Prop :=
  exists child k, parentKey id child = Some k /\ is_Some (index_of tx !! k).

(** The composite key of a parent and a child, without its buffer. *)
Definition composite (parent child : N) : bytes :=
  uvarint parent ++ [0] ++ uvarint child.

(** What the operations maintain: ids are positive, handed out by the
    sequence counter and never shared; a parent exists and is committed;
    the index holds exactly one entry per parent link, whose value is the
    key of the child.  The counter is below [2^56], the first id whose
    varint no longer fits the buffer of [parentPrefixKey]. *)
Record wf_buckets (b : SnapshotsBucket) (p : gmap bytes string) : Prop := {
  wf_seq : sequence b < 2 ^ 56;
  wf_noempty : entries b !! EmptyString = None;
  wf_ids : forall k s, entries b !! k = Some s -> 0 < bID s <= sequence b;
  wf_inj : forall k1 k2 s1 s2,
    entries b !! k1 = Some s1 -> entries b !! k2 = Some s2 ->
    bID s1 = bID s2 -> k1 = k2;
  wf_parent : forall k s,
    entries b !! k = Some s -> bParent s <> EmptyString ->
    exists ps, entries b !! bParent s = Some ps /\
               bKind ps = KindCommitted /\
               p !! composite (bID ps) (bID s) = Some k;
  wf_index : forall pk k,
    p !! pk = Some k ->
    exists s ps, entries b !! k = Some s /\ bParent s <> EmptyString /\
                 entries b !! bParent s = Some ps /\
                 pk = composite (bID ps) (bID s);
}.

(** A transaction is well formed when its store is empty or both buckets
    exist and are well formed. *)
Definition wf (tx : Tx) : Prop :=
  match v1 tx with
  | None => True
  | Some v => exists b p, v = mkV1 (Some b) (Some p) /\ wf_buckets b p
  end.

(** The index after removing the link of [s] to its parent. *)
Definition unlink (b : SnapshotsBucket) (p : gmap bytes string)
    (s : SnapshotBucket) : gmap bytes string :=
  match entries b !! bParent s with
  | Some sp => delete (composite (bID sp) (bID s)) p
  | None => p
  end.

(** The transaction after a successful [Remove] of [key]. *)
Definition removed (tx : Tx) (b : SnapshotsBucket) (p : gmap bytes string)
    (key : string) (s : SnapshotBucket) : Tx :=
  {| writable := writable tx;
     v1 := Some {| snapshotsB :=
                     Some {| entries := delete key (entries b);
                             sequence := sequence b |};
                   parentsB := Some (unlink b p s) |} |}.

(** The sequence counter of the snapshots bucket (0 before it exists). *)
Definition sequence_of (tx : Tx) : N :=
  default 0 (v ← v1 tx; b ← snapshotsB v; Some (sequence b)).

(** Preparing [key] on [parent] and committing it as [name], the way the
    snapshotters create a committed snapshot. *)
Definition create_committed (now : Time) (tx : Tx) (key name parent : string)
  : outcome (string * Tx) :=
  r ← CreateSnapshot now (Some tx) KindActive key parent [];
  CommitActive now (Some r.2) key name (mkUsage 0%Z 0%Z) [].

(** A writable transaction on an empty database. *)
Definition tx_empty : Tx := {| writable := true; v1 := None |}.

(** The transaction reached when an operation returned, the given one
    otherwise. *)
Definition tx_after {A} (tx : Tx) (o : outcome (A * Tx)) : Tx :=
  match o with
  | Ok r => r.2
  | _ => tx
  end.

(** The committed chain [s1 <- s2 <- s3], built on the empty database. *)
Definition chain1 : Tx :=
  tx_after tx_empty (create_committed 0%Z tx_empty "s1-active" "s1" EmptyString).
Definition chain2 : Tx :=
  tx_after chain1 (create_committed 1%Z chain1 "s2-active" "s2" "s1").
Definition chain3 : Tx :=
  tx_after chain2 (create_committed 2%Z chain2 "s3-active" "s3" "s2").

(** *** [Seek] finds the least key not below the one sought *)

Definition seek_list (seek : bytes) (l : list bytes) : option bytes :=
  foldr (fun k best =>
           if bytes_le seek k then
             match best with
             | Some b => if bytes_le k b then Some k else Some b
             | None => Some k
             end
           else best)
        None l.

Lemma seek_list_Some seek l k0 :
  seek_list seek l = Some k0 ->
  k0 ∈ l /\ bytes_le seek k0 = true /\
  forall k, k ∈ l -> bytes_le seek k = true -> bytes_le k0 k = true.
Proof.
  revert k0; induction l as [|x l IH]; intros k0; cbn; [discriminate|].
  fold (seek_list seek l).
  destruct (bytes_le seek x) eqn:Ex.
  - destruct (seek_list seek l) as [b|] eqn:El.
    + destruct (IH b eq_refl) as (Hin & Hle & Hmin).
      destruct (bytes_le x b) eqn:Exb; intros [= <-].
      * split; [left|]. split; [exact Ex|].
        intros k Hk Hsk. apply elem_of_cons in Hk as [->|Hk];
          [apply bytes_le_refl|].
        eapply bytes_le_trans; [exact Exb|]. apply Hmin; done.
      * split; [right; exact Hin|]. split; [exact Hle|].
        intros k Hk Hsk. apply elem_of_cons in Hk as [->|Hk]; [|apply Hmin; done].
        destruct (bytes_le_total x b) as [H|H]; congruence.
    + intros [= <-]. split; [left|]. split; [exact Ex|].
      intros k Hk Hsk. apply elem_of_cons in Hk as [->|Hk];
        [apply bytes_le_refl|].
      exfalso. clear IH. induction l as [|y l IHl]; [inversion Hk|].
      cbn in El. fold (seek_list seek l) in El.
      apply elem_of_cons in Hk as [->|Hk].
      * rewrite Hsk in El. destruct (seek_list seek l) as [b|];
          [destruct (bytes_le y b)|]; discriminate.
      * destruct (bytes_le seek y); [|auto].
        destruct (seek_list seek l) as [b|];
          [destruct (bytes_le y b)|]; discriminate.
  - intros H. destruct (IH k0 H) as (Hin & Hle & Hmin).
    split; [right; exact Hin|]. split; [exact Hle|].
    intros k Hk Hsk. apply elem_of_cons in Hk as [->|Hk]; [congruence|].
    apply Hmin; done.
Qed.

Lemma seek_list_None seek l :
  seek_list seek l = None -> forall k, k ∈ l -> bytes_le seek k = false.
Proof.
  induction l as [|x l IH]; intros H k Hk; [inversion Hk|].
  cbn in H. fold (seek_list seek l) in H.
  destruct (bytes_le seek x) eqn:Ex.
  - destruct (seek_list seek l) as [b|];
      [destruct (bytes_le x b)|]; discriminate.
  - apply elem_of_cons in Hk as [->|Hk]; [exact Ex|]. apply IH; done.
Qed.

Lemma elem_of_keys (p : gmap bytes string) k :
  k ∈ (map_to_list p).*1 <-> is_Some (p !! k).
Proof.
  rewrite list_elem_of_fmap. split.
  - intros [[k' v] [-> H]]. apply elem_of_map_to_list in H. eauto.
  - intros [v H]. exists (k, v). split; [reflexivity|].
    apply elem_of_map_to_list. exact H.
Qed.

Lemma Seek_Some p seek k0 :
  Seek p seek = Some k0 ->
  is_Some (p !! k0) /\ bytes_le seek k0 = true /\
  forall k, is_Some (p !! k) -> bytes_le seek k = true ->
            bytes_le k0 k = true.
Proof.
  intros H. apply seek_list_Some in H as (Hin & Hle & Hmin).
  split; [apply elem_of_keys; exact Hin|]. split; [exact Hle|].
  intros k Hk. apply Hmin, elem_of_keys, Hk.
Qed.

Lemma Seek_None p seek :
  Seek p seek = None ->
  forall k, is_Some (p !! k) -> bytes_le seek k = false.
Proof.
  intros H k Hk. eapply seek_list_None; [exact H|]. apply elem_of_keys, Hk.
Qed.

(** Seeking a prefix finds an extension of it as soon as the bucket holds
    one. *)
Lemma Seek_prefix p prefix r :
  is_Some (p !! (prefix ++ r)) ->
  exists r', Seek p prefix = Some (prefix ++ r') /\
             is_Some (p !! (prefix ++ r')).
Proof.
  intros Hin. destruct (Seek p prefix) as [k0|] eqn:E.
  - destruct (Seek_Some _ _ _ E) as (Hk0 & Hle & Hmin).
    destruct (bytes_le_between prefix k0 r Hle) as [r' ->].
    + apply Hmin; [exact Hin|apply bytes_le_prefix].
    + exists r'. done.
  - pose proof (Seek_None _ _ E _ Hin) as H.
    rewrite bytes_le_prefix in H. discriminate.
Qed.

(** *** Composite keys *)

Lemma PutUvarint_Some cap x e :
  PutUvarint cap x = Some e -> e = uvarint x /\ (length (uvarint x) <= cap)%nat.
Proof.
  unfold PutUvarint. destruct (Nat.leb_spec (length (uvarint x)) cap);
    [intros [= <-]; done|discriminate].
Qed.

Lemma PutUvarint_fits cap x :
  (length (uvarint x) <= cap)%nat -> PutUvarint cap x = Some (uvarint x).
Proof.
  intros H. unfold PutUvarint.
  destruct (Nat.leb_spec (length (uvarint x)) cap); [reflexivity|lia].
Qed.

Lemma parentKey_Some parent child k :
  parentKey parent child = Some k -> k = uvarint parent ++ [0] ++ uvarint child.
Proof.
  unfold parentKey. intros H.
  destruct (PutUvarint 17 parent) as [pb|] eqn:E1; [|discriminate].
  apply PutUvarint_Some in E1 as [-> _]. cbn [mbind option_bind] in H.
  destruct (PutUvarint _ child) as [cb|] eqn:E2; [|discriminate].
  apply PutUvarint_Some in E2 as [-> _]. cbn [mbind option_bind] in H.
  congruence.
Qed.

Lemma parentKey_small parent child :
  parent < 2 ^ 56 -> child < 2 ^ 56 ->
  parentKey parent child = Some (uvarint parent ++ [0] ++ uvarint child).
Proof.
  intros Hp Hc. unfold parentKey.
  pose proof (uvarint_length_56 parent Hp).
  pose proof (uvarint_length_56 child Hc).
  rewrite PutUvarint_fits by lia. cbn [mbind option_bind].
  rewrite PutUvarint_fits by lia. reflexivity.
Qed.

Lemma parentPrefixKey_small parent :
  parent < 2 ^ 56 -> parentPrefixKey parent = Some (uvarint parent ++ [0]).
Proof.
  intros Hp. unfold parentPrefixKey.
  pose proof (uvarint_length_56 parent Hp).
  rewrite PutUvarint_fits by lia. cbn [mbind option_bind].
  destruct (Nat.leb_spec (length (uvarint parent) + 1) 9); [reflexivity|lia].
Qed.

Lemma getParentPrefix_key parent r :
  parent < 2 ^ 64 -> getParentPrefix ((uvarint parent ++ [0]) ++ r) = parent.
Proof.
  intros Hp. unfold getParentPrefix. rewrite <- app_assoc.
  rewrite Uvarint_uvarint by exact Hp. reflexivity.
Qed.

Lemma pow56_64 x : x < 2 ^ 56 -> x < 2 ^ 64.
Proof. intros H. eapply N.lt_trans; [exact H|reflexivity]. Qed.

Lemma uvarint_inj x y rx ry :
  x < 2 ^ 64 -> y < 2 ^ 64 ->
  uvarint x ++ rx = uvarint y ++ ry -> x = y /\ rx = ry.
Proof.
  intros Hx Hy E.
  pose proof (Uvarint_uvarint x rx Hx) as H1.
  pose proof (Uvarint_uvarint y ry Hy) as H2.
  rewrite E, H2 in H1. injection H1 as -> _.
  split; [reflexivity|]. apply app_inv_head in E. exact E.
Qed.

Lemma parentKey_inj a b a' b' k :
  a < 2 ^ 64 -> b < 2 ^ 64 -> a' < 2 ^ 64 -> b' < 2 ^ 64 ->
  parentKey a b = Some k -> parentKey a' b' = Some k -> a = a' /\ b = b'.
Proof.
  intros Ha Hb Ha' Hb' H1 H2.
  apply parentKey_Some in H1, H2. subst k.
  apply uvarint_inj in H2 as [-> H2]; try done.
  injection H2 as H2.
  rewrite <- (app_nil_r (uvarint b)), <- (app_nil_r (uvarint b')) in H2.
  apply uvarint_inj in H2 as [-> _]; done.
Qed.

Lemma composite_inj a b a' b' :
  a < 2 ^ 64 -> b < 2 ^ 64 -> a' < 2 ^ 64 -> b' < 2 ^ 64 ->
  composite a b = composite a' b' -> a = a' /\ b = b'.
Proof.
  unfold composite. intros Ha Hb Ha' Hb' H.
  apply uvarint_inj in H as [-> H]; try done.
  injection H as H.
  rewrite <- (app_nil_r (uvarint b)), <- (app_nil_r (uvarint b')) in H.
  apply uvarint_inj in H as [-> _]; done.
Qed.

Lemma wf_id_small b p k s :
  wf_buckets b p -> entries b !! k = Some s -> bID s < 2 ^ 56.
Proof.
  intros Hwf Hk. pose proof (wf_ids _ _ Hwf k s Hk). pose proof (wf_seq _ _ Hwf). lia.
Qed.

(** The guard of [Remove], on a store with both buckets. *)
Lemma Remove_child_fails tx b p key s :
  v1 tx = Some (mkV1 (Some b) (Some p)) ->
  entries b !! key = Some s ->
  bID s < 2 ^ 56 ->
  has_child tx (bID s) ->
  Remove (Some tx) key = Fail ErrFailedPrecondition.
Proof.
  intros Hv Hk Hid (child & k & Hpk & Hin).
  unfold index_of in Hin. rewrite Hv in Hin. cbn in Hin.
  apply parentKey_Some in Hpk. subst k.
  unfold Remove, withBucket. rewrite Hv.
  cbn [mbind outcome_bind Bucket or_panic snapshotsB parentsB].
  rewrite Hk. cbn [mbind outcome_bind].
  rewrite parentPrefixKey_small by exact Hid. cbn [or_panic mbind outcome_bind].
  destruct (Seek_prefix p (uvarint (bID s) ++ [0]) (uvarint child)) as (r' & -> & _).
  { rewrite <- app_assoc. exact Hin. }
  cbn [default]. unfold id at 1.
  destruct (decide _) as [_|Hne]; [reflexivity|].
  exfalso. apply Hne, getParentPrefix_key, pow56_64, Hid.
Qed.



Lemma getParentPrefix_nil : getParentPrefix [] = 0.
Proof. reflexivity. Qed.

Lemma seek_guard tx b p key s :
  wf_buckets b p ->
  v1 tx = Some (mkV1 (Some b) (Some p)) ->
  entries b !! key = Some s ->
  getParentPrefix (default [] (Seek p (uvarint (bID s) ++ [0]))) = bID s ->
  has_child tx (bID s).
Proof.
  intros Hwf Hv Hk Hg.
  pose proof (wf_ids _ _ Hwf _ _ Hk) as Hid.
  destruct (Seek p (uvarint (bID s) ++ [0])) as [k0|] eqn:E;
    cbv [default from_option id] in Hg;
    [|rewrite getParentPrefix_nil in Hg; lia].
  apply Seek_Some in E as ([c Hc] & _ & _).
  destruct (wf_index _ _ Hwf _ _ Hc) as (s' & ps & Hs' & Hp' & Hps & ->).
  pose proof (wf_id_small _ _ _ _ Hwf Hs') as Hs'id.
  pose proof (wf_id_small _ _ _ _ Hwf Hps) as Hpsid.
  unfold composite in Hg. rewrite app_assoc in Hg.
  rewrite getParentPrefix_key in Hg by (apply pow56_64, Hpsid).
  exists (bID s'), (composite (bID ps) (bID s')). split.
  - rewrite <- Hg. apply parentKey_small; assumption.
  - unfold index_of. rewrite Hv. cbn. eauto.
Qed.

Lemma Remove_Some_eq tx b p key s :
  wf_buckets b p ->
  v1 tx = Some (mkV1 (Some b) (Some p)) ->
  entries b !! key = Some s ->
  Remove (Some tx) key =
    if decide (getParentPrefix
                 (default [] (Seek p (uvarint (bID s) ++ [0]))) = bID s)
    then Fail ErrFailedPrecondition
    else if writable tx
         then Ok ((pretty (bID s), bKind s), removed tx b p key s)
         else Fail (ErrBolt "tx not writable").
Proof.
  intros Hwf Hv Hk.
  pose proof (wf_id_small _ _ _ _ Hwf Hk) as Hid.
  unfold Remove, withBucket. rewrite Hv.
  cbn [mbind outcome_bind Bucket or_panic snapshotsB parentsB].
  rewrite Hk. cbn [mbind outcome_bind].
  rewrite parentPrefixKey_small by exact Hid. cbn [or_panic mbind outcome_bind].
  destruct (decide _) as [_|Hne]; [reflexivity|].
  cbn [readSnapshot InfoParent InfoKind]. unfold removed, unlink.
  destruct (decide (bParent s = EmptyString)) as [Hp|Hp].
  - rewrite Hp, (wf_noempty _ _ Hwf). cbn.
    destruct (writable tx); reflexivity.
  - destruct (wf_parent _ _ Hwf _ _ Hk Hp) as (ps & Hps & _ & _).
    rewrite Hps. cbn [mbind outcome_bind].
    rewrite parentKey_small
      by (first [exact Hid | exact (wf_id_small _ _ _ _ Hwf Hps)]).
    cbn [or_panic mbind outcome_bind].
    destruct (writable tx); reflexivity.
Qed.

Lemma has_child_of_record tx b p key s k' s' :
  wf_buckets b p ->
  v1 tx = Some (mkV1 (Some b) (Some p)) ->
  entries b !! key = Some s ->
  entries b !! k' = Some s' -> bParent s' = key ->
  has_child tx (bID s).
Proof.
  intros Hwf Hv Hk Hk' Hpar.
  assert (Hne : bParent s' <> EmptyString).
  { rewrite Hpar. intros ->. rewrite (wf_noempty _ _ Hwf) in Hk. discriminate. }
  destruct (wf_parent _ _ Hwf _ _ Hk' Hne) as (ps & Hps & _ & Hidx).
  rewrite Hpar, Hk in Hps. injection Hps as <-.
  exists (bID s'), (composite (bID s) (bID s')). split.
  - apply parentKey_small; eapply wf_id_small; eassumption.
  - unfold index_of. rewrite Hv. cbn. eauto.
Qed.

Lemma Remove_wf_buckets tx b p key s :
  wf_buckets b p ->
  v1 tx = Some (mkV1 (Some b) (Some p)) ->
  entries b !! key = Some s ->
  ~ has_child tx (bID s) ->
  wf_buckets {| entries := delete key (entries b); sequence := sequence b |}
             (unlink b p s).
Proof.
  intros Hwf Hv Hk Hnc.
  assert (Hnopar : forall k' s', entries b !! k' = Some s' -> bParent s' <> key).
  { intros k' s' Hk' Hpar. apply Hnc.
    eapply has_child_of_record; eassumption. }
  assert (Hunlink : forall pk,
            (forall sp, entries b !! bParent s = Some sp ->
                        pk <> composite (bID sp) (bID s)) ->
            unlink b p s !! pk = p !! pk).
  { intros pk Hpk. unfold unlink.
    destruct (entries b !! bParent s) as [sp|] eqn:Esp; [|reflexivity].
    rewrite lookup_delete_ne; [reflexivity|].
    intros E. exact (Hpk sp eq_refl (eq_sym E)). }
  split; cbn [entries sequence].
  - apply (wf_seq _ _ Hwf).
  - rewrite lookup_delete_ne; [apply (wf_noempty _ _ Hwf)|].
    intros ->. rewrite (wf_noempty _ _ Hwf) in Hk. discriminate.
  - intros k s0 H. apply lookup_delete_Some in H as [_ H].
    apply (wf_ids _ _ Hwf _ _ H).
  - intros k1 k2 s1 s2 H1 H2. apply lookup_delete_Some in H1 as [_ H1].
    apply lookup_delete_Some in H2 as [_ H2].
    apply (wf_inj _ _ Hwf _ _ _ _ H1 H2).
  - intros k s0 H Hp. apply lookup_delete_Some in H as [Hkk H].
    destruct (wf_parent _ _ Hwf _ _ H Hp) as (ps & Hps & Hc & Hidx).
    exists ps. split; [|split; [exact Hc|]].
    + rewrite lookup_delete_ne; [exact Hps|].
      intros E. exact (Hnopar _ _ H (eq_sym E)).
    + rewrite Hunlink; [exact Hidx|]. intros sp Hsp E.
      apply composite_inj in E as [_ E];
        try (apply pow56_64; eapply wf_id_small; eassumption).
      apply Hkk. eapply (wf_inj _ _ Hwf); [exact Hk|exact H|congruence].
  - intros pk k Hpk.
    assert (Hpk' : p !! pk = Some k).
    { unfold unlink in Hpk. destruct (entries b !! bParent s);
        [apply lookup_delete_Some in Hpk as [_ Hpk]|]; exact Hpk. }
    destruct (wf_index _ _ Hwf _ _ Hpk') as (s0 & ps & Hs0 & Hp & Hps & ->).
    exists s0, ps.
    assert (Hkk : k <> key).
    { intros ->. rewrite Hk in Hs0. injection Hs0 as <-.
      unfold unlink in Hpk. rewrite Hps in Hpk.
      rewrite lookup_delete_eq in Hpk. discriminate. }
    split; [rewrite lookup_delete_ne by congruence; exact Hs0|].
    split; [exact Hp|]. split; [|reflexivity].
    rewrite lookup_delete_ne; [exact Hps|].
    intros E. exact (Hnopar _ _ Hs0 (eq_sym E)).
Qed.

Lemma wf_inv tx key s :
  wf tx -> snapshot_of tx key = Some s ->
  exists b p, v1 tx = Some (mkV1 (Some b) (Some p)) /\ wf_buckets b p /\
              entries b !! key = Some s.
Proof.
  unfold wf, snapshot_of. destruct (v1 tx) as [v|]; [|discriminate].
  intros (b & p & -> & Hwf) H. cbn in H. eauto.
Qed.

Lemma snapshot_of_eq tx b p key :
  v1 tx = Some (mkV1 (Some b) (Some p)) ->
  snapshot_of tx key = entries b !! key.
Proof. intros Hv. unfold snapshot_of. rewrite Hv. reflexivity. Qed.

Lemma composite_parent_inj a b a' b' :
  a < 2 ^ 64 -> a' < 2 ^ 64 -> composite a b = composite a' b' -> a = a'.
Proof.
  unfold composite. intros Ha Ha' H.
  apply uvarint_inj in H as [-> _]; done.
Qed.

(** Under well-formedness the index records a child of a snapshot exactly
    when some record names it as parent. *)
Lemma has_child_iff tx key s :
  wf tx -> snapshot_of tx key = Some s ->
  has_child tx (bID s) <->
  exists k' s', snapshot_of tx k' = Some s' /\ bParent s' = key.
Proof.
  intros Hwf Hs. destruct (wf_inv _ _ _ Hwf Hs) as (b & p & Hv & Hb & Hk).
  split.
  - intros (child & pk & Hpk & [c Hc]).
    unfold index_of in Hc. rewrite Hv in Hc. cbn in Hc.
    destruct (wf_index _ _ Hb _ _ Hc) as (s' & ps & Hs' & Hp & Hps & E).
    apply parentKey_Some in Hpk. fold (composite (bID s) child) in Hpk.
    rewrite Hpk in E.
    apply composite_parent_inj in E;
      try (apply pow56_64; eapply wf_id_small; eassumption).
    exists c, s'. rewrite (snapshot_of_eq _ _ _ _ Hv). split; [exact Hs'|].
    eapply (wf_inj _ _ Hb); [exact Hps|exact Hk|congruence].
  - intros (k' & s' & Hs' & Hpar).
    rewrite (snapshot_of_eq _ _ _ _ Hv) in Hs'.
    eapply has_child_of_record; eassumption.
Qed.

(** [Remove] refuses, with FailedPrecondition, a snapshot of which the
    index records a child. *)
Lemma Remove_guard tx key s :
  wf tx -> snapshot_of tx key = Some s -> has_child tx (bID s) ->
  Remove (Some tx) key = Fail ErrFailedPrecondition.
Proof.
  intros Hwf Hs Hc. destruct (wf_inv _ _ _ Hwf Hs) as (b & p & Hv & Hb & Hk).
  eapply Remove_child_fails; try eassumption.
  eapply wf_id_small; eassumption.
Qed.

(** What a successful [Remove] leaves. *)
Lemma Remove_Ok tx key r tx' :
  wf tx -> Remove (Some tx) key = Ok (r, tx') ->
  exists s,
    snapshot_of tx key = Some s /\ ~ has_child tx (bID s) /\
    r = (pretty (bID s), bKind s) /\
    wf tx' /\ writable tx = true /\ writable tx' = true /\
    forall k, snapshot_of tx' k =
              if decide (k = key) then None else snapshot_of tx k.
Proof.
  intros Hwf HR.
  destruct (v1 tx) as [v|] eqn:Hv;
    [|unfold Remove, withBucket in HR; rewrite Hv in HR; discriminate].
  pose proof Hwf as Hwf'. unfold wf in Hwf'. rewrite Hv in Hwf'.
  destruct Hwf' as (b & p & -> & Hb).
  destruct (entries b !! key) as [s|] eqn:Hk.
  - exists s. rewrite (Remove_Some_eq _ _ _ _ _ Hb Hv Hk) in HR.
    destruct (decide _) as [|Hg]; [discriminate|].
    destruct (writable tx) eqn:Hw; [|discriminate].
    injection HR as <- <-.
    assert (Hnc : ~ has_child tx (bID s)).
    { intros Hc. apply Hg.
      destruct Hc as (child & pk & Hpk & Hin).
      unfold index_of in Hin. rewrite Hv in Hin. cbn in Hin.
      apply parentKey_Some in Hpk. subst pk.
      destruct (Seek_prefix p (uvarint (bID s) ++ [0]) (uvarint child))
        as (r' & -> & _); [rewrite <- app_assoc; exact Hin|].
      apply getParentPrefix_key, pow56_64. eapply wf_id_small; eassumption. }
    rewrite (snapshot_of_eq _ _ _ _ Hv).
    repeat split; try done.
    + unfold wf, removed; cbn. eexists _, _. split; [reflexivity|].
      eapply Remove_wf_buckets; eassumption.
    + intros k. unfold snapshot_of, removed; cbn.
      rewrite Hv; cbn. destruct (decide (k = key)) as [->|Hne].
      * apply lookup_delete_eq.
      * apply lookup_delete_ne. congruence.
  - unfold Remove, withBucket in HR. rewrite Hv in HR. cbn in HR.
    rewrite Hk in HR. discriminate.
Qed.

(** A snapshot that no record names as parent is removed. *)
Lemma Remove_leaf tx key s :
  wf tx -> writable tx = true -> snapshot_of tx key = Some s ->
  (forall k' s', snapshot_of tx k' = Some s' -> bParent s' <> key) ->
  exists tx', Remove (Some tx) key = Ok ((pretty (bID s), bKind s), tx').
Proof.
  intros Hwf Hw Hs Hleaf.
  destruct (wf_inv _ _ _ Hwf Hs) as (b & p & Hv & Hb & Hk).
  rewrite (Remove_Some_eq _ _ _ _ _ Hb Hv Hk), Hw.
  destruct (decide _) as [Hg|_]; [|eauto].
  exfalso. apply (seek_guard tx b p key s Hb Hv Hk) in Hg.
  apply (has_child_iff _ _ _ Hwf Hs) in Hg as (k' & s' & Hs' & Hpar).
  exact (Hleaf _ _ Hs' Hpar).
Qed.


Lemma wf_buckets_empty : wf_buckets (mkSnapshotsBucket ∅ 0) ∅.
Proof.
  split; cbn; try done.
  all: intros *; rewrite ?lookup_empty; try done.
Qed.

(** The buckets [createBucketIfNotExists] hands to its function. *)
Lemma wf_created tx :
  wf tx ->
  wf_buckets
    (default (mkSnapshotsBucket ∅ 0)
       (snapshotsB (default (mkV1 None None) (v1 tx))))
    (default ∅ (parentsB (default (mkV1 None None) (v1 tx)))).
Proof.
  unfold wf. destruct (v1 tx) as [v|]; cbn.
  - intros (b & p & -> & Hb). exact Hb.
  - intros _. apply wf_buckets_empty.
Qed.

Lemma insert_snapshot_wf b p key sp id kind parent now labels :
  wf_buckets b p ->
  key <> EmptyString -> entries b !! key = None ->
  id = sequence b + 1 -> id < 2 ^ 56 ->
  (parent = EmptyString /\ sp = None \/
   exists s, sp = Some s /\ entries b !! parent = Some s /\
             bKind s = KindCommitted /\ parent <> EmptyString) ->
  wf_buckets
    {| entries :=
         <[key := putSnapshot id
                    {| InfoKind := kind; InfoName := EmptyString;
                       InfoParent := parent; InfoLabels := labels;
                       InfoCreated := now; InfoUpdated := now |}]>
           (entries b);
       sequence := id |}
    (match sp with
     | Some s => <[composite (bID s) id := key]> p
     | None => p
     end).
Proof.
  intros Hb Hne Hfresh -> Hid Hsp.
  pose proof (wf_seq _ _ Hb) as Hseq.
  assert (Hold : forall pk k, p !! pk = Some k ->
            (match sp with
             | Some s => <[composite (bID s) (sequence b + 1) := key]> p
             | None => p
             end) !! pk = Some k).
  { intros pk k Hpk. destruct sp as [s|]; [|exact Hpk].
    rewrite lookup_insert_ne; [exact Hpk|]. intros E.
    destruct (wf_index _ _ Hb _ _ Hpk) as (s0 & ps & Hs0 & _ & Hps & ->).
    pose proof (wf_ids _ _ Hb _ _ Hs0).
    pose proof (wf_ids _ _ Hb _ _ Hps).
    destruct Hsp as [[_ ?]|(s' & [= <-] & Hs' & _)]; [discriminate|].
    pose proof (wf_ids _ _ Hb _ _ Hs').
    apply composite_inj in E as [_ E]; try (apply pow56_64; lia). lia. }
  split; cbn [entries sequence].
  - exact Hid.
  - rewrite lookup_insert_ne by congruence. apply (wf_noempty _ _ Hb).
  - intros k s H. apply lookup_insert_Some in H as [[<- <-]|[_ H]]; cbn; [lia|].
    pose proof (wf_ids _ _ Hb _ _ H). lia.
  - intros k1 k2 s1 s2 H1 H2 E.
    apply lookup_insert_Some in H1 as [[<- <-]|[? H1]];
      apply lookup_insert_Some in H2 as [[<- <-]|[? H2]]; try done.
    + pose proof (wf_ids _ _ Hb _ _ H2). cbn in E. lia.
    + pose proof (wf_ids _ _ Hb _ _ H1). cbn in E. lia.
    + eapply (wf_inj _ _ Hb); eassumption.
  - intros k s H Hp. apply lookup_insert_Some in H as [[<- <-]|[Hk H]].
    + cbn in Hp |- *.
      destruct Hsp as [[? _]|(s' & -> & Hs' & Hc & _)]; [done|].
      exists s'. split; [|split; [exact Hc|apply lookup_insert_eq]].
      rewrite lookup_insert_ne; [exact Hs'|]. intros <-. congruence.
    + destruct (wf_parent _ _ Hb _ _ H Hp) as (ps & Hps & Hc & Hidx).
      exists ps. split; [|split; [exact Hc|apply Hold, Hidx]].
      rewrite lookup_insert_ne; [exact Hps|]. intros E. congruence.
  - intros pk k Hpk.
    assert (Hcases : (exists s, sp = Some s /\
                        pk = composite (bID s) (sequence b + 1) /\ k = key) \/
                     p !! pk = Some k).
    { destruct sp as [s|]; [|auto].
      apply lookup_insert_Some in Hpk as [[<- <-]|[_ Hpk]]; eauto. }
    destruct Hcases as [(s & -> & -> & ->)|Hpk'].
    + destruct Hsp as [[_ ?]|(s' & [= <-] & Hs' & Hc & Hpne)]; [discriminate|].
      eexists _, s. rewrite lookup_insert_eq. split; [reflexivity|].
      cbn. split; [exact Hpne|]. split; [|reflexivity].
      rewrite lookup_insert_ne; [exact Hs'|]. intros <-. congruence.
    + destruct (wf_index _ _ Hb _ _ Hpk') as (s0 & ps & Hs0 & Hp & Hps & ->).
      exists s0, ps.
      split; [rewrite lookup_insert_ne; [exact Hs0|intros <-; congruence]|].
      split; [exact Hp|]. split; [|reflexivity].
      rewrite lookup_insert_ne; [exact Hps|]. intros E. congruence.
Qed.

Lemma sequence_of_created tx :
  sequence
    (default (mkSnapshotsBucket ∅ 0)
       (snapshotsB (default (mkV1 None None) (v1 tx)))) = sequence_of tx
  \/ (exists v, v1 tx = Some v /\ snapshotsB v = None).
Proof.
  unfold sequence_of. destruct (v1 tx) as [[[b|] p]|]; cbn; eauto.
Qed.

(** [CreateSnapshot] keeps the store well formed, as long as the
    sequence counter stays below [2^56]. *)
Lemma CreateSnapshot_wf now tx kind key parent opts snap tx' :
  wf tx -> sequence_of tx + 1 < 2 ^ 56 ->
  CreateSnapshot now (Some tx) kind key parent opts = Ok (snap, tx') ->
  wf tx' /\ writable tx' = writable tx.
Proof.
  intros Hwf Hseq H. unfold CreateSnapshot in H.
  destruct (match kind with KindActive | KindView => Ok () | _ => _ end);
    try discriminate. cbn [mbind outcome_bind] in H.
  destruct (apply_opts opts Info0) as [base| | |]; try discriminate.
  cbn [mbind outcome_bind] in H.
  unfold createBucketIfNotExists in H.
  destruct (check_writable (writable tx)); try discriminate.
  cbn [mbind outcome_bind] in H.
  pose proof (wf_created tx Hwf) as Hb.
  assert (Hs : sequence
    (default (mkSnapshotsBucket ∅ 0)
       (snapshotsB (default (mkV1 None None) (v1 tx)))) = sequence_of tx).
  { destruct (sequence_of_created tx) as [E|(v & Hv & Hn)]; [exact E|].
    unfold wf in Hwf. rewrite Hv in Hwf. destruct Hwf as (? & ? & -> & _).
    discriminate. }
  set (b := default _ (snapshotsB _)) in *.
  set (p := default _ (parentsB _)) in *.
  unfold Bucket, CreateBucket in H. cbn [or_panic mbind outcome_bind] in H.
  destruct (writable tx) eqn:Hw; cbn [check_writable] in H;
    [|destruct (decide (parent = EmptyString)) as [|];
      [|destruct (entries b !! parent) as [sp0|];
        [destruct (decide (bKind sp0 = KindCommitted))|]];
      cbn in H; discriminate].
  assert (Hid : (sequence b + 1) mod 2 ^ 64 = sequence b + 1).
  { apply N.mod_small, pow56_64. rewrite Hs. exact Hseq. }
  destruct (decide (parent = EmptyString)) as [Hp|Hp].
  - cbn [mbind outcome_bind] in H.
    destruct (decide (key = EmptyString)) as [|Hk]; [discriminate|].
    destruct (decide (is_Some (entries b !! key))) as [|Hf]; [discriminate|].
    cbn [mbind outcome_bind] in H. injection H as <- <-. cbn.
    split; [|reflexivity]. unfold wf; cbn. eexists _, _. split; [reflexivity|].
    unfold NextSequence. rewrite Hid.
    apply (insert_snapshot_wf b p key None); auto.
    + apply eq_None_not_Some, Hf.
    + rewrite Hs. exact Hseq.
  - destruct (entries b !! parent) as [sp|] eqn:Esp; [|discriminate].
    cbn [mbind outcome_bind] in H.
    destruct (decide (bKind sp = KindCommitted)) as [Hc|]; [|discriminate].
    cbn [mbind outcome_bind] in H.
    destruct (decide (key = EmptyString)) as [|Hk]; [discriminate|].
    destruct (decide (is_Some (entries b !! key))) as [|Hf]; [discriminate|].
    cbn [mbind outcome_bind] in H. unfold NextSequence in H.
    cbn [sequence] in H. rewrite Hid in H.
    rewrite parentKey_small in H;
      [|eapply wf_id_small; eassumption|rewrite Hs; exact Hseq].
    cbn [or_panic mbind outcome_bind Put] in H.
    destruct (parents _ _ _ _); try discriminate.
    cbn [mbind outcome_bind] in H. injection H as <- <-. cbn.
    split; [|reflexivity]. unfold wf; cbn. eexists _, _. split; [reflexivity|].
    apply (insert_snapshot_wf b p key (Some sp)); auto.
    + apply eq_None_not_Some, Hf.
    + rewrite Hs. exact Hseq.
    + right. exists sp. auto.
Qed.

Lemma commit_wf b p key name s d :
  wf_buckets b p ->
  name <> EmptyString -> entries b !! name = None ->
  entries b !! key = Some s -> bKind s = KindActive ->
  bID d = bID s -> bKind d = KindCommitted -> bParent d = bParent s ->
  wf_buckets
    {| entries := delete key (<[name := d]> (entries b));
       sequence := sequence b |}
    (match entries b !! bParent s with
     | Some ps => <[composite (bID ps) (bID s) := name]> p
     | None => p
     end).
Proof.
  intros Hb Hn Hfresh Hk Hact Hid Hkind Hpar.
  assert (Hkn : key <> name) by congruence.
  assert (Hnochild : forall k' s', entries b !! k' = Some s' -> bParent s' <> key).
  { intros k' s' Hk' E.
    assert (Hne : bParent s' <> EmptyString).
    { rewrite E. intros ->. rewrite (wf_noempty _ _ Hb) in Hk. discriminate. }
    destruct (wf_parent _ _ Hb _ _ Hk' Hne) as (ps & Hps & Hc & _).
    rewrite E, Hk in Hps. injection Hps as <-. congruence. }
  assert (Hlook : forall k s0,
            delete key (<[name := d]> (entries b)) !! k = Some s0 <->
            (k = name /\ s0 = d) \/
            (k <> key /\ k <> name /\ entries b !! k = Some s0)).
  { intros k s0. rewrite lookup_delete_Some, lookup_insert_Some.
    split.
    - intros [? [[<- <-]|[? ?]]]; auto.
    - intros [[-> ->]|(? & ? & ?)]; split; auto. }
  assert (Hkeep : forall k s0, entries b !! k = Some s0 -> k <> key ->
            delete key (<[name := d]> (entries b)) !! k = Some s0).
  { intros k s0 H Hne. apply Hlook. right. split; [exact Hne|].
    split; [congruence|exact H]. }
  assert (Hold : forall k s0 ps,
            entries b !! k = Some s0 -> k <> key ->
            entries b !! bParent s0 = Some ps ->
            p !! composite (bID ps) (bID s0) = Some k ->
            (match entries b !! bParent s with
             | Some ps => <[composite (bID ps) (bID s) := name]> p
             | None => p
             end) !! composite (bID ps) (bID s0) = Some k).
  { intros k s0 ps H Hne Hps Hidx.
    destruct (entries b !! bParent s) as [ps'|] eqn:Eps; [|exact Hidx].
    rewrite lookup_insert_ne; [exact Hidx|]. intros E.
    apply composite_inj in E as [_ E];
      try (apply pow56_64; eapply wf_id_small; eassumption).
    apply Hne. eapply (wf_inj _ _ Hb); [exact H|exact Hk|congruence]. }
  split; cbn [entries sequence].
  - apply (wf_seq _ _ Hb).
  - destruct (delete key (<[name := d]> (entries b)) !! EmptyString)
      as [s0|] eqn:E; [|reflexivity].
    apply Hlook in E as [[? _]|(_ & _ & E)]; [congruence|].
    rewrite (wf_noempty _ _ Hb) in E. discriminate.
  - intros k s0 H. apply Hlook in H as [[-> ->]|(_ & _ & H)].
    + rewrite Hid. apply (wf_ids _ _ Hb _ _ Hk).
    + apply (wf_ids _ _ Hb _ _ H).
  - intros k1 k2 s1 s2 H1 H2 E.
    apply Hlook in H1 as [[-> ->]|(Hk1 & _ & H1)];
      apply Hlook in H2 as [[-> ->]|(Hk2 & _ & H2)]; try done.
    + exfalso. apply Hk2. eapply (wf_inj _ _ Hb); [exact H2|exact Hk|congruence].
    + exfalso. apply Hk1. eapply (wf_inj _ _ Hb); [exact H1|exact Hk|congruence].
    + eapply (wf_inj _ _ Hb); eassumption.
  - intros k s0 H Hp. apply Hlook in H as [[-> ->]|(Hk0 & _ & H)].
    + rewrite Hpar in Hp |- *.
      destruct (wf_parent _ _ Hb _ _ Hk Hp) as (ps & Hps & Hc & Hidx).
      exists ps. split; [|split; [exact Hc|]].
      * apply Hkeep; [exact Hps|]. intros E. exact (Hnochild _ _ Hk E).
      * rewrite Hps, Hid. apply lookup_insert_eq.
    + destruct (wf_parent _ _ Hb _ _ H Hp) as (ps & Hps & Hc & Hidx).
      exists ps. split; [|split; [exact Hc|]].
      * apply Hkeep; [exact Hps|]. intros E. exact (Hnochild _ _ H E).
      * eapply Hold; eassumption.
  - intros pk k Hpk.
    assert (Hcases : (exists ps, entries b !! bParent s = Some ps /\
                        pk = composite (bID ps) (bID s) /\ k = name) \/
                     (p !! pk = Some k /\
                      forall ps, entries b !! bParent s = Some ps ->
                                 pk <> composite (bID ps) (bID s))).
    { destruct (entries b !! bParent s) as [ps|]; [|right; split; [exact Hpk|done]].
      apply lookup_insert_Some in Hpk as [[<- <-]|[Hne Hpk]]; [eauto|].
      right. split; [exact Hpk|]. intros ps' [= <-]. congruence. }
    destruct Hcases as [(ps & Hps & -> & ->)|[Hpk' Hne]].
    + exists d, ps. split; [apply Hlook; auto|].
      rewrite Hpar, Hid.
      assert (Hp : bParent s <> EmptyString).
      { intros E. rewrite E, (wf_noempty _ _ Hb) in Hps. discriminate. }
      split; [exact Hp|]. split; [|reflexivity].
      apply Hkeep; [exact Hps|]. intros E. exact (Hnochild _ _ Hk E).
    + destruct (wf_index _ _ Hb _ _ Hpk') as (s0 & ps & Hs0 & Hp & Hps & ->).
      assert (Hk0 : k <> key).
      { intros ->. rewrite Hk in Hs0. injection Hs0 as <-.
        exact (Hne _ Hps eq_refl). }
      exists s0, ps. split; [apply Hkeep; assumption|].
      split; [exact Hp|]. split; [|reflexivity].
      apply Hkeep; [exact Hps|]. intros E. exact (Hnochild _ _ Hs0 E).
Qed.

(** [CommitActive] keeps the store well formed. *)
Lemma CommitActive_wf now tx key name usage opts id tx' :
  wf tx ->
  CommitActive now (Some tx) key name usage opts = Ok (id, tx') ->
  wf tx' /\ writable tx' = writable tx.
Proof.
  intros Hwf H. unfold CommitActive in H.
  destruct (apply_opts opts Info0) as [base| | |]; try discriminate.
  cbn [mbind outcome_bind] in H. unfold withBucket in H.
  destruct (v1 tx) as [v|] eqn:Hv; [|discriminate].
  pose proof Hwf as Hwf'. unfold wf in Hwf'. rewrite Hv in Hwf'.
  destruct Hwf' as (b & p & -> & Hb).
  cbn [snapshotsB parentsB] in H. unfold CreateBucket in H.
  cbn [or_panic mbind outcome_bind] in H.
  destruct (writable tx) eqn:Hw; cbn [check_writable] in H; [|discriminate].
  cbn [mbind outcome_bind] in H.
  destruct (decide (name = EmptyString)) as [|Hn]; [discriminate|].
  destruct (decide (is_Some (entries b !! name))) as [|Hf]; [discriminate|].
  apply eq_None_not_Some in Hf.
  cbn [mbind outcome_bind] in H.
  destruct (decide (key = name)) as [|Hkn]; [discriminate|].
  destruct (entries b !! key) as [s|] eqn:Hk; [|discriminate].
  cbn [readSnapshot InfoKind InfoParent InfoName] in H.
  destruct (decide (bKind s = KindActive)) as [Hact|]; [|discriminate].
  set (d := putUsage usage _) in H.
  pose proof (commit_wf b p key name s d Hb Hn Hf Hk Hact eq_refl eq_refl eq_refl)
    as Hwf2.
  assert (Hnopar : bParent s <> key).
  { intros E. destruct (decide (bParent s = EmptyString)) as [E0|Hp].
    - rewrite E0 in E. rewrite <- E, (wf_noempty _ _ Hb) in Hk. discriminate.
    - destruct (wf_parent _ _ Hb _ _ Hk Hp) as (ps & Hps & Hc & _).
      rewrite E, Hk in Hps. injection Hps as <-. congruence. }
  destruct (decide (bParent s = EmptyString)) as [Hp|Hp].
  - cbn [mbind outcome_bind] in H. injection H as <- <-. cbn.
    split; [|reflexivity]. unfold wf; cbn. eexists _, _. split; [reflexivity|].
    rewrite Hp, (wf_noempty _ _ Hb) in Hwf2. exact Hwf2.
  - destruct (wf_parent _ _ Hb _ _ Hk Hp) as (ps & Hps & Hc & _).
    cbn [entries] in H.
    rewrite lookup_delete_ne in H by congruence.
    rewrite lookup_insert_ne in H by congruence.
    rewrite Hps in H. rewrite Hps in Hwf2.
    rewrite parentKey_small in H
      by (first [exact (wf_id_small _ _ _ _ Hb Hps)
                |exact (wf_id_small _ _ _ _ Hb Hk)]).
    cbn [or_panic mbind outcome_bind Put check_writable] in H.
    injection H as <- <-. cbn.
    split; [|reflexivity]. unfold wf; cbn. eexists _, _. split; [reflexivity|].
    exact Hwf2.
Qed.

(** C4.  On a well-formed store, [Remove] of a snapshot fails with
    FailedPrecondition whenever the parent index records a child of its
    id; when [Remove] succeeds no record naming the removed key as parent
    remains.  Hence in a chain [k1 <- k2 <- k3] whose links are the only
    children, removing [k1] fails with FailedPrecondition while [k2]
    exists, and removing [k3], then [k2], then [k1] succeeds. *)
Theorem Remove_children_first (tx : Tx) (k1 : string) (s1 : SnapshotBucket) :
  wf tx -> snapshot_of tx k1 = Some s1 ->
  (has_child tx (bID s1) ->
     Remove (Some tx) k1 = Fail ErrFailedPrecondition) /\
  (forall r tx', Remove (Some tx) k1 = Ok (r, tx') ->
     snapshot_of tx' k1 = None /\
     forall k s, snapshot_of tx' k = Some s -> bParent s <> k1) /\
  (forall k2 k3 s2 s3,
     writable tx = true ->
     snapshot_of tx k2 = Some s2 -> bParent s2 = k1 ->
     snapshot_of tx k3 = Some s3 -> bParent s3 = k2 ->
     (forall k s, snapshot_of tx k = Some s -> bParent s = k1 -> k = k2) ->
     (forall k s, snapshot_of tx k = Some s -> bParent s = k2 -> k = k3) ->
     (forall k s, snapshot_of tx k = Some s -> bParent s <> k3) ->
     Remove (Some tx) k1 = Fail ErrFailedPrecondition /\
     exists tx3 tx2 tx1,
       Remove (Some tx) k3 = Ok ((pretty (bID s3), bKind s3), tx3) /\
       Remove (Some tx3) k2 = Ok ((pretty (bID s2), bKind s2), tx2) /\
       Remove (Some tx2) k1 = Ok ((pretty (bID s1), bKind s1), tx1)).
Proof.
  intros Hwf Hs1. split; [|split].
  - apply Remove_guard; assumption.
  - intros r tx' HR.
    destruct (Remove_Ok _ _ _ _ Hwf HR) as (s & Hs & Hnc & _ & _ & _ & _ & Hlook).
    split; [rewrite Hlook, decide_True by reflexivity; reflexivity|].
    intros k s' Hk Hpar. rewrite Hlook in Hk.
    destruct (decide (k = k1)); [discriminate|].
    apply Hnc, (has_child_iff _ _ _ Hwf Hs). eauto.
  - intros k2 k3 s2 s3 Hw Hs2 Hp2 Hs3 Hp3 Honly1 Honly2 Hleaf3.
    assert (H23 : k2 <> k3) by (intros ->; exact (Hleaf3 _ _ Hs3 Hp3)).
    assert (H13 : k1 <> k3) by (intros ->; exact (Hleaf3 _ _ Hs2 Hp2)).
    assert (H12 : k1 <> k2).
    { intros ->. apply H23. exact (Honly2 _ _ Hs2 Hp2). }
    split.
    { apply (Remove_guard _ _ _ Hwf Hs1), (has_child_iff _ _ _ Hwf Hs1). eauto. }
    destruct (Remove_leaf tx k3 s3 Hwf Hw Hs3 Hleaf3) as [tx3 HR3].
    destruct (Remove_Ok _ _ _ _ Hwf HR3)
      as (? & _ & _ & _ & Hwf3 & _ & Hw3 & Hl3).
    assert (Hs2' : snapshot_of tx3 k2 = Some s2)
      by (rewrite Hl3, decide_False by exact H23; exact Hs2).
    destruct (Remove_leaf tx3 k2 s2 Hwf3 Hw3 Hs2') as [tx2 HR2].
    { intros k s Hk Hpar. rewrite Hl3 in Hk.
      destruct (decide (k = k3)) as [|Hne]; [discriminate|].
      apply Hne. exact (Honly2 _ _ Hk Hpar). }
    destruct (Remove_Ok _ _ _ _ Hwf3 HR2)
      as (? & _ & _ & _ & Hwf2 & _ & Hw2 & Hl2).
    assert (Hs1' : snapshot_of tx2 k1 = Some s1).
    { rewrite Hl2, decide_False by exact H12.
      rewrite Hl3, decide_False by exact H13. exact Hs1. }
    destruct (Remove_leaf tx2 k1 s1 Hwf2 Hw2 Hs1') as [tx1 HR1].
    { intros k s Hk Hpar. rewrite Hl2 in Hk.
      destruct (decide (k = k2)) as [|Hne]; [discriminate|].
      rewrite Hl3 in Hk. destruct (decide (k = k3)); [discriminate|].
      apply Hne. exact (Honly1 _ _ Hk Hpar). }
    exists tx3, tx2, tx1. auto.
Qed.

Lemma create_committed_wf now tx key name parent id tx' :
  wf tx -> sequence_of tx + 1 < 2 ^ 56 ->
  create_committed now tx key name parent = Ok (id, tx') ->
  wf tx' /\ writable tx' = writable tx.
Proof.
  intros Hwf Hseq H. unfold create_committed in H.
  destruct (CreateSnapshot _ _ _ _ _ _) as [[snap tx1]| | |] eqn:E1;
    try discriminate.
  cbn [mbind outcome_bind snd] in H.
  destruct (CreateSnapshot_wf _ _ _ _ _ _ _ _ Hwf Hseq E1) as [Hwf1 Hw1].
  destruct (CommitActive_wf _ _ _ _ _ _ _ _ Hwf1 H) as [Hwf2 Hw2].
  split; [exact Hwf2|congruence].
Qed.

Lemma tx_after_create_committed_wf now tx key name parent :
  wf tx -> sequence_of tx + 1 < 2 ^ 56 ->
  wf (tx_after tx (create_committed now tx key name parent)).
Proof.
  intros Hwf Hseq.
  destruct (create_committed now tx key name parent) as [[i t]| | |] eqn:E;
    try exact Hwf.
  exact (proj1 (create_committed_wf _ _ _ _ _ _ _ Hwf Hseq E)).
Qed.

Lemma wf_chain3 : wf chain3.
Proof.
  assert (H1 : wf chain1).
  { apply tx_after_create_committed_wf; [exact I|reflexivity]. }
  assert (H2 : wf chain2).
  { apply tx_after_create_committed_wf; [exact H1|reflexivity]. }
  apply tx_after_create_committed_wf; [exact H2|reflexivity].
Qed.

Lemma chain3_Forall (P : string -> SnapshotBucket -> Prop) :
  map_Forall P
    (default ∅ (b ← (v ← v1 chain3; snapshotsB v); Some (entries b))) ->
  forall k s, snapshot_of chain3 k = Some s -> P k s.
Proof.
  intros H k s Hk. apply (H k s). revert Hk. unfold snapshot_of.
  destruct (v1 chain3) as [[[b|] p]|]; cbn; done.
Qed.

Lemma Remove_children_first_witness :
  Remove (Some chain3) "s1" = Fail ErrFailedPrecondition /\
  exists tx3 tx2 tx1,
    Remove (Some chain3) "s3" = Ok (("3", KindCommitted), tx3) /\
    Remove (Some tx3) "s2" = Ok (("2", KindCommitted), tx2) /\
    Remove (Some tx2) "s1" = Ok (("1", KindCommitted), tx1).
Proof.
  refine (proj2 (proj2 (Remove_children_first chain3 "s1"
            (mkSnapshotBucket 1 KindCommitted EmptyString 0%Z 0%Z ∅
               (mkUsage 0%Z 0%Z)) wf_chain3 _))
            "s2" "s3"
            (mkSnapshotBucket 2 KindCommitted "s1" 1%Z 1%Z ∅ (mkUsage 0%Z 0%Z))
            (mkSnapshotBucket 3 KindCommitted "s2" 2%Z 2%Z ∅ (mkUsage 0%Z 0%Z))
            _ _ _ _ _ _ _ _).
  - vm_compute. reflexivity.
  - reflexivity.
  - vm_compute. reflexivity.
  - reflexivity.
  - vm_compute. reflexivity.
  - reflexivity.
  - apply (chain3_Forall (fun k s => bParent s = "s1" -> k = "s2")).
    apply (bool_decide_unpack _). vm_compute. exact I.
  - apply (chain3_Forall (fun k s => bParent s = "s2" -> k = "s3")).
    apply (bool_decide_unpack _). vm_compute. exact I.
  - apply (chain3_Forall (fun k s => bParent s <> "s3")).
    apply (bool_decide_unpack _). vm_compute. exact I.
Defined.

End Storage.

(** ** Mark and sweep: marking

    The generic half of the collector: breadth-first marking of a graph
    given by its roots and a [refs] function, and the proof that it marks
    exactly what is reachable. *)

Module Mark.
#[local] Set Warnings "-clear-no-such-hyp".
Section mark.
Context {V : Type} {V_eq : EqDecision V} {V_countable : Countable V}.
Variable refs : V -> list V.

(** The vertices one edge away from a set. *)
Definition successors (X : gset V) : gset V :=
  list_to_set (elements X ≫= refs).

(** Breadth-first marking, a level at a time: [seen] are the vertices
    marked so far, [frontier] those marked in the last round. *)
Fixpoint bfs (fuel : nat) (seen frontier : gset V) : gset V :=
  match fuel with
  | O => seen
  | S fuel =>
      let next := successors frontier ∖ seen in
      if decide (next = ∅) then seen else bfs fuel (seen ∪ next) next
  end.

(** The vertices with an outgoing edge lie in [domain]; this bounds the
    number of rounds. *)
Definition rounds (roots domain : list V) : nat :=
  S (length roots + length (domain ≫= refs)).

Definition marked (roots domain : list V) : gset V :=
  bfs (rounds roots domain) (list_to_set roots) (list_to_set roots).

(** Reachability from the roots along [refs]. *)
Inductive reach (roots : list V) : V -> Prop :=
| reach_root v : v ∈ roots -> reach roots v
| reach_step v w : reach roots v -> w ∈ refs v -> reach roots w.

Lemma elem_of_successors X w :
  w ∈ successors X <-> exists v, v ∈ X /\ w ∈ refs v.
Proof.
  unfold successors. rewrite elem_of_list_to_set, list_elem_of_bind.
  split; intros (v & Hv & Hw); exists v.
  - apply elem_of_elements in Hw. done.
  - rewrite elem_of_elements. done.
Qed.

Lemma bfs_sound roots fuel : forall seen frontier,
  (forall v, v ∈ seen -> reach roots v) -> frontier ⊆ seen ->
  forall v, v ∈ bfs fuel seen frontier -> reach roots v.
Proof.
  induction fuel as [|fuel IH]; intros seen frontier Hseen Hfr v; cbn; [auto|].
  destruct (decide _) as [|Hne]; [auto|].
  apply IH; [|set_solver].
  intros w [Hw|Hw]%elem_of_union; [auto|].
  apply elem_of_difference in Hw as [Hw _].
  apply elem_of_successors in Hw as (u & Hu & Hw).
  eapply reach_step; [|exact Hw]. apply Hseen, Hfr, Hu.
Qed.

(** A set that contains the roots and is closed under [refs] contains
    everything reachable. *)
Lemma reach_closed roots (S : gset V) :
  (forall v, v ∈ roots -> v ∈ S) ->
  (forall v w, v ∈ S -> w ∈ refs v -> w ∈ S) ->
  forall v, reach roots v -> v ∈ S.
Proof. intros Hr Hc v Hv. induction Hv; eauto. Qed.

Lemma bfs_complete (U : gset V) fuel : forall seen frontier,
  (forall v w, v ∈ U -> w ∈ refs v -> w ∈ U) ->
  seen ⊆ U -> frontier ⊆ seen ->
  (forall v w, v ∈ seen -> v ∉ frontier -> w ∈ refs v -> w ∈ seen) ->
  size U < fuel + size seen ->
  forall v w, v ∈ bfs fuel seen frontier -> w ∈ refs v ->
              w ∈ bfs fuel seen frontier.
Proof.
  induction fuel as [|fuel IH]; intros seen frontier HU Hseen Hfr Hdone Hsize.
  - apply subseteq_size in Hseen. lia.
  - cbn. destruct (decide (successors frontier ∖ seen = ∅)) as [He|Hne].
    + intros v w Hv Hw. destruct (decide (v ∈ frontier)) as [Hf|Hf]; [|eauto].
      destruct (decide (w ∈ seen)) as [|Hn]; [done|].
      assert (w ∈ successors frontier ∖ seen); [|set_solver].
      apply elem_of_difference. split; [|done].
      apply elem_of_successors. eauto.
    + assert (Hsub : successors frontier ∖ seen ⊆ U).
      { intros w [Hw _]%elem_of_difference.
        apply elem_of_successors in Hw as (u & Hu & Hw).
        eapply HU; [|exact Hw]. apply Hseen, Hfr, Hu. }
      apply IH; try done.
      * set_solver.
      * set_solver.
      * intros v w [Hv|Hv]%elem_of_union Hn Hw; [|done].
        destruct (decide (v ∈ frontier)) as [Hf|Hf].
        -- destruct (decide (w ∈ seen)); [set_solver|].
           apply elem_of_union_r, elem_of_difference. split; [|done].
           apply elem_of_successors. eauto.
        -- apply elem_of_union_l. eauto.
      * rewrite size_union by set_solver.
        assert (size (successors frontier ∖ seen) <> 0)
          by (intros E; apply size_empty_inv in E; apply Hne;
              apply leibniz_equiv, E).
        lia.
Qed.

Lemma bfs_extends fuel : forall seen frontier,
  seen ⊆ bfs fuel seen frontier.
Proof.
  induction fuel as [|fuel IH]; intros seen frontier; cbn; [done|].
  destruct (decide _); [done|]. etrans; [|apply IH]. set_solver.
Qed.

(** The universe of vertices that marking can meet. *)
Definition universe (roots domain : list V) : gset V :=
  list_to_set roots ∪ list_to_set (domain ≫= refs).

Lemma universe_size roots domain :
  size (universe roots domain) < rounds roots domain.
Proof.
  unfold universe, rounds.
  pose proof (size_union_alt (list_to_set roots : gset V)
                (list_to_set (domain ≫= refs))) as E.
  assert (Hl : forall l : list V, size (list_to_set l : gset V) <= length l).
  { induction l as [|x l IHl]; cbn; [rewrite size_empty; lia|].
    destruct (decide (x ∈ (list_to_set l : gset V))).
    - replace ({[x]} ∪ list_to_set l) with (list_to_set l : gset V)
        by set_solver. lia.
    - rewrite size_union, size_singleton by set_solver. lia. }
  pose proof (Hl roots) as H1.
  pose proof (Hl (domain ≫= refs)) as H2.
  assert (H3 : size (list_to_set (domain ≫= refs) ∖ list_to_set roots
                     : gset V)
               <= size (list_to_set (domain ≫= refs) : gset V))
    by (apply subseteq_size; set_solver).
  rewrite E. lia.
Qed.

(** Marking computes reachability, provided [domain] lists every vertex
    that has an outgoing edge. *)
Theorem marked_reach roots domain :
  (forall v w, w ∈ refs v -> v ∈ domain) ->
  forall v, v ∈ marked roots domain <-> reach roots v.
Proof.
  intros Hdom v. unfold marked. split.
  - apply bfs_sound; [|done]. intros w Hw. apply reach_root.
    apply elem_of_list_to_set in Hw. exact Hw.
  - apply reach_closed.
    + intros w Hw. apply bfs_extends, elem_of_list_to_set, Hw.
    + apply (bfs_complete (universe roots domain)).
      * intros u w _ Hw. unfold universe. apply elem_of_union_r.
        apply elem_of_list_to_set, list_elem_of_bind.
        exists u. split; [exact Hw|eapply Hdom, Hw].
      * unfold universe. set_solver.
      * done.
      * intros u w Hu Hn. done.
      * pose proof (universe_size roots domain). lia.
Qed.

End mark.
(** *** Marking with references that can fail

    The same marking over a [refs] that returns an error or a list: the
    first error met ends the marking. *)
Section fallible.
Context {V : Type} {V_eq : EqDecision V} {V_countable : Countable V}.
Context {E : Type}.
Variable refs : V -> E + list V.

(** The references of a vertex, none where [refs] fails. *)
Definition total (v : V) : list V :=
  match refs v with
  | inr ws => ws
  | inl _ => []
  end.

(** The references of a list of vertices, up to the first error. *)
Fixpoint gather (vs : list V) : E + list V :=
  match vs with
  | [] => inr []
  | v :: vs =>
      match refs v with
      | inl e => inl e
      | inr ws =>
          match gather vs with
          | inl e => inl e
          | inr rest => inr (ws ++ rest)
          end
      end
  end.

Fixpoint bfs_err (fuel : nat) (seen frontier : gset V) : E + gset V :=
  match fuel with
  | O => inr seen
  | S fuel =>
      match gather (elements frontier) with
      | inl e => inl e
      | inr ws =>
          let next := list_to_set ws ∖ seen in
          if decide (next = ∅) then inr seen
          else bfs_err fuel (seen ∪ next) next
      end
  end.

Definition marked_err (roots domain : list V) : E + gset V :=
  bfs_err (rounds total roots domain) (list_to_set roots) (list_to_set roots).

Lemma gather_inr vs ws :
  gather vs = inr ws ->
  ws = vs ≫= total /\ forall v, v ∈ vs -> exists l, refs v = inr l.
Proof.
  revert ws. induction vs as [|v vs IH]; intros ws; cbn.
  - intros [= <-]. split; [reflexivity|]. intros v Hv. inversion Hv.
  - unfold total at 1. destruct (refs v) as [e|l] eqn:Ev; [discriminate|].
    destruct (gather vs) as [e|rest]; [discriminate|].
    intros [= <-]. destruct (IH rest eq_refl) as [-> Hall].
    split; [reflexivity|].
    intros u [->|Hu]%elem_of_cons; eauto.
Qed.

Lemma gather_inl vs e :
  gather vs = inl e -> exists v, v ∈ vs /\ refs v = inl e.
Proof.
  induction vs as [|v vs IH]; cbn; [discriminate|].
  destruct (refs v) as [e'|l] eqn:Ev.
  - intros [= <-]. exists v. split; [left|exact Ev].
  - destruct (gather vs) as [e'|rest]; [|discriminate].
    intros [= <-]. destruct (IH eq_refl) as (u & Hu & He).
    exists u. split; [right; exact Hu|exact He].
Qed.

Lemma gather_ok vs :
  (forall v, v ∈ vs -> exists l, refs v = inr l) ->
  exists ws, gather vs = inr ws.
Proof.
  induction vs as [|v vs IH]; intros Hall; cbn; [eauto|].
  destruct (Hall v) as [l ->]; [left|].
  destruct IH as [rest ->]; [intros u Hu; apply Hall; right; exact Hu|].
  eauto.
Qed.

(** A marking that ends without error is the marking along the
    references that did not fail. *)
Lemma bfs_err_inr fuel : forall seen frontier m,
  bfs_err fuel seen frontier = inr m -> m = bfs total fuel seen frontier.
Proof.
  induction fuel as [|fuel IH]; intros seen frontier m; cbn.
  - intros [= <-]. reflexivity.
  - destruct (gather (elements frontier)) as [e|ws] eqn:Eg; [discriminate|].
    apply gather_inr in Eg as [-> _].
    change (list_to_set (elements frontier ≫= total))
      with (successors total frontier).
    destruct (decide _); [intros [= <-]; reflexivity|]. apply IH.
Qed.

(** A marking ends in an error only at a vertex it has reached. *)
Lemma bfs_err_inl roots fuel : forall seen frontier e,
  (forall v, v ∈ seen -> reach total roots v) -> frontier ⊆ seen ->
  bfs_err fuel seen frontier = inl e ->
  exists v, reach total roots v /\ refs v = inl e.
Proof.
  induction fuel as [|fuel IH]; intros seen frontier e Hseen Hfr; cbn;
    [discriminate|].
  destruct (gather (elements frontier)) as [e'|ws] eqn:Eg.
  - intros [= <-]. apply gather_inl in Eg as (v & Hv & He).
    exists v. split; [|exact He]. apply Hseen, Hfr, elem_of_elements, Hv.
  - apply gather_inr in Eg as [-> _].
    destruct (decide _); [discriminate|]. apply IH; [|set_solver].
    intros w [Hw|Hw]%elem_of_union; [auto|].
    apply elem_of_difference in Hw as [Hw _].
    apply elem_of_list_to_set, list_elem_of_bind in Hw as (u & Hw & Hu).
    eapply reach_step; [|exact Hw]. apply Hseen, Hfr, elem_of_elements, Hu.
Qed.

(** A marking ends without error when no vertex it can reach fails. *)
Lemma bfs_err_ok roots fuel : forall seen frontier,
  (forall v, reach total roots v -> exists l, refs v = inr l) ->
  (forall v, v ∈ seen -> reach total roots v) -> frontier ⊆ seen ->
  exists m, bfs_err fuel seen frontier = inr m.
Proof.
  induction fuel as [|fuel IH]; intros seen frontier Hok Hseen Hfr; cbn;
    [eauto|].
  destruct (gather_ok (elements frontier)) as [ws Eg].
  { intros v Hv. apply Hok, Hseen, Hfr, elem_of_elements, Hv. }
  rewrite Eg. apply gather_inr in Eg as [-> _].
  destruct (decide _); [eauto|]. apply IH; [exact Hok| |set_solver].
  intros w [Hw|Hw]%elem_of_union; [auto|].
  apply elem_of_difference in Hw as [Hw _].
  apply elem_of_list_to_set, list_elem_of_bind in Hw as (u & Hw & Hu).
  eapply reach_step; [|exact Hw]. apply Hseen, Hfr, elem_of_elements, Hu.
Qed.

Lemma roots_reach roots v :
  v ∈ (list_to_set roots : gset V) -> reach total roots v.
Proof. intros Hv. apply elem_of_list_to_set in Hv. apply reach_root, Hv. Qed.

(** With enough rounds, a marking that ends without error has asked
    every vertex it marked for its references. *)
Lemma bfs_err_asked (U : gset V) fuel : forall seen frontier m,
  (forall v w, v ∈ U -> w ∈ total v -> w ∈ U) ->
  seen ⊆ U -> frontier ⊆ seen ->
  (forall v, v ∈ seen -> v ∉ frontier -> exists l, refs v = inr l) ->
  size U < fuel + size seen ->
  bfs_err fuel seen frontier = inr m ->
  forall v, v ∈ m -> exists l, refs v = inr l.
Proof.
  induction fuel as [|fuel IH]; intros seen frontier m HU Hseen Hfr Hdone Hsize.
  - apply subseteq_size in Hseen. lia.
  - cbn. destruct (gather (elements frontier)) as [e|ws] eqn:Eg; [discriminate|].
    apply gather_inr in Eg as [-> Hall].
    set (next := list_to_set (elements frontier ≫= total) ∖ seen).
    assert (Hasked : forall v, v ∈ seen -> exists l, refs v = inr l).
    { intros v Hv. destruct (decide (v ∈ frontier)) as [Hf|Hf]; [|auto].
      apply Hall, elem_of_elements, Hf. }
    destruct (decide (next = ∅)) as [He|Hne].
    + intros [= <-]. exact Hasked.
    + assert (Hsub : next ⊆ U).
      { intros w [Hw _]%elem_of_difference.
        apply elem_of_list_to_set, list_elem_of_bind in Hw as (u & Hw & Hu).
        eapply HU; [|exact Hw]. apply Hseen, Hfr, elem_of_elements, Hu. }
      apply IH; try done.
      * set_solver.
      * set_solver.
      * intros v [Hv|Hv]%elem_of_union Hn; [auto|contradiction].
      * rewrite size_union by set_solver.
        assert (size next <> 0)
          by (intros E0; apply size_empty_inv in E0; apply Hne;
              apply leibniz_equiv, E0).
        lia.
Qed.

(** Marking either fails at a reachable vertex whose references fail, or
    marks exactly what is reachable. *)
Theorem marked_err_reach roots domain :
  (forall v w, w ∈ total v -> v ∈ domain) ->
  match marked_err roots domain with
  | inr m => (forall v, v ∈ m <-> reach total roots v) /\
             (forall v, reach total roots v -> exists l, refs v = inr l)
  | inl e => exists v, reach total roots v /\ refs v = inl e
  end.
Proof.
  intros Hdom. unfold marked_err.
  destruct (bfs_err _ _ _) as [e|m] eqn:Em.
  - eapply bfs_err_inl; [|reflexivity|exact Em]. apply roots_reach.
  - split.
    + intros v. apply bfs_err_inr in Em as ->.
      apply (marked_reach total roots domain Hdom).
    + intros v Hv.
      assert (Hm : v ∈ m).
      { pose proof Em as Em'. apply bfs_err_inr in Em'. subst m.
        apply (marked_reach total roots domain Hdom), Hv. }
      apply (bfs_err_asked (universe total roots domain)
               (rounds total roots domain) (list_to_set roots)
               (list_to_set roots) m); try done.
      * intros u w _ Hw. unfold universe. apply elem_of_union_r.
        apply elem_of_list_to_set, list_elem_of_bind.
        exists u. split; [exact Hw|eapply Hdom, Hw].
      * unfold universe. set_solver.
      * pose proof (universe_size total roots domain). lia.
Qed.

End fallible.

End Mark.


(** ** Mark and sweep over the metadata store

    Modelled from the spec: the garbage collector of [core/metadata]
    ([gc.go], [db.go]) and the stores it walks are not among the sources;
    only [db_test.go] is.  The data model follows section 3 of the
    specification and the cycle its section 4.5; where the specification
    is silent or disagrees with [TestMetadataCollector], the test decides
    (the parents of a snapshot held by a flat lease stay alive, and a
    content label [containerd.io/gc.ref.<label>] refers to a node of the
    collectible resource registered under [<label>]).  The sweep deletes
    through the stores: a snapshot that still has a child when its turn
    comes is refused by its store and skipped (sections 4.3, 4.5 and 7). *)

Module GC.

(** [gc.ResourceType]; a registered collectible resource has its own tag. *)
Inductive ResourceType :=
| ResourceContent
| ResourceSnapshot
| ResourceImage
| ResourceLease
| ResourceCollectible (tag : N).

#[export] Instance ResourceType_eq_dec : EqDecision ResourceType.
Proof. solve_decision. Defined.

#[export] Instance ResourceType_countable : Countable ResourceType.
Proof.
  refine (inj_countable'
    (fun t => match t with
              | ResourceContent => inl 0%nat
              | ResourceSnapshot => inl 1%nat
              | ResourceImage => inl 2%nat
              | ResourceLease => inl 3%nat
              | ResourceCollectible tag => inr tag
              end)
    (fun x => match x with
              | inl 0%nat => ResourceContent
              | inl 1%nat => ResourceSnapshot
              | inl 2%nat => ResourceImage
              | inl _ => ResourceLease
              | inr tag => ResourceCollectible tag
              end) _).
  intros []; reflexivity.
Defined.

(** [gc.Node]: every object is scoped by namespace, kind and id. *)
Record Node := mkNode {
  NodeType : ResourceType;
  Namespace : string;
  Key : string;
}.

#[export] Instance Node_eq_dec : EqDecision Node.
Proof. solve_decision. Defined.

#[export] Instance Node_countable : Countable Node.
Proof.
  refine (inj_countable'
    (fun n => (NodeType n, Namespace n, Key n))
    (fun x => mkNode x.1.1 x.1.2 x.2) _).
  intros []; reflexivity.
Defined.

(** A vertex of the marking graph: a node, and whether it was reached on
    behalf of a flat lease only. *)
Definition vertex : Type := bool * Node.

(** *** The objects of section 3 *)

Record Content := mkContent {
  ContentSize : Z;
  ContentLabels : gmap string string;
}.

(** A snapshot is stored under ["<snapshotter>/<key>"]; its parent is a
    key of the same snapshotter, empty for a root snapshot. *)
Record Snapshot := mkSnapshot {
  Snapshotter : string;
  Parent : string;
  SnapshotLabels : gmap string string;
}.

Record Image := mkImage {
  Target : string;
  ImageLabels : gmap string string;
}.

Record Container := mkContainer {
  ContainerSnapshotter : string;
  SnapshotKey : string;
  ContainerLabels : gmap string string;
}.

(** [leases.Resource]. *)
Record Resource := mkResource {
  ResourceID : string;
  ResourceKind : string;
}.

Record Lease := mkLease {
  Expiration : option Z;
  LeaseLabels : gmap string string;
  Resources : list Resource;
}.

(** The stores, each keyed by namespace and id, and the nodes held by
    the registered collectible resources, by tag, namespace and key. *)
Record Store := mkStore {
  contents : gmap (string * string) Content;
  snapshots : gmap (string * string) Snapshot;
  images : gmap (string * string) Image;
  containers : gmap (string * string) Container;
  leases : gmap (string * string) Lease;
  collected : gset (N * string * string);
}.

(** An object of any kind, for statements that range over all nodes. *)
Inductive Object :=
| OContent (c : Content)
| OSnapshot (s : Snapshot)
| OImage (i : Image)
| OLease (l : Lease)
| OCollectible.

Definition object_of (s : Store) (n : Node) : option Object :=
  match NodeType n with
  | ResourceContent => OContent <$> contents s !! (Namespace n, Key n)
  | ResourceSnapshot => OSnapshot <$> snapshots s !! (Namespace n, Key n)
  | ResourceImage => OImage <$> images s !! (Namespace n, Key n)
  | ResourceLease => OLease <$> leases s !! (Namespace n, Key n)
  | ResourceCollectible tag =>
      if decide ((tag, Namespace n, Key n) ∈ collected s)
      then Some OCollectible else None
  end.

(** [Stats]: bytes freed and elements removed per kind. *)
Record Stats := mkStats {
  BytesFreed : Z;
  RemovedContent : nat;
  RemovedSnapshots : nat;
  RemovedImages : nat;
  RemovedLeases : nat;
  RemovedCollectible : nat;
}.

Definition content_node (ns digest : string) : Node :=
  mkNode ResourceContent ns digest.
Definition snapshot_node (ns snapshotter key : string) : Node :=
  mkNode ResourceSnapshot ns (snapshotter +:+ "/" +:+ key).
Definition image_node (ns name : string) : Node :=
  mkNode ResourceImage ns name.
Definition lease_node (ns id : string) : Node :=
  mkNode ResourceLease ns id.

Definition labelGCRoot : string := "containerd.io/gc.root".
Definition labelGCFlat : string := "containerd.io/gc.flat".
Definition labelGCContentRef : string := "containerd.io/gc.ref.content.".
Definition labelGCRef : string := "containerd.io/gc.ref.".

Section Collector.
(** Go's [error]. *)
Context {error : Type}.

(** A registered collectible resource: the label under which content and
    snapshots refer to its nodes, its always-alive nodes, the nodes a
    lease keeps, and the references of a node.  Section 4.6 gives
    [References] no error; it has one here, as the callback of the
    marking that section 7 lets fail. *)
Record Collector := mkCollector {
  ReferenceLabel : string;
  Active : list Node;
  Leased : string -> string -> error + list Node;
  References : Node -> error + list Node;
}.

(** The configuration of one collector instance: the registry, the
    reading of a timestamp off a label value, the snapshotter named by a
    label key of the [gc.ref.snapshot] pattern, and what can go wrong
    with the transaction itself. *)
Record Config := mkConfig {
  collectors : gmap N Collector;
  parse_time : string -> option Z;
  snapshot_ref : string -> option string;
  BeginError : option error;
  CommitError : option error;
}.

Variable cfg : Config.
(** The time of the cycle. *)
Variable now : Z.

Definition expired (value : string) : bool :=
  match parse_time cfg value with
  | Some t => (t <? now)%Z
  | None => false
  end.

(** A content node is a root while it carries an unexpired root label. *)
Definition is_root (c : Content) : bool :=
  match ContentLabels c !! labelGCRoot with
  | Some v => negb (expired v)
  | None => false
  end.

Definition lease_expired (l : Lease) : bool :=
  match Expiration l with
  | Some t => (t <? now)%Z
  | None => false
  end.

Definition is_flat (l : Lease) : bool :=
  bool_decide (is_Some (LeaseLabels l !! labelGCFlat)).

(** Whether a label key refers to a collectible resource registered
    under [label]: the key is [containerd.io/gc.ref.<label>], possibly
    followed by a dot and a suffix. *)
Definition collectible_ref (label key : string) : bool :=
  bool_decide (key = labelGCRef +:+ label)
  || String.prefix (labelGCRef +:+ label +:+ ".") key.

(** The nodes one label refers to. *)
Definition label_ref (ns key value : string) : list Node :=
  (if String.prefix labelGCContentRef key then [content_node ns value]
   else [])
  ++ match snapshot_ref cfg key with
     | Some snapshotter => [snapshot_node ns snapshotter value]
     | None => []
     end
  ++ (map_to_list (collectors cfg) ≫= fun tc : N * Collector =>
        if collectible_ref (ReferenceLabel tc.2) key
        then [mkNode (ResourceCollectible tc.1) ns value]
        else []).

(** The references encoded in the labels of an object. *)
Definition label_refs (ns : string) (labels : gmap string string)
  : list vertex :=
  map_to_list labels ≫= fun kv : string * string =>
    pair false <$> label_ref ns kv.1 kv.2.

(** The node a lease resource points at: content, or a snapshot of the
    snapshotter named after ["snapshots/"]. *)
Definition resource_node (ns : string) (r : Resource) : list Node :=
  if decide (ResourceKind r = "content")
  then [content_node ns (ResourceID r)]
  else if String.prefix "snapshots/" (ResourceKind r)
       then [snapshot_node ns
               (String.substring 10 (String.length (ResourceKind r) - 10)
                  (ResourceKind r))
               (ResourceID r)]
       else [].

(** Collecting a list of results, stopping at the first error. *)
Fixpoint collect {A B} (f : A -> error + list B) (l : list A)
  : error + list B :=
  match l with
  | [] => inr []
  | a :: l =>
      match f a with
      | inl e => inl e
      | inr bs =>
          match collect f l with
          | inl e => inl e
          | inr rest => inr (bs ++ rest)
          end
      end
  end.

(** *** Roots *)

Definition content_roots (s : Store) : list vertex :=
  map_to_list (contents s) ≫= fun kc : string * string * Content =>
    if is_root kc.2 then [(false, content_node kc.1.1 kc.1.2)] else [].

Definition container_roots (s : Store) : list vertex :=
  map_to_list (containers s) ≫= fun kc : string * string * Container =>
    (false, snapshot_node kc.1.1 (ContainerSnapshotter kc.2) (SnapshotKey kc.2))
    :: label_refs kc.1.1 (ContainerLabels kc.2).

Definition image_roots (s : Store) : list vertex :=
  map_to_list (images s) ≫= fun ki : string * string * Image =>
    (false, image_node ki.1.1 ki.1.2)
    :: (false, content_node ki.1.1 (Target ki.2))
    :: label_refs ki.1.1 (ImageLabels ki.2).

(** The roots one lease contributes: itself, its listed resources (as
    flat vertices when the lease is flat), and what the registered
    collectible resources hold for it. *)
Definition lease_roots (kl : string * string * Lease)
  : error + list vertex :=
  if lease_expired kl.2 then inr []
  else
    match collect (fun tc : N * Collector => Leased tc.2 kl.1.1 kl.1.2)
                  (map_to_list (collectors cfg)) with
    | inl e => inl e
    | inr held =>
        inr ((false, lease_node kl.1.1 kl.1.2)
             :: (pair (is_flat kl.2) <$>
                   (Resources kl.2 ≫= resource_node kl.1.1))
             ++ (pair false <$> held))
    end.

Definition active_roots : list vertex :=
  map_to_list (collectors cfg) ≫= fun tc : N * Collector =>
    pair false <$> Active tc.2.

(** Modelled from the spec: [scanRoots] of [core/metadata/gc.go], which
    is not among the sources; step 2 of the cycle. *)
Definition scanRoots (s : Store) : error + list vertex :=
  match collect lease_roots (map_to_list (leases s)) with
  | inl e => inl e
  | inr lease_rs =>
      inr (content_roots s ++ container_roots s ++ image_roots s
           ++ lease_rs ++ active_roots)
  end.

(** *** References *)

(** Modelled from the spec: [references] of [core/metadata/gc.go], which
    is not among the sources; the outgoing edges of a vertex.  A flat
    snapshot vertex keeps its
    parent alive, as a flat vertex, and nothing else; a flat content
    vertex has no edges.  A node that does not exist has none either.
    Reading the labels of a stored object cannot fail; the callback of a
    collectible resource can. *)
Definition references (s : Store) (v : vertex) : error + list vertex :=
  let '(flat, n) := v in
  match NodeType n with
  | ResourceContent =>
      if flat then inr []
      else match contents s !! (Namespace n, Key n) with
           | Some c => inr (label_refs (Namespace n) (ContentLabels c))
           | None => inr []
           end
  | ResourceSnapshot =>
      match snapshots s !! (Namespace n, Key n) with
      | Some sn =>
          inr ((if decide (Parent sn = EmptyString) then []
                else [(flat, snapshot_node (Namespace n) (Snapshotter sn)
                               (Parent sn))])
               ++ (if flat then []
                   else label_refs (Namespace n) (SnapshotLabels sn)))
      | None => inr []
      end
  | ResourceCollectible tag =>
      match collectors cfg !! tag with
      | Some c =>
          if decide ((tag, Namespace n, Key n) ∈ collected s)
          then match References c n with
               | inl e => inl e
               | inr ns => inr (pair false <$> ns)
               end
          else inr []
      | None => inr []
      end
  | ResourceImage | ResourceLease => inr []
  end.

(** Every node of the kinds the sweep visits. *)
Definition scanAll (s : Store) : list Node :=
  ((fun k : string * string => content_node k.1 k.2)
     <$> (map_to_list (contents s)).*1)
  ++ ((fun k : string * string => mkNode ResourceSnapshot k.1 k.2)
        <$> (map_to_list (snapshots s)).*1)
  ++ ((fun k : string * string => image_node k.1 k.2)
        <$> (map_to_list (images s)).*1)
  ++ ((fun k : string * string => lease_node k.1 k.2)
        <$> (map_to_list (leases s)).*1)
  ++ ((fun k : N * string * string =>
         mkNode (ResourceCollectible k.1.1) k.1.2 k.2)
        <$> elements (collected s)).

(** The vertices that can have an outgoing edge. *)
Definition domain (s : Store) : list vertex :=
  (pair false <$> scanAll s) ++ (pair true <$> scanAll s).

(** Modelled from the spec: the marking of [pkg/gc], which is not among
    the sources; step 3 of the cycle.  An error of a reference callback
    ends the marking. *)
Definition mark (s : Store) (roots : list vertex) : error + gset vertex :=
  Mark.marked_err (references s) roots (domain s).

Definition live (m : gset vertex) (n : Node) : bool :=
  bool_decide ((false, n) ∈ m) || bool_decide ((true, n) ∈ m).

(** *** Sweep *)

(** A stored snapshot names [k] as its parent. *)
Definition child_of (k : string * string) (kc : string * string * Snapshot)
  : bool :=
  bool_decide (kc.1.1 = k.1)
  && negb (bool_decide (Parent kc.2 = EmptyString))
  && bool_decide (Snapshotter kc.2 +:+ "/" +:+ Parent kc.2 = k.2).

Definition has_child (snaps : gmap (string * string) Snapshot)
    (k : string * string) : bool :=
  existsb (child_of k) (map_to_list snaps).

(** Modelled from the spec: [Remove] of the snapshot store (section 4.3),
    on the records of this module: it is refused, with FailedPrecondition,
    while a snapshot names the key as its parent. *)
Definition RemoveSnapshot (snaps : gmap (string * string) Snapshot)
    (k : string * string) : option (gmap (string * string) Snapshot) :=
  if has_child snaps k then None else Some (delete k snaps).

(** The keys of a bucket come in ascending order. *)
Definition key_leb (a b : string * string) : bool :=
  match String.compare a.1 b.1 with
  | Lt => true
  | Eq => String.leb a.2 b.2
  | Gt => false
  end.

Definition sweep_order (snaps : gmap (string * string) Snapshot)
  : list (string * string) :=
  merge_sort (fun a b => Is_true (key_leb a b)) (map_to_list snaps).*1.

(** One snapshot of the sweep: a snapshot that is not marked is removed
    through its store, and skipped when the store refuses. *)
Definition sweep_snapshot (m : gset vertex)
    (snaps : gmap (string * string) Snapshot) (k : string * string)
  : gmap (string * string) Snapshot :=
  if live m (mkNode ResourceSnapshot k.1 k.2) then snaps
  else match RemoveSnapshot snaps k with
       | Some snaps' => snaps'
       | None => snaps
       end.

Definition sweep_snapshots (m : gset vertex)
    (snaps : gmap (string * string) Snapshot)
  : gmap (string * string) Snapshot :=
  foldl (sweep_snapshot m) snaps (sweep_order snaps).

(** Modelled from the spec: the sweep of [core/metadata/gc.go], which is
    not among the sources; step 4 of the cycle: every node of every kind
    that is not marked is deleted through its store.  Only the snapshot
    store has a check of its own that can refuse. *)
Definition sweep (s : Store) (m : gset vertex) : Store :=
  {| contents :=
       filter (fun kc => live m (content_node kc.1.1 kc.1.2) = true)
              (contents s);
     snapshots := sweep_snapshots m (snapshots s);
     images :=
       filter (fun kc => live m (image_node kc.1.1 kc.1.2) = true)
              (images s);
     containers := containers s;
     leases :=
       filter (fun kc => live m (lease_node kc.1.1 kc.1.2) = true)
              (leases s);
     collected :=
       filter (fun k => live m (mkNode (ResourceCollectible k.1.1) k.1.2 k.2)
                        = true)
              (collected s) |}.

Definition removed_size (s : Store) (m : gset vertex) : Z :=
  foldr (fun kc acc =>
           if live m (content_node kc.1.1 kc.1.2) then acc
           else (ContentSize kc.2 + acc)%Z)
        0%Z (map_to_list (contents s)).

Definition stats_of (s s' : Store) (m : gset vertex) : Stats :=
  {| BytesFreed := removed_size s m;
     RemovedContent := size (contents s) - size (contents s');
     RemovedSnapshots := size (snapshots s) - size (snapshots s');
     RemovedImages := size (images s) - size (images s');
     RemovedLeases := size (leases s) - size (leases s');
     RemovedCollectible := size (collected s) - size (collected s') |}.

(** *** The cycle, in its transaction *)

(** Modelled from the spec: a write transaction of the underlying store
    ([bolt.DB.Update]): [fn] works on its own copy, which replaces the
    store only if [fn] and the commit both succeed. *)
Definition update {A} (db : Store) (fn : Store -> error + (Store * A))
  : Store * (error + A) :=
  match BeginError cfg with
  | Some e => (db, inl e)
  | None =>
      match fn db with
      | inl e => (db, inl e)
      | inr (tx, a) =>
          match CommitError cfg with
          | Some e => (db, inl e)
          | None => (tx, inr a)
          end
      end
  end.

(** Steps 2 to 4 on the transaction's copy of the store: an error while
    the roots are collected or during the marking ends the cycle; what
    the sweep is refused does not. *)
Definition cycle (tx : Store) : error + (Store * Stats) :=
  match scanRoots tx with
  | inl e => inl e
  | inr roots =>
      match mark tx roots with
      | inl e => inl e
      | inr m =>
          let tx' := sweep tx m in
          inr (tx', stats_of tx tx' m)
      end
  end.

(** Modelled from the spec: [DB.GarbageCollect] of [core/metadata/db.go],
    which is not among the sources: one cycle in one write transaction. *)
Definition GarbageCollect (db : Store) : Store * (error + Stats) :=
  update db cycle.

(** Modelled from the spec: the scheduler is not among the sources;
    [ScheduleAndWait] runs one cycle and hands its result to the caller. *)
Definition ScheduleAndWait (db : Store) : Store * (error + Stats) :=
  GarbageCollect db.

(** *** Liveness, in words

    The roots and the edges of the graph as relations, against which
    [scanRoots] and [references] are checked below. *)

(** A label of an object refers to a node. *)
Inductive refers (ns : string) (labels : gmap string string) (n : Node)
  : Prop :=
| refers_content key value :
    labels !! key = Some value ->
    String.prefix labelGCContentRef key = true ->
    n = content_node ns value -> refers ns labels n
| refers_snapshot key value snapshotter :
    labels !! key = Some value ->
    snapshot_ref cfg key = Some snapshotter ->
    n = snapshot_node ns snapshotter value -> refers ns labels n
| refers_collectible key value tag c :
    labels !! key = Some value ->
    collectors cfg !! tag = Some c ->
    collectible_ref (ReferenceLabel c) key = true ->
    n = mkNode (ResourceCollectible tag) ns value -> refers ns labels n.

Inductive root (s : Store) : vertex -> Prop :=
| root_content ns digest c :
    contents s !! (ns, digest) = Some c -> is_root c = true ->
    root s (false, content_node ns digest)
| root_container_snapshot ns id c :
    containers s !! (ns, id) = Some c ->
    root s (false, snapshot_node ns (ContainerSnapshotter c) (SnapshotKey c))
| root_container_label ns id c n :
    containers s !! (ns, id) = Some c ->
    refers ns (ContainerLabels c) n -> root s (false, n)
| root_image ns name i :
    images s !! (ns, name) = Some i -> root s (false, image_node ns name)
| root_image_target ns name i :
    images s !! (ns, name) = Some i ->
    root s (false, content_node ns (Target i))
| root_image_label ns name i n :
    images s !! (ns, name) = Some i ->
    refers ns (ImageLabels i) n -> root s (false, n)
| root_lease ns id l :
    leases s !! (ns, id) = Some l -> lease_expired l = false ->
    root s (false, lease_node ns id)
| root_lease_resource ns id l r n :
    leases s !! (ns, id) = Some l -> lease_expired l = false ->
    r ∈ Resources l -> n ∈ resource_node ns r ->
    root s (is_flat l, n)
| root_lease_held ns id l tag c held n :
    leases s !! (ns, id) = Some l -> lease_expired l = false ->
    collectors cfg !! tag = Some c -> Leased c ns id = inr held ->
    n ∈ held -> root s (false, n)
| root_active tag c n :
    collectors cfg !! tag = Some c -> n ∈ Active c -> root s (false, n).

Inductive edge (s : Store) : vertex -> vertex -> Prop :=
| edge_content_label ns digest c n :
    contents s !! (ns, digest) = Some c ->
    refers ns (ContentLabels c) n ->
    edge s (false, content_node ns digest) (false, n)
| edge_snapshot_parent flat ns key sn :
    snapshots s !! (ns, key) = Some sn -> Parent sn <> EmptyString ->
    edge s (flat, mkNode ResourceSnapshot ns key)
           (flat, snapshot_node ns (Snapshotter sn) (Parent sn))
| edge_snapshot_label ns key sn n :
    snapshots s !! (ns, key) = Some sn ->
    refers ns (SnapshotLabels sn) n ->
    edge s (false, mkNode ResourceSnapshot ns key) (false, n)
| edge_collectible flat tag ns key c refs n :
    collectors cfg !! tag = Some c ->
    (tag, ns, key) ∈ collected s ->
    References c (mkNode (ResourceCollectible tag) ns key) = inr refs ->
    n ∈ refs ->
    edge s (flat, mkNode (ResourceCollectible tag) ns key) (false, n).

(** A vertex is alive when it is a root or an edge leads to it from a
    vertex that is alive. *)
Inductive alive (s : Store) : vertex -> Prop :=
| alive_root v : root s v -> alive s v
| alive_edge v w : alive s v -> edge s v w -> alive s w.

(** A node is kept when one of its two vertices is alive. *)
Definition kept (s : Store) (n : Node) : Prop :=
  exists flat, alive s (flat, n).


(** What a lease reaches through the content references of the nodes it
    reaches: its listed resources, and the content a [gc.ref.content]
    label of such a node names. *)
Inductive lease_reaches (s : Store) (ns : string) (l : Lease)
  : Node -> Prop :=
| lease_reaches_resource r n :
    r ∈ Resources l -> n ∈ resource_node ns r -> lease_reaches s ns l n
| lease_reaches_content_label digest c key value :
    lease_reaches s ns l (content_node ns digest) ->
    contents s !! (ns, digest) = Some c ->
    ContentLabels c !! key = Some value ->
    String.prefix labelGCContentRef key = true ->
    lease_reaches s ns l (content_node ns value)
| lease_reaches_snapshot_label k sn key value :
    lease_reaches s ns l (mkNode ResourceSnapshot ns k) ->
    snapshots s !! (ns, k) = Some sn ->
    SnapshotLabels sn !! key = Some value ->
    String.prefix labelGCContentRef key = true ->
    lease_reaches s ns l (content_node ns value).


(** What a lease holds: the resources it lists, and, unless the lease is
    flat, the content that a [gc.ref.content] label of a node it holds
    names. *)
Inductive lease_holds (s : Store) (ns : string) (l : Lease)
  : Node -> Prop :=
| lease_holds_resource r n :
    r ∈ Resources l -> n ∈ resource_node ns r -> lease_holds s ns l n
| lease_holds_content_label digest c key value :
    is_flat l = false ->
    lease_holds s ns l (content_node ns digest) ->
    contents s !! (ns, digest) = Some c ->
    ContentLabels c !! key = Some value ->
    String.prefix labelGCContentRef key = true ->
    lease_holds s ns l (content_node ns value)
| lease_holds_snapshot_label k sn key value :
    is_flat l = false ->
    lease_holds s ns l (mkNode ResourceSnapshot ns k) ->
    snapshots s !! (ns, k) = Some sn ->
    SnapshotLabels sn !! key = Some value ->
    String.prefix labelGCContentRef key = true ->
    lease_holds s ns l (content_node ns value).

(** A stored snapshot names the snapshot [(ns, key)] as its parent. *)
Definition parent_of (snaps : gmap (string * string) Snapshot)
    (ns key : string) : Prop :=
  exists (k : string) sn,
    snaps !! (ns, k) = Some sn /\ Parent sn <> EmptyString /\
    Snapshotter sn +:+ "/" +:+ Parent sn = key.


(** *** [scanRoots] and [references] compute the roots and the edges *)

Lemma elem_of_label_ref ns key value n :
  n ∈ label_ref ns key value <->
  (String.prefix labelGCContentRef key = true /\ n = content_node ns value) \/
  (exists snapshotter, snapshot_ref cfg key = Some snapshotter /\
                       n = snapshot_node ns snapshotter value) \/
  (exists tag c, collectors cfg !! tag = Some c /\
                 collectible_ref (ReferenceLabel c) key = true /\
                 n = mkNode (ResourceCollectible tag) ns value).
Proof.
  unfold label_ref. rewrite !elem_of_app, list_elem_of_bind. split.
  - intros [H|[H|([tag c] & H & Hin)]].
    + destruct (String.prefix _ key); [|inversion H].
      apply list_elem_of_singleton in H. auto.
    + destruct (snapshot_ref cfg key) as [ss|]; [|inversion H].
      apply list_elem_of_singleton in H. eauto.
    + apply elem_of_map_to_list in Hin. cbn in H.
      destruct (collectible_ref _ key) eqn:E; [|inversion H].
      apply list_elem_of_singleton in H. right. right. eauto.
  - intros [[Hp ->]|[(ss & Hs & ->)|(tag & c & Hc & Hr & ->)]].
    + left. rewrite Hp. apply list_elem_of_singleton. reflexivity.
    + right. left. rewrite Hs. apply list_elem_of_singleton. reflexivity.
    + right. right. exists (tag, c). cbn. rewrite Hr.
      split; [apply list_elem_of_singleton; reflexivity|].
      apply elem_of_map_to_list, Hc.
Qed.

Lemma refers_iff ns labels n :
  refers ns labels n <->
  exists key value, labels !! key = Some value /\ n ∈ label_ref ns key value.
Proof.
  split.
  - intros [key value Hl Hp ->|key value ss Hl Hs ->|key value tag c Hl Hc Hr ->];
      exists key, value; (split; [exact Hl|]); apply elem_of_label_ref; eauto 10.
  - intros (key & value & Hl & Hn). apply elem_of_label_ref in Hn
      as [[Hp ->]|[(ss & Hs & ->)|(tag & c & Hc & Hr & ->)]].
    + eapply refers_content; eauto.
    + eapply refers_snapshot; eauto.
    + eapply refers_collectible; eauto.
Qed.

Lemma elem_of_label_refs ns labels v :
  v ∈ label_refs ns labels <-> exists n, v = (false, n) /\ refers ns labels n.
Proof.
  unfold label_refs. rewrite list_elem_of_bind. split.
  - intros ([key value] & Hv & Hin). apply elem_of_map_to_list in Hin.
    apply list_elem_of_fmap in Hv as (n & -> & Hn). exists n.
    split; [reflexivity|]. apply refers_iff. eauto.
  - intros (n & -> & Hr). apply refers_iff in Hr as (key & value & Hl & Hn).
    exists (key, value). split; [|apply elem_of_map_to_list, Hl].
    apply list_elem_of_fmap. eauto.
Qed.

Lemma collect_inr {A B} (f : A -> error + list B) l r :
  collect f l = inr r ->
  (forall a, a ∈ l -> exists bs, f a = inr bs) /\
  (forall b, b ∈ r <-> exists a bs, a ∈ l /\ f a = inr bs /\ b ∈ bs).
Proof.
  revert r; induction l as [|a l IH]; intros r; cbn.
  - intros [= <-]. split; [intros a Ha; inversion Ha|].
    intros b. split; [intros Hb; inversion Hb|].
    intros (a & _ & Ha & _). inversion Ha.
  - destruct (f a) as [e|bs] eqn:Ea; [discriminate|].
    destruct (collect f l) as [e|rest]; [discriminate|].
    intros [= <-]. destruct (IH rest eq_refl) as [IH1 IH2]. split.
    + intros a' [->|Ha']%elem_of_cons; eauto.
    + intros b. rewrite elem_of_app, IH2. split.
      * intros [Hb|(a' & bs' & Ha' & Hf & Hb)].
        -- exists a, bs. split; [left|done].
        -- exists a', bs'. split; [right; exact Ha'|done].
      * intros (a' & bs' & [->|Ha']%elem_of_cons & Hf & Hb).
        -- left. congruence.
        -- right. eauto.
Qed.

Lemma collect_inl_or_inr {A B} (f : A -> error + list B) l :
  (forall a, a ∈ l -> exists bs, f a = inr bs) ->
  exists r, collect f l = inr r.
Proof.
  induction l as [|a l IH]; intros Hf; cbn; [eauto|].
  destruct (Hf a) as [bs ->]; [left|].
  destruct IH as [rest ->]; [intros a' Ha'; apply Hf; right; exact Ha'|].
  eauto.
Qed.

Lemma elem_of_lease_roots ns id l rs v :
  lease_roots (ns, id, l) = inr rs ->
  v ∈ rs <->
  lease_expired l = false /\
  (v = (false, lease_node ns id) \/
   (exists r n, r ∈ Resources l /\ n ∈ resource_node ns r /\
                v = (is_flat l, n)) \/
   (exists tag c held n, collectors cfg !! tag = Some c /\
                         Leased c ns id = inr held /\ n ∈ held /\
                         v = (false, n))).
Proof.
  unfold lease_roots; cbn. destruct (lease_expired l).
  - intros [= <-]. split; [intros Hv; inversion Hv|intros [? _]; discriminate].
  - destruct (collect _ _) as [e|held] eqn:Ec; [discriminate|].
    intros [= <-]. apply collect_inr in Ec as [_ Ec].
    rewrite elem_of_cons, elem_of_app, !list_elem_of_fmap. split.
    + intros [->|[(n & -> & Hn)|(n & -> & Hn)]]; (split; [reflexivity|]).
      * auto.
      * apply list_elem_of_bind in Hn as (r & Hn & Hr). right. left. eauto.
      * apply Ec in Hn as ([tag c] & bs & Hin & Hl & Hn).
        apply elem_of_map_to_list in Hin. right. right. eauto 10.
    + intros [_ [->|[(r & n & Hr & Hn & ->)|(tag & c & bs & n & Hc & Hl & Hn & ->)]]].
      * auto.
      * right. left. exists n. split; [reflexivity|].
        apply list_elem_of_bind. eauto.
      * right. right. exists n. split; [reflexivity|]. apply Ec.
        exists (tag, c), bs. split; [apply elem_of_map_to_list, Hc|done].
Qed.

Lemma elem_of_scanRoots s roots v :
  scanRoots s = inr roots -> v ∈ roots <-> root s v.
Proof.
  unfold scanRoots. destruct (collect lease_roots _) as [e|lrs] eqn:Ec;
    [discriminate|]. intros [= <-].
  apply collect_inr in Ec as [Hall Ec].
  rewrite !elem_of_app. split.
  - intros [Hv|[Hv|[Hv|[Hv|Hv]]]].
    + apply list_elem_of_bind in Hv as ([[ns dg] c] & Hv & Hin).
      apply elem_of_map_to_list in Hin. cbn in Hv.
      destruct (is_root c) eqn:Er; [|inversion Hv].
      apply list_elem_of_singleton in Hv as ->. eapply root_content; eauto.
    + apply list_elem_of_bind in Hv as ([[ns id] c] & Hv & Hin).
      apply elem_of_map_to_list in Hin. cbn in Hv.
      apply elem_of_cons in Hv as [->|Hv].
      * eapply root_container_snapshot; eauto.
      * apply elem_of_label_refs in Hv as (n & -> & Hr).
        eapply root_container_label; eauto.
    + apply list_elem_of_bind in Hv as ([[ns name] i] & Hv & Hin).
      apply elem_of_map_to_list in Hin. cbn in Hv.
      apply elem_of_cons in Hv as [->|Hv]; [eapply root_image; eauto|].
      apply elem_of_cons in Hv as [->|Hv]; [eapply root_image_target; eauto|].
      apply elem_of_label_refs in Hv as (n & -> & Hr).
      eapply root_image_label; eauto.
    + apply Ec in Hv as ([[ns id] l] & rs & Hin & Hl & Hv).
      apply elem_of_map_to_list in Hin.
      apply (elem_of_lease_roots _ _ _ _ _ Hl) in Hv
        as [He [->|[(r & n & Hr & Hn & ->)|(tag & c & held & n & Hc & Hh & Hn & ->)]]].
      * eapply root_lease; eauto.
      * eapply root_lease_resource; eauto.
      * eapply root_lease_held; eauto.
    + apply list_elem_of_bind in Hv as ([tag c] & Hv & Hin).
      apply elem_of_map_to_list in Hin. cbn in Hv.
      apply list_elem_of_fmap in Hv as (n & -> & Hn).
      eapply root_active; eauto.
  - assert (Hlease : forall ns id l w,
              leases s !! (ns, id) = Some l ->
              (forall rs, lease_roots (ns, id, l) = inr rs -> w ∈ rs) ->
              w ∈ lrs).
    { intros ns id l w Hl Hw.
      destruct (Hall (ns, id, l)) as [rs Hrs]; [apply elem_of_map_to_list, Hl|].
      apply Ec. exists (ns, id, l), rs.
      split; [apply elem_of_map_to_list, Hl|]. split; [exact Hrs|auto]. }
    intros [ns dg c Hc Hr|ns id c Hc|ns id c n Hc Hr|ns name i Hi|ns name i Hi
           |ns name i n Hi Hr|ns id l Hl He|ns id l r n Hl He Hr Hn
           |ns id l tag c held n Hl He Hc Hh Hn|tag c n Hc Hn].
    + left. apply list_elem_of_bind. exists (ns, dg, c). cbn. rewrite Hr.
      split; [apply list_elem_of_singleton; reflexivity|].
      apply elem_of_map_to_list, Hc.
    + right. left. apply list_elem_of_bind. exists (ns, id, c). cbn.
      split; [left|apply elem_of_map_to_list, Hc].
    + right. left. apply list_elem_of_bind. exists (ns, id, c). cbn.
      split; [right|apply elem_of_map_to_list, Hc].
      apply elem_of_label_refs. eauto.
    + right. right. left. apply list_elem_of_bind. exists (ns, name, i). cbn.
      split; [left|apply elem_of_map_to_list, Hi].
    + right. right. left. apply list_elem_of_bind. exists (ns, name, i). cbn.
      split; [right; left|apply elem_of_map_to_list, Hi].
    + right. right. left. apply list_elem_of_bind. exists (ns, name, i). cbn.
      split; [do 2 right|apply elem_of_map_to_list, Hi].
      apply elem_of_label_refs. eauto.
    + do 3 right. left. eapply Hlease; [exact Hl|]. intros rs Hrs.
      apply (elem_of_lease_roots _ _ _ _ _ Hrs). auto.
    + do 3 right. left. eapply Hlease; [exact Hl|]. intros rs Hrs.
      apply (elem_of_lease_roots _ _ _ _ _ Hrs). split; [exact He|].
      right. left. eauto.
    + do 3 right. left. eapply Hlease; [exact Hl|]. intros rs Hrs.
      apply (elem_of_lease_roots _ _ _ _ _ Hrs). split; [exact He|].
      right. right. eauto 10.
    + do 4 right. apply list_elem_of_bind. exists (tag, c). cbn.
      split; [|apply elem_of_map_to_list, Hc].
      apply list_elem_of_fmap. eauto.
Qed.

Lemma elem_of_references s v w :
  w ∈ Mark.total (references s) v <-> edge s v w.
Proof.
  unfold Mark.total. split.
  - destruct v as [flat [t ns key]]. unfold references; cbn.
    destruct t as [| | | |tag].
    + destruct flat; [intros H; inversion H|].
      destruct (contents s !! (ns, key)) as [c|] eqn:Ec; [|intros H; inversion H].
      intros (n & -> & Hr)%elem_of_label_refs.
      exact (edge_content_label s ns key c n Ec Hr).
    + destruct (snapshots s !! (ns, key)) as [sn|] eqn:Es;
        [|intros H; inversion H].
      intros [Hp|Hl]%elem_of_app.
      * destruct (decide (Parent sn = EmptyString)) as [|Hne]; [inversion Hp|].
        apply list_elem_of_singleton in Hp as ->.
        exact (edge_snapshot_parent s flat ns key sn Es Hne).
      * destruct flat; [inversion Hl|].
        apply elem_of_label_refs in Hl as (n & -> & Hr).
        exact (edge_snapshot_label s ns key sn n Es Hr).
    + intros H; inversion H.
    + intros H; inversion H.
    + destruct (collectors cfg !! tag) as [c|] eqn:Ec; [|intros H; inversion H].
      destruct (decide _) as [Hin|]; [|intros H; inversion H].
      destruct (References c _) as [e|refs] eqn:Er; [intros H; inversion H|].
      intros (n & -> & Hn)%list_elem_of_fmap.
      exact (edge_collectible s flat tag ns key c refs n Ec Hin Er Hn).
  - intros [ns dg c n Hc Hr|flat ns key sn Hs Hne|ns key sn n Hs Hr
           |flat tag ns key c refs n Hc Hin Her Hn]; unfold references; cbn.
    + rewrite Hc. apply elem_of_label_refs. eauto.
    + rewrite Hs. apply elem_of_app. left.
      rewrite decide_False by exact Hne. apply list_elem_of_singleton.
      reflexivity.
    + rewrite Hs. apply elem_of_app. right. apply elem_of_label_refs. eauto.
    + rewrite Hc. rewrite decide_True by exact Hin. rewrite Her.
      apply list_elem_of_fmap. eauto.
Qed.

Lemma alive_reach s roots v :
  scanRoots s = inr roots ->
  alive s v <-> Mark.reach (Mark.total (references s)) roots v.
Proof.
  intros Hr. split.
  - induction 1 as [v Hv|v w _ IH He].
    + apply Mark.reach_root, (elem_of_scanRoots _ _ _ Hr), Hv.
    + eapply Mark.reach_step; [exact IH|]. apply elem_of_references, He.
  - induction 1 as [v Hv|v w _ IH Hw].
    + apply alive_root, (elem_of_scanRoots _ _ _ Hr), Hv.
    + eapply alive_edge; [exact IH|]. apply elem_of_references, Hw.
Qed.


Lemma elem_of_keyed {A} (m : gmap (string * string) A) t n :
  n ∈ (fun k : string * string => mkNode t k.1 k.2) <$> (map_to_list m).*1 <->
  NodeType n = t /\ is_Some (m !! (Namespace n, Key n)).
Proof.
  rewrite list_elem_of_fmap. split.
  - intros ([ns k] & -> & Hin). cbn. split; [reflexivity|].
    apply list_elem_of_fmap in Hin as ([k' a] & Hk & Hin).
    cbn in Hk. subst k'. apply elem_of_map_to_list in Hin. eauto.
  - intros [<- [a Ha]]. exists (Namespace n, Key n).
    split; [destruct n; reflexivity|].
    apply list_elem_of_fmap. exists (Namespace n, Key n, a).
    split; [reflexivity|]. apply elem_of_map_to_list, Ha.
Qed.

Lemma elem_of_scanAll s n :
  n ∈ scanAll s <-> is_Some (object_of s n).
Proof.
  unfold scanAll, object_of. rewrite !elem_of_app.
  change (fun k : string * string => content_node k.1 k.2)
    with (fun k : string * string => mkNode ResourceContent k.1 k.2).
  change (fun k : string * string => image_node k.1 k.2)
    with (fun k : string * string => mkNode ResourceImage k.1 k.2).
  change (fun k : string * string => lease_node k.1 k.2)
    with (fun k : string * string => mkNode ResourceLease k.1 k.2).
  rewrite !elem_of_keyed, list_elem_of_fmap.
  destruct n as [t ns key]; cbn [NodeType Namespace Key].
  split.
  - intros [[-> H]|[[-> H]|[[-> H]|[[-> H]|([[tag ns'] k] & [= -> -> ->] & H)]]]];
      rewrite ?fmap_is_Some; try exact H.
    apply elem_of_elements in H. cbn. rewrite decide_True by exact H. eauto.
  - destruct t as [| | | |tag]; rewrite ?fmap_is_Some; try tauto.
    destruct (decide _) as [Hin|]; [|intros [? ?]; discriminate].
    intros _. do 4 right. exists (tag, ns, key).
    split; [reflexivity|apply elem_of_elements, Hin].
Qed.

Lemma references_domain s v w :
  w ∈ Mark.total (references s) v -> v ∈ domain s.
Proof.
  intros Hw. apply elem_of_references in Hw.
  assert (Hn : v.2 ∈ scanAll s).
  { apply elem_of_scanAll. unfold object_of.
    destruct Hw as [ns dg c n Hc Hr|flat ns key sn Hs Hne|ns key sn n Hs Hr
                   |flat tag ns key c refs n Hc Hin Her Hn]; cbn.
    - rewrite Hc. eauto.
    - rewrite Hs. eauto.
    - rewrite Hs. eauto.
    - rewrite decide_True by exact Hin. eauto. }
  unfold domain. rewrite elem_of_app, !list_elem_of_fmap.
  destruct v as [[|] n]; [right|left]; exists n; done.
Qed.

(** The references of a vertex fail only at a stored node of a
    collectible resource whose callback fails. *)
Lemma references_inl s v e :
  references s v = inl e <->
  exists tag c, NodeType v.2 = ResourceCollectible tag /\
                collectors cfg !! tag = Some c /\
                (tag, Namespace v.2, Key v.2) ∈ collected s /\
                References c v.2 = inl e.
Proof.
  destruct v as [flat [t ns key]]. unfold references; cbn. split.
  - destruct t as [| | | |tag].
    + destruct flat; [discriminate|].
      destruct (contents s !! (ns, key)); discriminate.
    + destruct (snapshots s !! (ns, key)); discriminate.
    + discriminate.
    + discriminate.
    + destruct (collectors cfg !! tag) as [c|] eqn:Ec; [|discriminate].
      destruct (decide _) as [Hin|]; [|discriminate].
      destruct (References c _) as [e'|refs] eqn:Er; [|discriminate].
      intros [= <-]. eauto 10.
  - intros (tag & c & -> & Hc & Hin & Hr). rewrite Hc.
    rewrite decide_True by exact Hin. rewrite Hr. reflexivity.
Qed.

(** Marking fails at a node that is alive, or marks exactly what is
    alive. *)
Lemma mark_alive s roots :
  scanRoots s = inr roots ->
  match mark s roots with
  | inr m => (forall v, v ∈ m <-> alive s v) /\
             (forall v, alive s v -> exists l, references s v = inr l)
  | inl e => exists v, alive s v /\ references s v = inl e
  end.
Proof.
  intros Hr. unfold mark.
  pose proof (Mark.marked_err_reach (references s) roots (domain s)
                (references_domain s)) as H.
  destruct (Mark.marked_err _ _ _) as [e|m].
  - destruct H as (v & Hv & He). exists v.
    split; [apply (alive_reach _ _ _ Hr), Hv|exact He].
  - destruct H as [Hm Hok]. split.
    + intros v. rewrite (alive_reach _ _ _ Hr). apply Hm.
    + intros v Hv. apply Hok, (alive_reach _ _ _ Hr), Hv.
Qed.

Lemma live_kept s roots m n :
  scanRoots s = inr roots -> mark s roots = inr m ->
  live m n = true <-> kept s n.
Proof.
  intros Hr Hm. pose proof (mark_alive s roots Hr) as H. rewrite Hm in H.
  destruct H as [H _]. unfold live, kept.
  rewrite orb_true_iff, !bool_decide_eq_true, !H.
  split; [intros [?|?]; eauto|intros [[|] ?]; auto].
Qed.

(** *** What the sweep does to the snapshots *)

Lemma has_child_parent_of snaps ns key :
  has_child snaps (ns, key) = true <-> parent_of snaps ns key.
Proof.
  unfold has_child, parent_of, child_of. rewrite existsb_exists. split.
  - intros ([[ns' k] sn] & Hin & Hc). cbn in Hc.
    apply list_elem_of_In, elem_of_map_to_list in Hin.
    apply andb_true_iff in Hc as [Hc H3].
    apply andb_true_iff in Hc as [H1 H2].
    apply bool_decide_eq_true in H1, H3. apply negb_true_iff in H2.
    apply bool_decide_eq_false in H2. subst ns'. eauto.
  - intros (k & sn & Hk & Hp & Hkey). exists (ns, k, sn). split.
    + apply list_elem_of_In, elem_of_map_to_list. exact Hk.
    + cbn. rewrite (bool_decide_true (ns = ns)) by reflexivity.
      rewrite bool_decide_false by exact Hp.
      rewrite bool_decide_true by exact Hkey. reflexivity.
Qed.

Lemma parent_of_mono snaps snaps' ns key :
  snaps ⊆ snaps' -> parent_of snaps ns key -> parent_of snaps' ns key.
Proof.
  intros Hsub (k & sn & Hk & Hp). exists k, sn. split; [|exact Hp].
  eapply lookup_weaken; eassumption.
Qed.

Lemma sweep_snapshot_subseteq m snaps k : sweep_snapshot m snaps k ⊆ snaps.
Proof.
  unfold sweep_snapshot, RemoveSnapshot. destruct (live m _); [done|].
  destruct (has_child snaps k); [done|]. apply delete_subseteq.
Qed.

(** The sweep of a list of snapshots, whatever its order: it only
    deletes; what is marked stays; what is deleted was not marked and had
    no child left; and what is neither marked nor a parent goes. *)
Lemma sweep_list m l : forall snaps,
  let swept := foldl (sweep_snapshot m) snaps l in
  swept ⊆ snaps /\
  (forall ns key sn, snaps !! (ns, key) = Some sn ->
     live m (mkNode ResourceSnapshot ns key) = true ->
     swept !! (ns, key) = Some sn) /\
  (forall ns key sn, snaps !! (ns, key) = Some sn ->
     swept !! (ns, key) = None ->
     live m (mkNode ResourceSnapshot ns key) = false /\
     ~ parent_of swept ns key) /\
  (forall ns key, (ns, key) ∈ l ->
     live m (mkNode ResourceSnapshot ns key) = false ->
     ~ parent_of snaps ns key -> swept !! (ns, key) = None).
Proof.
  induction l as [|k l IH]; intros snaps; cbn [foldl].
  - split; [done|]. split; [auto|]. split; [congruence|].
    intros ns key Hin. inversion Hin.
  - destruct (IH (sweep_snapshot m snaps k)) as (Hsub & Hlive & Hgone & Hleaf).
    pose proof (sweep_snapshot_subseteq m snaps k) as Hstep.
    split; [etrans; eassumption|]. split; [|split].
    + intros ns key sn Hs Hl. apply Hlive; [|exact Hl].
      unfold sweep_snapshot, RemoveSnapshot.
      destruct (live m (mkNode ResourceSnapshot k.1 k.2)) eqn:Hk; [exact Hs|].
      destruct (has_child snaps k); [exact Hs|].
      rewrite lookup_delete_ne; [exact Hs|].
      intros ->. cbn in Hk. congruence.
    + intros ns key sn Hs Hnone.
      destruct (sweep_snapshot m snaps k !! (ns, key)) as [sn'|] eqn:Hstepk.
      * apply (Hgone ns key sn'); assumption.
      * unfold sweep_snapshot, RemoveSnapshot in Hstepk.
        destruct (live m (mkNode ResourceSnapshot k.1 k.2)) eqn:Hk;
          [congruence|].
        destruct (has_child snaps k) eqn:Hc; [congruence|].
        destruct (decide (k = (ns, key))) as [->|Hne];
          [|rewrite lookup_delete_ne in Hstepk by exact Hne; congruence].
        split; [exact Hk|]. intros Hp.
        assert (has_child snaps (ns, key) = true); [|congruence].
        apply has_child_parent_of. eapply parent_of_mono; [|exact Hp].
        etrans; eassumption.
    + intros ns key [E|Hin]%elem_of_cons Hl Hp; [subst k|].
      * assert (sweep_snapshot m snaps (ns, key) !! (ns, key) = None) as Hd.
        { unfold sweep_snapshot, RemoveSnapshot. cbn [fst snd]. rewrite Hl.
          destruct (has_child snaps (ns, key)) eqn:Hc;
            [apply has_child_parent_of in Hc; contradiction|].
          apply lookup_delete_eq. }
        destruct (foldl (sweep_snapshot m) (sweep_snapshot m snaps (ns, key)) l
                    !! (ns, key)) as [sn|] eqn:Hf; [|reflexivity].
        pose proof (lookup_weaken _ _ _ _ Hf Hsub). congruence.
      * apply Hleaf; [exact Hin|exact Hl|].
        intros Hp'. apply Hp. eapply parent_of_mono; eassumption.
Qed.

Lemma elem_of_sweep_order snaps k :
  k ∈ sweep_order snaps <-> is_Some (snaps !! k).
Proof.
  unfold sweep_order. rewrite merge_sort_Permutation.
  rewrite list_elem_of_fmap. split.
  - intros ([k' sn] & -> & Hin). apply elem_of_map_to_list in Hin. eauto.
  - intros [sn Hk]. exists (k, sn). split; [reflexivity|].
    apply elem_of_map_to_list, Hk.
Qed.

Lemma sweep_snapshots_spec m snaps :
  sweep_snapshots m snaps ⊆ snaps /\
  (forall ns key sn, snaps !! (ns, key) = Some sn ->
     live m (mkNode ResourceSnapshot ns key) = true ->
     sweep_snapshots m snaps !! (ns, key) = Some sn) /\
  (forall ns key sn, snaps !! (ns, key) = Some sn ->
     sweep_snapshots m snaps !! (ns, key) = None ->
     live m (mkNode ResourceSnapshot ns key) = false /\
     ~ parent_of (sweep_snapshots m snaps) ns key) /\
  (forall ns key,
     live m (mkNode ResourceSnapshot ns key) = false ->
     ~ parent_of snaps ns key -> sweep_snapshots m snaps !! (ns, key) = None).
Proof.
  unfold sweep_snapshots.
  destruct (sweep_list m (sweep_order snaps) snaps) as (H1 & H2 & H3 & H4).
  split; [exact H1|]. split; [exact H2|]. split; [exact H3|].
  intros ns key Hl Hp.
  destruct (snaps !! (ns, key)) as [sn|] eqn:Hs.
  - apply H4; [|exact Hl|exact Hp]. apply elem_of_sweep_order. eauto.
  - destruct (foldl (sweep_snapshot m) snaps (sweep_order snaps) !! (ns, key))
      as [sn|] eqn:Hf; [|reflexivity].
    pose proof (lookup_weaken _ _ _ _ Hf H1). congruence.
Qed.








(** The sweep keeps the marked objects as they are and deletes the
    others, snapshots apart. *)
Lemma object_of_sweep s m n :
  NodeType n <> ResourceSnapshot ->
  object_of (sweep s m) n = if live m n then object_of s n else None.
Proof.
  intros Hns.
  assert (Hf : forall {A} (mp : gmap (string * string) A) t,
            mkNode t (Namespace n) (Key n) = n ->
            filter (fun kc : string * string * A =>
                      live m (mkNode t kc.1.1 kc.1.2) = true) mp
              !! (Namespace n, Key n) =
            if live m n then mp !! (Namespace n, Key n) else None).
  { intros A mp t Hn.
    destruct (mp !! (Namespace n, Key n)) as [a|] eqn:E.
    - destruct (live m n) eqn:El.
      + apply map_lookup_filter_Some. split; [exact E|]. cbn. congruence.
      + apply map_lookup_filter_None. right. intros a' _. cbn. congruence.
    - replace (if live m n then None else None) with (@None A)
        by (destruct (live m n); reflexivity).
      apply map_lookup_filter_None. left. exact E. }
  unfold object_of, sweep; cbn [contents snapshots images leases collected].
  destruct n as [[| | | |tag] ns key]; cbn [NodeType Namespace Key] in *.
  - change (fun kc : string * string * Content =>
              live m (content_node kc.1.1 kc.1.2) = true)
      with (fun kc : string * string * Content =>
              live m (mkNode ResourceContent kc.1.1 kc.1.2) = true).
    rewrite (Hf _ _ _ eq_refl). destruct (live m _); reflexivity.
  - contradiction.
  - change (fun kc : string * string * Image =>
              live m (image_node kc.1.1 kc.1.2) = true)
      with (fun kc : string * string * Image =>
              live m (mkNode ResourceImage kc.1.1 kc.1.2) = true).
    rewrite (Hf _ _ _ eq_refl). destruct (live m _); reflexivity.
  - change (fun kc : string * string * Lease =>
              live m (lease_node kc.1.1 kc.1.2) = true)
      with (fun kc : string * string * Lease =>
              live m (mkNode ResourceLease kc.1.1 kc.1.2) = true).
    rewrite (Hf _ _ _ eq_refl). destruct (live m _); reflexivity.
  - destruct (live m _) eqn:El.
    + destruct (decide ((tag, ns, key) ∈ collected s)) as [Hin|Hin].
      * rewrite decide_True; [reflexivity|]. apply elem_of_filter. done.
      * rewrite decide_False; [reflexivity|].
        intros [_ ?]%elem_of_filter. done.
    + rewrite decide_False; [reflexivity|].
      intros [Hl _]%elem_of_filter. cbn in Hl. congruence.
Qed.

(** What a cycle that completes has done. *)
Lemma GarbageCollect_inr db db' st :
  GarbageCollect db = (db', inr st) ->
  exists roots m, scanRoots db = inr roots /\ mark db roots = inr m /\
                  db' = sweep db m /\ st = stats_of db db' m.
Proof.
  unfold GarbageCollect, update, cycle.
  destruct (BeginError cfg); [discriminate|].
  destruct (scanRoots db) as [e|roots]; [discriminate|].
  destruct (mark db roots) as [e|m] eqn:Hm; [discriminate|].
  destruct (CommitError cfg); [discriminate|].
  intros [= <- <-]. exists roots, m. repeat split. exact Hm.
Qed.

(** What a cycle that completes leaves of a node: a kept node as it was;
    of the others nothing, unless it is a snapshot; a snapshot is either
    left as it was or deleted, deleted when no snapshot names it as
    parent, and never deleted from under a snapshot that stays. *)
Lemma GarbageCollect_object db db' st n :
  GarbageCollect db = (db', inr st) ->
  (kept db n -> object_of db' n = object_of db n) /\
  (~ kept db n -> NodeType n <> ResourceSnapshot -> object_of db' n = None) /\
  (object_of db' n = object_of db n \/ object_of db' n = None) /\
  (~ kept db n -> ~ parent_of (snapshots db) (Namespace n) (Key n) ->
   object_of db' n = None) /\
  (NodeType n = ResourceSnapshot -> is_Some (object_of db n) ->
   object_of db' n = None ->
   ~ kept db n /\ ~ parent_of (snapshots db') (Namespace n) (Key n)).
Proof.
  intros (roots & m & Hr & Hm & -> & _)%GarbageCollect_inr.
  pose proof (live_kept db roots m n Hr Hm) as Hl.
  destruct (decide (NodeType n = ResourceSnapshot)) as [Hs|Hs].
  - destruct n as [t ns key]. cbn in Hs. subst t.
    cbn [Namespace Key NodeType] in *.
    destruct (sweep_snapshots_spec m (snapshots db)) as (H1 & H2 & H3 & H4).
    unfold object_of. cbn [sweep snapshots NodeType Namespace Key].
    assert (Hcase : sweep_snapshots m (snapshots db) !! (ns, key)
                    = snapshots db !! (ns, key) \/
                    sweep_snapshots m (snapshots db) !! (ns, key) = None).
    { destruct (sweep_snapshots m (snapshots db) !! (ns, key)) as [sn|] eqn:E;
        [|auto]. left. symmetry. eapply lookup_weaken; eassumption. }
    split; [|split; [|split; [|split]]].
    + intros Hk. apply Hl in Hk.
      destruct (snapshots db !! (ns, key)) as [sn|] eqn:E.
      * rewrite (H2 ns key sn E Hk). reflexivity.
      * destruct Hcase as [E0|E0]; rewrite E0; reflexivity.
    + intros _ Hne. contradiction.
    + destruct Hcase as [E|E]; rewrite E; auto.
    + intros Hk Hp. rewrite H4; [reflexivity| |exact Hp].
      destruct (live m _); [|reflexivity]. exfalso. apply Hk, Hl. reflexivity.
    + intros _ [o Ho] Hnone.
      destruct (snapshots db !! (ns, key)) as [sn|] eqn:E; [|discriminate].
      destruct (sweep_snapshots m (snapshots db) !! (ns, key)) eqn:E';
        [discriminate|].
      destruct (H3 ns key sn E E') as [Hlive Hp]. split; [|exact Hp].
      intros Hk. apply Hl in Hk. congruence.
  - rewrite (object_of_sweep db m n Hs).
    destruct (live m n) eqn:El.
    + split; [reflexivity|]. split.
      { intros Hn. exfalso. apply Hn, Hl. reflexivity. }
      split; [auto|]. split; [|intros; contradiction].
      intros Hn. exfalso. apply Hn, Hl. reflexivity.
    + split.
      { intros Hk. apply Hl in Hk. discriminate. }
      split; [reflexivity|]. split; [auto|]. split; [reflexivity|].
      intros; contradiction.
Qed.



(** A cycle completes whenever the transaction can be opened and
    committed and no collectible resource fails, neither to list what a
    lease holds nor to give the references of a node that is alive;
    what the sweep is refused never fails it. *)
Lemma GarbageCollect_completes db :
  BeginError cfg = None -> CommitError cfg = None ->
  (forall ns id l tag c,
     leases db !! (ns, id) = Some l -> lease_expired l = false ->
     collectors cfg !! tag = Some c -> exists held, Leased c ns id = inr held) ->
  (forall flat tag ns key c,
     alive db (flat, mkNode (ResourceCollectible tag) ns key) ->
     collectors cfg !! tag = Some c ->
     exists refs, References c (mkNode (ResourceCollectible tag) ns key)
                  = inr refs) ->
  exists db' st, GarbageCollect db = (db', inr st).
Proof.
  intros Hb Hc Hl Hrefs. unfold GarbageCollect, update, cycle. rewrite Hb, Hc.
  assert (exists roots, scanRoots db = inr roots) as [roots Hr].
  { unfold scanRoots.
    destruct (collect_inl_or_inr lease_roots (map_to_list (leases db)))
      as [lrs ->]; [|eauto].
    intros [[ns id] l] Hin%elem_of_map_to_list. unfold lease_roots; cbn.
    destruct (lease_expired l) eqn:He; [eauto|].
    destruct (collect_inl_or_inr
                (fun tc : N * Collector => Leased tc.2 ns id)
                (map_to_list (collectors cfg))) as [held ->]; [|eauto].
    intros [tag c] Hc'%elem_of_map_to_list. cbn. eauto. }
  rewrite Hr. pose proof (mark_alive db roots Hr) as Hm.
  destruct (mark db roots) as [e|m]; [|eauto].
  exfalso. destruct Hm as ([flat n] & Ha & He).
  apply references_inl in He as (tag & c & Ht & Hc' & _ & He).
  destruct n as [t ns key]. cbn in Ht, He. subst t.
  destruct (Hrefs flat tag ns key c Ha Hc') as [refs Hok]. congruence.
Qed.


(** *** Flat leases *)



(** *** What a lease holds *)

Lemma lease_holds_alive db ns id l n :
  leases db !! (ns, id) = Some l -> lease_expired l = false ->
  lease_holds db ns l n ->
  alive db (is_flat l, n) \/ (is_flat l = false /\ alive db (false, n)).
Proof.
  intros Hl He.
  assert (Hstep : forall n', is_flat l = false ->
            alive db (is_flat l, n') \/
            (is_flat l = false /\ alive db (false, n')) ->
            alive db (false, n')).
  { intros n' Hf [H|[_ H]]; [rewrite Hf in H|]; exact H. }
  induction 1 as [r n Hr Hn|dg c key value Hf _ IH Hc Hk Hp
                 |k sn key value Hf _ IH Hs Hk Hp].
  - left. eapply root_lease_resource in Hn; eauto. apply alive_root, Hn.
  - right. split; [exact Hf|]. eapply alive_edge; [exact (Hstep _ Hf IH)|].
    apply (edge_content_label db ns dg c _ Hc).
    eapply refers_content; eauto.
  - right. split; [exact Hf|]. eapply alive_edge; [exact (Hstep _ Hf IH)|].
    apply (edge_snapshot_label db ns k sn _ Hs).
    eapply refers_content; eauto.
Qed.

(** C3, as the collector has it.  Whatever a live lease holds is left by
    a cycle exactly as it was: the resources it lists, whether the lease
    is flat or not, and, for a lease that is not flat, the content
    reached through the content references of what it holds. *)
Theorem lease_content_kept db db' st ns id l n :
  GarbageCollect db = (db', inr st) ->
  leases db !! (ns, id) = Some l -> lease_expired l = false ->
  lease_holds db ns l n ->
  object_of db' n = object_of db n.
Proof.
  intros HG Hl He Hn. apply (GarbageCollect_object _ _ _ n HG).
  destruct (lease_holds_alive db ns id l n Hl He Hn) as [H|[_ H]];
    eexists; exact H.
Qed.

(** *** Failure *)





Lemma not_alive_marked db v :
  match scanRoots db with
  | inr roots =>
      match mark db roots with
      | inr m => bool_decide (v ∈ m)
      | inl _ => true
      end
  | inl _ => true
  end = false -> ~ alive db v.
Proof.
  destruct (scanRoots db) as [e|roots] eqn:Hr; [discriminate|].
  pose proof (mark_alive db roots Hr) as Hm.
  destruct (mark db roots) as [e|m]; [discriminate|].
  intros Hv%bool_decide_eq_false Ha. apply Hv, Hm, Ha.
Qed.


End Collector.

Arguments Collector : clear implicits.
Arguments Config : clear implicits.

(** *** [TestMetadataCollector]

    The objects of the test in [db_test.go], in its namespace ["test"];
    [digest i] stands for [digestFor(i)]. *)

Definition digest (i : nat) : string := "sha256:" +:+ pretty i.

Definition blob (i : nat) (labels : list (string * string))
  : string * string * Content :=
  ("test", digest i, mkContent 256 (list_to_map labels)).

Definition newSnapshot (key parent : string) (labels : list (string * string))
  : string * string * Snapshot :=
  ("test", "native/" +:+ key, mkSnapshot "native" parent (list_to_map labels)).

Definition lease (id : string) (refs : list Resource)
    (labels : list (string * string)) : string * string * Lease :=
  ("test", id, mkLease None (list_to_map labels) refs).

Definition testResource : N := 16.

Definition test_store : Store :=
  {| contents := list_to_map
       [ blob 1 []; blob 2 []; blob 3 [];
         blob 4 [("containerd.io/gc.root", "time.Now()")];
         blob 5 [("containerd.io/gc.ref.content.0", digest 6)];
         blob 6 []; blob 7 [];
         blob 8 [("containerd.io/gc.ref.content.0", digest 9)];
         blob 9 []; blob 10 [];
         blob 11 [("containerd.io/gc.ref.test", "test1")];
         blob 12 [("containerd.io/gc.ref.test", "test2")] ];
     snapshots := list_to_map
       [ newSnapshot "1" EmptyString []; newSnapshot "2" "1" [];
         newSnapshot "3" "2" []; newSnapshot "4" "3" [];
         newSnapshot "5" "3" [];
         newSnapshot "6" EmptyString
           [("containerd.io/gc.ref.content.0", digest 7)];
         newSnapshot "7" EmptyString
           [("containerd.io/gc.ref.content.0", digest 10)];
         newSnapshot "8" "7" []; newSnapshot "9" "8" [] ];
     images := list_to_map [ ("test", "image-1", mkImage (digest 2) ∅) ];
     containers := list_to_map [ ("test", "1", mkContainer "native" "4" ∅) ];
     leases := list_to_map
       [ lease "lease-1"
           [mkResource (digest 5) "content"; mkResource "6" "snapshots/native"]
           [];
         lease "lease-2"
           [mkResource (digest 8) "content"; mkResource "9" "snapshots/native"]
           [("containerd.io/gc.flat", "time.Now()")];
         lease "lease-3" [mkResource (digest 11) "content"] [] ];
     collected := list_to_set
       [ (testResource, "random", "test1"); (testResource, "test", "test1");
         (testResource, "test", "test2"); (testResource, "test", "test3");
         (testResource, "test", "test4") ] |}.

(** The test's collector: [test4] is active and [lease-3] holds [test3]. *)
Definition test_collector : Collector string :=
  {| ReferenceLabel := "test";
     Active := [mkNode (ResourceCollectible testResource) "test" "test4"];
     Leased := fun ns id =>
       if decide (id = "lease-3")
       then inr [mkNode (ResourceCollectible testResource) "test" "test3"]
       else inr [];
     References := fun _ => inr [] |}.

(** Timestamps are decimal seconds here, so that the values the test
    gives to its root and flat labels are not timestamps. *)
Definition test_cfg : Config string :=
  {| collectors := {[ testResource := test_collector ]};
     parse_time := fun _ => None;
     snapshot_ref := fun _ => None;
     BeginError := None;
     CommitError := None |}.

(** The same collector on a store whose commit fails. *)
Definition failing_cfg : Config string :=
  {| collectors := collectors test_cfg;
     parse_time := parse_time test_cfg;
     snapshot_ref := snapshot_ref test_cfg;
     BeginError := None;
     CommitError := Some "commit failed" |}.

(** The same registry with a collector whose references fail. *)
Definition broken_cfg : Config string :=
  {| collectors :=
       {[ testResource :=
            {| ReferenceLabel := ReferenceLabel test_collector;
               Active := Active test_collector;
               Leased := Leased test_collector;
               References := fun _ => inl "references failed" |} ]};
     parse_time := parse_time test_cfg;
     snapshot_ref := snapshot_ref test_cfg;
     BeginError := None;
     CommitError := None |}.

Definition test_now : Z := 100.

Definition test_after : Store :=
  (GarbageCollect test_cfg test_now test_store).1.

Definition test_stats : Stats :=
  {| BytesFreed := 1280; RemovedContent := 5; RemovedSnapshots := 1;
     RemovedImages := 0; RemovedLeases := 0; RemovedCollectible := 2 |}.

(** The nodes the test expects to remain. *)
Definition remaining : list Node :=
  [ mkNode (ResourceCollectible testResource) "test" "test1";
    mkNode (ResourceCollectible testResource) "test" "test3";
    mkNode (ResourceCollectible testResource) "test" "test4";
    content_node "test" (digest 2); content_node "test" (digest 4);
    snapshot_node "test" "native" "1"; snapshot_node "test" "native" "2";
    snapshot_node "test" "native" "3"; snapshot_node "test" "native" "4";
    image_node "test" "image-1";
    content_node "test" (digest 5); content_node "test" (digest 6);
    content_node "test" (digest 7); snapshot_node "test" "native" "6";
    lease_node "test" "lease-1";
    content_node "test" (digest 8);
    snapshot_node "test" "native" "7"; snapshot_node "test" "native" "8";
    snapshot_node "test" "native" "9";
    lease_node "test" "lease-2";
    content_node "test" (digest 11);
    lease_node "test" "lease-3" ].

Lemma test_cycle :
  GarbageCollect test_cfg test_now test_store =
  (test_after, inr test_stats).
Proof. vm_compute. reflexivity. Qed.

(** The model passes [TestMetadataCollector]: after a cycle the store
    holds exactly the nodes the test expects. *)
Lemma TestMetadataCollector n :
  n ∈ scanAll test_after <-> n ∈ remaining.
Proof.
  assert (H1 : forallb (fun n => bool_decide (n ∈ remaining))
                       (scanAll test_after) = true)
    by (vm_compute; reflexivity).
  assert (H2 : forallb (fun n => bool_decide (n ∈ scanAll test_after))
                       remaining = true)
    by (vm_compute; reflexivity).
  rewrite forallb_forall in H1, H2. split; intros Hn.
  - apply list_elem_of_In, H1, bool_decide_eq_true in Hn. exact Hn.
  - apply list_elem_of_In, H2, bool_decide_eq_true in Hn. exact Hn.
Qed.





Definition lease2 : Lease :=
  mkLease None (list_to_map [("containerd.io/gc.flat", "time.Now()")])
    [mkResource (digest 8) "content"; mkResource "9" "snapshots/native"].

Definition lease1 : Lease :=
  mkLease None ∅
    [mkResource (digest 5) "content"; mkResource "6" "snapshots/native"].

(** [digest 7], which the live [lease-1] reaches through a label of its
    snapshot [6], and [digest 8], which the flat [lease-2] lists. *)
Lemma lease_content_kept_witness :
  object_of test_after (content_node "test" (digest 7)) =
  object_of test_store (content_node "test" (digest 7)) /\
  object_of test_after (content_node "test" (digest 8)) =
  object_of test_store (content_node "test" (digest 8)).
Proof.
  split.
  - apply (lease_content_kept test_cfg test_now test_store test_after
             test_stats "test" "lease-1" lease1 _ test_cycle).
    + vm_compute. reflexivity.
    + reflexivity.
    + eapply (lease_holds_snapshot_label _ _ _ "native/6"
                (mkSnapshot "native" EmptyString
                   (list_to_map [("containerd.io/gc.ref.content.0", digest 7)]))
                "containerd.io/gc.ref.content.0" (digest 7)).
      * vm_compute. reflexivity.
      * eapply (lease_holds_resource _ _ _
                  (mkResource "6" "snapshots/native")).
        -- right. left.
        -- vm_compute. left.
      * vm_compute. reflexivity.
      * vm_compute. reflexivity.
      * vm_compute. reflexivity.
  - apply (lease_content_kept test_cfg test_now test_store test_after
             test_stats "test" "lease-2" lease2 _ test_cycle).
    + vm_compute. reflexivity.
    + reflexivity.
    + eapply (lease_holds_resource _ _ _ (mkResource (digest 8) "content")).
      * left.
      * vm_compute. left.
Defined.

(** C3 as stated fails at the test's flat lease: [lease-2] is live and
    reaches [digest 9] through a content reference of [digest 8], which it
    lists, yet the cycle removes [digest 9]. *)
Lemma flat_lease_content_removed :
  leases test_store !! ("test", "lease-2") = Some lease2 /\
  lease_expired test_now lease2 = false /\
  lease_reaches test_store "test" lease2 (content_node "test" (digest 9)) /\
  is_Some (object_of test_store (content_node "test" (digest 9))) /\
  object_of test_after (content_node "test" (digest 9)) = None.
Proof.
  split; [vm_compute; reflexivity|]. split; [reflexivity|].
  split; [|split; [vm_compute; eauto|vm_compute; reflexivity]].
  eapply (lease_reaches_content_label _ _ _ (digest 8)
            (mkContent 256
               (list_to_map [("containerd.io/gc.ref.content.0", digest 9)]))
            "containerd.io/gc.ref.content.0" (digest 9)).
  - eapply (lease_reaches_resource _ _ _ (mkResource (digest 8) "content")).
    + left.
    + vm_compute. left.
  - vm_compute. reflexivity.
  - vm_compute. reflexivity.
  - vm_compute. reflexivity.
Qed.

(** A failed commit: the sweep had deleted objects on the transaction's
    copy, the store still holds them all. *)
Lemma failed_commit_keeps_store :
  GarbageCollect failing_cfg test_now test_store =
    (test_store, inl "commit failed") /\
  (exists tx st, cycle failing_cfg test_now test_store = inr (tx, st) /\
                 object_of tx (content_node "test" (digest 1)) = None /\
                 is_Some (object_of test_store (content_node "test" (digest 1)))).
Proof.
  split; [vm_compute; reflexivity|].
  eexists _, _. split; [reflexivity|]. split; [vm_compute; reflexivity|].
  vm_compute. eauto.
Qed.

(** A failed marking: the references of the active node [test4] cannot
    be had, the cycle ends there and the store is as it was. *)
Lemma failed_mark_keeps_store :
  GarbageCollect broken_cfg test_now test_store =
    (test_store, inl "references failed").
Proof. vm_compute. reflexivity. Qed.

(** A snapshot that the sweep is refused: of two snapshots that nothing
    keeps, [a] and its child [b], the first cycle comes to [a] while [b]
    is still stored and deletes only [b]; the next cycle deletes [a]. *)
Definition orphans : Store :=
  {| contents := ∅;
     snapshots := list_to_map
       [ newSnapshot "a" EmptyString []; newSnapshot "b" "a" [] ];
     images := ∅; containers := ∅; leases := ∅; collected := ∅ |}.

Lemma sweep_skips_parent :
  let once := (GarbageCollect test_cfg test_now orphans).1 in
  let twice := (GarbageCollect test_cfg test_now once).1 in
  ~ kept test_cfg test_now orphans (snapshot_node "test" "native" "a") /\
  is_Some (object_of once (snapshot_node "test" "native" "a")) /\
  object_of once (snapshot_node "test" "native" "b") = None /\
  object_of twice (snapshot_node "test" "native" "a") = None.
Proof.
  split; [|split; [|split]].
  - intros [[|] Ha]; revert Ha; apply not_alive_marked; vm_compute; reflexivity.
  - vm_compute. eauto.
  - vm_compute. reflexivity.
  - vm_compute. reflexivity.
Qed.

End GC.

(** ** The container store: field-path updates *)

Module Containers.

Inductive errdef := ErrNotFound | ErrInvalidArgument.

(** [containers.RuntimeInfo]: the runtime's name and its opaque options. *)
Record RuntimeInfo := mkRuntimeInfo {
  Name : string;
  Options : list N;
}.

(** [time.Time], in whole seconds. *)
Definition Time := Z.

(** Modelled from the spec: [containers.Container] is not among the
    sources.  The attributes are those of the specification's data model
    (snapshot key and snapshotter, image, runtime, serialized spec,
    labels, extensions) and those the sources read or set on the record:
    [SandboxID] ([client/container_opts.go]) and [CreatedAt] (the CRI
    server's sandbox recovery); the update time goes with the creation
    time, as it does on snapshots and images. *)
Record Container := mkContainer {
  ID : string;
  Labels : gmap string string;
  Image : string;
  Runtime : RuntimeInfo;
  Spec : list N;
  SnapshotKey : string;
  Snapshotter : string;
  Extensions : gmap string (list N);
  SandboxID : string;
  CreatedAt : Time;
  UpdatedAt : Time;
}.

(** The fields of a record that a caller sets, other than the id and the
    labels. *)
Inductive Field :=
| FImage | FRuntime | FSpec | FSnapshotKey | FSnapshotter | FExtensions
| FSandboxID.

#[global] Instance Field_eq_dec : EqDecision Field.
Proof. solve_decision. Defined.

(** The containers of every namespace, by namespace and id. *)
Definition Store := gmap (string * string) Container.

(** [strings.CutPrefix]: what follows [prefix] in [s], if [s] starts
    with it. *)
Fixpoint CutPrefix (prefix s : string) : option string :=
  match prefix, s with
  | EmptyString, _ => Some s
  | String a prefix, String b s =>
      if Ascii.eqb a b then CutPrefix prefix s else None
  | String _ _, EmptyString => None
  end.

Definition set_labels (labels : gmap string string) (c : Container)
  : Container :=
  {| ID := ID c; Labels := labels; Image := Image c; Runtime := Runtime c;
     Spec := Spec c; SnapshotKey := SnapshotKey c;
     Snapshotter := Snapshotter c; Extensions := Extensions c;
     SandboxID := SandboxID c;
     CreatedAt := CreatedAt c; UpdatedAt := UpdatedAt c |}.

(** [updated.UpdatedAt = now]. *)
Definition set_updated (now : Time) (c : Container) : Container :=
  {| ID := ID c; Labels := Labels c; Image := Image c; Runtime := Runtime c;
     Spec := Spec c; SnapshotKey := SnapshotKey c;
     Snapshotter := Snapshotter c; Extensions := Extensions c;
     SandboxID := SandboxID c;
     CreatedAt := CreatedAt c; UpdatedAt := now |}.

(** [updated.F = container.F] for the field [f]. *)
Definition copy_field (f : Field) (container updated : Container)
  : Container :=
  {| ID := ID updated; Labels := Labels updated;
     Image := if decide (f = FImage) then Image container else Image updated;
     Runtime :=
       if decide (f = FRuntime) then Runtime container else Runtime updated;
     Spec := if decide (f = FSpec) then Spec container else Spec updated;
     SnapshotKey :=
       if decide (f = FSnapshotKey) then SnapshotKey container
       else SnapshotKey updated;
     Snapshotter :=
       if decide (f = FSnapshotter) then Snapshotter container
       else Snapshotter updated;
     Extensions :=
       if decide (f = FExtensions) then Extensions container
       else Extensions updated;
     SandboxID :=
       if decide (f = FSandboxID) then SandboxID container
       else SandboxID updated;
     CreatedAt := CreatedAt updated; UpdatedAt := UpdatedAt updated |}.

(** The record [c'] has for the field [f] what [c] has. *)
Definition same_field (f : Field) (c c' : Container) : Prop :=
  match f with
  | FImage => Image c' = Image c
  | FRuntime => Runtime c' = Runtime c
  | FSpec => Spec c' = Spec c
  | FSnapshotKey => SnapshotKey c' = SnapshotKey c
  | FSnapshotter => Snapshotter c' = Snapshotter c
  | FExtensions => Extensions c' = Extensions c
  | FSandboxID => SandboxID c' = SandboxID c
  end.

Section Update.
(** The designated mutable fields, each under the path that names it. *)
Variable mutable : list (string * Field).

Definition designated (path : string) : option Field :=
  snd <$> List.find (fun pf => bool_decide (pf.1 = path)) mutable.

(** One field path applied to the record read from the store.  The
    discipline is that of [storage.UpdateInfo]: a path [labels.<key>]
    sets that one label to the value the caller's record has for it
    (Go's empty string when it has none), the path [labels] replaces the
    labels, and a path that names no mutable field is rejected. *)
Definition update_path (container updated : Container) (path : string)
  : errdef + Container :=
  match CutPrefix "labels." path with
  | Some key =>
      inr (set_labels
             (<[key := default EmptyString (Labels container !! key)]>
                (Labels updated))
             updated)
  | None =>
      if decide (path = "labels")
      then inr (set_labels (Labels container) updated)
      else match designated path with
           | Some f => inr (copy_field f container updated)
           | None => inl ErrInvalidArgument
           end
  end.

Fixpoint update_paths (container updated : Container)
    (fieldpaths : list string) : errdef + Container :=
  match fieldpaths with
  | [] => inr updated
  | path :: fieldpaths =>
      match update_path container updated path with
      | inl e => inl e
      | inr updated => update_paths container updated fieldpaths
      end
  end.

(** Without field paths the whole mutable portion is replaced. *)
Definition replace_mutable (container updated : Container) : Container :=
  foldl (fun u pf => copy_field pf.2 container u)
        (set_labels (Labels container) updated) mutable.

(** Modelled from the spec: [Update] of the container store
    ([core/metadata/containers.go]) is not among the sources.  The record
    stored under the id of [container] is read, the field paths are
    applied to it in order, the update time is set to the time of the
    call, as [storage.UpdateInfo] sets it, and the result is written back
    and returned; a missing id is [NotFound], a disallowed path
    [InvalidArgument], and a failed call writes nothing. *)
Definition Update (now : Time) (db : Store) (ns : string)
    (container : Container) (fieldpaths : list string)
  : Store * (errdef + Container) :=
  match db !! (ns, ID container) with
  | None => (db, inl ErrNotFound)
  | Some stored =>
      let result :=
        match fieldpaths with
        | [] => inr (replace_mutable container stored)
        | _ => update_paths container stored fieldpaths
        end in
      match result with
      | inl e => (db, inl e)
      | inr updated =>
          let updated := set_updated now updated in
          (<[(ns, ID container) := updated]> db, inr updated)
      end
  end.

(** A field path addresses the label [key]. *)
Definition addresses_label (key path : string) : Prop :=
  path = "labels" \/ path = "labels." +:+ key.

(** A field path addresses the field [f]: it is no label path and names
    the field. *)
Definition addresses_field (f : Field) (path : string) : Prop :=
  CutPrefix "labels." path = None /\ path <> "labels" /\
  designated path = Some f.

#[local] Instance addresses_label_dec key path :
  Decision (addresses_label key path).
Proof. unfold addresses_label. apply _. Defined.

#[local] Instance addresses_field_dec f path :
  Decision (addresses_field f path).
Proof. unfold addresses_field. apply _. Defined.

(** *** What an update changes and what it leaves alone *)

Lemma CutPrefix_Some prefix : forall s key,
  CutPrefix prefix s = Some key <-> s = prefix +:+ key.
Proof.
  induction prefix as [|a prefix IH]; intros s key; cbn.
  - split; [intros [= ->]; reflexivity|intros ->; reflexivity].
  - destruct s as [|b s]; [split; discriminate|].
    destruct (Ascii.eqb_spec a b) as [->|Hab].
    + rewrite IH. split; [intros ->; reflexivity|intros [= ->]; reflexivity].
    + split; [discriminate|intros [= ? ?]; congruence].
Qed.

Lemma same_field_refl f c : same_field f c c.
Proof. destruct f; reflexivity. Qed.

Lemma same_field_trans f c1 c2 c3 :
  same_field f c1 c2 -> same_field f c2 c3 -> same_field f c1 c3.
Proof. destruct f; cbn; congruence. Qed.

Lemma same_field_set_labels f labels c : same_field f c (set_labels labels c).
Proof. destruct f; reflexivity. Qed.

Lemma same_field_set_updated f now c : same_field f c (set_updated now c).
Proof. destruct f; reflexivity. Qed.

Lemma same_field_copy_field f g container c :
  f <> g -> same_field f c (copy_field g container c).
Proof. intros Hfg. destruct f, g; try reflexivity; contradiction. Qed.

Lemma same_field_copied f container c :
  same_field f container (copy_field f container c).
Proof. destruct f; reflexivity. Qed.

(** The value Go reads for a label: the empty string for a missing key. *)
Definition label (c : Container) (key : string) : string :=
  default EmptyString (Labels c !! key).

(** One path changes the label and the field it addresses, to what the
    caller's record has for it, and nothing else. *)
Lemma update_path_frame container updated updated' path :
  update_path container updated path = inr updated' ->
  ID updated' = ID updated /\ CreatedAt updated' = CreatedAt updated /\
  UpdatedAt updated' = UpdatedAt updated /\
  (forall key, ~ addresses_label key path ->
               Labels updated' !! key = Labels updated !! key) /\
  (forall key, addresses_label key path ->
               label updated' key = label container key) /\
  (forall f, ~ addresses_field f path -> same_field f updated updated') /\
  (forall f, addresses_field f path -> same_field f container updated').
Proof.
  unfold update_path, addresses_label, addresses_field, label.
  destruct (CutPrefix "labels." path) as [key|] eqn:Hcut.
  - pose proof Hcut as Hpath. apply CutPrefix_Some in Hpath. intros [= <-].
    split; [reflexivity|]. split; [reflexivity|]. split; [reflexivity|].
    split; [|split; [|split]].
    + intros k Hk. cbn. apply lookup_insert_ne. intros ->. tauto.
    + intros k [->|Hk]; [discriminate|]. cbn.
      apply CutPrefix_Some in Hk. assert (k = key) as -> by congruence.
      rewrite lookup_insert_eq. reflexivity.
    + intros f _. apply same_field_set_labels.
    + intros f [? _]. discriminate.
  - destruct (decide (path = "labels")) as [->|Hne].
    + intros [= <-].
      split; [reflexivity|]. split; [reflexivity|]. split; [reflexivity|].
      split; [|split; [|split]].
      * intros k Hk. tauto.
      * reflexivity.
      * intros f _. apply same_field_set_labels.
      * intros f (_ & ? & _). contradiction.
    + destruct (designated path) as [g|]; [|discriminate].
      intros [= <-].
      split; [reflexivity|]. split; [reflexivity|]. split; [reflexivity|].
      split; [|split; [|split]].
      * reflexivity.
      * intros k [?|Hk]; [contradiction|]. exfalso.
        assert (CutPrefix "labels." path = Some k)
          by (apply CutPrefix_Some; exact Hk). congruence.
      * intros f Hf. apply same_field_copy_field. intros ->. apply Hf. auto.
      * intros f (_ & _ & [= <-]). apply same_field_copied.
Qed.

(** The paths of a list, applied in order: what no path addresses is as
    it was, what a path addresses is what the caller's record has. *)
Lemma update_paths_frame container fieldpaths : forall updated updated',
  update_paths container updated fieldpaths = inr updated' ->
  ID updated' = ID updated /\ CreatedAt updated' = CreatedAt updated /\
  UpdatedAt updated' = UpdatedAt updated /\
  (forall key, (forall path, path ∈ fieldpaths -> ~ addresses_label key path) ->
               Labels updated' !! key = Labels updated !! key) /\
  (forall key path, path ∈ fieldpaths -> addresses_label key path ->
                    label updated' key = label container key) /\
  (forall f, (forall path, path ∈ fieldpaths -> ~ addresses_field f path) ->
             same_field f updated updated') /\
  (forall f path, path ∈ fieldpaths -> addresses_field f path ->
                  same_field f container updated').
Proof.
  induction fieldpaths as [|path fieldpaths IH]; intros updated updated'; cbn.
  - intros [= <-].
    split; [reflexivity|]. split; [reflexivity|]. split; [reflexivity|].
    split; [reflexivity|]. split; [intros k p Hp; inversion Hp|].
    split; [intros f _; apply same_field_refl|intros f p Hp; inversion Hp].
  - destruct (update_path container updated path) as [e|u] eqn:Hp;
      [discriminate|].
    intros Hrest.
    apply update_path_frame in Hp as (Hid & Hc & Hu & Hl & Hl' & Hf & Hf').
    apply IH in Hrest as (Gid & Gc & Gu & Gl & Gl' & Gf & Gf').
    split; [congruence|]. split; [congruence|]. split; [congruence|].
    split; [|split; [|split]].
    + intros key Hkey. rewrite Gl, Hl; [reflexivity| |].
      * apply Hkey. left.
      * intros p Hin. apply Hkey. right. exact Hin.
    + intros key p Hin Ha.
      destruct (decide (Exists (addresses_label key) fieldpaths)) as [He|Hno].
      * apply Exists_exists in He as (q & Hq & Hqa).
        exact (Gl' key q Hq Hqa).
      * assert (Hnone : forall q, q ∈ fieldpaths -> ~ addresses_label key q).
        { intros q Hq Hqa. apply Hno, Exists_exists. eauto. }
        apply elem_of_cons in Hin as [->|Hin]; [|destruct (Hnone p Hin Ha)].
        unfold label. rewrite (Gl key Hnone). apply (Hl' key Ha).
    + intros f Hno. eapply same_field_trans.
      * apply Hf, Hno. left.
      * apply Gf. intros p Hin. apply Hno. right. exact Hin.
    + intros f p Hin Ha.
      destruct (decide (Exists (addresses_field f) fieldpaths)) as [He|Hno].
      * apply Exists_exists in He as (q & Hq & Hqa).
        exact (Gf' f q Hq Hqa).
      * assert (Hnone : forall q, q ∈ fieldpaths -> ~ addresses_field f q).
        { intros q Hq Hqa. apply Hno, Exists_exists. eauto. }
        apply elem_of_cons in Hin as [->|Hin]; [|destruct (Hnone p Hin Ha)].
        eapply same_field_trans; [apply (Hf' f Ha)|]. apply (Gf f Hnone).
Qed.

(** C6, as the store has it.  An update of a stored container with the
    single field path [labels.<key>] succeeds and writes back the stored
    record with that one label set to what the caller's record has for
    it and the update time set to the time of the call: the id, the
    image, the runtime, the spec, the snapshot key, the snapshotter, the
    extensions, the sandbox id, the creation time and every other label
    are what they were, and so is every other container.  In general, an
    update with field paths sets every label and every field that a path
    addresses to what the caller's record has for it, leaves every label
    and every field that no path addresses as it was, and sets the update
    time. *)
Theorem Update_label_only now db ns container stored key :
  db !! (ns, ID container) = Some stored ->
  let updated :=
    set_updated now
      (set_labels (<[key := label container key]> (Labels stored)) stored) in
  Update now db ns container ["labels." +:+ key]
    = (<[(ns, ID container) := updated]> db, inr updated) /\
  (ID updated = ID stored /\ Image updated = Image stored /\
   Runtime updated = Runtime stored /\ Spec updated = Spec stored /\
   SnapshotKey updated = SnapshotKey stored /\
   Snapshotter updated = Snapshotter stored /\
   Extensions updated = Extensions stored /\
   SandboxID updated = SandboxID stored /\
   CreatedAt updated = CreatedAt stored) /\
  Labels updated !! key = Some (label container key) /\
  (forall k, k <> key -> Labels updated !! k = Labels stored !! k) /\
  UpdatedAt updated = now /\
  (forall other, other <> (ns, ID container) ->
     (<[(ns, ID container) := updated]> db) !! other = db !! other) /\
  (forall fieldpaths db' updated',
     fieldpaths <> [] ->
     Update now db ns container fieldpaths = (db', inr updated') ->
     db' = <[(ns, ID container) := updated']> db /\
     ID updated' = ID stored /\ CreatedAt updated' = CreatedAt stored /\
     UpdatedAt updated' = now /\
     (forall k, (forall path, path ∈ fieldpaths -> ~ addresses_label k path) ->
                Labels updated' !! k = Labels stored !! k) /\
     (forall k path, path ∈ fieldpaths -> addresses_label k path ->
                     label updated' k = label container k) /\
     (forall f, (forall path, path ∈ fieldpaths -> ~ addresses_field f path) ->
                same_field f stored updated') /\
     (forall f path, path ∈ fieldpaths -> addresses_field f path ->
                     same_field f container updated')).
Proof.
  intros Hstored updated.
  split; [|split; [|split; [|split; [|split; [|split]]]]].
  - unfold Update. rewrite Hstored. cbn [update_paths]. unfold update_path.
    assert (CutPrefix "labels." ("labels." +:+ key) = Some key) as ->
      by (apply CutPrefix_Some; reflexivity).
    reflexivity.
  - repeat split.
  - cbn. apply lookup_insert_eq.
  - intros k Hk. cbn. apply lookup_insert_ne. congruence.
  - reflexivity.
  - intros other Hother. apply lookup_insert_ne. congruence.
  - intros fieldpaths db' updated' Hne. unfold Update. rewrite Hstored.
    destruct fieldpaths as [|path fieldpaths]; [contradiction|].
    destruct (update_paths container stored (path :: fieldpaths))
      as [e|u] eqn:Hu; [discriminate|].
    intros [= <- <-]. split; [reflexivity|].
    destruct (update_paths_frame _ _ _ _ Hu)
      as (Hid & Hc & _ & Hl & Hl' & Hf & Hf').
    split; [exact Hid|]. split; [exact Hc|]. split; [reflexivity|].
    split; [exact Hl|]. split; [exact Hl'|]. split.
    + intros f Hno. eapply same_field_trans;
        [apply (Hf f Hno)|apply same_field_set_updated].
    + intros f p Hin Ha. eapply same_field_trans;
        [apply (Hf' f p Hin Ha)|apply same_field_set_updated].
Qed.

End Update.
(** A container as [db_test.go] creates them, with two labels, under an
    update of the label [foo]. *)
Definition designated_fields : list (string * Field) :=
  [("image", FImage); ("spec", FSpec); ("snapshotkey", FSnapshotKey);
   ("extensions", FExtensions)].

Definition example_stored : Container :=
  mkContainer "1" (list_to_map [("foo", "old"); ("keep", "this")])
    "image-1" (mkRuntimeInfo "testruntime" []) [] "4" "native" ∅
    EmptyString 5%Z 5%Z.

Definition example_given : Container :=
  mkContainer "1" (list_to_map [("foo", "bar")])
    EmptyString (mkRuntimeInfo EmptyString []) [] EmptyString EmptyString ∅
    EmptyString 0%Z 0%Z.

Definition example_store : Store :=
  {[ ("testing", "1") := example_stored ]}.

Lemma Update_label_only_witness :
  exists updated,
    Update designated_fields 9%Z example_store "testing" example_given
      ["labels.foo"]
      = (<[("testing", "1") := updated]> example_store, inr updated) /\
    Labels updated !! "foo" = Some "bar" /\
    Labels updated !! "keep" = Some "this" /\
    SnapshotKey updated = "4" /\ Image updated = "image-1".
Proof.
  pose proof (Update_label_only designated_fields 9%Z example_store "testing"
                example_given example_stored "foo" eq_refl) as H.
  cbv zeta in H. destruct H as (HU & _ & Hk & Hl & _).
  eexists. split; [exact HU|]. split; [exact Hk|].
  split; [|split; reflexivity].
  rewrite Hl by discriminate. reflexivity.
Defined.

(** C6 as stated fails at the update time: after an update with the one
    path [labels.foo] a field other than that label differs from what
    was stored. *)
Lemma Update_sets_update_time :
  exists db' updated,
    Update designated_fields 9%Z example_store "testing" example_given
      ["labels.foo"] = (db', inr updated) /\
    db' !! ("testing", "1") = Some updated /\
    UpdatedAt updated <> UpdatedAt example_stored.
Proof.
  eexists _, _. split; [reflexivity|]. split.
  - apply lookup_insert_eq.
  - cbn. discriminate.
Qed.

End Containers.

(** ** The migration runner of the metadata database *)

Module Migrations.
Import Binary.

(** Go's conversions to [uint64] and [int64]. *)
Definition uint64 (x : Z) : Z := (x mod 2 ^ 64)%Z.
Definition int64 (x : Z) : Z := ((x + 2 ^ 63) mod 2 ^ 64 - 2 ^ 63)%Z.

(** The bytes [binary.PutVarint] writes for the [int64] [x]. *)
Definition PutVarint (x : Z) : bytes :=
  let ux := uint64 (Z.shiftl (uint64 x) 1) in
  let ux := if (x <? 0)%Z then uint64 (Z.lnot ux) else ux in
  uvarint (Z.to_N ux).

(** [binary.Varint(buf)]: the decoded value and the number of bytes
    read. *)
Definition Varint (buf : bytes) : Z * Z :=
  let '(ux, n) := Uvarint buf in
  let x := int64 (Z.shiftr (Z.of_N ux) 1) in
  (if Z.testbit (Z.of_N ux) 0 then Z.lnot x else x, n).

(** What a bolt bucket holds under a key: a value or a nested bucket. *)
#[local] Unset Elimination Schemes.
Inductive Entry :=
| Value (v : bytes)
| Nested (b : gmap string Entry).
#[local] Set Elimination Schemes.

Abbreviation Bucket := (gmap string Entry).

(** The root of a transaction: the top-level buckets and all they hold. *)
Abbreviation Tx := (gmap string Entry).

(** [Tx.Bucket(name)] and [Bucket.Get(key)]: [None] is Go's [nil]. *)
Definition GetBucket (b : Bucket) (name : string) : option Bucket :=
  match b !! name with
  | Some (Nested b) => Some b
  | _ => None
  end.

Definition Get (b : Bucket) (key : string) : option bytes :=
  match b !! key with
  | Some (Value v) => Some v
  | _ => None
  end.

(** *** The version is read back as it was written *)

Lemma Varint_PutVarint x rest :
  (- 2 ^ 63 <= x < 2 ^ 63)%Z -> (Varint (PutVarint x ++ rest)).1 = x.
Proof.
  intros Hx. unfold Varint, PutVarint.
  set (ux := if (x <? 0)%Z
             then uint64 (Z.lnot (uint64 (Z.shiftl (uint64 x) 1)))
             else uint64 (Z.shiftl (uint64 x) 1)).
  assert (Hux : ux = if (x <? 0)%Z then (- 2 * x - 1)%Z else (2 * x)%Z).
  { subst ux. unfold uint64. rewrite Z.shiftl_mul_pow2 by lia.
    change (2 ^ 63)%Z with 9223372036854775808%Z in Hx.
    change (2 ^ 64)%Z with 18446744073709551616%Z.
    change (2 ^ 1)%Z with 2%Z.
    destruct (Z.ltb_spec x 0) as [Hneg|Hpos].
    - unfold Z.lnot.
      replace (x mod 18446744073709551616)%Z
        with (x + 18446744073709551616)%Z
        by (apply (Z.mod_unique_pos _ _ (-1)); lia).
      replace (((x + 18446744073709551616) * 2) mod 18446744073709551616)%Z
        with (2 * x + 18446744073709551616)%Z
        by (apply (Z.mod_unique_pos _ _ 1); lia).
      symmetry. apply (Z.mod_unique_pos _ _ (-1)); lia.
    - rewrite (Z.mod_small x) by lia. rewrite Z.mod_small by lia. lia. }
  assert (Hrange : (0 <= ux < 2 ^ 64)%Z).
  { change (2 ^ 63)%Z with 9223372036854775808%Z in Hx.
    change (2 ^ 64)%Z with 18446744073709551616%Z.
    rewrite Hux. destruct (x <? 0)%Z eqn:Hs; [apply Z.ltb_lt in Hs|
      apply Z.ltb_ge in Hs]; lia. }
  rewrite Uvarint_uvarint.
  2:{ change (2 ^ 64)%N with (Z.to_N (2 ^ 64)). lia. }
  cbn [fst]. rewrite Z2N.id by lia.
  rewrite Z.shiftr_div_pow2 by lia. rewrite Z.bit0_odd. unfold int64.
  change (2 ^ 63)%Z with 9223372036854775808%Z in *.
  change (2 ^ 64)%Z with 18446744073709551616%Z in *.
  change (2 ^ 1)%Z with 2%Z.
  rewrite Hux. destruct (Z.ltb_spec x 0) as [Hneg|Hpos].
  - replace (- 2 * x - 1)%Z with (1 + 2 * (- x - 1))%Z by lia.
    rewrite Z.odd_add_mul_2. cbn [Z.odd].
    replace ((1 + 2 * (- x - 1)) / 2)%Z with (- x - 1)%Z
      by (apply (Z.div_unique_pos _ _ _ 1); lia).
    rewrite Z.mod_small by lia. unfold Z.lnot. lia.
  - replace (2 * x)%Z with (0 + 2 * x)%Z by lia.
    rewrite Z.odd_add_mul_2. cbn [Z.odd].
    replace ((0 + 2 * x) / 2)%Z with x
      by (apply (Z.div_unique_pos _ _ _ 0); lia).
    rewrite Z.mod_small by lia. lia.
Qed.

Section Runner.
(** The errors of migrations. *)
Context {E : Type}.

Inductive error :=
| ErrNotFound
| ErrIncompatibleValue
| ErrMigration (name : string) (cause : E).

(** A step of the list: its name and what it does to the transaction. *)
Record migration := mkMigration {
  name : string;
  migrate : Tx -> E + Tx;
}.

(** The names of the version bucket and of the key the version is
    stored under, the version of the current schema, the list of
    migrations, and the version a database counts as that stores none;
    the specification leaves them to the implementation. *)
Variable bucketKeyVersion bucketKeyDBVersion : string.
Variable dbVersion : Z.
Variable migrations : list migration.
Variable unversioned : Z.

(** [readDBVersion] of [db_test.go]. *)
Definition readDBVersion (db : Tx) (schema : string) : error + Z :=
  match GetBucket db schema with
  | None => inl ErrNotFound
  | Some bkt =>
      match Get bkt bucketKeyDBVersion with
      | None => inl ErrNotFound
      | Some vb => inr (Varint vb).1
      end
  end.

(** Modelled from the spec: [encodeInt] of the metadata package is not
    among the sources; integers are stored as varints of minimal width,
    which [readDBVersion] reads back with [binary.Varint]. *)
Definition encodeInt (i : Z) : bytes := PutVarint i.

(** The version the runner starts from. *)
Definition current_version (tx : Tx) : Z :=
  match readDBVersion tx bucketKeyVersion with
  | inr v => v
  | inl _ => unversioned
  end.

(** The loop over the list: [i] is the index of the head of [ms]; a
    migration runs when its index is at least [version], and the first
    failure ends the loop. *)
Fixpoint migrate_from (i : nat) (ms : list migration) (version : Z)
    (tx : Tx) : error + Tx :=
  match ms with
  | [] => inr tx
  | m :: ms =>
      if (version <=? Z.of_nat i)%Z
      then match migrate m tx with
           | inl e => inl (ErrMigration (name m) e)
           | inr tx => migrate_from (S i) ms version tx
           end
      else migrate_from (S i) ms version tx
  end.

(** [Tx.CreateBucketIfNotExists(name)] followed by [Bucket.Put(key, v)]:
    bolt refuses a bucket where a value is, and a value where a bucket
    is. *)
Definition put_in_bucket (tx : Tx) (bucket key : string) (v : bytes)
  : error + Tx :=
  match tx !! bucket with
  | Some (Value _) => inl ErrIncompatibleValue
  | Some (Nested bkt) =>
      match bkt !! key with
      | Some (Nested _) => inl ErrIncompatibleValue
      | _ => inr (<[bucket := Nested (<[key := Value v]> bkt)]> tx)
      end
  | None => inr (<[bucket := Nested {[ key := Value v ]}]> tx)
  end.

(** The version of the current schema, written to the version bucket. *)
Definition persist (tx : Tx) : error + Tx :=
  put_in_bucket tx bucketKeyVersion bucketKeyDBVersion (encodeInt dbVersion).

(** A write transaction: what [fn] did replaces the database only when
    [fn] succeeds. *)
Definition update (db : Tx) (fn : Tx -> error + Tx) : Tx * option error :=
  match fn db with
  | inl e => (db, Some e)
  | inr tx => (tx, None)
  end.

(** Modelled from the spec: [DB.Init] of [core/metadata/db.go] is not
    among the sources.  In one write transaction the version is read,
    every migration whose index is at least that version is applied, in
    the order of the list, and the version of the current schema is
    stored. *)
Definition Init (db : Tx) : Tx * option error :=
  update db (fun tx =>
    match migrate_from 0 migrations (current_version tx) tx with
    | inl e => inl e
    | inr tx => persist tx
    end).

(** The migrations of a list applied one after the other. *)
Fixpoint apply_all (ms : list migration) (tx : Tx) : error + Tx :=
  match ms with
  | [] => inr tx
  | m :: ms =>
      match migrate m tx with
      | inl e => inl (ErrMigration (name m) e)
      | inr tx => apply_all ms tx
      end
  end.

(** *** The runner *)

(** The loop runs exactly the migrations from index [version] on. *)
Lemma migrate_from_drop ms : forall i version tx,
  migrate_from i ms version tx
  = apply_all (drop (Z.to_nat version - i) ms) tx.
Proof.
  induction ms as [|m ms IH]; intros i version tx; cbn [migrate_from].
  - rewrite drop_nil. reflexivity.
  - destruct (Z.leb_spec version (Z.of_nat i)) as [Hle|Hgt].
    + replace (Z.to_nat version - i)%nat with 0%nat by lia.
      cbn [drop apply_all]. destruct (migrate m tx) as [e|tx']; [reflexivity|].
      rewrite IH. replace (Z.to_nat version - S i)%nat with 0%nat by lia.
      reflexivity.
    + replace (Z.to_nat version - i)%nat
        with (S (Z.to_nat version - S i)) by lia.
      cbn [drop]. apply IH.
Qed.

Lemma readDBVersion_persist tx tx' :
  (- 2 ^ 63 <= dbVersion < 2 ^ 63)%Z ->
  persist tx = inr tx' ->
  readDBVersion tx' bucketKeyVersion = inr dbVersion.
Proof.
  intros Hv. unfold persist, put_in_bucket, readDBVersion, GetBucket, Get.
  pose proof (Varint_PutVarint dbVersion [] Hv) as Hread.
  rewrite app_nil_r in Hread.
  destruct (tx !! bucketKeyVersion) as [[v|bkt]|]; [discriminate| |].
  - destruct (bkt !! bucketKeyDBVersion) as [[v|b]|];
      [|discriminate|]; intros [= <-];
      rewrite lookup_insert_eq; cbv beta iota;
      rewrite lookup_insert_eq; unfold encodeInt;
      rewrite Hread; reflexivity.
  - intros [= <-]. rewrite lookup_insert_eq. cbv beta iota.
    rewrite lookup_singleton_eq. unfold encodeInt. rewrite Hread.
    reflexivity.
Qed.

(** C7.  [Init] reads the stored version and, in one write transaction,
    applies exactly the migrations whose index is at least that version,
    in the order of the list, and then stores the version of the current
    schema.  When it succeeds, on a fresh database as on any other, the
    version read back from the version bucket is [dbVersion]; when a
    migration or the write of the version fails, the database is left as
    it was. *)
Theorem Init_migrates db :
  (- 2 ^ 63 <= dbVersion < 2 ^ 63)%Z ->
  let pending := drop (Z.to_nat (current_version db)) migrations in
  (forall v, readDBVersion db bucketKeyVersion = inr v ->
             current_version db = v) /\
  (forall j, pending !! j
             = migrations !! (Z.to_nat (current_version db) + j)%nat) /\
  Init db = match apply_all pending db with
            | inl e => (db, Some e)
            | inr tx =>
                match persist tx with
                | inl e => (db, Some e)
                | inr tx' => (tx', None)
                end
            end /\
  (forall db', Init db = (db', None) ->
               readDBVersion db' bucketKeyVersion = inr dbVersion) /\
  (forall db' e, Init db = (db', Some e) -> db' = db).
Proof.
  intros Hv pending.
  assert (HI : Init db = match apply_all pending db with
                         | inl e => (db, Some e)
                         | inr tx =>
                             match persist tx with
                             | inl e => (db, Some e)
                             | inr tx' => (tx', None)
                             end
                         end).
  { unfold Init, update. rewrite migrate_from_drop, Nat.sub_0_r.
    fold pending. destruct (apply_all pending db) as [e|tx]; [reflexivity|].
    destruct (persist tx); reflexivity. }
  split; [|split; [|split; [|split]]].
  - intros v Hr. unfold current_version. rewrite Hr. reflexivity.
  - intros j. apply lookup_drop.
  - exact HI.
  - intros db'. rewrite HI.
    destruct (apply_all pending db) as [e|tx]; [discriminate|].
    destruct (persist tx) as [e|tx'] eqn:Hp; [discriminate|].
    intros [= <-]. exact (readDBVersion_persist _ _ Hv Hp).
  - intros db' e. rewrite HI.
    destruct (apply_all pending db) as [e'|tx]; [intros [= <- _]; reflexivity|].
    destruct (persist tx); [intros [= <- _]; reflexivity|discriminate].
Qed.

End Runner.
(** Two migrations, each leaving its mark in the bucket [v1], on a
    database that stores version 1 and on a fresh one. *)
Definition mark_migration (key : string) : migration (E := string) :=
  mkMigration key (fun tx =>
    match GetBucket tx "v1" with
    | Some bkt => inr (<["v1" := Nested (<[key := Value [1%N]]> bkt)]> tx)
    | None => inr tx
    end).

Definition example_migrations : list (migration (E := string)) :=
  [mark_migration "first"; mark_migration "second"].

Definition versioned_db : Tx :=
  {[ "v1" := Nested {[ "version" := Value (encodeInt 1) ]} ]}.

Lemma Init_migrates_witness :
  Init "v1" "version" 2 example_migrations 0 versioned_db
    = ({[ "v1" := Nested (<["version" := Value (encodeInt 2)]>
                            (<["second" := Value [1%N]]>
                               {[ "version" := Value (encodeInt 1) ]})) ]},
       None) /\
  Init "v1" "version" 2 example_migrations 0 ∅
    = ({[ "v1" := Nested {[ "version" := Value (encodeInt 2) ]} ]}, None) /\
  readDBVersion (E := string) "version"
    (Init "v1" "version" 2 example_migrations 0 ∅).1 "v1" = inr 2%Z.
Proof.
  assert (Hv : (- 2 ^ 63 <= 2 < 2 ^ 63)%Z)
    by (split; [discriminate|reflexivity]).
  destruct (Init_migrates "v1" "version" 2 example_migrations 0
              versioned_db Hv) as (_ & _ & HI & _).
  destruct (Init_migrates "v1" "version" 2 example_migrations 0 ∅ Hv)
    as (_ & _ & HI' & Hfresh & _).
  split; [rewrite HI; vm_compute; reflexivity|].
  split; [rewrite HI'; vm_compute; reflexivity|].
  apply Hfresh. rewrite HI'. vm_compute. reflexivity.
Defined.

End Migrations.


(** ** The snapshot lineage store: the rest of the package

    [GetInfo], [GetSnapshot], [UpdateInfo] and [IDMap] of
    [core/snapshots/storage/bolt.go], over the buckets of [Storage], and
    what the package's operations guarantee to their callers. *)

Module Lineage.
Import Binary Storage.
Local Open Scope N_scope.

(** [withSnapshotBucket(ctx, key, fn)]: every missing bucket on the way
    to the snapshot is [NotFound]. *)
Definition withSnapshotBucket {A} (ctx : Context) (key : string)
    (fn : SnapshotBucket -> outcome A) : outcome A :=
  match ctx with
  | None => Fail ErrNoTransaction
  | Some tx =>
      match v1 tx with
      | None => Fail ErrNotFound
      | Some v =>
          match snapshotsB v with
          | None => Fail ErrNotFound
          | Some b =>
              match entries b !! key with
              | None => Fail ErrNotFound
              | Some sbkt => fn sbkt
              end
          end
      end
  end.

(** [GetInfo(ctx, key)]: the id in decimal, the info and the usage. *)
Definition GetInfo (ctx : Context) (key : string)
  : outcome (string * Info * Usage) :=
  withSnapshotBucket ctx key (fun sbkt =>
    Ok (pretty (bID sbkt), readSnapshot key sbkt, bUsage sbkt)).

(** [GetSnapshot(ctx, key)]. *)
Definition GetSnapshot (ctx : Context) (key : string) : outcome Snapshot :=
  r ← withBucket ctx (fun w '(bkt, pbkt) =>
    sbkt ← Bucket bkt key;
    match sbkt with
    | None => Fail ErrNotFound
    | Some sbkt =>
        let kind := bKind sbkt in
        if decide (kind <> KindActive /\ kind <> KindView)
        then Fail ErrFailedPrecondition
        else if decide (bParent sbkt = EmptyString)
        then Ok ({| SnapshotKind := kind; SnapshotID := pretty (bID sbkt);
                    ParentIDs := [] |}, (bkt, pbkt))
        else
          spbkt ← Bucket bkt (bParent sbkt);
          match spbkt with
          | None => Fail ErrNotFound
          | Some spbkt =>
              b ← or_panic bkt;
              ids ← parents (S (size (entries b))) (entries b) spbkt
                            (bID spbkt);
              Ok ({| SnapshotKind := kind; SnapshotID := pretty (bID sbkt);
                     ParentIDs := ids |}, (bkt, pbkt))
          end
    end);
  Ok r.1.

(** [IDMap(ctx)]: [ForEach] visits the keys in ascending order, a later
    key overwriting an earlier one with the same id. *)
Definition IDMap (ctx : Context) : outcome (gmap string string) :=
  r ← withBucket ctx (fun w '(bkt, pbkt) =>
    b ← or_panic bkt;
    Ok (foldl (fun m (ks : string * SnapshotBucket) =>
                 <[pretty (bID ks.2) := ks.1]> m)
              ∅
              (merge_sort (fun a b : string * SnapshotBucket =>
                             Is_true (String.leb a.1 b.1))
                          (map_to_list (entries b))),
        (bkt, pbkt)));
  Ok r.1.

(** *** Composite keys *)

Lemma put_loop_length_ge fuel : forall x k,
  (k <= fuel)%nat -> 2 ^ (7 * N.of_nat k) <= x ->
  (S k <= length (put_loop fuel x))%nat.
Proof.
  induction fuel as [|fuel IH]; intros x k Hk Hx.
  - replace k with 0%nat by lia. cbn. lia.
  - destruct k as [|k]; cbn [put_loop].
    + destruct (128 <=? x); cbn [length]; lia.
    + replace (7 * N.of_nat (S k)) with (7 + 7 * N.of_nat k) in Hx by lia.
      rewrite N.pow_add_r in Hx. change (2 ^ 7) with 128 in Hx.
      assert (H128 : 128 <= x).
      { pose proof (N.pow_nonzero 2 (7 * N.of_nat k)). nia. }
      destruct (N.leb_spec 128 x) as [_|Hlt]; [|lia].
      cbn [length]. apply le_n_S, IH; [lia|].
      rewrite N.shiftr_div_pow2. change (2 ^ 7) with 128.
      apply N.div_le_lower_bound; lia.
Qed.

Lemma uvarint_length_ge_56 x : 2 ^ 56 <= x -> (9 <= length (uvarint x))%nat.
Proof. intros Hx. apply (put_loop_length_ge 9 x 8); [lia|exact Hx]. Qed.

(** X1.  A composite key of the parent index decodes to its parent, starts
    with the prefix key [Remove] seeks, and determines both ids. *)
Theorem parentKey_round_trip parent child k :
  parent < 2 ^ 64 -> child < 2 ^ 64 ->
  parentKey parent child = Some k ->
  getParentPrefix k = parent /\
  (forall prefix, parentPrefixKey parent = Some prefix ->
                  exists rest, k = prefix ++ rest) /\
  (forall parent' child', parent' < 2 ^ 64 -> child' < 2 ^ 64 ->
     parentKey parent' child' = Some k ->
     parent' = parent /\ child' = child).
Proof.
  intros Hp Hc Hk. pose proof (parentKey_Some _ _ _ Hk) as Hke. subst k.
  split; [|split].
  - rewrite app_assoc. apply getParentPrefix_key. exact Hp.
  - intros prefix Hprefix. unfold parentPrefixKey in Hprefix.
    destruct (PutUvarint 9 parent) as [pb|] eqn:Hpb; [|discriminate].
    apply PutUvarint_Some in Hpb as [-> _]. cbn [mbind option_bind] in Hprefix.
    destruct (length (uvarint parent) + 1 <=? 9)%nat; [|discriminate].
    injection Hprefix as <-. exists (uvarint child).
    rewrite <- app_assoc. reflexivity.
  - intros parent' child' Hp' Hc' Hk'.
    destruct (parentKey_inj _ _ _ _ _ Hp' Hc' Hp Hc Hk' Hk) as [-> ->].
    split; reflexivity.
Qed.

Lemma parentKey_round_trip_witness :
  parentKey 300 7 = Some [172; 2; 0; 7] /\
  getParentPrefix [172; 2; 0; 7] = 300.
Proof.
  assert (H300 : 300 < 2 ^ 64) by reflexivity.
  assert (H7 : 7 < 2 ^ 64) by reflexivity.
  assert (Hk : parentKey 300 7 = Some [172; 2; 0; 7]) by reflexivity.
  split; [exact Hk|].
  exact (proj1 (parentKey_round_trip 300 7 _ H300 H7 Hk)).
Defined.

(** X2.  The buffer of [parentPrefixKey] has nine bytes: the prefix key
    exists exactly for ids below [2^56], and [Remove] of a snapshot with
    a larger id panics when the parents bucket exists. *)
Theorem parentPrefixKey_bound id :
  id < 2 ^ 64 ->
  (is_Some (parentPrefixKey id) <-> id < 2 ^ 56) /\
  (forall tx b p key s,
     v1 tx = Some (mkV1 (Some b) (Some p)) ->
     entries b !! key = Some s -> bID s = id -> 2 ^ 56 <= id ->
     Remove (Some tx) key = Panic).
Proof.
  intros Hid.
  assert (Hnone : 2 ^ 56 <= id -> parentPrefixKey id = None).
  { intros Hge. unfold parentPrefixKey.
    destruct (PutUvarint 9 id) as [pb|] eqn:Hpb; [|reflexivity].
    apply PutUvarint_Some in Hpb as [-> _]. cbn [mbind option_bind].
    pose proof (uvarint_length_ge_56 id Hge) as Hlen.
    destruct (Nat.leb_spec (length (uvarint id) + 1) 9); [lia|reflexivity]. }
  split.
  - split.
    + intros [k Hk]. destruct (N.lt_ge_cases id (2 ^ 56)) as [Hlt|Hge];
        [exact Hlt|]. rewrite (Hnone Hge) in Hk. discriminate.
    + intros Hlt. rewrite (parentPrefixKey_small _ Hlt). eauto.
  - intros tx b p key s Hv Hs <- Hge.
    unfold Remove, withBucket. rewrite Hv. cbn.
    rewrite Hs. cbn. rewrite (Hnone Hge). reflexivity.
Qed.

Lemma parentPrefixKey_bound_witness :
  is_Some (parentPrefixKey (2 ^ 56 - 1)) /\ parentPrefixKey (2 ^ 56) = None.
Proof.
  assert (H1 : 2 ^ 56 - 1 < 2 ^ 64) by reflexivity.
  assert (H2 : 2 ^ 56 < 2 ^ 64) by reflexivity.
  split.
  - apply (proj1 (parentPrefixKey_bound _ H1)). reflexivity.
  - destruct (parentPrefixKey (2 ^ 56)) as [k|] eqn:Hk; [|reflexivity].
    exfalso.
    pose proof (proj1 (proj1 (parentPrefixKey_bound _ H2)) (mk_is_Some _ _ Hk))
      as Hlt.
    revert Hlt. apply N.lt_irrefl.
Defined.

(** *** Parent chains *)

(** Ids grow along parent links: a parent was created before its
    children. *)
Definition older (bkt : gmap string SnapshotBucket) : Prop :=
  forall k s, bkt !! k = Some s -> bParent s <> EmptyString ->
    exists ps, bkt !! bParent s = Some ps /\ bID ps < bID s.

(** The snapshots of a transaction, by key. *)
Definition entries_of (tx : Tx) : gmap string SnapshotBucket :=
  default ∅ (v ← v1 tx; b ← snapshotsB v; Some (entries b)).

(** A store the operations can have built: well formed, with ids growing
    along parent links. *)
Definition ordered (tx : Tx) : Prop := wf tx /\ older (entries_of tx).

(** The ids of a snapshot and of its ancestors, nearest first. *)
Inductive lineage (bkt : gmap string SnapshotBucket)
  : SnapshotBucket -> list string -> Prop :=
| lineage_root s :
    bParent s = EmptyString -> lineage bkt s [pretty (bID s)]
| lineage_parent s ps ids :
    bParent s <> EmptyString -> bkt !! bParent s = Some ps ->
    lineage bkt ps ids -> lineage bkt s (pretty (bID s) :: ids).

(** The snapshots with an id below [id]. *)
Definition below (bkt : gmap string SnapshotBucket) (id : N)
  : gmap string SnapshotBucket :=
  filter (fun ks => bID ks.2 < id) bkt.

Lemma below_parent bkt k ps id :
  bkt !! k = Some ps -> bID ps < id ->
  (size (below bkt (bID ps)) < size (below bkt id))%nat.
Proof.
  intros Hk Hlt. apply map_subset_size. apply map_subset_alt. split.
  - apply map_subseteq_spec. intros k' s' [Hs' Hlt']%map_lookup_filter_Some.
    apply map_lookup_filter_Some. split; [exact Hs'|]. cbn in *. lia.
  - exists k. split.
    + apply map_lookup_filter_None. right. intros s' Hs'. cbn.
      rewrite Hk in Hs'. injection Hs' as <-. lia.
    + apply mk_is_Some with ps, map_lookup_filter_Some. split; [exact Hk|].
      exact Hlt.
Qed.

(** The loop of [parents] ends on an ordered bucket, with the lineage of
    the snapshot it starts from. *)
Lemma parents_lineage bkt : older bkt ->
  forall fuel k s,
    bkt !! k = Some s -> (size (below bkt (bID s)) < fuel)%nat ->
    exists ids, parents fuel bkt s (bID s) = Ok ids /\ lineage bkt s ids.
Proof.
  intros Hold. induction fuel as [|fuel IH]; intros k s Hs Hsize; [lia|].
  cbn [parents]. destruct (decide (bParent s = EmptyString)) as [Hp|Hp].
  - eexists. split; [reflexivity|]. apply lineage_root, Hp.
  - destruct (Hold k s Hs Hp) as (ps & Hps & Hlt). rewrite Hps.
    destruct (IH (bParent s) ps Hps) as (ids & Hids & Hlin).
    { pose proof (below_parent bkt _ ps (bID s) Hps Hlt). lia. }
    rewrite Hids. cbn. eexists. split; [reflexivity|].
    eapply lineage_parent; eauto.
Qed.

Lemma parents_enough bkt k s :
  older bkt -> bkt !! k = Some s ->
  exists ids, parents (S (size bkt)) bkt s (bID s) = Ok ids /\
              lineage bkt s ids.
Proof.
  intros Hold Hs. apply (parents_lineage bkt Hold _ k s Hs).
  apply Nat.lt_succ_r, map_subseteq_size, map_filter_subseteq.
Qed.

(** *** [CreateSnapshot] *)

Lemma snapshot_of_entries tx k : snapshot_of tx k = entries_of tx !! k.
Proof.
  unfold snapshot_of, entries_of. destruct (v1 tx) as [v|]; cbn; [|done].
  destruct (snapshotsB v); cbn; done.
Qed.

(** The buckets [createBucketIfNotExists] hands to its callback. *)
Lemma created_view tx :
  wf tx ->
  let b := default (mkSnapshotsBucket ∅ 0)
             (snapshotsB (default (mkV1 None None) (v1 tx))) in
  let p := default ∅ (parentsB (default (mkV1 None None) (v1 tx))) in
  entries b = entries_of tx /\ sequence b = sequence_of tx /\
  p = index_of tx /\ wf_buckets b p.
Proof.
  intros Hwf b p. pose proof (wf_created tx Hwf) as Hb. fold b p in Hb.
  unfold wf in Hwf. subst b p. unfold entries_of, sequence_of, index_of.
  destruct (v1 tx) as [v|]; cbn in *.
  - destruct Hwf as (b & p & -> & _). cbn in *. auto.
  - auto.
Qed.

Lemma older_insert bkt key s sequence :
  older bkt -> bkt !! key = None ->
  (forall k s', bkt !! k = Some s' -> bID s' <= sequence) ->
  sequence < bID s ->
  (bParent s <> EmptyString -> is_Some (bkt !! bParent s)) ->
  older (<[key := s]> bkt).
Proof.
  intros Hold Hfresh Hids Hid Hpar k s' Hk Hp.
  destruct (decide (k = key)) as [->|Hne].
  - rewrite lookup_insert_eq in Hk. injection Hk as <-.
    destruct (Hpar Hp) as [ps Hps]. exists ps.
    rewrite lookup_insert_ne by congruence. split; [exact Hps|].
    pose proof (Hids _ _ Hps). lia.
  - rewrite lookup_insert_ne in Hk by congruence.
    destruct (Hold k s' Hk Hp) as (ps & Hps & Hlt). exists ps.
    rewrite lookup_insert_ne by congruence. auto.
Qed.

(** [CreateSnapshot] on a fresh key of a writable, well-formed store. *)
Lemma CreateSnapshot_eq now tx kind key parent opts base :
  wf tx -> writable tx = true -> sequence_of tx + 1 < 2 ^ 56 ->
  kind = KindActive \/ kind = KindView ->
  apply_opts opts Info0 = Ok base ->
  key <> EmptyString -> snapshot_of tx key = None ->
  let id := sequence_of tx + 1 in
  let s := putSnapshot id
             {| InfoKind := kind; InfoName := EmptyString;
                InfoParent := parent; InfoLabels := InfoLabels base;
                InfoCreated := now; InfoUpdated := now |} in
  let E' := <[key := s]> (entries_of tx) in
  let done ids p' : outcome (Snapshot * Tx) :=
    Ok ({| SnapshotKind := kind; SnapshotID := pretty id; ParentIDs := ids |},
        {| writable := true;
           v1 := Some {| snapshotsB := Some {| entries := E'; sequence := id |};
                         parentsB := Some p' |} |}) in
  (parent = EmptyString ->
   CreateSnapshot now (Some tx) kind key parent opts = done [] (index_of tx)) /\
  (forall sp, parent <> EmptyString -> snapshot_of tx parent = Some sp ->
     bKind sp = KindCommitted ->
     CreateSnapshot now (Some tx) kind key parent opts
     = ids ← parents (S (size E')) E' sp (bID sp);
       done ids (<[composite (bID sp) id := key]> (index_of tx))).
Proof.
  intros Hwf Hw Hseq Hkind Hopts Hkey Hfresh id s E' done.
  destruct (created_view tx Hwf) as (He & Hs & Hp & Hb).
  rewrite snapshot_of_entries in Hfresh.
  assert (Hid : (sequence_of tx + 1) mod 2 ^ 64 = id).
  { apply N.mod_small, pow56_64. exact Hseq. }
  assert (Hnot : ~ is_Some (entries_of tx !! key)).
  { rewrite Hfresh. intros [? ?]. discriminate. }
  unfold CreateSnapshot.
  assert (match kind with
          | KindActive | KindView => Ok ()
          | _ => Fail ErrInvalidArgument
          end = Ok ()) as -> by (destruct Hkind as [-> | ->]; reflexivity).
  cbn [mbind outcome_bind]. rewrite Hopts. cbn [mbind outcome_bind].
  unfold createBucketIfNotExists. rewrite Hw.
  cbn [check_writable mbind outcome_bind].
  set (b := default _ (snapshotsB _)) in *.
  set (p := default _ (parentsB _)) in *.
  unfold Bucket, CreateBucket. cbn [or_panic mbind outcome_bind check_writable].
  rewrite He. split.
  - intros ->. destruct (decide (EmptyString = EmptyString)); [|contradiction].
    cbn [mbind outcome_bind].
    destruct (decide (key = EmptyString)); [contradiction|].
    destruct (decide (is_Some (entries_of tx !! key))); [contradiction|].
    cbn [mbind outcome_bind fst snd]. unfold NextSequence.
    rewrite Hs, Hid, He, Hp. reflexivity.
  - intros sp Hne Hsp Hc. rewrite snapshot_of_entries in Hsp.
    destruct (decide (parent = EmptyString)); [contradiction|].
    rewrite Hsp. cbn [mbind outcome_bind].
    destruct (decide (bKind sp = KindCommitted)); [|contradiction].
    cbn [mbind outcome_bind].
    destruct (decide (key = EmptyString)); [contradiction|].
    destruct (decide (is_Some (entries_of tx !! key))); [contradiction|].
    cbn [mbind outcome_bind entries]. unfold NextSequence.
    rewrite Hs, Hid, He.
    rewrite parentKey_small.
    2:{ apply (wf_id_small b p parent sp Hb). rewrite He. exact Hsp. }
    2:{ exact Hseq. }
    cbn [or_panic mbind outcome_bind Put check_writable].
    fold (composite (bID sp) id). fold s. fold E'. rewrite Hp.
    destruct (parents (S (size E')) E' sp (bID sp)); reflexivity.
Qed.

Lemma entries_of_mk w E sequence p :
  entries_of {| writable := w;
                v1 := Some {| snapshotsB := Some {| entries := E;
                                                    sequence := sequence |};
                              parentsB := Some p |} |} = E.
Proof. reflexivity. Qed.

(** What a successful [CreateSnapshot] does. *)
Lemma CreateSnapshot_Ok now tx kind key parent opts base :
  ordered tx -> writable tx = true -> sequence_of tx + 1 < 2 ^ 56 ->
  kind = KindActive \/ kind = KindView ->
  apply_opts opts Info0 = Ok base ->
  key <> EmptyString -> snapshot_of tx key = None ->
  (parent = EmptyString \/
   exists sp, snapshot_of tx parent = Some sp /\ bKind sp = KindCommitted) ->
  let id := sequence_of tx + 1 in
  let s := putSnapshot id
             {| InfoKind := kind; InfoName := EmptyString;
                InfoParent := parent; InfoLabels := InfoLabels base;
                InfoCreated := now; InfoUpdated := now |} in
  exists ids tx',
    CreateSnapshot now (Some tx) kind key parent opts
      = Ok ({| SnapshotKind := kind; SnapshotID := pretty id;
               ParentIDs := ids |}, tx') /\
    ordered tx' /\ writable tx' = true /\ sequence_of tx' = id /\
    entries_of tx' = <[key := s]> (entries_of tx) /\
    (parent = EmptyString -> ids = [] /\ index_of tx' = index_of tx) /\
    (forall sp, parent <> EmptyString -> snapshot_of tx parent = Some sp ->
       lineage (entries_of tx') sp ids /\
       parents (S (size (entries_of tx'))) (entries_of tx') sp (bID sp)
         = Ok ids /\
       index_of tx' = <[composite (bID sp) id := key]> (index_of tx)).
Proof.
  intros [Hwf Hold] Hw Hseq Hkind Hopts Hkey Hfresh Hparent id s.
  destruct (CreateSnapshot_eq now tx kind key parent opts base
              Hwf Hw Hseq Hkind Hopts Hkey Hfresh) as [Hroot Hchild].
  fold id s in Hroot, Hchild.
  destruct (created_view tx Hwf) as (He & Hs & Hp & Hb).
  assert (Hids : forall k s', entries_of tx !! k = Some s' ->
                              bID s' <= sequence_of tx).
  { intros k s' Hk. rewrite <- He in Hk. rewrite <- Hs.
    apply (wf_ids _ _ Hb _ _ Hk). }
  assert (Hold' : older (<[key := s]> (entries_of tx))).
  { apply (older_insert _ _ _ (sequence_of tx)); auto.
    - rewrite <- snapshot_of_entries. exact Hfresh.
    - subst s id. cbn. lia.
    - subst s. cbn. intros Hne.
      destruct Hparent as [?|(sp & Hsp & _)]; [contradiction|].
      rewrite snapshot_of_entries in Hsp. eauto. }
  destruct Hparent as [Hp0|(sp & Hsp & Hc)].
  - specialize (Hroot Hp0). eexists [], _. split; [exact Hroot|].
    destruct (CreateSnapshot_wf _ _ _ _ _ _ _ _ Hwf Hseq Hroot) as [Hwf' _].
    split; [split; [exact Hwf'|exact Hold']|].
    split; [reflexivity|]. split; [reflexivity|]. split; [reflexivity|].
    split; [auto|]. intros sp Hne. contradiction.
  - assert (Hne : parent <> EmptyString).
    { intros ->. rewrite snapshot_of_entries, <- He, (wf_noempty _ _ Hb) in Hsp.
      discriminate. }
    specialize (Hchild sp Hne Hsp Hc).
    assert (Hsp' : <[key := s]> (entries_of tx) !! parent = Some sp).
    { rewrite lookup_insert_ne; [rewrite <- snapshot_of_entries; exact Hsp|].
      intros <-. congruence. }
    destruct (parents_enough _ parent sp Hold' Hsp') as (ids & Hids' & Hlin).
    rewrite Hids' in Hchild. cbn [mbind outcome_bind] in Hchild.
    eexists ids, _. split; [exact Hchild|].
    destruct (CreateSnapshot_wf _ _ _ _ _ _ _ _ Hwf Hseq Hchild) as [Hwf' _].
    split; [split; [exact Hwf'|exact Hold']|].
    split; [reflexivity|]. split; [reflexivity|]. split; [reflexivity|].
    split; [intros; contradiction|].
    intros sp2 _ Hsp2. rewrite Hsp in Hsp2. injection Hsp2 as <-.
    rewrite entries_of_mk. auto.
Qed.

(** *** [CommitActive] and [Remove] *)

Lemma entries_of_eq tx b p :
  v1 tx = Some (mkV1 (Some b) (Some p)) -> entries_of tx = entries b.
Proof. intros Hv. unfold entries_of. rewrite Hv. reflexivity. Qed.

Lemma index_of_eq tx b p :
  v1 tx = Some (mkV1 (Some b) (Some p)) -> index_of tx = p.
Proof. intros Hv. unfold index_of. rewrite Hv. reflexivity. Qed.

Lemma sequence_of_eq tx b p :
  v1 tx = Some (mkV1 (Some b) (Some p)) -> sequence_of tx = sequence b.
Proof. intros Hv. unfold sequence_of. rewrite Hv. reflexivity. Qed.

(** The bucket [CommitActive] writes for the committed snapshot. *)
Definition committed (now : Time) (s : SnapshotBucket) (usage : Usage)
    (base : Info) : SnapshotBucket :=
  putUsage usage
    (putSnapshot (bID s)
       {| InfoKind := KindCommitted; InfoName := EmptyString;
          InfoParent := bParent s; InfoLabels := InfoLabels base;
          InfoCreated := now; InfoUpdated := now |}).

(** What a successful [CommitActive] does. *)
Lemma CommitActive_Ok now tx key name usage opts base s :
  ordered tx -> writable tx = true ->
  apply_opts opts Info0 = Ok base ->
  name <> EmptyString -> snapshot_of tx name = None ->
  snapshot_of tx key = Some s -> bKind s = KindActive ->
  exists tx',
    CommitActive now (Some tx) key name usage opts = Ok (pretty (bID s), tx') /\
    ordered tx' /\ writable tx' = true /\ sequence_of tx' = sequence_of tx /\
    entries_of tx'
      = delete key (<[name := committed now s usage base]> (entries_of tx)) /\
    (bParent s = EmptyString -> index_of tx' = index_of tx) /\
    (forall ps, bParent s <> EmptyString ->
       snapshot_of tx (bParent s) = Some ps ->
       index_of tx' = <[composite (bID ps) (bID s) := name]> (index_of tx)).
Proof.
  intros [Hwf Hold] Hw Hopts Hn Hfresh Hk Hact.
  destruct (wf_inv tx key s Hwf Hk) as (b & p & Hv & Hb & Hks).
  rewrite (snapshot_of_eq tx b p name Hv) in Hfresh.
  assert (Hkn : key <> name) by congruence.
  assert (HE : entries_of tx = entries b) by exact (entries_of_eq _ _ _ Hv).
  assert (HP : index_of tx = p) by exact (index_of_eq _ _ _ Hv).
  assert (Hnot : ~ is_Some (entries b !! name)).
  { rewrite Hfresh. intros [? ?]. discriminate. }
  assert (Hnopar : bParent s <> key).
  { intros E. destruct (decide (bParent s = EmptyString)) as [E0|Hp].
    - rewrite E0 in E. rewrite <- E, (wf_noempty _ _ Hb) in Hks. discriminate.
    - destruct (wf_parent _ _ Hb _ _ Hks Hp) as (ps & Hps & Hc & _).
      rewrite E, Hks in Hps. injection Hps as <-. congruence. }
  assert (HC : exists p',
    CommitActive now (Some tx) key name usage opts
      = Ok (pretty (bID s),
            {| writable := true;
               v1 := Some {| snapshotsB :=
                               Some {| entries :=
                                         delete key
                                           (<[name := committed now s usage base]>
                                              (entries b));
                                       sequence := sequence b |};
                             parentsB := Some p' |} |}) /\
    (bParent s = EmptyString -> p' = p) /\
    (forall ps, bParent s <> EmptyString -> entries b !! bParent s = Some ps ->
       p' = <[composite (bID ps) (bID s) := name]> p)).
  { unfold CommitActive. rewrite Hopts. cbn [mbind outcome_bind].
    unfold withBucket. rewrite Hv. cbn [snapshotsB parentsB].
    unfold CreateBucket. cbn [or_panic mbind outcome_bind]. rewrite Hw.
    cbn [check_writable mbind outcome_bind].
    destruct (decide (name = EmptyString)); [contradiction|].
    destruct (decide (is_Some (entries b !! name))); [contradiction|].
    cbn [mbind outcome_bind].
    destruct (decide (key = name)); [contradiction|].
    rewrite Hks. cbn [readSnapshot InfoKind InfoParent InfoName].
    destruct (decide (bKind s = KindActive)); [|contradiction].
    fold (committed now s usage base).
    destruct (decide (bParent s = EmptyString)) as [Hp|Hp].
    - cbn [mbind outcome_bind fst snd]. eexists. split; [reflexivity|].
      split; [reflexivity|]. intros; contradiction.
    - destruct (wf_parent _ _ Hb _ _ Hks Hp) as (ps & Hps & Hc & _).
      cbn [entries]. rewrite lookup_delete_ne by congruence.
      rewrite lookup_insert_ne by congruence. rewrite Hps.
      rewrite parentKey_small
        by (first [exact (wf_id_small _ _ _ _ Hb Hps)
                  |exact (wf_id_small _ _ _ _ Hb Hks)]).
      cbn [or_panic mbind outcome_bind Put check_writable fst snd].
      eexists. split; [reflexivity|]. split; [intros; contradiction|].
      intros ps' _ Hps'. injection Hps' as <-. reflexivity. }
  destruct HC as (p' & HC & Hp0 & Hp1). eexists. split; [exact HC|].
  destruct (CommitActive_wf _ _ _ _ _ _ _ _ Hwf HC) as [Hwf' _].
  split; [split; [exact Hwf'|]|].
  - rewrite entries_of_mk. rewrite HE in Hold.
    intros k s' Hs' Hp.
    assert (Hold2 : forall k0 s0, entries b !! k0 = Some s0 ->
              bParent s0 <> EmptyString ->
              exists ps, delete key (<[name := committed now s usage base]>
                                       (entries b)) !! bParent s0 = Some ps /\
                         bID ps < bID s0).
    { intros k0 s0 Hs0 Hp0'. destruct (Hold k0 s0 Hs0 Hp0') as (ps & Hps & Hlt).
      exists ps. split; [|exact Hlt].
      destruct (wf_parent _ _ Hb _ _ Hs0 Hp0') as (ps' & Hps' & Hc' & _).
      rewrite Hps in Hps'. injection Hps' as <-.
      assert (key <> bParent s0) by (intros E; rewrite <- E in Hps; congruence).
      assert (name <> bParent s0) by (intros E; rewrite <- E in Hps; congruence).
      rewrite lookup_delete_ne by assumption.
      rewrite lookup_insert_ne by assumption. exact Hps. }
    apply lookup_delete_Some in Hs' as [Hne Hs'].
    apply lookup_insert_Some in Hs' as [[<- <-]|[Hne' Hs']].
    + exact (Hold2 key s Hks Hp).
    + exact (Hold2 k s' Hs' Hp).
  - split; [reflexivity|]. split; [symmetry; exact (sequence_of_eq _ _ _ Hv)|].
    split; [rewrite entries_of_mk, HE; reflexivity|].
    split.
    + intros Hp. rewrite HP. exact (Hp0 Hp).
    + intros ps Hp Hps. rewrite HP. apply (Hp1 ps Hp).
      rewrite <- (snapshot_of_eq tx b p _ Hv). exact Hps.
Qed.

(** What a successful [Remove] does to an ordered store. *)
Lemma Remove_ordered tx key r tx' :
  ordered tx -> Remove (Some tx) key = Ok (r, tx') ->
  ordered tx' /\ entries_of tx' = delete key (entries_of tx).
Proof.
  intros [Hwf Hold] HR.
  destruct (Remove_Ok tx key r tx' Hwf HR)
    as (s & Hs & Hnc & -> & Hwf' & _ & _ & Hsnap).
  assert (HE : entries_of tx' = delete key (entries_of tx)).
  { apply map_eq. intros k. rewrite <- snapshot_of_entries, Hsnap.
    destruct (decide (k = key)) as [->|Hne].
    - rewrite lookup_delete_eq. reflexivity.
    - rewrite lookup_delete_ne by congruence. apply snapshot_of_entries. }
  split; [split; [exact Hwf'|]|exact HE].
  rewrite HE. intros k s' Hs' Hp.
  apply lookup_delete_Some in Hs' as [Hne Hs'].
  destruct (Hold k s' Hs' Hp) as (ps & Hps & Hlt). exists ps.
  split; [|exact Hlt]. rewrite lookup_delete_ne; [exact Hps|].
  intros E. apply Hnc. apply (has_child_iff tx key s Hwf Hs).
  exists k, s'. rewrite snapshot_of_entries. auto.
Qed.

Lemma ordered_empty w : ordered {| writable := w; v1 := None |}.
Proof.
  split; [exact I|]. intros k s Hs. unfold entries_of in Hs. cbn in Hs.
  rewrite lookup_empty in Hs. discriminate.
Qed.

(** *** When the operations succeed *)

Lemma CreateSnapshot_inv now tx kind key parent opts snap tx' :
  wf tx ->
  CreateSnapshot now (Some tx) kind key parent opts = Ok (snap, tx') ->
  writable tx = true /\ (kind = KindActive \/ kind = KindView) /\
  (exists base, apply_opts opts Info0 = Ok base) /\
  key <> EmptyString /\ snapshot_of tx key = None /\
  (parent = EmptyString \/
   exists sp, snapshot_of tx parent = Some sp /\ bKind sp = KindCommitted).
Proof.
  intros Hwf H. unfold CreateSnapshot in H.
  assert (Hkind : kind = KindActive \/ kind = KindView).
  { destruct kind; auto; discriminate. }
  assert (match kind with
          | KindActive | KindView => Ok ()
          | _ => Fail ErrInvalidArgument
          end = Ok ()) as E by (destruct Hkind as [-> | ->]; reflexivity).
  rewrite E in H. clear E. cbn [mbind outcome_bind] in H.
  destruct (apply_opts opts Info0) as [base| | |] eqn:Hopts; try discriminate.
  cbn [mbind outcome_bind] in H. unfold createBucketIfNotExists in H.
  destruct (writable tx) eqn:Hw; cbn [check_writable mbind outcome_bind] in H;
    [|discriminate].
  destruct (created_view tx Hwf) as (He & Hs & Hp & Hb).
  set (b := default _ (snapshotsB _)) in *.
  set (p := default _ (parentsB _)) in *.
  unfold Bucket, CreateBucket in H.
  cbn [or_panic mbind outcome_bind check_writable] in H.
  rewrite !snapshot_of_entries, <- !He.
  split; [reflexivity|]. split; [exact Hkind|]. split; [eauto|].
  destruct (decide (parent = EmptyString)) as [Hp0|Hp0].
  - cbn [mbind outcome_bind] in H.
    destruct (decide (key = EmptyString)); [discriminate|].
    destruct (decide (is_Some (entries b !! key))) as [|Hf]; [discriminate|].
    apply eq_None_not_Some in Hf. auto.
  - destruct (entries b !! parent) as [sp|] eqn:Hsp; [|discriminate].
    cbn [mbind outcome_bind] in H.
    destruct (decide (bKind sp = KindCommitted)); [|discriminate].
    cbn [mbind outcome_bind] in H.
    destruct (decide (key = EmptyString)); [discriminate|].
    destruct (decide (is_Some (entries b !! key))) as [|Hf]; [discriminate|].
    apply eq_None_not_Some in Hf.
    split; [assumption|]. split; [assumption|]. right.
    exists sp. auto.
Qed.

Lemma CommitActive_inv now tx key name usage opts id tx' :
  wf tx ->
  CommitActive now (Some tx) key name usage opts = Ok (id, tx') ->
  writable tx = true /\ (exists base, apply_opts opts Info0 = Ok base) /\
  name <> EmptyString /\ snapshot_of tx name = None /\
  exists s, snapshot_of tx key = Some s /\ bKind s = KindActive.
Proof.
  intros Hwf H. unfold CommitActive in H.
  destruct (apply_opts opts Info0) as [base| | |] eqn:Hopts; try discriminate.
  cbn [mbind outcome_bind] in H. unfold withBucket in H.
  destruct (v1 tx) as [v|] eqn:Hv; [|discriminate].
  pose proof Hwf as Hwf'. unfold wf in Hwf'. rewrite Hv in Hwf'.
  destruct Hwf' as (b & p & -> & Hb).
  rewrite !(snapshot_of_eq tx b p _ Hv).
  cbn [snapshotsB parentsB] in H. unfold CreateBucket in H.
  cbn [or_panic mbind outcome_bind] in H.
  destruct (writable tx) eqn:Hw; cbn [check_writable] in H; [|discriminate].
  cbn [mbind outcome_bind] in H.
  destruct (decide (name = EmptyString)) as [|Hn]; [discriminate|].
  destruct (decide (is_Some (entries b !! name))) as [|Hf]; [discriminate|].
  apply eq_None_not_Some in Hf. cbn [mbind outcome_bind] in H.
  destruct (decide (key = name)) as [|Hkn]; [discriminate|].
  destruct (entries b !! key) as [s|] eqn:Hk; [|discriminate].
  cbn [readSnapshot InfoKind InfoParent InfoName] in H.
  destruct (decide (bKind s = KindActive)) as [Hact|]; [|discriminate].
  split; [reflexivity|]. split; [eauto|]. split; [exact Hn|].
  split; [exact Hf|]. eauto.
Qed.

Lemma CreateSnapshot_ordered now tx kind key parent opts snap tx' :
  ordered tx -> sequence_of tx + 1 < 2 ^ 56 ->
  CreateSnapshot now (Some tx) kind key parent opts = Ok (snap, tx') ->
  ordered tx' /\ sequence_of tx' = sequence_of tx + 1.
Proof.
  intros Ho Hseq H.
  destruct (CreateSnapshot_inv _ _ _ _ _ _ _ _ (proj1 Ho) H)
    as (Hw & Hkind & (base & Hopts) & Hkey & Hfresh & Hparent).
  destruct (CreateSnapshot_Ok now tx kind key parent opts base
              Ho Hw Hseq Hkind Hopts Hkey Hfresh Hparent)
    as (ids & tx2 & HC & Ho2 & _ & Hs2 & _).
  rewrite HC in H. injection H as _ <-. auto.
Qed.

Lemma CommitActive_ordered now tx key name usage opts id tx' :
  ordered tx ->
  CommitActive now (Some tx) key name usage opts = Ok (id, tx') ->
  ordered tx' /\ sequence_of tx' = sequence_of tx.
Proof.
  intros Ho H.
  destruct (CommitActive_inv _ _ _ _ _ _ _ _ (proj1 Ho) H)
    as (Hw & (base & Hopts) & Hn & Hfresh & s & Hs & Hact).
  destruct (CommitActive_Ok now tx key name usage opts base s
              Ho Hw Hopts Hn Hfresh Hs Hact)
    as (tx2 & HC & Ho2 & _ & Hs2 & _).
  rewrite HC in H. injection H as _ <-. auto.
Qed.

Lemma ordered_create_committed now tx key name parent :
  ordered tx -> sequence_of tx + 1 < 2 ^ 56 ->
  ordered (tx_after tx (create_committed now tx key name parent)).
Proof.
  intros Ho Hseq. unfold create_committed.
  destruct (CreateSnapshot now (Some tx) KindActive key parent [])
    as [[snap tx1]| | |] eqn:HC; cbn [mbind outcome_bind tx_after]; auto.
  destruct (CreateSnapshot_ordered _ _ _ _ _ _ _ _ Ho Hseq HC) as [Ho1 _].
  cbn [snd].
  destruct (CommitActive now (Some tx1) key name (mkUsage 0 0) [])
    as [[id tx2]| | |] eqn:HA; cbn [tx_after]; auto.
  exact (proj1 (CommitActive_ordered _ _ _ _ _ _ _ _ Ho1 HA)).
Qed.

Lemma ordered_chain1 : ordered chain1.
Proof.
  apply ordered_create_committed; [apply ordered_empty|reflexivity].
Qed.

(** [GetSnapshot] on a well-formed store that holds [key]. *)
Lemma GetSnapshot_eq tx key s :
  wf tx -> snapshot_of tx key = Some s ->
  GetSnapshot (Some tx) key =
    if decide (bKind s <> KindActive /\ bKind s <> KindView)
    then Fail ErrFailedPrecondition
    else if decide (bParent s = EmptyString)
    then Ok {| SnapshotKind := bKind s; SnapshotID := pretty (bID s);
               ParentIDs := [] |}
    else match snapshot_of tx (bParent s) with
         | None => Fail ErrNotFound
         | Some sp =>
             ids ← parents (S (size (entries_of tx))) (entries_of tx) sp
                           (bID sp);
             Ok {| SnapshotKind := bKind s; SnapshotID := pretty (bID s);
                   ParentIDs := ids |}
         end.
Proof.
  intros Hwf Hs. destruct (wf_inv tx key s Hwf Hs) as (b & p & Hv & Hb & Hks).
  rewrite (snapshot_of_eq tx b p _ Hv), (entries_of_eq tx b p Hv).
  unfold GetSnapshot, withBucket. rewrite Hv. cbn [snapshotsB parentsB].
  unfold Bucket. cbn [or_panic mbind outcome_bind]. rewrite Hks.
  destruct (decide (bKind s <> KindActive /\ bKind s <> KindView));
    [reflexivity|].
  destruct (decide (bParent s = EmptyString)); [reflexivity|].
  cbn [mbind outcome_bind].
  destruct (entries b !! bParent s) as [sp|]; [|reflexivity].
  cbn [mbind outcome_bind].
  destruct (parents (S (size (entries b))) (entries b) sp (bID sp));
    reflexivity.
Qed.

Lemma GetInfo_eq tx key :
  GetInfo (Some tx) key =
    match snapshot_of tx key with
    | Some s => Ok (pretty (bID s), readSnapshot key s, bUsage s)
    | None => Fail ErrNotFound
    end.
Proof.
  unfold GetInfo, withSnapshotBucket, snapshot_of.
  destruct (v1 tx) as [v|]; [|reflexivity]. cbn.
  destruct (snapshotsB v) as [b|]; [|reflexivity]. cbn.
  destruct (entries b !! key); reflexivity.
Qed.

(** *** What callers of [CreateSnapshot] can rely on *)

(** X3.  A successful [CreateSnapshot] on a store built by the package
    hands out the next id of the sequence, which no snapshot of the store
    has; it adds the snapshot under [key], with the kind, the parent and
    both timestamps set to the time of the call and no usage, and leaves
    every other snapshot as it was.  Nothing is said of the labels, which
    [boltutil] writes. *)
Theorem CreateSnapshot_creates now tx kind key parent opts snap tx' :
  ordered tx -> sequence_of tx + 1 < 2 ^ 56 ->
  CreateSnapshot now (Some tx) kind key parent opts = Ok (snap, tx') ->
  SnapshotKind snap = kind /\
  SnapshotID snap = pretty (sequence_of tx + 1) /\
  (forall k s, snapshot_of tx k = Some s -> bID s < sequence_of tx + 1) /\
  snapshot_of tx key = None /\
  (exists s,
     snapshot_of tx' key = Some s /\
     bID s = sequence_of tx + 1 /\ bKind s = kind /\ bParent s = parent /\
     bCreated s = now /\ bUpdated s = now /\ bUsage s = mkUsage 0 0) /\
  (forall k, k <> key -> snapshot_of tx' k = snapshot_of tx k) /\
  sequence_of tx' = sequence_of tx + 1 /\
  ordered tx'.
Proof.
  intros Ho Hseq H.
  destruct (CreateSnapshot_inv _ _ _ _ _ _ _ _ (proj1 Ho) H)
    as (Hw & Hkind & (base & Hopts) & Hkey & Hfresh & Hparent).
  destruct (CreateSnapshot_Ok now tx kind key parent opts base
              Ho Hw Hseq Hkind Hopts Hkey Hfresh Hparent)
    as (ids & tx2 & HC & Ho2 & _ & Hs2 & He2 & _).
  rewrite HC in H. injection H as <- <-. cbn [SnapshotKind SnapshotID].
  split; [reflexivity|]. split; [reflexivity|]. split.
  { intros k s Hs. destruct Ho as [Hwf _].
    destruct (wf_inv tx k s Hwf Hs) as (b & p & Hv & Hb & Hks).
    pose proof (wf_ids _ _ Hb _ _ Hks) as Hid.
    rewrite (sequence_of_eq _ _ _ Hv). lia. }
  split; [exact Hfresh|]. split.
  { eexists. split.
    - rewrite snapshot_of_entries, He2, lookup_insert_eq. reflexivity.
    - cbn. repeat split. }
  split.
  { intros k Hne. rewrite !snapshot_of_entries, He2.
    apply lookup_insert_ne. congruence. }
  auto.
Qed.

Lemma CreateSnapshot_creates_witness :
  exists snap tx',
    CreateSnapshot 5%Z (Some chain1) KindActive "a" "s1" [] = Ok (snap, tx') /\
    SnapshotID snap = "2" /\ snapshot_of chain1 "a" = None.
Proof.
  destruct (CreateSnapshot 5%Z (Some chain1) KindActive "a" "s1" [])
    as [[snap tx']| | |] eqn:HC; try (vm_compute in HC; discriminate).
  assert (Hseq : sequence_of chain1 + 1 < 2 ^ 56) by reflexivity.
  destruct (CreateSnapshot_creates 5%Z chain1 KindActive "a" "s1" [] snap tx'
              ordered_chain1 Hseq HC) as (_ & Hid & _ & Hfresh & _).
  exists snap, tx'. split; [reflexivity|]. split; [exact Hid|exact Hfresh].
Defined.

(** X4.  The checks of [CreateSnapshot], in the order the code makes
    them: the kind, the options, the transaction, the parent (missing,
    then not committed), and only then the key. *)
Theorem CreateSnapshot_rejects now tx kind key parent opts base :
  wf tx -> apply_opts opts Info0 = Ok base ->
  (kind = KindActive \/ kind = KindView ->
   CreateSnapshot now None kind key parent opts = Fail ErrNoTransaction /\
   (writable tx = true ->
    (parent <> EmptyString -> snapshot_of tx parent = None ->
     CreateSnapshot now (Some tx) kind key parent opts = Fail ErrNotFound) /\
    (forall sp, snapshot_of tx parent = Some sp -> bKind sp <> KindCommitted ->
     CreateSnapshot now (Some tx) kind key parent opts
     = Fail ErrInvalidArgument) /\
    ((parent = EmptyString \/
      exists sp, snapshot_of tx parent = Some sp /\ bKind sp = KindCommitted) ->
     is_Some (snapshot_of tx key) ->
     CreateSnapshot now (Some tx) kind key parent opts
     = Fail ErrAlreadyExists))) /\
  (kind <> KindActive -> kind <> KindView ->
   forall ctx, CreateSnapshot now ctx kind key parent opts
               = Fail ErrInvalidArgument).
Proof.
  intros Hwf Hopts. split.
  - intros Hkind.
    assert (Hk : match kind with
                 | KindActive | KindView => Ok ()
                 | _ => Fail ErrInvalidArgument
                 end = Ok ()) by (destruct Hkind as [-> | ->]; reflexivity).
    split.
    { unfold CreateSnapshot. rewrite Hk. cbn [mbind outcome_bind].
      rewrite Hopts. reflexivity. }
    intros Hw. destruct (created_view tx Hwf) as (He & Hs & Hp & Hb).
    assert (Hempty : entries_of tx !! EmptyString = None).
    { rewrite <- He. exact (wf_noempty _ _ Hb). }
    unfold CreateSnapshot. rewrite Hk. cbn [mbind outcome_bind].
    rewrite Hopts. cbn [mbind outcome_bind].
    unfold createBucketIfNotExists. rewrite Hw.
    cbn [check_writable mbind outcome_bind].
    set (b := default _ (snapshotsB _)) in *.
    set (p := default _ (parentsB _)) in *.
    unfold Bucket, CreateBucket.
    cbn [or_panic mbind outcome_bind check_writable].
    rewrite !snapshot_of_entries, He.
    split; [|split].
    + intros Hne Hnone. destruct (decide (parent = EmptyString));
        [contradiction|]. rewrite Hnone. reflexivity.
    + intros sp Hsp Hnc. destruct (decide (parent = EmptyString)) as [->|];
        [congruence|]. rewrite Hsp. cbn [mbind outcome_bind].
      destruct (decide (bKind sp = KindCommitted)); [contradiction|].
      reflexivity.
    + intros Hparent [s Hs']. assert (Hkey : key <> EmptyString) by congruence.
      destruct Hparent as [->|(sp & Hsp & Hc)].
      * destruct (decide (EmptyString = EmptyString)); [|contradiction].
        cbn [mbind outcome_bind].
        destruct (decide (key = EmptyString)); [contradiction|].
        destruct (decide (is_Some (entries_of tx !! key))) as [|Hn];
          [reflexivity|]. exfalso. apply Hn. eauto.
      * destruct (decide (parent = EmptyString)) as [->|]; [congruence|].
        rewrite Hsp. cbn [mbind outcome_bind].
        destruct (decide (bKind sp = KindCommitted)); [|contradiction].
        cbn [mbind outcome_bind].
        destruct (decide (key = EmptyString)); [contradiction|].
        destruct (decide (is_Some (entries_of tx !! key))) as [|Hn];
          [reflexivity|]. exfalso. apply Hn. eauto.
  - intros Ha Hv ctx. unfold CreateSnapshot.
    destruct kind; try contradiction; reflexivity.
Qed.

Lemma CreateSnapshot_rejects_witness :
  CreateSnapshot 5%Z (Some chain1) KindActive "s1" "missing" []
    = Fail ErrNotFound /\
  CreateSnapshot 5%Z (Some chain1) KindActive "s1" EmptyString []
    = Fail ErrAlreadyExists /\
  CreateSnapshot 5%Z (Some chain1) KindCommitted "a" EmptyString []
    = Fail ErrInvalidArgument.
Proof.
  destruct (CreateSnapshot_rejects 5%Z chain1 KindActive "s1" "missing" []
              Info0 (proj1 ordered_chain1) eq_refl) as [H1 _].
  destruct (H1 (or_introl eq_refl)) as [_ H2].
  destruct (H2 eq_refl) as (Hmissing & _ & _).
  destruct (CreateSnapshot_rejects 5%Z chain1 KindActive "s1" EmptyString []
              Info0 (proj1 ordered_chain1) eq_refl) as [H3 _].
  destruct (H3 (or_introl eq_refl)) as [_ H4].
  destruct (H4 eq_refl) as (_ & _ & Hexists).
  destruct (CreateSnapshot_rejects 5%Z chain1 KindCommitted "a" EmptyString []
              Info0 (proj1 ordered_chain1) eq_refl) as [_ H5].
  split; [|split].
  - apply Hmissing; [discriminate|reflexivity].
  - apply Hexists; [left; reflexivity|]. vm_compute. eauto.
  - apply H5; discriminate.
Defined.

(** X5.  What [CreateSnapshot] returned is what [GetSnapshot] returns for
    the key afterwards, and [GetInfo] gives back the kind, the parent and
    the time of creation, under the same id, with no usage recorded yet.
    Nothing is said of the labels, which [boltutil] writes and reads. *)
Theorem Get_after_CreateSnapshot now tx kind key parent opts snap tx' :
  ordered tx -> sequence_of tx + 1 < 2 ^ 56 ->
  CreateSnapshot now (Some tx) kind key parent opts = Ok (snap, tx') ->
  GetSnapshot (Some tx') key = Ok snap /\
  exists info,
    GetInfo (Some tx') key = Ok (SnapshotID snap, info, mkUsage 0 0) /\
    InfoKind info = kind /\ InfoName info = key /\
    InfoParent info = parent /\
    InfoCreated info = now /\ InfoUpdated info = now.
Proof.
  intros Ho Hseq H.
  destruct (CreateSnapshot_inv _ _ _ _ _ _ _ _ (proj1 Ho) H)
    as (Hw & Hkind & (base & Hopts) & Hkey & Hfresh & Hparent).
  destruct (CreateSnapshot_Ok now tx kind key parent opts base
              Ho Hw Hseq Hkind Hopts Hkey Hfresh Hparent)
    as (ids & tx2 & HC & [Hwf2 Hold2] & _ & Hs2 & He2 & Hroot & Hchild).
  rewrite HC in H. injection H as <- <-.
  set (s := putSnapshot _ _) in He2.
  assert (Hs : snapshot_of tx2 key = Some s).
  { rewrite snapshot_of_entries, He2. apply lookup_insert_eq. }
  split.
  - rewrite (GetSnapshot_eq tx2 key s Hwf2 Hs). subst s. cbn [putSnapshot bKind bParent bID InfoKind InfoParent].
    destruct (decide (kind <> KindActive /\ kind <> KindView)) as [[? ?]|_];
      [destruct Hkind; contradiction|].
    destruct (decide (parent = EmptyString)) as [Hp|Hp].
    + destruct (Hroot Hp) as [-> _]. reflexivity.
    + destruct Hparent as [?|(sp & Hsp & _)]; [contradiction|].
      destruct (Hchild sp Hp Hsp) as (_ & Hpar & _).
      assert (snapshot_of tx2 parent = Some sp) as ->.
      { rewrite snapshot_of_entries, He2, lookup_insert_ne;
          [rewrite <- snapshot_of_entries; exact Hsp|].
        intros <-. congruence. }
      rewrite Hpar. reflexivity.
  - eexists. split; [rewrite GetInfo_eq, Hs; reflexivity|].
    cbn. repeat split.
Qed.

Lemma Get_after_CreateSnapshot_witness :
  exists snap tx',
    CreateSnapshot 5%Z (Some chain1) KindView "v" "s1" [] = Ok (snap, tx') /\
    GetSnapshot (Some tx') "v" = Ok snap.
Proof.
  destruct (CreateSnapshot 5%Z (Some chain1) KindView "v" "s1" [])
    as [[snap tx']| | |] eqn:HC; try (vm_compute in HC; discriminate).
  assert (Hseq : sequence_of chain1 + 1 < 2 ^ 56) by reflexivity.
  exists snap, tx'. split; [reflexivity|].
  exact (proj1 (Get_after_CreateSnapshot 5%Z chain1 KindView "v" "s1" []
                  snap tx' ordered_chain1 Hseq HC)).
Defined.

(** X6.  On a store built by the package the loop of [parents] ends:
    [GetSnapshot] of an active or view snapshot returns its id followed,
    in [ParentIDs], by the ids of its ancestors, nearest first; a
    committed snapshot is refused with FailedPrecondition. *)
Theorem GetSnapshot_lineage tx key s :
  ordered tx -> snapshot_of tx key = Some s ->
  (bKind s = KindActive \/ bKind s = KindView ->
   exists ids,
     GetSnapshot (Some tx) key
     = Ok {| SnapshotKind := bKind s; SnapshotID := pretty (bID s);
             ParentIDs := ids |} /\
     lineage (entries_of tx) s (pretty (bID s) :: ids)) /\
  (bKind s = KindCommitted ->
   GetSnapshot (Some tx) key = Fail ErrFailedPrecondition).
Proof.
  intros [Hwf Hold] Hs. rewrite (GetSnapshot_eq tx key s Hwf Hs). split.
  - intros Hkind.
    destruct (decide (bKind s <> KindActive /\ bKind s <> KindView))
      as [[? ?]|_]; [destruct Hkind; contradiction|].
    destruct (decide (bParent s = EmptyString)) as [Hp|Hp].
    + exists []. split; [reflexivity|]. apply lineage_root, Hp.
    + rewrite snapshot_of_entries in Hs.
      destruct (Hold key s Hs Hp) as (ps & Hps & _).
      rewrite snapshot_of_entries, Hps.
      destruct (parents_enough _ _ ps Hold Hps) as (ids & -> & Hlin).
      exists ids. split; [reflexivity|].
      eapply lineage_parent; eauto.
  - intros Hc.
    destruct (decide (bKind s <> KindActive /\ bKind s <> KindView))
      as [_|Hn]; [reflexivity|].
    exfalso. apply Hn. rewrite Hc. split; discriminate.
Qed.

(** The store of [chain1] with an active snapshot on top of [s1]. *)
Definition active_tx : Tx :=
  tx_after chain1 (CreateSnapshot 5%Z (Some chain1) KindActive "a" "s1" []).

Lemma ordered_active_tx : ordered active_tx.
Proof.
  unfold active_tx.
  destruct (CreateSnapshot 5%Z (Some chain1) KindActive "a" "s1" [])
    as [[snap tx']| | |] eqn:HC; cbn [tx_after]; try apply ordered_chain1.
  assert (Hseq : sequence_of chain1 + 1 < 2 ^ 56) by reflexivity.
  exact (proj1 (CreateSnapshot_ordered _ _ _ _ _ _ _ _ ordered_chain1 Hseq HC)).
Qed.

Lemma GetSnapshot_lineage_witness :
  (exists ids,
     GetSnapshot (Some active_tx) "a"
     = Ok {| SnapshotKind := KindActive; SnapshotID := "2";
             ParentIDs := ids |}) /\
  GetSnapshot (Some active_tx) "s1" = Fail ErrFailedPrecondition.
Proof.
  assert (Ha : snapshot_of active_tx "a"
               = Some {| bID := 2; bKind := KindActive; bParent := "s1";
                         bCreated := 5%Z; bUpdated := 5%Z;
                         bLabels := ∅; bUsage := mkUsage 0 0 |})
    by reflexivity.
  assert (Hs : snapshot_of active_tx "s1"
               = Some {| bID := 1; bKind := KindCommitted;
                         bParent := EmptyString;
                         bCreated := 0%Z; bUpdated := 0%Z;
                         bLabels := ∅; bUsage := mkUsage 0 0 |})
    by reflexivity.
  split.
  - destruct (proj1 (GetSnapshot_lineage active_tx "a" _ ordered_active_tx Ha)
                (or_introl eq_refl)) as (ids & HG & _).
    exists ids. exact HG.
  - exact (proj2 (GetSnapshot_lineage active_tx "s1" _ ordered_active_tx Hs)
             eq_refl).
Defined.

(** *** What callers of [CommitActive] and [Remove] can rely on *)

(** X7.  A successful [CommitActive] keeps the id of the active snapshot:
    under [name] there is now a committed snapshot with that id, the same
    parent, both timestamps set to the time of the call and the usage
    given; [key] is gone, every other snapshot is as it was, and the
    parent index names the committed snapshot as the child of its parent.
    Nothing is said of the labels, which [boltutil] writes and reads. *)
Theorem CommitActive_commits now tx key name usage opts id tx' :
  ordered tx ->
  CommitActive now (Some tx) key name usage opts = Ok (id, tx') ->
  exists s info,
    snapshot_of tx key = Some s /\ bKind s = KindActive /\
    id = pretty (bID s) /\
    GetInfo (Some tx') name = Ok (id, info, usage) /\
    InfoKind info = KindCommitted /\ InfoName info = name /\
    InfoParent info = bParent s /\
    InfoCreated info = now /\ InfoUpdated info = now /\
    GetInfo (Some tx') key = Fail ErrNotFound /\
    GetSnapshot (Some tx') name = Fail ErrFailedPrecondition /\
    (forall k, k <> key -> k <> name ->
               snapshot_of tx' k = snapshot_of tx k) /\
    (forall ps, bParent s <> EmptyString ->
       snapshot_of tx (bParent s) = Some ps ->
       index_of tx' !! composite (bID ps) (bID s) = Some name) /\
    ordered tx'.
Proof.
  intros Ho H.
  destruct (CommitActive_inv _ _ _ _ _ _ _ _ (proj1 Ho) H)
    as (Hw & (base & Hopts) & Hn & Hfresh & s & Hs & Hact).
  destruct (CommitActive_Ok now tx key name usage opts base s
              Ho Hw Hopts Hn Hfresh Hs Hact)
    as (tx2 & HC & Ho2 & _ & _ & He2 & _ & Hidx).
  rewrite HC in H. injection H as <- <-.
  assert (Hkn : key <> name) by congruence.
  assert (Hname : snapshot_of tx2 name = Some (committed now s usage base)).
  { rewrite snapshot_of_entries, He2, lookup_delete_ne by congruence.
    apply lookup_insert_eq. }
  assert (Hkey : snapshot_of tx2 key = None).
  { rewrite snapshot_of_entries, He2. apply lookup_delete_eq. }
  eexists s, _. split; [exact Hs|]. split; [exact Hact|].
  split; [reflexivity|]. split.
  { rewrite GetInfo_eq, Hname. reflexivity. }
  cbn [readSnapshot committed InfoKind InfoName InfoParent InfoCreated
       InfoUpdated bKind bParent bCreated bUpdated].
  do 5 (split; [reflexivity|]).
  split.
  { rewrite GetInfo_eq, Hkey. reflexivity. }
  split.
  { rewrite (GetSnapshot_eq tx2 name _ (proj1 Ho2) Hname). reflexivity. }
  split.
  { intros k Hk1 Hk2. rewrite !snapshot_of_entries, He2.
    rewrite lookup_delete_ne by congruence.
    apply lookup_insert_ne. congruence. }
  split; [|exact Ho2].
  intros ps Hp Hps. rewrite (Hidx ps Hp Hps). apply lookup_insert_eq.
Qed.

Lemma CommitActive_commits_witness :
  exists tx',
    CommitActive 9%Z (Some active_tx) "a" "s2" (mkUsage 3 4096) []
      = Ok ("2", tx') /\
    GetInfo (Some tx') "a" = Fail ErrNotFound.
Proof.
  destruct (CommitActive 9%Z (Some active_tx) "a" "s2" (mkUsage 3 4096) [])
    as [[id tx']| | |] eqn:HC; try (vm_compute in HC; discriminate).
  destruct (CommitActive_commits 9%Z active_tx "a" "s2" (mkUsage 3 4096) []
              id tx' ordered_active_tx HC)
    as (s & info & Hs & _ & Hid & _ & _ & _ & _ & _ & _ & Hgone & _).
  assert (Hs' : snapshot_of active_tx "a"
                = Some {| bID := 2; bKind := KindActive; bParent := "s1";
                          bCreated := 5%Z; bUpdated := 5%Z;
                          bLabels := ∅; bUsage := mkUsage 0 0 |})
    by reflexivity.
  rewrite Hs' in Hs. injection Hs as <-. cbn [bID] in Hid. subst id.
  exists tx'. split; [reflexivity|exact Hgone].
Defined.

(** X8.  The checks of [CommitActive], in the order the code makes them:
    the bucket for [name] is created first, so an existing [name] is
    AlreadyExists whatever [key] is; then a missing [key] is NotFound and
    a [key] that is not active FailedPrecondition. *)
Theorem CommitActive_rejects now tx key name usage opts base :
  wf tx -> writable tx = true -> is_Some (v1 tx) ->
  apply_opts opts Info0 = Ok base -> name <> EmptyString ->
  (is_Some (snapshot_of tx name) ->
   CommitActive now (Some tx) key name usage opts = Fail ErrAlreadyExists) /\
  (snapshot_of tx name = None -> key <> name -> snapshot_of tx key = None ->
   CommitActive now (Some tx) key name usage opts = Fail ErrNotFound) /\
  (forall s, snapshot_of tx name = None -> snapshot_of tx key = Some s ->
     bKind s <> KindActive ->
     CommitActive now (Some tx) key name usage opts
     = Fail ErrFailedPrecondition).
Proof.
  intros Hwf Hw [v Hv] Hopts Hn.
  pose proof Hwf as Hwf'. unfold wf in Hwf'. rewrite Hv in Hwf'.
  destruct Hwf' as (b & p & -> & Hb).
  rewrite !(snapshot_of_eq tx b p _ Hv).
  unfold CommitActive. rewrite Hopts. cbn [mbind outcome_bind].
  unfold withBucket. rewrite Hv. cbn [snapshotsB parentsB].
  unfold CreateBucket. cbn [or_panic mbind outcome_bind]. rewrite Hw.
  cbn [check_writable mbind outcome_bind].
  destruct (decide (name = EmptyString)); [contradiction|].
  split; [|split].
  - intros Hex. destruct (decide (is_Some (entries b !! name)));
      [reflexivity|contradiction].
  - intros Hfree Hkn Hk.
    destruct (decide (is_Some (entries b !! name))) as [[? E]|_];
      [congruence|]. cbn [mbind outcome_bind].
    destruct (decide (key = name)); [contradiction|]. rewrite Hk.
    reflexivity.
  - intros s Hfree Hk Hna.
    destruct (decide (is_Some (entries b !! name))) as [[? E]|_];
      [congruence|]. cbn [mbind outcome_bind].
    destruct (decide (key = name)); [reflexivity|]. rewrite Hk.
    cbn [readSnapshot InfoKind].
    destruct (decide (bKind s = KindActive)); [contradiction|reflexivity].
Qed.

Lemma CommitActive_rejects_witness :
  CommitActive 9%Z (Some active_tx) "missing" "s1" (mkUsage 0 0) []
    = Fail ErrAlreadyExists /\
  CommitActive 9%Z (Some active_tx) "missing" "s2" (mkUsage 0 0) []
    = Fail ErrNotFound /\
  CommitActive 9%Z (Some active_tx) "s1" "s2" (mkUsage 0 0) []
    = Fail ErrFailedPrecondition.
Proof.
  assert (Hv : is_Some (v1 active_tx)) by (vm_compute; eauto).
  assert (Hne1 : "s1" <> EmptyString) by discriminate.
  assert (Hne2 : "s2" <> EmptyString) by discriminate.
  pose proof (CommitActive_rejects 9%Z active_tx "missing" "s1" (mkUsage 0 0)
                [] Info0 (proj1 ordered_active_tx) eq_refl Hv eq_refl Hne1)
    as (H1 & _).
  pose proof (CommitActive_rejects 9%Z active_tx "missing" "s2" (mkUsage 0 0)
                [] Info0 (proj1 ordered_active_tx) eq_refl Hv eq_refl Hne2)
    as (_ & H2 & _).
  pose proof (CommitActive_rejects 9%Z active_tx "s1" "s2" (mkUsage 0 0)
                [] Info0 (proj1 ordered_active_tx) eq_refl Hv eq_refl Hne2)
    as (_ & _ & H3).
  split; [|split].
  - apply H1. vm_compute. eauto.
  - apply H2; [reflexivity|discriminate|reflexivity].
  - eapply H3; [reflexivity|reflexivity|discriminate].
Defined.

Lemma Remove_sequence tx key r tx' :
  wf tx -> Remove (Some tx) key = Ok (r, tx') ->
  sequence_of tx' = sequence_of tx /\
  forall s, snapshot_of tx key = Some s ->
    index_of tx'
    = match snapshot_of tx (bParent s) with
      | Some sp => delete (composite (bID sp) (bID s)) (index_of tx)
      | None => index_of tx
      end.
Proof.
  intros Hwf HR.
  destruct (Remove_Ok tx key r tx' Hwf HR) as (s & Hs & _).
  destruct (wf_inv tx key s Hwf Hs) as (b & p & Hv & Hb & Hks).
  rewrite (Remove_Some_eq tx b p key s Hb Hv Hks) in HR.
  destruct (decide _) in HR; [discriminate|].
  destruct (writable tx); [|discriminate]. injection HR as _ <-.
  split; [rewrite (sequence_of_eq _ _ _ Hv); reflexivity|].
  intros s' Hs'. rewrite Hs in Hs'. injection Hs' as <-.
  rewrite (snapshot_of_eq tx b p _ Hv), (index_of_eq _ _ _ Hv).
  reflexivity.
Qed.

(** Removing the snapshot just created puts the snapshots and the parent
    index back as they were, and leaves the sequence where the creation
    put it. *)
Lemma Remove_created now tx kind key parent opts snap tx1 :
  ordered tx -> sequence_of tx + 1 < 2 ^ 56 ->
  CreateSnapshot now (Some tx) kind key parent opts = Ok (snap, tx1) ->
  SnapshotID snap = pretty (sequence_of tx + 1) /\
  exists tx2,
    Remove (Some tx1) key = Ok ((SnapshotID snap, kind), tx2) /\
    entries_of tx2 = entries_of tx /\
    index_of tx2 = index_of tx /\
    sequence_of tx2 = sequence_of tx + 1 /\
    ordered tx2.
Proof.
  intros Ho Hseq H.
  destruct (CreateSnapshot_inv _ _ _ _ _ _ _ _ (proj1 Ho) H)
    as (Hw & Hkind & (base & Hopts) & Hkey & Hfresh & Hparent).
  destruct (CreateSnapshot_Ok now tx kind key parent opts base
              Ho Hw Hseq Hkind Hopts Hkey Hfresh Hparent)
    as (ids & tx' & HC & Ho1 & Hw1 & Hs1 & He1 & Hroot & Hchild).
  rewrite HC in H. injection H as <- <-. cbn [SnapshotID].
  split; [reflexivity|].
  set (id := sequence_of tx + 1) in *.
  set (s := putSnapshot _ _) in He1.
  assert (Hs : snapshot_of tx' key = Some s).
  { rewrite snapshot_of_entries, He1. apply lookup_insert_eq. }
  destruct Ho as [Hwf Hold]. destruct Ho1 as [Hwf1 Hold1].
  destruct (created_view tx Hwf) as (He & Hsq & Hp & Hb).
  set (b := default _ (snapshotsB _)) in *.
  set (p := default _ (parentsB _)) in *.
  assert (Hparent_in : forall k s', entries_of tx !! k = Some s' ->
                                    bParent s' <> key).
  { intros k s' Hs' E. rewrite <- He in Hs'.
    assert (Hne : bParent s' <> EmptyString) by congruence.
    destruct (wf_parent _ _ Hb _ _ Hs' Hne) as (ps & Hps & _).
    rewrite He, E, <- snapshot_of_entries, Hfresh in Hps. discriminate. }
  destruct (Remove_leaf tx' key s Hwf1 Hw1 Hs) as [tx2 HR].
  { intros k s' Hs' E. rewrite snapshot_of_entries, He1 in Hs'.
    apply lookup_insert_Some in Hs' as [[<- <-]|[Hne Hs']].
    - subst s. cbn in E. subst parent.
      destruct Hparent as [?|(sp & Hsp & _)]; congruence.
    - exact (Hparent_in _ _ Hs' E). }
  exists tx2. cbn [bID bKind putSnapshot InfoKind] in HR.
  split; [exact HR|].
  destruct (Remove_ordered tx' key _ tx2 (conj Hwf1 Hold1) HR) as [Ho2 He2].
  destruct (Remove_sequence tx' key _ tx2 Hwf1 HR) as [Hs2 Hi2].
  split.
  { rewrite He2, He1. apply delete_insert_id.
    rewrite <- snapshot_of_entries. exact Hfresh. }
  split.
  { rewrite (Hi2 s Hs). subst s. cbn [putSnapshot bParent bID InfoParent].
    destruct Hparent as [Hp0|(sp & Hsp & Hc)].
    - destruct (Hroot Hp0) as [_ Hi]. rewrite Hp0.
      rewrite snapshot_of_entries, He1, lookup_insert_ne by congruence.
      rewrite <- He, (wf_noempty _ _ Hb). exact Hi.
    - assert (Hne : parent <> EmptyString).
      { intros ->. rewrite snapshot_of_entries, <- He, (wf_noempty _ _ Hb)
          in Hsp. discriminate. }
      destruct (Hchild sp Hne Hsp) as (_ & _ & Hi).
      rewrite snapshot_of_entries, He1, lookup_insert_ne
        by (intros <-; congruence).
      rewrite <- snapshot_of_entries, Hsp, Hi. apply delete_insert_id.
      rewrite <- Hp. destruct (p !! composite (bID sp) id) as [k|] eqn:Hk;
        [|reflexivity]. exfalso.
      destruct (wf_index _ _ Hb _ _ Hk) as (s' & ps & Hs' & _ & Hps & Hck).
      pose proof (wf_ids _ _ Hb _ _ Hs') as Hid'.
      assert (B1 : bID sp < 2 ^ 64).
      { apply pow56_64, (wf_id_small b p parent sp Hb).
        rewrite He, <- snapshot_of_entries. exact Hsp. }
      assert (B2 : bID ps < 2 ^ 64)
        by (apply pow56_64, (wf_id_small b p _ ps Hb Hps)).
      assert (B3 : bID s' < 2 ^ 64)
        by (apply pow56_64, (wf_id_small b p _ s' Hb Hs')).
      assert (B4 : id < 2 ^ 64) by (apply pow56_64; exact Hseq).
      destruct (composite_inj _ _ _ _ B1 B4 B2 B3 Hck) as [_ E].
      subst id. lia. }
  split; [rewrite Hs2; exact Hs1|exact Ho2].
Qed.

(** *** [UpdateInfo] *)

(** The label maps in the loop over the field paths: the map of the
    caller's [info], the map of [updated], and whether the two are one
    and the same map, which they are from the path [labels] on.  An empty
    map stands for Go's nil map, which the loop replaces by a new map
    before it writes to it. *)
Record label_maps := mkLabelMaps {
  given : gmap string string;
  current : gmap string string;
  shared : bool;
}.

(** [updated.Labels = info.Labels]. *)
Definition take_labels (st : label_maps) : label_maps :=
  {| given := given st; current := given st;
     shared := bool_decide (given st <> ∅) |}.

(** One field path of [UpdateInfo]: [labels.<key>] takes that label from
    [info] (Go's empty string when [info] has none), [labels] takes the
    whole map, anything else is refused.  A label written to a shared map
    is written to the caller's map. *)
Definition apply_path (st : label_maps) (path : string)
  : outcome label_maps :=
  match Containers.CutPrefix "labels." path with
  | Some key =>
      let value := default EmptyString (given st !! key) in
      Ok {| given := if shared st then <[key := value]> (given st)
                     else given st;
            current := <[key := value]> (current st);
            shared := shared st |}
  | None =>
      if decide (path = "labels") then Ok (take_labels st)
      else Fail ErrInvalidArgument
  end.

Fixpoint apply_paths (st : label_maps) (fieldpaths : list string)
  : outcome label_maps :=
  match fieldpaths with
  | [] => Ok st
  | path :: fieldpaths =>
      st ← apply_path st path;
      apply_paths st fieldpaths
  end.

Section UpdateInfo.
(** [boltutil.WriteLabels(bkt, labels)], which is not part of this
    package: an error, or the labels the bucket gives back afterwards, as
    [boltutil.ReadLabels] reads them, together with what the call leaves
    in the map it was handed. *)
Variable WriteLabels :
  gmap string string -> outcome (gmap string string * gmap string string).

(** The snapshot bucket after [UpdateInfo] has written its timestamps and
    labels. *)
Definition rewritten (sbkt : SnapshotBucket) (now : Time)
    (stored : gmap string string) : SnapshotBucket :=
  {| bID := bID sbkt; bKind := bKind sbkt; bParent := bParent sbkt;
     bCreated := bCreated sbkt; bUpdated := now;
     bLabels := stored; bUsage := bUsage sbkt |}.

(** The labels [UpdateInfo] hands to [WriteLabels]. *)
Definition computed (info : Info) (sbkt : SnapshotBucket)
    (fieldpaths : list string) : outcome (gmap string string) :=
  match fieldpaths with
  | [] => Ok (InfoLabels info)
  | _ =>
      st ← apply_paths {| given := InfoLabels info; current := bLabels sbkt;
                          shared := false |} fieldpaths;
      Ok (current st)
  end.

(** [UpdateInfo(ctx, info, fieldpaths...)], at time [now]: the labels of
    the result are the map that was handed to [WriteLabels], after the
    call. *)
Definition UpdateInfo (now : Time) (ctx : Context) (info : Info)
    (fieldpaths : list string) : outcome (Info * Tx) :=
  withBucket ctx (fun w '(bkt, pbkt) =>
    sbkt ← Bucket bkt (InfoName info);
    match sbkt with
    | None => Fail ErrNotFound
    | Some sbkt =>
        let updated := readSnapshot (InfoName info) sbkt in
        labels ← computed info sbkt fieldpaths;
        b ← or_panic bkt;
        _ ← check_writable w;
        written ← WriteLabels labels;
        Ok ({| InfoKind := InfoKind updated; InfoName := InfoName updated;
               InfoParent := InfoParent updated;
               InfoLabels := written.2;
               InfoCreated := InfoCreated updated; InfoUpdated := now |},
            (Some {| entries := <[InfoName info := rewritten sbkt now written.1]>
                                  (entries b);
                     sequence := sequence b |}, pbkt))
    end).

(** A field path addresses the label [key]. *)
Definition addresses (key path : string) : Prop :=
  path = "labels" \/ path = "labels." +:+ key.

Lemma label_path_frame st st' path :
  apply_path st path = Ok st' ->
  (forall key, ~ addresses key path -> current st' !! key = current st !! key) /\
  (path <> "labels" ->
   shared st' = shared st /\
   (shared st = false -> given st' = given st) /\
   forall key, path = "labels." +:+ key ->
               current st' !! key = Some (default EmptyString (given st !! key))).
Proof.
  unfold apply_path, addresses.
  destruct (Containers.CutPrefix "labels." path) as [k|] eqn:Hcut.
  - pose proof Hcut as Hpath. apply Containers.CutPrefix_Some in Hpath.
    intros [= <-]. cbn. split.
    + intros key Hkey. apply lookup_insert_ne. intros ->. tauto.
    + intros _. split; [reflexivity|]. split; [intros ->; reflexivity|].
      intros key Hk. apply Containers.CutPrefix_Some in Hk.
      assert (k = key) as -> by congruence. apply lookup_insert_eq.
  - destruct (decide (path = "labels")) as [->|]; [|discriminate].
    intros [= <-]. split; [intros key Hkey; tauto|]. intros Hne. contradiction.
Qed.

Lemma label_paths_frame fieldpaths : forall st st',
  apply_paths st fieldpaths = Ok st' ->
  (forall key, (forall path, path ∈ fieldpaths -> ~ addresses key path) ->
               current st' !! key = current st !! key) /\
  ("labels" ∉ fieldpaths -> shared st = false ->
   given st' = given st /\
   forall key, "labels." +:+ key ∈ fieldpaths ->
               current st' !! key = Some (default EmptyString (given st !! key))).
Proof.
  induction fieldpaths as [|path fieldpaths IH]; intros st st';
    cbn [apply_paths].
  - intros [= <-]. split; [reflexivity|]. intros _ _.
    split; [reflexivity|]. intros key Hin. inversion Hin.
  - destruct (apply_path st path) as [u| | |] eqn:Hp;
      try discriminate. cbn [mbind outcome_bind]. intros Hrest.
    apply label_path_frame in Hp as [H1 H2].
    apply IH in Hrest as [G1 G2]. split.
    + intros key Hkey. rewrite G1, H1; [reflexivity| |].
      * apply Hkey. left.
      * intros p Hp. apply Hkey. right. exact Hp.
    + intros Hno Hsh.
      assert (Hne : path <> "labels") by (intros ->; apply Hno; left).
      assert (Hno' : "labels" ∉ fieldpaths)
        by (intros Hin; apply Hno; right; exact Hin).
      destruct (H2 Hne) as (Hs & Hg & Hset). specialize (Hg Hsh).
      destruct (G2 Hno') as [Gg Gset]; [congruence|].
      split; [congruence|]. intros key Hin.
      destruct (decide ("labels." +:+ key ∈ fieldpaths)) as [Hlater|Hlater].
      * rewrite (Gset key Hlater), Hg. reflexivity.
      * apply elem_of_cons in Hin as [E|Hin]; [|contradiction].
        rewrite G1.
        -- apply Hset. symmetry. exact E.
        -- intros p Hp [E1 | E1]; subst p; contradiction.
Qed.

Lemma label_paths_rejects fieldpaths : forall st path,
  path ∈ fieldpaths -> path <> "labels" ->
  Containers.CutPrefix "labels." path = None ->
  apply_paths st fieldpaths = Fail ErrInvalidArgument.
Proof.
  induction fieldpaths as [|p fieldpaths IH]; intros st path Hin Hne Hcut.
  - inversion Hin.
  - cbn [apply_paths].
    destruct (apply_path st p) as [u| | |] eqn:Hp.
    + cbn [mbind outcome_bind]. apply elem_of_cons in Hin as [E|Hin].
      * subst p. unfold apply_path in Hp. rewrite Hcut in Hp.
        destruct (decide (path = "labels")); [contradiction|discriminate].
      * eapply IH; eauto.
    + unfold apply_path in Hp.
      destruct (Containers.CutPrefix "labels." p); [discriminate|].
      destruct (decide (p = "labels")); [discriminate|].
      injection Hp as <-. reflexivity.
    + unfold apply_path in Hp.
      destruct (Containers.CutPrefix "labels." p); [discriminate|].
      destruct (decide (p = "labels")); discriminate.
    + unfold apply_path in Hp.
      destruct (Containers.CutPrefix "labels." p); [discriminate|].
      destruct (decide (p = "labels")); discriminate.
Qed.

(** [UpdateInfo] on a store whose buckets exist. *)
Lemma UpdateInfo_eq now tx b p info fieldpaths :
  v1 tx = Some (mkV1 (Some b) (Some p)) ->
  UpdateInfo now (Some tx) info fieldpaths =
    match entries b !! InfoName info with
    | None => Fail ErrNotFound
    | Some sbkt =>
        labels ← computed info sbkt fieldpaths;
        if writable tx then
          written ← WriteLabels labels;
          Ok ({| InfoKind := bKind sbkt; InfoName := InfoName info;
                 InfoParent := bParent sbkt; InfoLabels := written.2;
                 InfoCreated := bCreated sbkt; InfoUpdated := now |},
              {| writable := writable tx;
                 v1 := Some {| snapshotsB :=
                                 Some {| entries :=
                                           <[InfoName info :=
                                               rewritten sbkt now written.1]>
                                             (entries b);
                                         sequence := sequence b |};
                               parentsB := Some p |} |})
        else Fail (ErrBolt "tx not writable")
    end.
Proof.
  intros Hv. unfold UpdateInfo, withBucket. rewrite Hv.
  cbn [snapshotsB parentsB]. unfold Bucket.
  cbn [or_panic mbind outcome_bind].
  destruct (entries b !! InfoName info) as [sbkt|]; [|reflexivity].
  destruct (computed info sbkt fieldpaths) as [labels| | |];
    cbn [mbind outcome_bind]; try reflexivity.
  destruct (writable tx); [|reflexivity]. cbn [check_writable mbind outcome_bind].
  destruct (WriteLabels labels) as [written| | |]; reflexivity.
Qed.

(** Rewriting the labels and timestamps of a snapshot keeps the store
    well formed. *)
Lemma rewrite_wf b p k s s' :
  wf_buckets b p -> entries b !! k = Some s ->
  bID s' = bID s -> bKind s' = bKind s -> bParent s' = bParent s ->
  wf_buckets {| entries := <[k := s']> (entries b); sequence := sequence b |} p.
Proof.
  intros Hb Hk Hid Hkind Hpar.
  assert (Hlook : forall k0 s0, <[k := s']> (entries b) !! k0 = Some s0 ->
            exists s1, entries b !! k0 = Some s1 /\ bID s0 = bID s1 /\
                       bKind s0 = bKind s1 /\ bParent s0 = bParent s1).
  { intros k0 s0 H0. apply lookup_insert_Some in H0 as [[<- <-]|[Hne H0]];
      eauto 6. }
  assert (Hback : forall k0 s1, entries b !! k0 = Some s1 ->
            exists s0, <[k := s']> (entries b) !! k0 = Some s0 /\
                       bID s0 = bID s1 /\ bKind s0 = bKind s1 /\
                       bParent s0 = bParent s1).
  { intros k0 s1 H1. destruct (decide (k0 = k)) as [->|Hne].
    - rewrite Hk in H1. injection H1 as <-. exists s'.
      rewrite lookup_insert_eq. auto.
    - exists s1. rewrite lookup_insert_ne by congruence. auto. }
  split; cbn [entries sequence].
  - exact (wf_seq _ _ Hb).
  - rewrite lookup_insert_ne; [exact (wf_noempty _ _ Hb)|].
    intros ->. rewrite (wf_noempty _ _ Hb) in Hk. discriminate.
  - intros k0 s0 H0. destruct (Hlook _ _ H0) as (s1 & H1 & -> & _).
    exact (wf_ids _ _ Hb _ _ H1).
  - intros k1 k2 s1 s2 H1 H2 E.
    destruct (Hlook _ _ H1) as (t1 & G1 & E1 & _).
    destruct (Hlook _ _ H2) as (t2 & G2 & E2 & _).
    apply (wf_inj _ _ Hb k1 k2 t1 t2 G1 G2). congruence.
  - intros k0 s0 H0 Hp. destruct (Hlook _ _ H0) as (s1 & H1 & E1 & _ & E3).
    rewrite E3 in Hp |- *.
    destruct (wf_parent _ _ Hb _ _ H1 Hp) as (ps & Hps & Hc & Hidx).
    destruct (Hback _ _ Hps) as (ps0 & Hps0 & F1 & F2 & _).
    exists ps0. rewrite F1, F2, E1. auto.
  - intros pk k0 Hpk.
    destruct (wf_index _ _ Hb _ _ Hpk) as (s1 & ps & H1 & Hp & Hps & ->).
    destruct (Hback _ _ H1) as (s0 & H0 & E1 & _ & E3).
    destruct (Hback _ _ Hps) as (ps0 & Hps0 & F1 & _).
    exists s0, ps0. rewrite E3, F1, E1. auto.
Qed.

(** What a successful [UpdateInfo] does. *)
Lemma UpdateInfo_Ok now tx info fieldpaths updated tx' :
  ordered tx ->
  UpdateInfo now (Some tx) info fieldpaths = Ok (updated, tx') ->
  exists s labels stored,
    snapshot_of tx (InfoName info) = Some s /\
    writable tx = true /\
    computed info s fieldpaths = Ok labels /\
    WriteLabels labels = Ok (stored, InfoLabels updated) /\
    InfoKind updated = bKind s /\ InfoName updated = InfoName info /\
    InfoParent updated = bParent s /\ InfoCreated updated = bCreated s /\
    InfoUpdated updated = now /\
    entries_of tx' = <[InfoName info := rewritten s now stored]> (entries_of tx) /\
    index_of tx' = index_of tx /\ sequence_of tx' = sequence_of tx /\
    ordered tx'.
Proof.
  intros [Hwf Hold] H.
  assert (Hv : exists b p, v1 tx = Some (mkV1 (Some b) (Some p)) /\
                           wf_buckets b p).
  { unfold wf in Hwf. destruct (v1 tx) as [v|] eqn:Hv.
    - destruct Hwf as (b & p & -> & Hb). eauto.
    - unfold UpdateInfo, withBucket in H. rewrite Hv in H. discriminate. }
  destruct Hv as (b & p & Hv & Hb).
  rewrite (UpdateInfo_eq now tx b p info fieldpaths Hv) in H.
  rewrite (snapshot_of_eq tx b p _ Hv), (entries_of_eq tx b p Hv),
    (index_of_eq tx b p Hv), (sequence_of_eq tx b p Hv).
  destruct (entries b !! InfoName info) as [s|] eqn:Hs; [|discriminate].
  destruct (computed info s fieldpaths) as [labels| | |] eqn:Hl;
    try discriminate. cbn [mbind outcome_bind] in H.
  destruct (writable tx) eqn:Hw; [|discriminate].
  destruct (WriteLabels labels) as [[stored left]| | |] eqn:HW;
    try discriminate. cbn [mbind outcome_bind fst snd] in H.
  injection H as <- <-.
  exists s, labels, stored.
  cbn [InfoKind InfoName InfoParent InfoCreated InfoUpdated InfoLabels].
  do 12 (split; [first [reflexivity|assumption]|]).
  set (s' := rewritten s now stored).
  assert (Hwf' : wf_buckets {| entries := <[InfoName info := s']> (entries b);
                               sequence := sequence b |} p)
    by (apply (rewrite_wf b p _ s s' Hb Hs); reflexivity).
  split.
  - unfold wf. cbn. eauto.
  - rewrite entries_of_mk. rewrite (entries_of_eq tx b p Hv) in Hold.
    intros k s0 H0 Hp.
    assert (Hsame : exists s1, entries b !! k = Some s1 /\
                               bID s0 = bID s1 /\ bParent s0 = bParent s1).
    { apply lookup_insert_Some in H0 as [[<- <-]|[Hne H0]]; eauto. }
    destruct Hsame as (s1 & H1 & E1 & E2). rewrite E2 in Hp |- *.
    destruct (Hold k s1 H1 Hp) as (ps & Hps & Hlt).
    destruct (decide (bParent s1 = InfoName info)) as [E|Hne].
    + exists s'. rewrite E, lookup_insert_eq. split; [reflexivity|].
      rewrite E, Hs in Hps. injection Hps as <-. cbn. lia.
    + exists ps. rewrite lookup_insert_ne by congruence. split; [exact Hps|].
      lia.
Qed.

(** X10.  [UpdateInfo] changes labels only.  A successful call returns
    the stored kind, parent and creation time with the time of the call
    as update time, and as labels what [boltutil.WriteLabels] left in the
    map it was handed.  That map holds, without field paths, the labels
    of [info]; with field paths, every label that no path addresses as it
    was read from the bucket and, when no path is [labels], under every
    key of a path [labels.<key>] the value [info] has for it.  The
    snapshot keeps its id, kind, parent, creation time and usage, and
    every other snapshot and the parent index are untouched.  A path that
    is neither [labels] nor [labels.<key>] is InvalidArgument, a missing
    snapshot NotFound, and a failure of [WriteLabels] is returned. *)
Theorem UpdateInfo_labels_only now tx info fieldpaths :
  ordered tx ->
  (forall updated tx',
     UpdateInfo now (Some tx) info fieldpaths = Ok (updated, tx') ->
     exists s labels stored,
       snapshot_of tx (InfoName info) = Some s /\
       InfoKind updated = bKind s /\ InfoParent updated = bParent s /\
       InfoCreated updated = bCreated s /\ InfoUpdated updated = now /\
       WriteLabels labels = Ok (stored, InfoLabels updated) /\
       (fieldpaths = [] -> labels = InfoLabels info) /\
       (fieldpaths <> [] ->
        forall key, (forall path, path ∈ fieldpaths -> ~ addresses key path) ->
                    labels !! key = bLabels s !! key) /\
       ("labels" ∉ fieldpaths ->
        forall key, "labels." +:+ key ∈ fieldpaths ->
                    labels !! key
                    = Some (default EmptyString (InfoLabels info !! key))) /\
       snapshot_of tx' (InfoName info)
       = Some {| bID := bID s; bKind := bKind s; bParent := bParent s;
                 bCreated := bCreated s; bUpdated := now;
                 bLabels := stored; bUsage := bUsage s |} /\
       (forall k, k <> InfoName info ->
                  snapshot_of tx' k = snapshot_of tx k) /\
       index_of tx' = index_of tx) /\
  (forall path, path ∈ fieldpaths -> path <> "labels" ->
     Containers.CutPrefix "labels." path = None ->
     is_Some (snapshot_of tx (InfoName info)) ->
     UpdateInfo now (Some tx) info fieldpaths = Fail ErrInvalidArgument) /\
  (snapshot_of tx (InfoName info) = None ->
   UpdateInfo now (Some tx) info fieldpaths = Fail ErrNotFound) /\
  (forall s labels e,
     snapshot_of tx (InfoName info) = Some s -> writable tx = true ->
     computed info s fieldpaths = Ok labels -> WriteLabels labels = Fail e ->
     UpdateInfo now (Some tx) info fieldpaths = Fail e).
Proof.
  intros Ho. split; [|split; [|split]].
  - intros updated tx' H.
    destruct (UpdateInfo_Ok now tx info fieldpaths updated tx' Ho H)
      as (s & labels & stored & Hs & _ & Hl & HW & U1 & _ & U3 & U4 & U5
          & He & Hi & _).
    exists s, labels, stored. do 5 (split; [assumption|]).
    split; [exact HW|]. split; [|split; [|split; [|split; [|split]]]].
    + intros ->. cbn in Hl. congruence.
    + intros Hne key Hkey. destruct fieldpaths as [|p fps]; [contradiction|].
      unfold computed in Hl.
      destruct (apply_paths _ (p :: fps)) as [st| | |] eqn:Hp;
        try discriminate. cbn [mbind outcome_bind] in Hl. injection Hl as <-.
      apply label_paths_frame in Hp as [Hf _]. exact (Hf key Hkey).
    + intros Hno key Hin. destruct fieldpaths as [|p fps]; [inversion Hin|].
      unfold computed in Hl.
      destruct (apply_paths _ (p :: fps)) as [st| | |] eqn:Hp;
        try discriminate. cbn [mbind outcome_bind] in Hl. injection Hl as <-.
      apply label_paths_frame in Hp as [_ Hf].
      destruct (Hf Hno eq_refl) as [_ Hset]. exact (Hset key Hin).
    + rewrite snapshot_of_entries, He, lookup_insert_eq. reflexivity.
    + intros k Hne. rewrite !snapshot_of_entries, He.
      apply lookup_insert_ne. congruence.
    + exact Hi.
  - intros path Hin Hne Hcut [s Hs]. destruct Ho as [Hwf _].
    destruct (wf_inv tx _ s Hwf Hs) as (b & p & Hv & _ & Hks).
    rewrite (UpdateInfo_eq now tx b p info fieldpaths Hv), Hks.
    destruct fieldpaths as [|p0 fieldpaths]; [inversion Hin|].
    unfold computed.
    rewrite (label_paths_rejects _ _ path Hin Hne Hcut). reflexivity.
  - intros Hnone. destruct Ho as [Hwf _]. unfold wf in Hwf.
    destruct (v1 tx) as [v|] eqn:Hv.
    + destruct Hwf as (b & p & -> & _).
      rewrite (UpdateInfo_eq now tx b p info fieldpaths Hv).
      rewrite (snapshot_of_eq tx b p _ Hv) in Hnone. rewrite Hnone.
      reflexivity.
    + unfold UpdateInfo, withBucket. rewrite Hv. reflexivity.
  - intros s labels e Hs Hw Hl HW. destruct Ho as [Hwf _].
    destruct (wf_inv tx _ s Hwf Hs) as (b & p & Hv & _ & Hks).
    rewrite (UpdateInfo_eq now tx b p info fieldpaths Hv), Hks, Hl.
    cbn [mbind outcome_bind]. rewrite Hw, HW. reflexivity.
Qed.

(** *** Every store the package builds *)

(** The stores reached from the empty database by successful calls, as
    long as the sequence stays below [2^56]. *)
Inductive reachable : Tx -> Prop :=
| reachable_empty : reachable tx_empty
| reachable_create now tx kind key parent opts snap tx' :
    reachable tx -> sequence_of tx + 1 < 2 ^ 56 ->
    CreateSnapshot now (Some tx) kind key parent opts = Ok (snap, tx') ->
    reachable tx'
| reachable_commit now tx key name usage opts id tx' :
    reachable tx ->
    CommitActive now (Some tx) key name usage opts = Ok (id, tx') ->
    reachable tx'
| reachable_remove tx key r tx' :
    reachable tx -> Remove (Some tx) key = Ok (r, tx') -> reachable tx'
| reachable_update now tx info fieldpaths updated tx' :
    reachable tx ->
    UpdateInfo now (Some tx) info fieldpaths = Ok (updated, tx') ->
    reachable tx'.

Lemma reachable_ordered tx : reachable tx -> ordered tx.
Proof.
  induction 1 as [|now tx kind key parent opts snap tx' _ IH Hseq H
                  |now tx key name usage opts id tx' _ IH H
                  |tx key r tx' _ IH H
                  |now tx info fieldpaths updated tx' _ IH H].
  - apply ordered_empty.
  - exact (proj1 (CreateSnapshot_ordered _ _ _ _ _ _ _ _ IH Hseq H)).
  - exact (proj1 (CommitActive_ordered _ _ _ _ _ _ _ _ IH H)).
  - exact (proj1 (Remove_ordered _ _ _ _ IH H)).
  - destruct (UpdateInfo_Ok _ _ _ _ _ _ IH H) as (s & labels & stored & Hs).
    tauto.
Qed.

(** The stores that successful calls lead to from a given store. *)
Inductive later (tx0 : Tx) : Tx -> Prop :=
| later_now : later tx0 tx0
| later_create now tx kind key parent opts snap tx' :
    later tx0 tx -> sequence_of tx + 1 < 2 ^ 56 ->
    CreateSnapshot now (Some tx) kind key parent opts = Ok (snap, tx') ->
    later tx0 tx'
| later_commit now tx key name usage opts id tx' :
    later tx0 tx ->
    CommitActive now (Some tx) key name usage opts = Ok (id, tx') ->
    later tx0 tx'
| later_remove tx key r tx' :
    later tx0 tx -> Remove (Some tx) key = Ok (r, tx') -> later tx0 tx'
| later_update now tx info fieldpaths updated tx' :
    later tx0 tx ->
    UpdateInfo now (Some tx) info fieldpaths = Ok (updated, tx') ->
    later tx0 tx'.

(** No call takes the sequence back. *)
Lemma later_sequence tx0 tx :
  ordered tx0 -> later tx0 tx ->
  ordered tx /\ sequence_of tx0 <= sequence_of tx.
Proof.
  intros Ho. induction 1 as [|now tx kind key parent opts snap tx' _ IH Hseq H
                              |now tx key name usage opts id tx' _ IH H
                              |tx key r tx' _ IH H
                              |now tx info fieldpaths updated tx' _ IH H];
    try destruct IH as [IHo IHs].
  - split; [exact Ho|lia].
  - destruct (CreateSnapshot_ordered _ _ _ _ _ _ _ _ IHo Hseq H) as [? E].
    split; [assumption|lia].
  - destruct (CommitActive_ordered _ _ _ _ _ _ _ _ IHo H) as [? E].
    split; [assumption|lia].
  - destruct (Remove_ordered _ _ _ _ IHo H) as [? _].
    destruct (Remove_sequence _ _ _ _ (proj1 IHo) H) as [E _].
    split; [assumption|lia].
  - destruct (UpdateInfo_Ok _ _ _ _ _ _ IHo H)
      as (s & labels & stored & _ & _ & _ & _ & _ & _ & _ & _ & _ & _ & _ & E & ?).
    split; [assumption|lia].
Qed.

(** X9.  Removing the snapshot just created always succeeds and puts the
    snapshots and the parent index back as they were, but not the
    sequence: whatever calls follow, no later [CreateSnapshot] hands out
    the id of the removed snapshot again. *)
Theorem Remove_after_CreateSnapshot now tx kind key parent opts snap tx1 :
  ordered tx -> sequence_of tx + 1 < 2 ^ 56 ->
  CreateSnapshot now (Some tx) kind key parent opts = Ok (snap, tx1) ->
  exists tx2,
    Remove (Some tx1) key = Ok ((SnapshotID snap, kind), tx2) /\
    entries_of tx2 = entries_of tx /\
    index_of tx2 = index_of tx /\
    sequence_of tx2 = sequence_of tx + 1 /\
    forall tx3, later tx2 tx3 ->
      forall now' kind' key' parent' opts' snap' tx4,
        sequence_of tx3 + 1 < 2 ^ 56 ->
        CreateSnapshot now' (Some tx3) kind' key' parent' opts'
          = Ok (snap', tx4) ->
        SnapshotID snap' <> SnapshotID snap.
Proof.
  intros Ho Hseq H.
  destruct (Remove_created now tx kind key parent opts snap tx1 Ho Hseq H)
    as (Hid & tx2 & HR & He & Hi & Hs & Ho2).
  exists tx2. do 4 (split; [assumption|]).
  intros tx3 Hl now' kind' key' parent' opts' snap' tx4 Hseq3 HC.
  destruct (later_sequence tx2 tx3 Ho2 Hl) as [Ho3 Hle].
  assert (Hid' : SnapshotID snap' = pretty (sequence_of tx3 + 1)).
  { destruct (CreateSnapshot_inv _ _ _ _ _ _ _ _ (proj1 Ho3) HC)
      as (Hw' & Hkind' & (base' & Hopts') & Hkey' & Hfresh' & Hparent').
    destruct (CreateSnapshot_Ok now' tx3 kind' key' parent' opts' base'
                Ho3 Hw' Hseq3 Hkind' Hopts' Hkey' Hfresh' Hparent')
      as (ids' & tx4' & HC4 & _).
    rewrite HC4 in HC. injection HC as <- _. reflexivity. }
  rewrite Hid, Hid'. intros E. apply (inj pretty) in E. lia.
Qed.

(** X11.  In every store the package builds, a snapshot with a parent
    has a parent that exists, is committed and has a smaller id; the
    parent index holds exactly one entry per parent link, naming the
    child; ids are positive, at most the sequence, and never shared; and
    no snapshot has the empty key. *)
Theorem reachable_invariant tx :
  reachable tx ->
  (forall k s, snapshot_of tx k = Some s -> bParent s <> EmptyString ->
     exists ps, snapshot_of tx (bParent s) = Some ps /\
                bKind ps = KindCommitted /\ bID ps < bID s /\
                index_of tx !! composite (bID ps) (bID s) = Some k) /\
  (forall pk k, index_of tx !! pk = Some k ->
     exists s ps, snapshot_of tx k = Some s /\ bParent s <> EmptyString /\
                  snapshot_of tx (bParent s) = Some ps /\
                  pk = composite (bID ps) (bID s)) /\
  (forall k s, snapshot_of tx k = Some s -> 0 < bID s <= sequence_of tx) /\
  (forall k1 k2 s1 s2,
     snapshot_of tx k1 = Some s1 -> snapshot_of tx k2 = Some s2 ->
     bID s1 = bID s2 -> k1 = k2) /\
  snapshot_of tx EmptyString = None.
Proof.
  intros Hr. destruct (reachable_ordered tx Hr) as [Hwf Hold].
  destruct (created_view tx Hwf) as (He & Hs & Hp & Hb).
  set (b := default _ (snapshotsB _)) in *.
  set (p := default _ (parentsB _)) in *.
  assert (Hsnap : forall k, snapshot_of tx k = entries b !! k).
  { intros k. rewrite snapshot_of_entries, He. reflexivity. }
  rewrite <- Hp, <- Hs. split; [|split; [|split; [|split]]].
  - intros k s Hk Hne. rewrite Hsnap in Hk.
    destruct (wf_parent _ _ Hb _ _ Hk Hne) as (ps & Hps & Hc & Hidx).
    exists ps. rewrite Hsnap. split; [exact Hps|]. split; [exact Hc|].
    split; [|exact Hidx].
    rewrite <- He in Hold. destruct (Hold k s Hk Hne) as (ps' & Hps' & Hlt).
    congruence.
  - intros pk k Hpk.
    destruct (wf_index _ _ Hb _ _ Hpk) as (s & ps & H1 & H2 & H3 & H4).
    exists s, ps. rewrite !Hsnap. auto.
  - intros k s Hk. rewrite Hsnap in Hk. exact (wf_ids _ _ Hb _ _ Hk).
  - intros k1 k2 s1 s2 H1 H2. rewrite Hsnap in H1, H2.
    exact (wf_inj _ _ Hb _ _ _ _ H1 H2).
  - rewrite Hsnap. exact (wf_noempty _ _ Hb).
Qed.

End UpdateInfo.

(** [boltutil.WriteLabels] as a map that keeps what it is given. *)
Definition keep_labels (labels : gmap string string)
  : outcome (gmap string string * gmap string string) :=
  Ok (labels, labels).

Lemma Remove_after_CreateSnapshot_witness :
  exists snap tx1 tx2,
    CreateSnapshot 5%Z (Some chain1) KindActive "a" "s1" [] = Ok (snap, tx1) /\
    Remove (Some tx1) "a" = Ok ((SnapshotID snap, KindActive), tx2) /\
    entries_of tx2 = entries_of chain1.
Proof.
  destruct (CreateSnapshot 5%Z (Some chain1) KindActive "a" "s1" [])
    as [[snap tx1]| | |] eqn:HC; try (vm_compute in HC; discriminate).
  assert (Hseq : sequence_of chain1 + 1 < 2 ^ 56) by reflexivity.
  destruct (Remove_after_CreateSnapshot keep_labels 5%Z chain1 KindActive
              "a" "s1" [] snap tx1 ordered_chain1 Hseq HC)
    as (tx2 & HR & He & _).
  exists snap, tx1, tx2. split; [reflexivity|]. split; [exact HR|exact He].
Defined.

Lemma UpdateInfo_labels_only_witness :
  exists updated tx',
    UpdateInfo keep_labels 7%Z (Some chain1)
      {| InfoKind := KindUnknown; InfoName := "s1"; InfoParent := EmptyString;
         InfoLabels := {[ "a" := "b" ]};
         InfoCreated := 0%Z; InfoUpdated := 0%Z |}
      ["labels.a"] = Ok (updated, tx') /\
    InfoKind updated = KindCommitted /\ InfoUpdated updated = 7%Z.
Proof.
  set (info := {| InfoKind := KindUnknown; InfoName := "s1";
                  InfoParent := EmptyString; InfoLabels := {[ "a" := "b" ]};
                  InfoCreated := 0%Z; InfoUpdated := 0%Z |}).
  destruct (UpdateInfo keep_labels 7%Z (Some chain1) info ["labels.a"])
    as [[updated tx']| | |] eqn:HU; try (vm_compute in HU; discriminate).
  destruct (proj1 (UpdateInfo_labels_only keep_labels 7%Z chain1 info
                     ["labels.a"] ordered_chain1) updated tx' HU)
    as (s & labels & stored & Hs & Hk & _ & _ & Hu & _).
  assert (Hs' : snapshot_of chain1 "s1"
                = Some {| bID := 1; bKind := KindCommitted;
                          bParent := EmptyString;
                          bCreated := 0%Z; bUpdated := 0%Z;
                          bLabels := ∅; bUsage := mkUsage 0 0 |})
    by reflexivity.
  change (InfoName info) with "s1" in Hs. rewrite Hs' in Hs.
  injection Hs as <-. exists updated, tx'. auto.
Defined.

Lemma reachable_invariant_witness :
  exists snap tx1 snap2 tx2,
    CreateSnapshot 0%Z (Some tx_empty) KindActive "a" EmptyString []
      = Ok (snap, tx1) /\
    CommitActive 1%Z (Some tx1) "a" "base" (mkUsage 1 1) [] = Ok (snap2, tx2) /\
    snapshot_of tx2 EmptyString = None.
Proof.
  destruct (CreateSnapshot 0%Z (Some tx_empty) KindActive "a" EmptyString [])
    as [[snap tx1]| | |] eqn:H1; try (vm_compute in H1; discriminate).
  assert (Hseq : sequence_of tx_empty + 1 < 2 ^ 56) by reflexivity.
  pose proof (reachable_create keep_labels 0%Z tx_empty KindActive "a" EmptyString []
                snap tx1 (reachable_empty keep_labels) Hseq H1) as R1.
  destruct (CommitActive 1%Z (Some tx1) "a" "base" (mkUsage 1 1) [])
    as [[snap2 tx2]| | |] eqn:H2;
    try (injection H1 as <- <-; vm_compute in H2; discriminate).
  pose proof (reachable_commit keep_labels 1%Z tx1 "a" "base" (mkUsage 1 1) []
                snap2 tx2 R1 H2) as R2.
  exists snap, tx1, snap2, tx2. split; [reflexivity|]. split; [exact H2|].
  exact (proj2 (proj2 (proj2 (proj2 (reachable_invariant keep_labels tx2 R2))))).
Defined.

(** *** [IDMap] *)

Lemma foldl_insert_ids (l : list (string * SnapshotBucket)) :
  foldl (fun m (ks : string * SnapshotBucket) =>
           <[pretty (bID ks.2) := ks.1]> m) (∅ : gmap string string) l
  = list_to_map (reverse ((fun ks : string * SnapshotBucket =>
                             (pretty (bID ks.2), ks.1)) <$> l)).
Proof.
  rewrite <- (reverse_involutive l) at 1.
  rewrite <- fmap_reverse. generalize (reverse l) as r. intros r.
  induction r as [|ks r IH]; [reflexivity|].
  rewrite reverse_cons, foldl_app. cbn. rewrite IH. reflexivity.
Qed.

(** X12.  On a store built by the package [IDMap] is the inverse of the
    ids: it maps the decimal id of every snapshot to its key, and nothing
    else. *)
Theorem IDMap_inverse tx :
  wf tx -> is_Some (v1 tx) ->
  exists m,
    IDMap (Some tx) = Ok m /\
    (forall id key, m !! id = Some key <->
       exists s, snapshot_of tx key = Some s /\ id = pretty (bID s)) /\
    size m = size (entries_of tx).
Proof.
  intros Hwf [v Hv]. pose proof Hwf as Hwf'. unfold wf in Hwf'.
  rewrite Hv in Hwf'. destruct Hwf' as (b & p & -> & Hb).
  unfold IDMap, withBucket. rewrite Hv. cbn [snapshotsB parentsB].
  cbn [or_panic mbind outcome_bind fst]. eexists. split; [reflexivity|].
  rewrite foldl_insert_ids, (entries_of_eq tx b p Hv).
  set (f := fun ks : string * SnapshotBucket => (pretty (bID ks.2), ks.1)).
  set (L := merge_sort _ _).
  assert (HL : L ≡ₚ map_to_list (entries b)) by apply merge_sort_Permutation.
  assert (Hin : forall k s, (k, s) ∈ L <-> entries b !! k = Some s).
  { intros k s. rewrite HL. apply elem_of_map_to_list. }
  assert (HND : NoDup L).
  { rewrite HL. apply NoDup_map_to_list. }
  assert (Hinj : forall x y, x ∈ L -> y ∈ L -> (f x).1 = (f y).1 -> x = y).
  { intros [k1 s1] [k2 s2] H1%Hin H2%Hin E. cbn in E.
    apply (inj pretty) in E.
    pose proof (wf_inj _ _ Hb _ _ _ _ H1 H2 E) as ->. congruence. }
  assert (HNDf : NoDup (reverse (f <$> L)).*1).
  { rewrite fmap_reverse, reverse_Permutation, <- list_fmap_compose.
    apply NoDup_fmap_2_strong; [|exact HND].
    intros x y Hx Hy E. apply (Hinj x y Hx Hy E). }
  split.
  - intros id key. rewrite <- elem_of_list_to_map by exact HNDf.
    rewrite elem_of_reverse, list_elem_of_fmap. split.
    + intros ([k s] & E & Hks). injection E as -> ->.
      exists s. rewrite (snapshot_of_eq tx b p _ Hv). split; [|reflexivity].
      apply Hin, Hks.
    + intros (s & Hs & ->). rewrite (snapshot_of_eq tx b p _ Hv) in Hs.
      exists (key, s). split; [reflexivity|]. apply Hin, Hs.
  - rewrite map_size_list_to_map by exact HNDf.
    rewrite length_reverse, length_fmap, HL, length_map_to_list. reflexivity.
Qed.

Lemma IDMap_inverse_witness :
  exists m, IDMap (Some active_tx) = Ok m /\
            m !! "2" = Some "a" /\ m !! "1" = Some "s1" /\ size m = 2%nat.
Proof.
  assert (Hv : is_Some (v1 active_tx)) by (vm_compute; eauto).
  destruct (IDMap_inverse active_tx (proj1 ordered_active_tx) Hv)
    as (m & Hm & Hiff & Hsize).
  exists m. split; [exact Hm|]. split; [|split].
  - apply Hiff. eexists. split; [reflexivity|]. reflexivity.
  - apply Hiff. eexists. split; [reflexivity|]. reflexivity.
  - rewrite Hsize. reflexivity.
Defined.

End Lineage.

(** ** The bytes of a snapshot bucket

    [putSnapshot], [putUsage] and their readers on the keys and values
    bolt stores: what the records of [Storage] stand for.  Timestamps and
    labels are written by [boltutil], which is not part of the package. *)

Module Encoding.
Import Binary Storage.
Local Open Scope N_scope.

(** The key/value pairs of a bucket; [Get] of a missing key is nil. *)
Abbreviation RawBucket := (gmap string bytes).

Definition Get (bkt : RawBucket) (key : string) : bytes :=
  default [] (bkt !! key).

Definition bucketKeyID : string := "id".
Definition bucketKeyParent : string := "parent".
Definition bucketKeyKind : string := "kind".
Definition bucketKeyInodes : string := "inodes".
Definition bucketKeySize : string := "size".

(** [[]byte(s)] and [string(b)]. *)
Definition bytes_of_string (s : string) : bytes :=
  N_of_ascii <$> list_ascii_of_string s.

Definition string_of_bytes (b : bytes) : string :=
  string_of_list_ascii (ascii_of_N <$> b).

(** [encodeID(id)]: the varint on a buffer of [MaxVarintLen64] bytes; an
    empty encoding is an error. *)
Definition encodeID (id : N) : outcome bytes :=
  e ← or_panic (PutUvarint MaxVarintLen64 id);
  if decide (length e = 0%nat) then Fail (ErrBolt "failed encoding id")
  else Ok e.

(** [encodeSize(size)], for an [int64]. *)
Definition encodeSize (size : Z) : outcome bytes :=
  let e := Migrations.PutVarint size in
  if (length e <=? MaxVarintLen64)%nat then
    if decide (length e = 0%nat) then Fail (ErrBolt "failed encoding size")
    else Ok e
  else Panic.

(** [readKind(bkt)]: the kind byte, or zero when the value is not one
    byte long. *)
Definition readKind (bkt : RawBucket) : N :=
  match Get bkt bucketKeyKind with
  | [k] => k
  | _ => 0
  end.

(** [readID(bkt)]. *)
Definition readID (bkt : RawBucket) : N := (Uvarint (Get bkt bucketKeyID)).1.

(** The parent [readSnapshot] reads. *)
Definition readParent (bkt : RawBucket) : string :=
  string_of_bytes (Get bkt bucketKeyParent).

(** The part of [putSnapshot(bkt, id, si)] this package encodes: the id,
    the kind byte, and the parent when there is one. *)
Definition putSnapshot (bkt : RawBucket) (id kind : N) (parent : string)
  : outcome RawBucket :=
  idEncoded ← encodeID id;
  let bkt := <[bucketKeyID := idEncoded]> bkt in
  let bkt := <[bucketKeyKind := [kind mod 256]]> bkt in
  Ok (if decide (parent = EmptyString) then bkt
      else <[bucketKeyParent := bytes_of_string parent]> bkt).

(** [getUsage(bkt, &usage)]. *)
Definition getUsage (bkt : RawBucket) : Usage :=
  {| Inodes := (Migrations.Varint (Get bkt bucketKeyInodes)).1;
     Size := (Migrations.Varint (Get bkt bucketKeySize)).1 |}.

(** [putUsage(bkt, usage)]. *)
Definition putUsage (bkt : RawBucket) (usage : Usage) : outcome RawBucket :=
  e ← encodeSize (Inodes usage);
  let bkt := <[bucketKeyInodes := e]> bkt in
  e ← encodeSize (Size usage);
  Ok (<[bucketKeySize := e]> bkt).

(** *** Reading back what was written *)

Lemma string_of_bytes_of_string s : string_of_bytes (bytes_of_string s) = s.
Proof.
  unfold string_of_bytes, bytes_of_string. rewrite <- list_fmap_compose.
  rewrite <- (string_of_list_ascii_of_string s) at 2. f_equal.
  induction (list_ascii_of_string s) as [|a l IH]; [reflexivity|].
  cbn. rewrite ascii_N_embedding. f_equal. exact IH.
Qed.

Lemma put_loop_nonempty fuel x : put_loop fuel x <> [].
Proof. destruct fuel; cbn; [discriminate|]. destruct (128 <=? x); discriminate. Qed.

Lemma encodeID_Ok id : encodeID id = Ok (uvarint id).
Proof.
  unfold encodeID.
  rewrite (PutUvarint_fits MaxVarintLen64 id (uvarint_length_max id)).
  cbn [or_panic mbind outcome_bind].
  destruct (decide (length (uvarint id) = 0%nat)) as [E|]; [|reflexivity].
  apply length_zero_iff_nil in E. destruct (put_loop_nonempty _ _ E).
Qed.

Lemma encodeSize_Ok size : encodeSize size = Ok (Migrations.PutVarint size).
Proof.
  unfold encodeSize, Migrations.PutVarint.
  set (ux := Z.to_N _).
  destruct (Nat.leb_spec (length (uvarint ux)) MaxVarintLen64) as [_|Hgt];
    [|pose proof (uvarint_length_max ux); unfold MaxVarintLen64 in Hgt; lia].
  destruct (decide (length (uvarint ux) = 0%nat)) as [E|]; [|reflexivity].
  apply length_zero_iff_nil in E. destruct (put_loop_nonempty _ _ E).
Qed.

(** X13.  What [putSnapshot] and [putUsage] write into a bucket is what
    [readID], [readKind], the parent of [readSnapshot] and [getUsage]
    read back, for every [uint64] id, kind byte and [int64] usage; the
    encoders never fail; and a bucket that was never given a usage reads
    as zero inodes and zero bytes. *)
Theorem snapshot_bytes_round_trip bkt id kind parent usage :
  id < 2 ^ 64 -> kind < 256 ->
  (- 2 ^ 63 <= Inodes usage < 2 ^ 63)%Z ->
  (- 2 ^ 63 <= Size usage < 2 ^ 63)%Z ->
  exists written filled,
    putSnapshot bkt id kind parent = Ok written /\
    putUsage written usage = Ok filled /\
    readID filled = id /\ readKind filled = kind /\
    (parent <> EmptyString -> readParent filled = parent) /\
    (parent = EmptyString -> bkt !! bucketKeyParent = None ->
     readParent filled = EmptyString) /\
    getUsage filled = usage /\
    (bkt !! bucketKeyInodes = None -> bkt !! bucketKeySize = None ->
     getUsage written = {| Inodes := 0; Size := 0 |}).
Proof.
  intros Hid Hkind Hin Hsz.
  unfold putSnapshot, putUsage. rewrite encodeID_Ok.
  cbn [mbind outcome_bind]. rewrite !encodeSize_Ok. cbn [mbind outcome_bind].
  eexists _, _. split; [reflexivity|]. split; [reflexivity|].
  pose proof (Uvarint_uvarint id [] Hid) as Hu. rewrite app_nil_r in Hu.
  pose proof (Migrations.Varint_PutVarint (Inodes usage) [] Hin) as Hi.
  pose proof (Migrations.Varint_PutVarint (Size usage) [] Hsz) as Hs.
  rewrite app_nil_r in Hi, Hs.
  unfold readID, readKind, readParent, getUsage, Get,
    bucketKeyID, bucketKeyKind, bucketKeyParent, bucketKeyInodes,
    bucketKeySize.
  assert (Hmod : kind mod 256 = kind) by (apply N.mod_small; exact Hkind).
  destruct (decide (parent = EmptyString)) as [Hp|Hp].
  - repeat (rewrite lookup_insert_eq || (rewrite lookup_insert_ne by discriminate)).
    unfold default. cbn [from_option]. unfold Datatypes.id.
    rewrite Hu, Hi, Hs, Hmod.
    split; [reflexivity|]. split; [reflexivity|].
    split; [intros; contradiction|]. split.
    { intros _ Hnone. unfold bytes in *. rewrite Hnone. reflexivity. }
    split; [destruct usage; reflexivity|].
    intros Hn1 Hn2. unfold bytes in *. rewrite Hn1, Hn2. reflexivity.
  - repeat (rewrite lookup_insert_eq || (rewrite lookup_insert_ne by discriminate)).
    unfold default. cbn [from_option]. unfold Datatypes.id.
    rewrite Hu, Hi, Hs, Hmod.
    split; [reflexivity|]. split; [reflexivity|].
    split; [intros _; apply string_of_bytes_of_string|].
    split; [intros; contradiction|].
    split; [destruct usage; reflexivity|].
    intros Hn1 Hn2. unfold bytes in *. rewrite Hn1, Hn2. reflexivity.
Qed.

Lemma snapshot_bytes_round_trip_witness :
  exists written filled,
    putSnapshot ∅ 300 3 "base" = Ok written /\
    putUsage written (mkUsage 12 (-1)) = Ok filled /\
    readID filled = 300 /\ readKind filled = 3 /\ readParent filled = "base" /\
    getUsage filled = mkUsage 12 (-1).
Proof.
  assert (H1 : 300 < 2 ^ 64) by reflexivity.
  assert (H2 : 3 < 256) by reflexivity.
  assert (H3 : (- 2 ^ 63 <= Inodes (mkUsage 12 (-1)) < 2 ^ 63)%Z)
    by (split; [discriminate|reflexivity]).
  assert (H4 : (- 2 ^ 63 <= Size (mkUsage 12 (-1)) < 2 ^ 63)%Z)
    by (split; [discriminate|reflexivity]).
  destruct (snapshot_bytes_round_trip ∅ 300 3 "base" (mkUsage 12 (-1))
              H1 H2 H3 H4)
    as (written & filled & Hw & Hf & Ri & Rk & Rp & _ & Ru & _).
  exists written, filled. repeat (split; [assumption|]).
  split; [apply Rp; discriminate|exact Ru].
Defined.

End Encoding.

(** ** Image handlers: chains, walks and filters

    [Handlers], [Walk], [WalkNotEmpty] and [FilterPlatforms] of
    [core/images/handlers.go].  A handler is any Go function from a
    descriptor to children and an error; what it does besides is a change
    of a state [St], threaded through the calls. *)

Module HandlerChain.

Section Chain.
(** Descriptors, platforms, the state handlers act on, and errors. *)
Context {D P St error : Type}.
(** [desc.Platform], nil for a descriptor without platform. *)
Variable platform : D -> option P.
(** [errors.Is(err, ErrStopHandler)] and [errors.Is(err, ErrSkipDesc)]. *)
Variable is_stop : error -> bool.
Variable is_skip : error -> bool.
Variable ErrEmptyWalk : error.

(** [images.Handler]: the children and the error of [Handle], and the
    state it leaves. *)
Definition Handler (St : Type) : Type :=
  D -> St -> (list D * option error) * St.

(** The loop of [Handlers]: [children] collects what the handlers
    returned so far. *)
Fixpoint run_handlers (handlers : list (Handler St)) (desc : D)
    (children : list D) (s : St) : (list D * option error) * St :=
  match handlers with
  | [] => ((children, None), s)
  | handler :: handlers =>
      let '((ch, err), s) := handler desc s in
      match err with
      | Some e =>
          if is_stop e then ((children, None), s) else (([], Some e), s)
      | None => run_handlers handlers desc (children ++ ch) s
      end
  end.

(** [Handlers(handlers...)]. *)
Definition Handlers (handlers : list (Handler St)) : Handler St :=
  fun desc s => run_handlers handlers desc [] s.

(** How a walk ends: with the error it returns ([None] is nil), or not
    within the depth allowed. *)
Inductive walked := Returned (err : option error) | TooDeep.

(** [Walk(ctx, handler, descs...)]; [depth] bounds the nesting of the
    recursive calls. *)
Fixpoint Walk {St} (depth : nat) (handler : Handler St) (descs : list D)
    (s : St) : walked * St :=
  match depth with
  | O => (TooDeep, s)
  | S depth =>
      (fix loop (descs : list D) (s : St) : walked * St :=
         match descs with
         | [] => (Returned None, s)
         | desc :: descs =>
             let '((children, err), s) := handler desc s in
             match err with
             | Some e =>
                 if is_skip e then loop descs s else (Returned (Some e), s)
             | None =>
                 match children with
                 | [] => loop descs s
                 | _ =>
                     match Walk depth handler children s with
                     | (Returned None, s) => loop descs s
                     | r => r
                     end
                 end
             end
         end) descs s
  end.

(** The handler [WalkNotEmpty] wraps around [handler]; the flag is its
    variable [isEmpty]. *)
Definition notEmptyHandler (handler : Handler St) : Handler (St * bool) :=
  fun desc '(s, isEmpty) =>
    let '((children, err), s) := handler desc s in
    match err with
    | Some e => ((children, Some e), (s, isEmpty))
    | None =>
        ((children, None),
         (s, match children with [] => isEmpty | _ => false end))
    end.

(** [WalkNotEmpty(ctx, handler, descs...)]. *)
Definition WalkNotEmpty (depth : nat) (handler : Handler St)
    (descs : list D) (s : St) : walked * St :=
  match Walk depth (notEmptyHandler handler) descs (s, true) with
  | (Returned (Some e), (s, _)) => (Returned (Some e), s)
  | (Returned None, (s, isEmpty)) =>
      (Returned (if isEmpty then Some ErrEmptyWalk else None), s)
  | (TooDeep, (s, _)) => (TooDeep, s)
  end.

(** The test of the filter loop: the descriptor has no platform, or the
    matcher accepts the one it has. *)
Definition matches (m : P -> bool) (d : D) : bool :=
  match platform d with
  | None => true
  | Some p => m p
  end.

(** [FilterPlatforms(f, m)]; [m] is [None] for a nil matcher. *)
Definition FilterPlatforms (f : Handler St) (m : option (P -> bool))
  : Handler St :=
  fun desc s =>
    let '((children, err), s) := f desc s in
    match err with
    | Some e => ((children, Some e), s)
    | None =>
        ((match m with
          | None => children
          | Some m => List.filter (matches m) children
          end, None), s)
    end.

(** *** Chains *)

Lemma run_handlers_acc handlers desc : forall children s,
  run_handlers handlers desc children s
  = let '((rest, err), s') := run_handlers handlers desc [] s in
    match err with
    | Some e => (([], Some e), s')
    | None => ((children ++ rest, None), s')
    end.
Proof.
  induction handlers as [|handler handlers IH]; intros children s;
    cbn [run_handlers].
  - rewrite app_nil_r. reflexivity.
  - destruct (handler desc s) as [[ch [e|]] s1].
    + destruct (is_stop e); [rewrite app_nil_r|]; reflexivity.
    + rewrite (IH (children ++ ch)), (IH ([] ++ ch)). cbn [app].
      destruct (run_handlers handlers desc [] s1) as [[rest [e|]] s2];
        [reflexivity|]. rewrite app_assoc. reflexivity.
Qed.

(** X14.  [Handlers] runs its handlers in order on the same descriptor:
    while they succeed their children are concatenated; a handler that
    returns [ErrStopHandler] ends the chain with the children collected
    before it and no error, its own children and the handlers after it
    being dropped; any other error ends the chain with no children and
    that error. *)
Theorem Handlers_chain handler handlers desc s :
  Handlers [] desc s = (([], None), s) /\
  (forall ch s1, handler desc s = ((ch, None), s1) ->
     Handlers (handler :: handlers) desc s
     = let '((rest, err), s2) := Handlers handlers desc s1 in
       match err with
       | Some e => (([], Some e), s2)
       | None => ((ch ++ rest, None), s2)
       end) /\
  (forall ch e s1, handler desc s = ((ch, Some e), s1) ->
     Handlers (handler :: handlers) desc s
     = if is_stop e then (([], None), s1) else (([], Some e), s1)).
Proof.
  split; [reflexivity|]. split.
  - intros ch s1 Hh. unfold Handlers. cbn [run_handlers]. rewrite Hh.
    apply run_handlers_acc.
  - intros ch e s1 Hh. unfold Handlers. cbn [run_handlers]. rewrite Hh.
    destruct (is_stop e); reflexivity.
Qed.

(** *** Walks *)

Lemma Walk_nil {T} depth (handler : Handler T) s :
  Walk (S depth) handler [] s = (Returned None, s).
Proof. reflexivity. Qed.

Lemma Walk_cons {T} depth (handler : Handler T) desc descs s :
  Walk (S depth) handler (desc :: descs) s
  = let '((children, err), s1) := handler desc s in
    match err with
    | Some e =>
        if is_skip e then Walk (S depth) handler descs s1
        else (Returned (Some e), s1)
    | None =>
        match children with
        | [] => Walk (S depth) handler descs s1
        | _ =>
            match Walk depth handler children s1 with
            | (Returned None, s2) => Walk (S depth) handler descs s2
            | r => r
            end
        end
    end.
Proof. reflexivity. Qed.

Lemma Walk_app_S {T} depth (handler : Handler T) descs1 descs2 : forall s,
  Walk (S depth) handler (descs1 ++ descs2) s
  = match Walk (S depth) handler descs1 s with
    | (Returned None, s1) => Walk (S depth) handler descs2 s1
    | r => r
    end.
Proof.
  induction descs1 as [|desc descs1 IH]; intros s.
  - rewrite Walk_nil. reflexivity.
  - rewrite <- app_comm_cons, !Walk_cons.
    destruct (handler desc s) as [[children [e|]] s1].
    + destruct (is_skip e); [apply IH|reflexivity].
    + destruct children as [|c children]; [apply IH|].
      destruct (Walk depth handler (c :: children) s1) as [[[e|]|] s2];
        [reflexivity|apply IH|reflexivity].
Qed.

(** A walk that returns within a depth returns the same within any
    greater depth. *)
Lemma Walk_deeper {T} (handler : Handler T) depth : forall descs s r s',
  Walk depth handler descs s = (Returned r, s') ->
  Walk (S depth) handler descs s = (Returned r, s').
Proof.
  induction depth as [|depth IH]; intros descs s r s' H; [discriminate|].
  revert s H. induction descs as [|desc descs IHd]; intros s H.
  - rewrite Walk_nil in *. exact H.
  - rewrite Walk_cons in H. rewrite Walk_cons.
    destruct (handler desc s) as [[children [e|]] s1].
    + destruct (is_skip e); [apply IHd|]; exact H.
    + destruct children as [|c children]; [apply IHd; exact H|].
      destruct (Walk depth handler (c :: children) s1) as [[[e|]|] s2] eqn:HW.
      * rewrite (IH _ _ _ _ HW). exact H.
      * rewrite (IH _ _ _ _ HW). apply IHd. exact H.
      * discriminate.
Qed.

(** X15.  [Walk] handles its descriptors one after the other: a walk of
    [descs1 ++ descs2] is the walk of [descs1] followed, if that returns
    nil, by the walk of [descs2] from the state it left; a descriptor
    whose handler returns [ErrSkipDesc] has its children left out and the
    walk goes on with its siblings, any other error ends the walk; and an
    empty walk returns nil without calling the handler. *)
Theorem Walk_sequence depth (handler : Handler St) descs1 descs2 s :
  Walk depth handler (descs1 ++ descs2) s
  = match Walk depth handler descs1 s with
    | (Returned None, s1) => Walk depth handler descs2 s1
    | r => r
    end /\
  Walk (S depth) handler [] s = (Returned None, s) /\
  (forall desc children e s1,
     handler desc s = ((children, Some e), s1) ->
     Walk (S depth) handler (desc :: descs2) s
     = if is_skip e then Walk (S depth) handler descs2 s1
       else (Returned (Some e), s1)) /\
  (forall r s', Walk depth handler descs1 s = (Returned r, s') ->
                Walk (S depth) handler descs1 s = (Returned r, s')).
Proof.
  split; [|split; [|split]].
  - destruct depth as [|depth]; [reflexivity|apply Walk_app_S].
  - reflexivity.
  - intros desc children e s1 Hh. rewrite Walk_cons, Hh. reflexivity.
  - apply Walk_deeper.
Qed.

(** The flag of [WalkNotEmpty] does not change what the walk does. *)
Lemma Walk_notEmpty (handler : Handler St) depth : forall descs s b,
  exists b',
    Walk depth (notEmptyHandler handler) descs (s, b)
    = ((Walk depth handler descs s).1, ((Walk depth handler descs s).2, b')) /\
    (b = false -> b' = false) /\
    (b' = true -> b = true).
Proof.
  induction depth as [|depth IH]; intros descs s b.
  - exists b. cbn. auto.
  - revert s b. induction descs as [|desc descs IHd]; intros s b.
    + exists b. rewrite !Walk_nil. auto.
    + rewrite !Walk_cons. unfold notEmptyHandler at 1.
      destruct (handler desc s) as [[children [e|]] s1].
      * destruct (is_skip e); [apply IHd|]. exists b. cbn. auto.
      * destruct children as [|c children]; [apply IHd|].
        destruct (IH (c :: children) s1 false) as (b1 & -> & Hb1 & _).
        rewrite (Hb1 eq_refl).
        destruct (Walk depth handler (c :: children) s1) as [[[e|]|] s2];
          cbn [fst snd].
        -- exists false. split; [reflexivity|]. split; [auto|discriminate].
        -- destruct (IHd s2 false) as (b2 & -> & Hb2 & _).
           exists b2. split; [reflexivity|]. split; [auto|].
           rewrite (Hb2 eq_refl). discriminate.
        -- exists false. split; [reflexivity|]. split; [auto|discriminate].
Qed.

(** When no handler call returns children the flag stays up. *)
Lemma Walk_leaves (handler : Handler St) depth : forall descs s,
  (forall desc s0, desc ∈ descs -> (handler desc s0).1.1 = []) ->
  Walk (S depth) (notEmptyHandler handler) descs (s, true)
  = ((Walk (S depth) handler descs s).1,
     ((Walk (S depth) handler descs s).2, true)).
Proof.
  induction descs as [|desc descs IH]; intros s Hleaf.
  - reflexivity.
  - rewrite !Walk_cons. unfold notEmptyHandler at 1.
    pose proof (Hleaf desc s ltac:(left)) as Hd.
    destruct (handler desc s) as [[children [e|]] s1]; cbn in Hd.
    + destruct (is_skip e); [|reflexivity].
      apply IH. intros d s0 Hin. apply Hleaf. right. exact Hin.
    + subst children. apply IH. intros d s0 Hin. apply Hleaf. right.
      exact Hin.
Qed.

(** X16.  [WalkNotEmpty] walks exactly as [Walk] does: the handler sees
    the same calls and leaves the same state, and an error of the walk is
    returned as it is.  When the walk returns nil, [WalkNotEmpty] returns
    nil or [ErrEmptyWalk]; it returns [ErrEmptyWalk] when no handler call
    returned children, in particular for no descriptors at all, and nil
    when the first descriptor has children. *)
Theorem WalkNotEmpty_walks depth (handler : Handler St) descs s :
  (WalkNotEmpty depth handler descs s).2 = (Walk depth handler descs s).2 /\
  (forall e, (Walk depth handler descs s).1 = Returned (Some e) ->
             (WalkNotEmpty depth handler descs s).1 = Returned (Some e)) /\
  ((Walk depth handler descs s).1 = Returned None ->
   (WalkNotEmpty depth handler descs s).1 = Returned None \/
   (WalkNotEmpty depth handler descs s).1 = Returned (Some ErrEmptyWalk)) /\
  ((forall desc s0, desc ∈ descs -> (handler desc s0).1.1 = []) ->
   (Walk (S depth) handler descs s).1 = Returned None ->
   (WalkNotEmpty (S depth) handler descs s).1
   = Returned (Some ErrEmptyWalk)) /\
  (forall desc rest c children s1,
     descs = desc :: rest ->
     handler desc s = ((c :: children, None), s1) ->
     (Walk depth handler descs s).1 = Returned None ->
     (WalkNotEmpty depth handler descs s).1 = Returned None).
Proof.
  unfold WalkNotEmpty.
  destruct (Walk_notEmpty handler depth descs s true) as (b' & HW & _ & _).
  split; [|split; [|split; [|split]]].
  - rewrite HW. destruct (Walk depth handler descs s) as [[[e|]|] s'];
      reflexivity.
  - intros e He. rewrite HW, He. reflexivity.
  - intros Hn. rewrite HW, Hn. destruct b'; auto.
  - intros Hleaf Hn. rewrite (Walk_leaves handler depth descs s Hleaf), Hn.
    reflexivity.
  - intros desc rest c children s1 -> Hh Hn.
    destruct depth as [|depth]; [discriminate|].
    rewrite Walk_cons in Hn. rewrite Walk_cons. unfold notEmptyHandler at 1.
    rewrite Hh in Hn. rewrite Hh.
    destruct (Walk_notEmpty handler depth (c :: children) s1 false)
      as (b1 & -> & Hb1 & _). rewrite (Hb1 eq_refl).
    destruct (Walk depth handler (c :: children) s1) as [[[e|]|] s2];
      cbn [fst snd] in *; try discriminate.
    destruct (Walk_notEmpty handler (S depth) rest s2 false)
      as (b2 & -> & Hb2 & _). rewrite (Hb2 eq_refl), Hn. reflexivity.
Qed.

(** *** Platform filters *)

Lemma filter_sublist {A} (f : A -> bool) (l : list A) :
  sublist (List.filter f l) l.
Proof.
  induction l as [|a l IH]; cbn; [constructor|].
  destruct (f a); [apply sublist_skip|apply sublist_cons]; exact IH.
Qed.

Lemma filter_filter {A} (f g : A -> bool) (l : list A) :
  List.filter g (List.filter f l) = List.filter (fun a => f a && g a) l.
Proof.
  induction l as [|a l IH]; cbn; [reflexivity|].
  destruct (f a); cbn; [destruct (g a)|]; rewrite IH; reflexivity.
Qed.

(** X17.  [FilterPlatforms] calls the wrapped handler once and leaves
    its state alone.  Without error it returns, in their order, exactly
    the children that have no platform or whose platform the matcher
    accepts (all of them for a nil matcher); filtering twice with the
    same matcher is filtering once, and filtering with two matchers is
    filtering with their conjunction.  An error of the handler is passed
    on with the children unfiltered. *)
Theorem FilterPlatforms_filters (f : Handler St) (m m' : P -> bool) desc s :
  (FilterPlatforms f (Some m) desc s).2 = (f desc s).2 /\
  (forall children s1, f desc s = ((children, None), s1) ->
     FilterPlatforms f (Some m) desc s
       = ((List.filter (matches m) children, None), s1) /\
     sublist (FilterPlatforms f (Some m) desc s).1.1 children /\
     (forall d, d ∈ (FilterPlatforms f (Some m) desc s).1.1 <->
                d ∈ children /\
                (platform d = None \/ exists p, platform d = Some p /\ m p = true)) /\
     FilterPlatforms f None desc s = ((children, None), s1)) /\
  FilterPlatforms (FilterPlatforms f (Some m)) (Some m) desc s
    = FilterPlatforms f (Some m) desc s /\
  ((f desc s).1.2 = None ->
   FilterPlatforms (FilterPlatforms f (Some m)) (Some m') desc s
   = FilterPlatforms f (Some (fun p => m p && m' p)) desc s) /\
  (forall children e s1, f desc s = ((children, Some e), s1) ->
     forall matcher, FilterPlatforms f matcher desc s
                     = ((children, Some e), s1)).
Proof.
  unfold FilterPlatforms.
  destruct (f desc s) as [[children [e|]] s1] eqn:Hf; cbn [fst snd].
  - split; [reflexivity|]. split; [intros ? ? [=]|]. split; [reflexivity|].
    split; [discriminate|]. intros ? ? ? [= <- <- <-] matcher. reflexivity.
  - split; [reflexivity|]. split.
    { intros ? ? [= <- <-]. split; [reflexivity|].
      split; [apply filter_sublist|]. split; [|reflexivity].
      intros d. rewrite list_elem_of_In, filter_In, <- list_elem_of_In.
      unfold matches. destruct (platform d) as [p|].
      - split; intros [Hd Hm]; (split; [exact Hd|]).
        + right. eauto.
        + destruct Hm as [?|(p' & [= <-] & Hm)]; [discriminate|exact Hm].
      - split; intros [Hd _]; auto. }
    split.
    { rewrite filter_filter. f_equal. f_equal. clear Hf.
      induction children as [|d children IH]; cbn; [reflexivity|].
      destruct (matches m d); cbn; rewrite IH; reflexivity. }
    split; [|intros ? ? ? [=]].
    intros _. rewrite filter_filter. f_equal. f_equal. clear Hf.
    induction children as [|d children IH]; cbn; [reflexivity|].
    assert (E : matches m d && matches m' d
                = matches (fun p => m p && m' p) d).
    { unfold matches. destruct (platform d); reflexivity. }
    rewrite E. destruct (matches _ d); rewrite IH; reflexivity.
Qed.

End Chain.

(** *** The order of a walk *)

(** A finite tree of descriptors: a label and the children its handler
    returns. *)
#[local] Unset Elimination Schemes.
Inductive tree (L : Type) : Type :=
| node (label : L) (subtrees : list (tree L)).
#[local] Set Elimination Schemes.
Arguments node {L} label subtrees.

Definition label {L} (t : tree L) : L := match t with node l _ => l end.
Definition subtrees {L} (t : tree L) : list (tree L) :=
  match t with node _ ts => ts end.

(** The labels of a tree, the root before its subtrees, these from left
    to right. *)
Fixpoint preorder {L} (t : tree L) : list L :=
  match t with
  | node l ts => l :: flat_map preorder ts
  end.

Fixpoint height {L} (t : tree L) : nat :=
  match t with
  | node _ ts => S (foldr (fun t h => Nat.max (height t) h) 0%nat ts)
  end.

(** The handler that returns the subtrees of a tree and notes its label. *)
Definition visit {L error} : @Handler (tree L) error (list L) :=
  fun t log => ((subtrees t, None), log ++ [label t]).

Lemma height_subtrees {L} (t : tree L) depth :
  (height t <= S depth)%nat ->
  Forall (fun t' => (height t' <= depth)%nat) (subtrees t).
Proof.
  destruct t as [l ts]. cbn [height subtrees]. intros H.
  apply le_S_n in H. induction ts as [|t ts IH]; [constructor|].
  cbn [foldr] in H. constructor; [lia|]. apply IH. lia.
Qed.

(** X18.  [Walk] is a depth-first walk in pre-order: with a handler that
    returns the subtrees of a finite tree, the descriptors are handled in
    the order root, then its subtrees from left to right, each subtree
    completely before the next sibling, and the walk returns nil. *)
Theorem Walk_preorder {L error} (is_skip : error -> bool) depth :
  forall (ts : list (tree L)) (log : list L),
    Forall (fun t => (height t <= depth)%nat) ts ->
    Walk is_skip (S depth) visit ts log
    = (Returned None, log ++ flat_map preorder ts).
Proof.
  induction depth as [|depth IH]; intros ts log Hh.
  - destruct ts as [|[l sub] ts]; [rewrite app_nil_r; reflexivity|].
    inversion Hh as [|? ? H0 _]. cbn in H0. lia.
  - revert log. induction ts as [|t ts IHts]; intros log.
    + rewrite app_nil_r. reflexivity.
    + inversion Hh as [|? ? Ht Hts]; subst.
      rewrite Walk_cons. unfold visit at 1.
      pose proof (height_subtrees t depth Ht) as Hsub.
      destruct t as [l sub]. cbn [subtrees label flat_map preorder] in *.
      destruct sub as [|c sub].
      * rewrite (IHts Hts). cbn [flat_map app].
        rewrite <- !app_assoc. reflexivity.
      * rewrite (IH (c :: sub) _ Hsub), (IHts Hts).
        rewrite <- !app_assoc. reflexivity.
Qed.

Lemma Walk_preorder_witness :
  Walk (error := unit) (fun _ => false) 4 visit
    [node "a" [node "b" [node "c" []]; node "d" []]; node "e" []] []
  = (Returned None, ["a"; "b"; "c"; "d"; "e"]).
Proof.
  apply (Walk_preorder (error := unit) (fun _ => false) 3
           [node "a" [node "b" [node "c" []]; node "d" []]; node "e" []] []).
  repeat (constructor; [cbn; lia|]). constructor.
Defined.

End HandlerChain.

(** ** [SetChildrenMappedLabels]: the ways out other than success *)

Module LabelFailures.
Import Effects Handlers.

Section Failures.
Variable error : Type.
Variable uintSize : N.
Variable ChildGCLabels : Descriptor -> list string.
Variable W : Type.
Variable h : world (handlerE error) W.

(** X19.  When the wrapped handler fails, [SetChildrenMappedLabels]
    returns its children and its error and the content store is not
    touched.  When the label map gives the empty string as the first key
    of the first child, indexing its last byte panics, again before any
    update is issued. *)
Theorem SetChildrenMappedLabels_failures labelMap (desc : Descriptor) (w : W) :
  let run := SetChildrenMappedLabels error uintSize ChildGCLabels labelMap desc in
  (forall children err,
     (h _ (HandlerCall error desc) w).1 = (children, Some err) ->
     result h w run = Some (children, Some err) /\
     trace h w run = [ev (HandlerCall error desc)]) /\
  (forall child children keys,
     (h _ (HandlerCall error desc) w).1 = (child :: children, None) ->
     default ChildGCLabels labelMap child = EmptyString :: keys ->
     result h w run = None /\
     trace h w run = [ev (HandlerCall error desc)]).
Proof.
  intros run. subst run. unfold result, trace, SetChildrenMappedLabels.
  cbn [mbind prog_bind bind call run].
  destruct (h _ (HandlerCall error desc) w) as [r w1]. cbn [fst snd].
  split.
  - intros children err ->. cbn. split; reflexivity.
  - intros child children keys -> Hkeys. cbn [fst snd length Nat.ltb Nat.leb].
    assert (label_children uintSize (default ChildGCLabels labelMap)
              (child :: children) = None) as ->.
    { unfold label_children. cbn [fold_opt]. unfold label_child at 1.
      rewrite Hkeys. cbn [fold_opt]. unfold label_step at 1.
      unfold acc0. cbn [Handlers.keys]. rewrite lookup_empty. reflexivity. }
    split; reflexivity.
Qed.

End Failures.

End LabelFailures.

(** ** The images service: [Create] and [Update] *)

Module ImagesLocal.
Import Effects.

(** [oci.DescriptorToProto]. *)
Definition DescriptorToProto (d : Descriptor) : ProtoDescriptor :=
  {| pMediaType := MediaType d;
     pDigest := Digest d;
     pSize := Size d;
     pAnnotations := Annotations d |}.

Section Local.
(** Go's [error], [time.Time] and the protobuf timestamp; the
    conversions between the two belong to [pkg/protobuf]. *)
Variable error : Type.
Variable Time Timestamp : Type.
Variable ToTimestamp : Time -> option Timestamp.
Variable FromTimestamp : option Timestamp -> Time.
(** The method [AsTime] of a timestamp. *)
Variable AsTime : Timestamp -> Time.
(** [errgrpc.ToGRPC] and [status.Errorf(codes.InvalidArgument, msg)]. *)
Variable ToGRPC : error -> error.
Variable InvalidArgument : string -> error.

(** [images.Image]. *)
Record Image := mkImage {
  Name : string;
  Labels : gmap string string;
  Target : Descriptor;
  CreatedAt : Time;
  UpdatedAt : Time;
}.

(** [imagesapi.Image]: the target is a pointer, which may be nil. *)
Record ImagePB := mkImagePB {
  pbName : string;
  pbLabels : gmap string string;
  pbTarget : option ProtoDescriptor;
  pbCreatedAt : option Timestamp;
  pbUpdatedAt : option Timestamp;
}.

Record CreateImageRequest := mkCreateImageRequest {
  CreateImage : option ImagePB;
  CreateSourceDateEpoch : option Timestamp;
}.

Record UpdateImageRequest := mkUpdateImageRequest {
  UpdateImage : option ImagePB;
  UpdateMask : option (list string);
  UpdateSourceDateEpoch : option Timestamp;
}.

(** [imageToProto]. *)
Definition imageToProto (image : Image) : ImagePB :=
  {| pbName := Name image;
     pbLabels := Labels image;
     pbTarget := Some (DescriptorToProto (Target image));
     pbCreatedAt := ToTimestamp (CreatedAt image);
     pbUpdatedAt := ToTimestamp (UpdatedAt image) |}.

(** [imageFromProto]: [DescriptorFromProto] reads the fields of the
    target, which panics ([None]) when it is nil. *)
Definition imageFromProto (imagepb : ImagePB) : option Image :=
  target ← pbTarget imagepb;
  Some {| Name := pbName imagepb;
          Labels := pbLabels imagepb;
          Target := DescriptorFromProto target;
          CreatedAt := FromTimestamp (pbCreatedAt imagepb);
          UpdatedAt := FromTimestamp (pbUpdatedAt imagepb) |}.

(** The calls to [l.store]; the first argument is the source date epoch
    put into the context, if any. *)
Inductive storeE : Type -> Type :=
| StoreCreate (epoch : option Time) (image : Image)
    : storeE (Image * option error)
| StoreUpdate (epoch : option Time) (image : Image) (fieldpaths : list string)
    : storeE (Image * option error).

(** [local.Create(ctx, req)]: the response image and the error, or
    [None] for a panic.  The log line at the top reads the digest of the
    target. *)
Definition Create (req : CreateImageRequest)
  : Prog storeE (option (option ImagePB * option error)) :=
  match CreateImage req with
  | None => Ret None
  | Some imagepb =>
      match pbTarget imagepb with
      | None => Ret None
      | Some _ =>
          if decide (pbName imagepb = EmptyString)
          then Ret (Some (None, Some (InvalidArgument "Image.Name required")))
          else
            match imageFromProto imagepb with
            | None => Ret None
            | Some image =>
                let epoch := AsTime <$> CreateSourceDateEpoch req in
                r ← call (StoreCreate epoch image);
                match r.2 with
                | Some err => Ret (Some (None, Some (ToGRPC err)))
                | None => Ret (Some (Some (imageToProto r.1), None))
                end
            end
      end
  end.

(** [local.Update(ctx, req)]. *)
Definition Update (req : UpdateImageRequest)
  : Prog storeE (option (option ImagePB * option error)) :=
  match UpdateImage req with
  | None => Ret None
  | Some imagepb =>
      if decide (pbName imagepb = EmptyString)
      then Ret (Some (None, Some (InvalidArgument "Image.Name required")))
      else
        match imageFromProto imagepb with
        | None => Ret None
        | Some image =>
            let fieldpaths :=
              match UpdateMask req with
              | Some (path :: paths) => [] ++ path :: paths
              | _ => []
              end in
            let epoch := AsTime <$> UpdateSourceDateEpoch req in
            r ← call (StoreUpdate epoch image fieldpaths);
            match r.2 with
            | Some err => Ret (Some (None, Some (ToGRPC err)))
            | None => Ret (Some (Some (imageToProto r.1), None))
            end
        end
  end.

Variable W : Type.
Variable h : world storeE W.

(** X20.  [Create] and [Update] refuse an image without a name with
    InvalidArgument and without calling the store.  [Create] reads the
    target for its log line before it looks at the name, so a request
    without target panics whatever the name is, while [Update] panics on
    a missing target only once the name is not empty.  On a request with
    a name and a target, [Update] calls the store once, with the paths of
    the update mask (none for a nil or empty mask), and returns the
    stored image or the gRPC form of the store's error. *)
Theorem Create_Update_checks (w : W) imagepb mask epoch :
  (pbName imagepb = EmptyString ->
   (is_Some (pbTarget imagepb) ->
    result h w (Create (mkCreateImageRequest (Some imagepb) epoch))
    = Some (None, Some (InvalidArgument "Image.Name required")) /\
    trace h w (Create (mkCreateImageRequest (Some imagepb) epoch)) = []) /\
   result h w (Update (mkUpdateImageRequest (Some imagepb) mask epoch))
   = Some (None, Some (InvalidArgument "Image.Name required")) /\
   trace h w (Update (mkUpdateImageRequest (Some imagepb) mask epoch)) = []) /\
  (pbTarget imagepb = None ->
   result h w (Create (mkCreateImageRequest (Some imagepb) epoch)) = None /\
   trace h w (Create (mkCreateImageRequest (Some imagepb) epoch)) = [] /\
   (pbName imagepb <> EmptyString ->
    result h w (Update (mkUpdateImageRequest (Some imagepb) mask epoch))
    = None)) /\
  (forall image, pbName imagepb <> EmptyString ->
     imageFromProto imagepb = Some image ->
     let call := StoreUpdate (AsTime <$> epoch) image (default [] mask) in
     trace h w (Update (mkUpdateImageRequest (Some imagepb) mask epoch))
     = [ev call] /\
     result h w (Update (mkUpdateImageRequest (Some imagepb) mask epoch))
     = match (h _ call w).1.2 with
       | Some err => Some (None, Some (ToGRPC err))
       | None => Some (Some (imageToProto (h _ call w).1.1), None)
       end).
Proof.
  unfold result, trace, Create, Update.
  cbn [CreateImage UpdateImage UpdateMask CreateSourceDateEpoch
       UpdateSourceDateEpoch].
  split; [|split].
  - intros Hname. rewrite Hname. cbn.
    split; [|auto]. intros [t ->]. cbn. auto.
  - intros Ht. rewrite Ht. cbn. split; [reflexivity|]. split; [reflexivity|].
    intros Hne. destruct (decide (pbName imagepb = EmptyString));
      [contradiction|]. unfold imageFromProto. rewrite Ht. reflexivity.
  - intros image Hne Himg.
    set (call := StoreUpdate (AsTime <$> epoch) image (default [] mask)).
    destruct (decide (pbName imagepb = EmptyString)); [contradiction|].
    rewrite Himg.
    assert (match mask with
            | Some (path :: paths) => [] ++ path :: paths
            | _ => []
            end = default [] mask) as ->
      by (destruct mask as [[|? ?]|]; reflexivity).
    fold call. cbn.
    destruct (h _ call w) as [[stored [err|]] w1]; cbn; auto.
Qed.

End Local.
End ImagesLocal.

(** ** The in-memory snapshotter of the metadata tests

    [tmpSnapshotter] of [core/metadata/snapshot_test.go]: the snapshotter
    that [TestSnapshotterWithRef] puts under the metadata store.  It keeps
    the snapshots by key and, for every value of the ref label, the names
    committed with it.  [Update] and [Walk] are left out: the first writes
    through the label map it shares with its caller, the second needs the
    filter package. *)

Module TmpSnapshotter.
Import Storage.

Section Tmp.
(** The label key [labelSnapshotRef], a constant of the metadata package,
    the errors the options of a caller may return, and [mount.Mount]. *)
Variable labelSnapshotRef : string.
Variable OptError : Type.
Variable Mount : Type.

(** The errors that come out of the snapshotter: a sentinel of [errdefs],
    a sentinel wrapped by [fmt.Errorf(msg + ": %w", e)], or the error of
    an option. *)
Inductive error :=
| Errdef (e : errdef)
| Errorf (msg : string) (e : errdef)
| FromOpt (e : OptError).

(** [snapshots.Opt] and the loop that applies the options to [base]. *)
Definition Opt := Info -> Info + OptError.

Fixpoint apply_opts (opts : list Opt) (base : Info) : Info + OptError :=
  match opts with
  | [] => inl base
  | opt :: opts =>
      match opt base with
      | inl base => apply_opts opts base
      | inr err => inr err
      end
  end.

Record tmpSnapshotter := mkTmp {
  snapshots : gmap string Info;
  targets : gmap string (list string);
}.

Definition NewTmpSnapshotter : tmpSnapshotter :=
  {| snapshots := ∅; targets := ∅ |}.

(** [info.Labels[labelSnapshotRef]]: empty when the label is missing. *)
Definition ref (info : Info) : string :=
  default EmptyString (InfoLabels info !! labelSnapshotRef).

(** [s.snapshots[name]], the zero [Info] for a missing name. *)
Definition snapshot (s : tmpSnapshotter) (name : string) : Info :=
  default Info0 (snapshots s !! name).

Definition Stat (key : string) (s : tmpSnapshotter) : Info * option error :=
  match snapshots s !! key with
  | None => (Info0, Some (Errdef ErrNotFound))
  | Some i => (i, None)
  end.

Definition Usage (key : string) (s : tmpSnapshotter)
  : Storage.Usage * option error :=
  match snapshots s !! key with
  | None => (mkUsage 0 0, Some (Errdef ErrNotFound))
  | Some _ => (mkUsage 0 0, None)
  end.

Definition Mounts (key : string) (s : tmpSnapshotter)
  : list Mount * option error :=
  match snapshots s !! key with
  | None => ([], Some (Errdef ErrNotFound))
  | Some _ => ([], None)
  end.

(** [s.create]; [now] is [time.Now().UTC()]. *)
Definition create (now : Time) (key parent : string) (kind : Kind)
    (opts : list Opt) (s : tmpSnapshotter)
  : (list Mount * option error) * tmpSnapshotter :=
  match apply_opts opts Info0 with
  | inr err => (([], Some (FromOpt err)), s)
  | inl base =>
      let target := ref base in
      if bool_decide (target <> EmptyString)
         && existsb (fun name => bool_decide (InfoParent (snapshot s name) = parent))
              (default [] (targets s !! target))
      then (([], Some (Errorf "found target" ErrAlreadyExists)), s)
      else
        let stored parent' :=
          (([], None),
           {| snapshots :=
                <[key := {| InfoKind := kind; InfoName := key;
                            InfoParent := parent';
                            InfoLabels := InfoLabels base;
                            InfoCreated := now; InfoUpdated := now |}]>
                  (snapshots s);
              targets := targets s |}) in
        if decide (parent = EmptyString) then stored (InfoParent base)
        else match snapshots s !! parent with
             | None => (([], Some (Errdef ErrNotFound)), s)
             | Some _ => stored parent
             end
  end.

Definition Prepare now key parent := create now key parent KindActive.
Definition View now key parent := create now key parent KindView.

(** [s.Commit]. *)
Definition Commit (now : Time) (name key : string) (opts : list Opt)
    (s : tmpSnapshotter) : option error * tmpSnapshotter :=
  match apply_opts opts Info0 with
  | inr err => (Some (FromOpt err), s)
  | inl base =>
      match snapshots s !! name with
      | Some _ => (Some (Errorf "found name" ErrAlreadyExists), s)
      | None =>
          match snapshots s !! key with
          | None => (Some (Errdef ErrNotFound), s)
          | Some src =>
              if decide (InfoKind src = KindCommitted)
              then (Some (Errdef ErrInvalidArgument), s)
              else
                let base :=
                  {| InfoKind := KindCommitted; InfoName := name;
                     InfoParent := InfoParent src;
                     InfoLabels := InfoLabels base;
                     InfoCreated := now; InfoUpdated := now |} in
                let target := ref base in
                (None,
                 {| snapshots := delete key (<[name := base]> (snapshots s));
                    targets :=
                      if decide (target = EmptyString) then targets s
                      else <[target := default [] (targets s !! target) ++ [name]]>
                             (targets s) |})
          end
      end
  end.

(** The inner loop of [Remove]: the first occurrence of [name] is cut
    out of [names]. *)
Fixpoint cut (name : string) (names : list string) : list string :=
  match names with
  | [] => []
  | n :: names => if decide (n = name) then names else n :: cut name names
  end.

(** [s.Remove]: every list of [targets] that holds the name loses its
    first occurrence, and the list that held nothing else is deleted. *)
Definition Remove (key : string) (s : tmpSnapshotter)
  : option error * tmpSnapshotter :=
  match snapshots s !! key with
  | None => (Some (Errdef ErrNotFound), s)
  | Some sn =>
      (None,
       {| snapshots := delete key (snapshots s);
          targets :=
            omap (fun names =>
                    if bool_decide (InfoName sn ∈ names)
                    then if decide (length names = 1%nat) then None
                         else Some (cut (InfoName sn) names)
                    else Some names)
                 (targets s) |})
  end.

(** The states the exported methods reach from a new snapshotter when
    [Prepare] and [View] are given keys that are not in use, as the
    metadata store does; calls that fail leave the state as it is. *)
Inductive reachable : tmpSnapshotter -> Prop :=
| reach_new : reachable NewTmpSnapshotter
| reach_Prepare now key parent opts s mounts s' :
    reachable s -> snapshots s !! key = None ->
    Prepare now key parent opts s = ((mounts, None), s') -> reachable s'
| reach_View now key parent opts s mounts s' :
    reachable s -> snapshots s !! key = None ->
    View now key parent opts s = ((mounts, None), s') -> reachable s'
| reach_Commit now name key opts s s' :
    reachable s -> Commit now name key opts s = (None, s') -> reachable s'
| reach_Remove key s s' :
    reachable s -> Remove key s = (None, s') -> reachable s'.

(** What the two maps have to do with each other. *)
Definition indexed (s : tmpSnapshotter) : Prop :=
  (forall k i, snapshots s !! k = Some i -> InfoName i = k) /\
  (forall t names, targets s !! t = Some names -> names <> [] /\ NoDup names) /\
  (forall t n, n ∈ default [] (targets s !! t) <->
     t <> EmptyString /\
     exists i, snapshots s !! n = Some i /\
               InfoKind i = KindCommitted /\ ref i = t).


Lemma cut_elem name names n :
  NoDup names -> n ∈ cut name names <-> n ∈ names /\ n <> name.
Proof.
  induction names as [|m names IH]; intros Hnd; cbn [cut].
  - split; [intros H|intros [H _]]; inversion H.
  - apply NoDup_cons in Hnd as [Hm Hnd]. destruct (decide (m = name)) as [->|Hne].
    + rewrite elem_of_cons. split.
      * intros Hn. split; [auto|]. intros ->. contradiction.
      * intros [[->|Hn] Hne]; [contradiction|exact Hn].
    + rewrite !elem_of_cons, (IH Hnd). split.
      * intros [->|[Hn Hne']]; auto.
      * intros [[->|Hn] Hne']; auto.
Qed.

Lemma cut_NoDup name names : NoDup names -> NoDup (cut name names).
Proof.
  induction names as [|m names IH]; intros Hnd; cbn [cut]; [constructor|].
  pose proof Hnd as Hnd'. apply NoDup_cons in Hnd as [Hm Hnd].
  destruct (decide (m = name)); [exact Hnd|].
  apply NoDup_cons. split; [|auto].
  rewrite (cut_elem _ _ _ Hnd). intros [? _]. contradiction.
Qed.

Lemma cut_nonempty name names :
  length names <> 1%nat -> name ∈ names -> cut name names <> [].
Proof.
  destruct names as [|m [|m' names]]; cbn [cut length]; intros Hl Hin.
  - inversion Hin.
  - contradiction.
  - destruct (decide (m = name)); discriminate.
Qed.

Lemma blocked_exists (s : tmpSnapshotter) parent names :
  existsb (fun name => bool_decide (InfoParent (snapshot s name) = parent)) names
  = true <->
  exists name, name ∈ names /\ InfoParent (snapshot s name) = parent.
Proof.
  rewrite existsb_exists. split; intros (name & Hin & Hp); exists name.
  - apply list_elem_of_In in Hin. apply bool_decide_eq_true in Hp. auto.
  - apply list_elem_of_In in Hin. split; [exact Hin|].
    apply bool_decide_eq_true. exact Hp.
Qed.

Lemma indexed_new : indexed NewTmpSnapshotter.
Proof.
  split; [|split].
  - intros k i H. cbn in H. rewrite lookup_empty in H. discriminate.
  - intros t names H. cbn in H. rewrite lookup_empty in H. discriminate.
  - intros t n. cbn. rewrite lookup_empty. cbn. split.
    + intros H. inversion H.
    + intros (_ & i & H & _). rewrite lookup_empty in H. discriminate.
Qed.

(** A snapshot that is not committed, stored under a key not in use,
    changes nothing for the index. *)
Lemma create_indexed now key parent kind opts s mounts s' :
  indexed s -> kind <> KindCommitted -> snapshots s !! key = None ->
  create now key parent kind opts s = ((mounts, None), s') -> indexed s'.
Proof.
  intros (HN & HT & HI) Hkind Hfresh. unfold create.
  destruct (apply_opts opts Info0) as [base|err]; [|discriminate].
  destruct (_ && _); [discriminate|].
  assert (forall p,
            s' = {| snapshots :=
                      <[key := {| InfoKind := kind; InfoName := key;
                                  InfoParent := p;
                                  InfoLabels := InfoLabels base;
                                  InfoCreated := now; InfoUpdated := now |}]>
                        (snapshots s);
                    targets := targets s |} -> indexed s') as Hstored.
  { intros p ->. split; [|split]; cbn [snapshots targets].
    - intros k i. destruct (decide (k = key)) as [->|Hne].
      + rewrite lookup_insert_eq. intros [= <-]. reflexivity.
      + rewrite lookup_insert_ne by congruence. apply HN.
    - exact HT.
    - intros t n. rewrite HI. destruct (decide (n = key)) as [->|Hne].
      + rewrite lookup_insert_eq, Hfresh. split.
        * intros (_ & i & [=] & _).
        * intros (_ & i & [= <-] & Hk & _). cbn in Hk. contradiction.
      + rewrite lookup_insert_ne by congruence. reflexivity. }
  destruct (decide (parent = EmptyString)).
  - intros [= _ <-]. eapply Hstored. reflexivity.
  - destruct (snapshots s !! parent); [|discriminate].
    intros [= _ <-]. eapply Hstored. reflexivity.
Qed.

(** What a successful [Commit] did. *)
Lemma Commit_Ok now name key opts s s' :
  Commit now name key opts s = (None, s') ->
  exists base src,
    apply_opts opts Info0 = inl base /\
    snapshots s !! name = None /\
    snapshots s !! key = Some src /\
    InfoKind src <> KindCommitted /\
    let committed :=
      {| InfoKind := KindCommitted; InfoName := name;
         InfoParent := InfoParent src; InfoLabels := InfoLabels base;
         InfoCreated := now; InfoUpdated := now |} in
    s' = {| snapshots := delete key (<[name := committed]> (snapshots s));
            targets :=
              if decide (ref base = EmptyString) then targets s
              else <[ref base := default [] (targets s !! ref base) ++ [name]]>
                     (targets s) |}.
Proof.
  unfold Commit. destruct (apply_opts opts Info0) as [base|err]; [|discriminate].
  destruct (snapshots s !! name) eqn:Hname; [discriminate|].
  destruct (snapshots s !! key) as [src|] eqn:Hkey; [|discriminate].
  destruct (decide (InfoKind src = KindCommitted)); [discriminate|].
  intros [= <-]. exists base, src. repeat (split; [auto; fail|]). reflexivity.
Qed.

Lemma Commit_indexed now name key opts s s' :
  indexed s -> Commit now name key opts s = (None, s') -> indexed s'.
Proof.
  intros (HN & HT & HI) HC.
  destruct (Commit_Ok _ _ _ _ _ _ HC)
    as (base & src & _ & Hname & Hkey & Hkind & ->). clear HC.
  assert (Hne : key <> name) by congruence.
  assert (Hnot : forall t, name ∉ default [] (targets s !! t)).
  { intros t Hin. apply HI in Hin as (_ & i & Hi & _). congruence. }
  assert (Hkeynot : forall t, key ∉ default [] (targets s !! t)).
  { intros t Hin. apply HI in Hin as (_ & i & Hi & Hc & _). congruence. }
  split; [|split]; cbn [snapshots targets].
  - intros k i. destruct (decide (k = key)) as [->|Hk].
    + rewrite lookup_delete_eq. discriminate.
    + rewrite lookup_delete_ne by congruence.
      destruct (decide (k = name)) as [->|Hk'].
      * rewrite lookup_insert_eq. intros [= <-]. reflexivity.
      * rewrite lookup_insert_ne by congruence. apply HN.
  - intros t names. destruct (decide (ref base = EmptyString)); [apply HT|].
    destruct (decide (t = ref base)) as [->|Ht].
    + rewrite lookup_insert_eq. intros [= <-]. split.
      * intros E. apply app_eq_nil in E as [_ E]. discriminate.
      * apply NoDup_app. split; [|split].
        -- destruct (targets s !! ref base) as [old|] eqn:Hold;
             [apply (HT _ _ Hold)|constructor].
        -- intros x Hx Hx'. apply list_elem_of_singleton in Hx'. subst x.
           exact (Hnot _ Hx).
        -- apply NoDup_singleton.
    + rewrite lookup_insert_ne by congruence. apply HT.
  - intros t n.
    set (committed := {| InfoKind := KindCommitted; InfoName := name |}).
    assert (Hlist : n ∈ default [] ((if decide (ref base = EmptyString)
                       then targets s
                       else <[ref base := default [] (targets s !! ref base)
                                           ++ [name]]> (targets s)) !! t)
                    <-> n ∈ default [] (targets s !! t) \/
                        (n = name /\ t = ref base /\ t <> EmptyString)).
    { destruct (decide (ref base = EmptyString)) as [He|He].
      - split; [auto|]. intros [H|(_ & -> & H)]; [exact H|contradiction].
      - destruct (decide (t = ref base)) as [->|Ht].
        + rewrite lookup_insert_eq. cbn [from_option id].
          rewrite elem_of_app, list_elem_of_singleton. split.
          * intros [H | ->]; auto.
          * intros [H|(-> & _)]; auto.
        + rewrite lookup_insert_ne by congruence. split; [auto|].
          intros [H|(_ & -> & _)]; [exact H|contradiction]. }
    rewrite Hlist. clear Hlist.
    destruct (decide (n = key)) as [->|Hnk].
    + rewrite lookup_delete_eq. split.
      * intros [H|(-> & _)]; [destruct (Hkeynot _ H)|contradiction].
      * intros (_ & i & [=] & _).
    + rewrite lookup_delete_ne by congruence.
      destruct (decide (n = name)) as [->|Hnn].
      * rewrite lookup_insert_eq. split.
        -- intros [H|(_ & -> & Ht)]; [destruct (Hnot _ H)|].
           split; [exact Ht|]. exists committed. auto.
        -- intros (Ht & i & [= <-] & _ & Hr). right.
           unfold ref in Hr |- *. cbn in Hr. rewrite Hr. auto.
      * rewrite lookup_insert_ne by congruence. rewrite HI. split.
        -- intros [H|(-> & _)]; [exact H|contradiction].
        -- auto.
Qed.

Lemma Remove_indexed key s s' :
  indexed s -> Remove key s = (None, s') -> indexed s'.
Proof.
  intros (HN & HT & HI). unfold Remove.
  destruct (snapshots s !! key) as [sn|] eqn:Hkey; [|discriminate].
  intros [= <-]. rewrite (HN _ _ Hkey).
  split; [|split]; cbn [snapshots targets].
  - intros k i. destruct (decide (k = key)) as [->|Hk].
    + rewrite lookup_delete_eq. discriminate.
    + rewrite lookup_delete_ne by congruence. apply HN.
  - intros t names. rewrite lookup_omap.
    destruct (targets s !! t) as [old|] eqn:Hold; [|discriminate].
    destruct (HT _ _ Hold) as [Hne Hnd]. cbn [mbind option_bind].
    destruct (bool_decide (key ∈ old)) eqn:Hin.
    + apply bool_decide_eq_true in Hin.
      destruct (decide (length old = 1%nat)); [discriminate|].
      intros [= <-]. split; [apply cut_nonempty; assumption|].
      apply cut_NoDup. exact Hnd.
    + intros [= <-]. auto.
  - intros t n. rewrite lookup_omap.
    assert (Hlist : n ∈ default [] (targets s !! t ≫=
                      (fun names =>
                         if bool_decide (key ∈ names)
                         then if decide (length names = 1%nat) then None
                              else Some (cut key names)
                         else Some names))
                    <-> n ∈ default [] (targets s !! t) /\ n <> key).
    { destruct (targets s !! t) as [old|] eqn:Hold; cbn [mbind option_bind].
      - destruct (HT _ _ Hold) as [Hne Hnd]. cbn [from_option id].
        destruct (bool_decide (key ∈ old)) eqn:Hin.
        + apply bool_decide_eq_true in Hin.
          destruct (decide (length old = 1%nat)) as [Hl|Hl].
          * destruct old as [|m [|? ?]]; try discriminate.
            apply list_elem_of_singleton in Hin. subst m.
            cbn [from_option id]. rewrite list_elem_of_singleton. split.
            -- intros H. inversion H.
            -- intros [-> H]. contradiction.
          * cbn [from_option id]. apply cut_elem. exact Hnd.
        + apply bool_decide_eq_false in Hin. cbn [from_option id]. split.
          * intros H. split; [exact H|]. intros ->. contradiction.
          * intros [H _]. exact H.
      - cbn [from_option id]. split; [intros H; inversion H|].
        intros [H _]. inversion H. }
    rewrite Hlist, HI. clear Hlist.
    destruct (decide (n = key)) as [->|Hk].
    + rewrite lookup_delete_eq. split.
      * intros [_ H]. contradiction.
      * intros (_ & i & [=] & _).
    + rewrite lookup_delete_ne by congruence. split; [intros [H _]; exact H|auto].
Qed.

Lemma reachable_indexed s : reachable s -> indexed s.
Proof.
  induction 1 as [|now key parent opts s mounts s' _ IH Hfresh Hc
                  |now key parent opts s mounts s' _ IH Hfresh Hc
                  |now name key opts s s' _ IH Hc
                  |key s s' _ IH Hr].
  - apply indexed_new.
  - eapply create_indexed; [exact IH| |exact Hfresh|exact Hc]. discriminate.
  - eapply create_indexed; [exact IH| |exact Hfresh|exact Hc]. discriminate.
  - eapply Commit_indexed; eassumption.
  - eapply Remove_indexed; eassumption.
Qed.

(** With the index in order, [create] finds its target exactly when a
    committed snapshot carries the ref label and the parent asked for. *)
Lemma create_found now key parent kind opts base s :
  indexed s -> apply_opts opts Info0 = inl base ->
  create now key parent kind opts s
  = (([], Some (Errorf "found target" ErrAlreadyExists)), s) <->
  ref base <> EmptyString /\
  exists name i, snapshots s !! name = Some i /\
                 InfoKind i = KindCommitted /\
                 ref i = ref base /\ InfoParent i = parent.
Proof.
  intros (HN & HT & HI) Hopts. unfold create. rewrite Hopts.
  assert (Hb : bool_decide (ref base <> EmptyString)
               && existsb (fun name =>
                             bool_decide (InfoParent (snapshot s name) = parent))
                    (default [] (targets s !! ref base)) = true <->
               ref base <> EmptyString /\
               exists name i, snapshots s !! name = Some i /\
                              InfoKind i = KindCommitted /\
                              ref i = ref base /\ InfoParent i = parent).
  { rewrite andb_true_iff, bool_decide_eq_true, blocked_exists. split.
    - intros [Ht (name & Hin & Hp)]. split; [exact Ht|].
      apply HI in Hin as (_ & i & Hi & Hk & Hr). exists name, i.
      unfold snapshot in Hp. rewrite Hi in Hp. auto.
    - intros [Ht (name & i & Hi & Hk & Hr & Hp)]. split; [exact Ht|].
      exists name. split.
      + apply HI. split; [exact Ht|]. exists i. auto.
      + unfold snapshot. rewrite Hi. exact Hp. }
  destruct (_ && _).
  - split; [intros _; apply Hb; reflexivity|reflexivity].
  - split.
    + destruct (decide (parent = EmptyString)); [discriminate|].
      destruct (snapshots s !! parent); discriminate.
    + intros H. apply Hb in H. discriminate.
Qed.

Lemma cut_last name names : name ∉ names -> cut name (names ++ [name]) = names.
Proof.
  induction names as [|m names IH]; intros Hnot; cbn [cut app].
  - destruct (decide (name = name)); [reflexivity|contradiction].
  - apply not_elem_of_cons in Hnot as [Hne Hnot].
    destruct (decide (m = name)); [congruence|]. rewrite (IH Hnot). reflexivity.
Qed.

(** X21.  In a state reached with fresh keys, [create] (so [Prepare] and
    [View]) with options that succeed returns the wrapped AlreadyExists
    of a found target, leaving the state alone, exactly when the ref label
    of the options is not empty and some committed snapshot carries the
    same ref label and the parent asked for.  Otherwise a parent that is
    named but missing is NotFound, and in every other case the snapshot is
    stored under the key with the kind, the parent, the labels of the
    options and the call time, whether or not the key was in use. *)
Theorem create_found_target now key parent kind opts base s :
  reachable s -> apply_opts opts Info0 = inl base ->
  let found :=
    ref base <> EmptyString /\
    exists name i, snapshots s !! name = Some i /\
                   InfoKind i = KindCommitted /\
                   ref i = ref base /\ InfoParent i = parent in
  (create now key parent kind opts s
   = (([], Some (Errorf "found target" ErrAlreadyExists)), s) <-> found) /\
  (~ found -> parent <> EmptyString -> snapshots s !! parent = None ->
   create now key parent kind opts s = (([], Some (Errdef ErrNotFound)), s)) /\
  (~ found -> parent = EmptyString \/ is_Some (snapshots s !! parent) ->
   exists s',
     create now key parent kind opts s = (([], None), s') /\
     Stat key s'
     = ({| InfoKind := kind; InfoName := key;
           InfoParent := if decide (parent = EmptyString)
                         then InfoParent base else parent;
           InfoLabels := InfoLabels base;
           InfoCreated := now; InfoUpdated := now |}, None) /\
     (forall k, k <> key -> Stat k s' = Stat k s) /\
     targets s' = targets s).
Proof.
  intros Hreach Hopts found. apply reachable_indexed in Hreach.
  pose proof (create_found now key parent kind opts base s Hreach Hopts) as Hf.
  split; [exact Hf|].
  assert (Hnot : ~ found ->
            bool_decide (ref base <> EmptyString)
            && existsb (fun name =>
                          bool_decide (InfoParent (snapshot s name) = parent))
                 (default [] (targets s !! ref base)) = false).
  { intros Hn. destruct (_ && _) eqn:Hb; [|reflexivity]. exfalso. apply Hn.
    apply Hf. unfold create. rewrite Hopts, Hb. reflexivity. }
  split.
  - intros Hn Hp Hmiss. unfold create. rewrite Hopts, (Hnot Hn).
    destruct (decide (parent = EmptyString)); [contradiction|].
    rewrite Hmiss. reflexivity.
  - intros Hn Hp. unfold create. rewrite Hopts, (Hnot Hn).
    destruct (decide (parent = EmptyString)) as [He|He].
    + eexists. split; [reflexivity|]. unfold Stat. cbn [snapshots targets].
      rewrite lookup_insert_eq. split; [reflexivity|]. split; [|reflexivity].
      intros k Hk. rewrite lookup_insert_ne by congruence. reflexivity.
    + destruct Hp as [Hp|[p Hp]]; [contradiction|]. rewrite Hp.
      eexists. split; [reflexivity|]. unfold Stat. cbn [snapshots targets].
      rewrite lookup_insert_eq. split; [reflexivity|]. split; [|reflexivity].
      intros k Hk. rewrite lookup_insert_ne by congruence. reflexivity.
Qed.

(** X22.  [Commit] with options that succeed checks in this order: a name
    in use is the wrapped AlreadyExists of a found name, whatever the key
    is; a missing key is NotFound; a committed source is InvalidArgument
    (a view is accepted); each leaves the state alone.  Otherwise the
    source moves: the name holds a committed snapshot with the parent of
    the source, the labels of the options and the call time, the key is
    gone, every other snapshot is as before, and when the ref label of
    the options is not empty, every later [create] with that ref label
    and the parent of the source finds the target. *)
Theorem Commit_moves now name key opts base s :
  apply_opts opts Info0 = inl base ->
  (is_Some (snapshots s !! name) ->
   Commit now name key opts s
   = (Some (Errorf "found name" ErrAlreadyExists), s)) /\
  (snapshots s !! name = None -> snapshots s !! key = None ->
   Commit now name key opts s = (Some (Errdef ErrNotFound), s)) /\
  (forall src, snapshots s !! name = None -> snapshots s !! key = Some src ->
     InfoKind src = KindCommitted ->
     Commit now name key opts s = (Some (Errdef ErrInvalidArgument), s)) /\
  (forall src, snapshots s !! name = None -> snapshots s !! key = Some src ->
     InfoKind src <> KindCommitted ->
     exists s',
       Commit now name key opts s = (None, s') /\
       Stat name s'
       = ({| InfoKind := KindCommitted; InfoName := name;
             InfoParent := InfoParent src; InfoLabels := InfoLabels base;
             InfoCreated := now; InfoUpdated := now |}, None) /\
       Stat key s' = (Info0, Some (Errdef ErrNotFound)) /\
       (forall k, k <> name -> k <> key -> Stat k s' = Stat k s) /\
       (ref base <> EmptyString ->
        forall now' key' kind opts' base',
          apply_opts opts' Info0 = inl base' -> ref base' = ref base ->
          create now' key' (InfoParent src) kind opts' s'
          = (([], Some (Errorf "found target" ErrAlreadyExists)), s'))).
Proof.
  intros Hopts. unfold Commit. rewrite Hopts.
  split; [intros [i ->]; reflexivity|].
  split; [intros -> ->; reflexivity|].
  split.
  { intros src -> -> Hk. destruct (decide _); [reflexivity|contradiction]. }
  intros src Hname Hkey Hk. rewrite Hname, Hkey.
  destruct (decide (InfoKind src = KindCommitted)); [contradiction|].
  assert (Hne : key <> name) by congruence.
  eexists. split; [reflexivity|]. unfold Stat. cbn [snapshots targets].
  rewrite lookup_delete_ne, lookup_insert_eq by congruence.
  split; [reflexivity|]. rewrite lookup_delete_eq. split; [reflexivity|].
  split.
  { intros k Hk1 Hk2.
    rewrite lookup_delete_ne, lookup_insert_ne by congruence. reflexivity. }
  intros Ht now' key' kind opts' base' Hopts' Hr.
  match goal with |- create _ _ _ _ _ ?x = _ => set (s' := x) end.
  assert (Hb : bool_decide (ref base <> EmptyString)
               && existsb (fun n =>
                             bool_decide (InfoParent (snapshot s' n)
                                          = InfoParent src))
                    (default [] (targets s' !! ref base)) = true).
  { rewrite bool_decide_true by exact Ht. cbn [andb].
    subst s'. cbn [targets].
    change (ref {| InfoKind := KindCommitted; InfoName := name;
                   InfoParent := InfoParent src;
                   InfoLabels := InfoLabels base;
                   InfoCreated := now; InfoUpdated := now |})
      with (ref base).
    destruct (decide (ref base = EmptyString)); [contradiction|].
    rewrite lookup_insert_eq. cbn [from_option id].
    rewrite existsb_app. cbn [existsb].
    unfold snapshot. cbn [snapshots].
    rewrite lookup_delete_ne, lookup_insert_eq by congruence.
    cbn [from_option id InfoParent].
    rewrite bool_decide_true by reflexivity.
    rewrite orb_true_r. reflexivity. }
  unfold create. rewrite Hopts', Hr, Hb. reflexivity.
Qed.

(** X23.  [Remove] has no guard for children: in a state reached with
    fresh keys it succeeds for every key in use, deletes the snapshot and
    leaves the name in no list of targets, every other snapshot being as
    before.  Committing a snapshot and removing the committed name leaves
    the very state that removing the source would have left. *)
Theorem Remove_forgets key s :
  reachable s ->
  (snapshots s !! key = None ->
   Remove key s = (Some (Errdef ErrNotFound), s)) /\
  (is_Some (snapshots s !! key) ->
   exists s',
     Remove key s = (None, s') /\
     snapshots s' = delete key (snapshots s) /\
     (forall t, key ∉ default [] (targets s' !! t)) /\
     reachable s') /\
  (forall now name opts s1,
     Commit now name key opts s = (None, s1) ->
     Remove name s1 = Remove key s).
Proof.
  intros Hreach. pose proof (reachable_indexed s Hreach) as Hidx.
  split; [intros Hk; unfold Remove; rewrite Hk; reflexivity|]. split.
  - intros [sn Hsn].
    destruct (Remove key s) as [e s'] eqn:HR.
    assert (e = None) as ->.
    { unfold Remove in HR. rewrite Hsn in HR. congruence. }
    exists s'. split; [reflexivity|].
    pose proof (Remove_indexed _ _ _ Hidx HR) as (_ & _ & HI').
    assert (Hs : snapshots s' = delete key (snapshots s)).
    { unfold Remove in HR. rewrite Hsn in HR. injection HR as <-. reflexivity. }
    split; [exact Hs|]. split.
    + intros t Hin. apply HI' in Hin as (_ & i & Hi & _).
      rewrite Hs, lookup_delete_eq in Hi. discriminate.
    + eapply reach_Remove; eassumption.
  - intros now name opts s1 HC. destruct Hidx as (HN & HT & HI).
    destruct (Commit_Ok _ _ _ _ _ _ HC)
      as (base & src & _ & Hname & Hkey & Hkind & ->). clear HC.
    assert (Hne : key <> name) by congruence.
    assert (Hnot : forall t, name ∉ default [] (targets s !! t)).
    { intros t Hin. apply HI in Hin as (_ & i & Hi & _). congruence. }
    assert (Hkeynot : forall t, key ∉ default [] (targets s !! t)).
    { intros t Hin. apply HI in Hin as (_ & i & Hi & Hc & _). congruence. }
    unfold Remove. cbn [snapshots targets].
    rewrite lookup_delete_ne, lookup_insert_eq, Hkey by congruence.
    cbn [InfoName]. rewrite (HN _ _ Hkey). f_equal. f_equal.
    + apply map_eq. intros k. destruct (decide (k = name)) as [->|Hk].
      * rewrite lookup_delete_eq, lookup_delete_ne by congruence. symmetry. exact Hname.
      * rewrite lookup_delete_ne by congruence.
        destruct (decide (k = key)) as [->|Hk'].
        -- rewrite !lookup_delete_eq. reflexivity.
        -- rewrite !lookup_delete_ne, lookup_insert_ne by congruence.
           reflexivity.
    + apply map_eq. intros t. rewrite !lookup_omap.
      assert (Hs : targets s !! t ≫=
                (fun names =>
                   if bool_decide (key ∈ names)
                   then if decide (length names = 1%nat) then None
                        else Some (cut key names)
                   else Some names) = targets s !! t).
      { specialize (Hkeynot t). destruct (targets s !! t) as [old|];
          [|reflexivity]. cbn [mbind option_bind].
        rewrite bool_decide_false by exact Hkeynot. reflexivity. }
      rewrite Hs. clear Hs.
      destruct (decide (ref base = EmptyString)) as [He|He].
      * specialize (Hnot t). destruct (targets s !! t) as [old|];
          [|reflexivity]. cbn [mbind option_bind].
        rewrite bool_decide_false by exact Hnot. reflexivity.
      * destruct (decide (t = ref base)) as [->|Ht].
        -- rewrite lookup_insert_eq. cbn [mbind option_bind].
           rewrite bool_decide_true
             by (apply elem_of_app; right; apply list_elem_of_singleton;
                 reflexivity).
           specialize (Hnot (ref base)).
           destruct (targets s !! ref base) as [old|] eqn:Hold;
             cbn [from_option id] in *.
           ++ destruct (HT _ _ Hold) as [Hnil _].
              destruct (decide (length (old ++ [name]) = 1%nat)) as [Hl|Hl].
              ** rewrite length_app in Hl. cbn in Hl.
                 destruct old; [contradiction|cbn in Hl; lia].
              ** rewrite (cut_last _ _ Hnot). reflexivity.
           ++ cbn [app length]. destruct (decide (1%nat = 1%nat));
                [reflexivity|contradiction].
        -- rewrite lookup_insert_ne by congruence.
           specialize (Hnot t). destruct (targets s !! t) as [old|];
             [|reflexivity]. cbn [mbind option_bind].
           rewrite bool_decide_false by exact Hnot. reflexivity.
Qed.

End Tmp.

(** The first steps of [TestSnapshotterWithRef] as the snapshotter sees
    them: a snapshot prepared and committed with a ref label, through an
    option that sets the labels. *)
Definition refLabel : string := "containerd.io/snapshot.ref".

Definition labelled (labels : gmap string string) : Opt Empty_set :=
  fun info =>
    inl {| Storage.InfoKind := Storage.InfoKind info;
           Storage.InfoName := Storage.InfoName info;
           Storage.InfoParent := Storage.InfoParent info;
           Storage.InfoLabels := labels;
           Storage.InfoCreated := Storage.InfoCreated info;
           Storage.InfoUpdated := Storage.InfoUpdated info |}.

Definition test1opt : Opt Empty_set := labelled {[ refLabel := "test1" ]}.

Definition prepared : tmpSnapshotter :=
  (Prepare refLabel Empty_set unit 1%Z "test1-tmp" EmptyString [test1opt]
     NewTmpSnapshotter).2.

Definition committed : tmpSnapshotter :=
  (Commit refLabel Empty_set 2%Z "test1" "test1-tmp" [test1opt] prepared).2.

Lemma reachable_prepared : reachable refLabel Empty_set unit prepared.
Proof.
  apply (reach_Prepare refLabel Empty_set unit 1%Z "test1-tmp" EmptyString
           [test1opt] NewTmpSnapshotter [] prepared).
  - apply reach_new.
  - reflexivity.
  - vm_compute. reflexivity.
Defined.

Lemma reachable_committed : reachable refLabel Empty_set unit committed.
Proof.
  apply (reach_Commit refLabel Empty_set unit 2%Z "test1" "test1-tmp"
           [test1opt] prepared committed).
  - exact reachable_prepared.
  - vm_compute. reflexivity.
Defined.

Lemma create_found_target_witness :
  create refLabel Empty_set unit 3%Z "test1-tmp" EmptyString Storage.KindActive
    [test1opt] committed
  = (([], Some (Errorf Empty_set "found target" Storage.ErrAlreadyExists)),
     committed).
Proof.
  pose proof (create_found_target refLabel Empty_set unit 3%Z "test1-tmp"
                EmptyString Storage.KindActive [test1opt] _ committed
                reachable_committed eq_refl) as [H _].
  apply H. split; [vm_compute; discriminate|].
  eexists "test1", _. split; [vm_compute; reflexivity|].
  repeat split; vm_compute; reflexivity.
Defined.

Lemma Commit_moves_witness :
  Stat Empty_set "test1" committed
  = ({| Storage.InfoKind := Storage.KindCommitted;
        Storage.InfoName := "test1";
        Storage.InfoParent := EmptyString;
        Storage.InfoLabels := {[ refLabel := "test1" ]};
        Storage.InfoCreated := 2%Z; Storage.InfoUpdated := 2%Z |}, None) /\
  Stat Empty_set "test1-tmp" committed
  = (Storage.Info0, Some (Errdef Empty_set Storage.ErrNotFound)).
Proof.
  pose proof (Commit_moves refLabel Empty_set unit 2%Z "test1" "test1-tmp"
                [test1opt] _ prepared eq_refl) as (_ & _ & _ & H).
  destruct (H (default Storage.Info0 (snapshots prepared !! "test1-tmp")))
    as (s' & HC & H1 & H2 & _).
  - vm_compute. reflexivity.
  - vm_compute. reflexivity.
  - vm_compute. discriminate.
  - assert (s' = committed) as ->.
    { unfold committed. rewrite HC. reflexivity. }
    split; [exact H1|exact H2].
Defined.

Lemma Remove_forgets_witness :
  Remove Empty_set "test1" committed = Remove Empty_set "test1-tmp" prepared.
Proof.
  pose proof (Remove_forgets refLabel Empty_set unit "test1-tmp" prepared
                reachable_prepared) as (_ & _ & H).
  apply (H 2%Z "test1" [test1opt] committed). vm_compute. reflexivity.
Defined.

End TmpSnapshotter.
